(** * DeepCpG data preparation and HDF5 batch reader: a shallow embedding

  The development follows [scripts/dcpg_data.py] (position grid, value
  alignment, coverage filter, DNA windows, statistics, argument checks) and
  [deepcpg/data/hdf.py] (nested writer, batch generator, [read_from]).
  Python integers are [Z], numpy arrays are lists, dictionaries are finite
  maps or association lists where the iteration order matters, and raised
  exceptions are values of [Py.exn] carried by [Py.result]. *)

From stdpp Require Import gmap strings list fin_maps sorting.
From Stdlib Require Import ZArith QArith Lia DecimalString OrderedTypeEx Ascii.

Local Open Scope Z_scope.

(** ** Python conventions shared by all components *)

Module Py.

Inductive exn : Type :=
  | ValueError (msg : string)
  | TypeError (msg : string)
  | KeyError (key : string)
  | IndexError
  | AssertionError
  | ZeroDivisionError
  | OSError (msg : string).

Inductive result (A : Type) : Type :=
  | Ok (a : A)
  | Raise (e : exn).
Global Arguments Ok {A} a.
Global Arguments Raise {A} e.

Definition bind {A B} (m : result A) (k : A → result B) : result B :=
  match m with
  | Ok a => k a
  | Raise e => Raise e
  end.

(** [assert c] *)
Definition py_assert (c : bool) : result unit :=
  if c then Ok tt else Raise AssertionError.

(** A slice bound [i] of a sequence of length [n]: negative bounds count
    from the end, and every bound is clipped into [0, n]. *)
Definition slice_bound (n i : Z) : Z :=
  if i <? 0 then Z.max 0 (i + n) else Z.min i n.

(** [l[start:stop]] *)
Definition py_slice {A} (l : list A) (start stop : Z) : list A :=
  let n := Z.of_nat (length l) in
  let a := slice_bound n start in
  let b := slice_bound n stop in
  take (Z.to_nat (b - a)) (drop (Z.to_nat a) l).

(** ['%d' % z] *)
Definition fmt_d (z : Z) : string := NilZero.string_of_int (Z.to_int z).

End Py.

Import Py.

Notation "'do' x <- m ; k" := (Py.bind m (λ x, k))
(at level 10, x pattern, m at level 100, k at level 200, only parsing).

(** ** Position grid: [prepro_pos_table] of [scripts/dcpg_data.py] *)

Module PosGrid.

(** A position table: the rows [(chromo, pos)] of the data frame, in row
    order. *)
Definition table : Type := list (string * Z).

(** The order of the chromosome labels (Python compares strings by code
    point), of the positions, and of the rows under
    [sort_values(['chromo', 'pos'])]. *)
Definition chromo_le (a b : string) : Prop := String.leb a b = true.
Definition row_leb (a b : string * Z) : bool :=
  match String.compare a.1 b.1 with
  | Lt => true
  | Eq => a.2 <=? b.2
  | Gt => false
  end.
Definition row_le (a b : string * Z) : Prop := row_leb a b = true.
Definition row_lt (a b : string * Z) : Prop := row_le a b ∧ a ≠ b.

Global Instance chromo_le_dec a b : Decision (chromo_le a b).
Proof. unfold chromo_le. apply _. Defined.
Global Instance row_le_dec a b : Decision (row_le a b).
Proof. unfold row_le. apply _. Defined.

(** [np.unique]: the distinct values in ascending order. *)
Definition np_unique (l : list Z) : list Z := merge_sort Z.le (remove_dups l).

(** The group keys of [groupby('chromo')], which sorts them. *)
Definition group_keys (t : table) : list string :=
  merge_sort chromo_le (remove_dups t.*1).

(** The rows that the groups give: one block of rows per group key, in key
    order, with the distinct positions of the group in ascending order. *)
Definition unique_blocks (t : table) : table :=
  c ← group_keys t;
  (λ p, (c, p)) <$> np_unique (filter (λ r, r.1 = c) t).*2.

(** [t.groupby('chromo').apply(lambda df: DataFrame({'pos':
    np.unique(df['pos'])}))] followed by [reset_index] and the selection of
    the columns [chromo] and [pos].  A frame without rows has no group:
    [apply] hands back a frame without rows that still has the column
    [chromo] beside the index of that name, and [reset_index] refuses to
    insert the column a second time. *)
Definition groupby_unique (t : table) : result table :=
  match t with
  | [] => Raise (ValueError "cannot insert chromo, already exists")
  | _ :: _ => Ok (unique_blocks t)
  end.

(** [sort_values(['chromo', 'pos'])]. *)
Definition sort_values (t : table) : table := merge_sort row_le t.

(** One iteration of the loop over [pos_tables]. *)
Definition add_table (pos_table : option table) (next_pos_table : table)
    : result (option table) :=
  let t := match pos_table with
           | None => next_pos_table
           | Some t => t ++ next_pos_table     (* pd.concat *)
           end in
  do g <- groupby_unique t;
  Ok (Some (sort_values g)).

(** The loop of lines 27-36, [pos_table] being the table built so far. *)
Fixpoint pos_loop (pos_table : option table) (pos_tables : list table)
    : result (option table) :=
  match pos_tables with
  | [] => Ok pos_table
  | next_pos_table :: rest =>
      do pos_table <- add_table pos_table next_pos_table;
      pos_loop pos_table rest
  end.

(** The argument is one table or a list of tables. *)
Inductive tables_arg : Type :=
  | OneTable (t : table)
  | TableList (ts : list table).

(** [if not isinstance(pos_tables, list): pos_tables = [pos_tables]] *)
Definition as_list (pos_tables : tables_arg) : list table :=
  match pos_tables with
  | OneTable t => [t]
  | TableList ts => ts
  end.

(** [prepro_pos_table(pos_tables)]; the result [None] is Python's [None],
    with which [pos_table] starts. *)
Definition prepro_pos_table (pos_tables : tables_arg) : result (option table) :=
  pos_loop None (as_list pos_tables).

(** The positions of chromosome [c], in table order. *)
Definition chromo_positions (c : string) (t : table) : list Z :=
  (filter (λ r, r.1 = c) t).*2.


(** *** Total orders and their sorted duplicate-free lists *)

Lemma StronglySorted_weaken {A} (R1 R2 : relation A) (l : list A) :
  (∀ x y, R1 x y → R2 x y) → StronglySorted R1 l → StronglySorted R2 l.
Proof.
  intros HR. induction 1 as [|x l Hl IH Hx]; constructor; [done|].
  eapply Forall_impl; [exact Hx|]. auto.
Qed.

Section strict_sorting.
Context {A : Type} `{EqDecision A} (le : relation A) `{∀ x y, Decision (le x y)}.
Context `{!Total le, !Transitive le, !AntiSymm (=) le}.

Let lt (x y : A) : Prop := le x y ∧ x ≠ y.

Lemma sorted_nodup_strict l :
  StronglySorted le l → NoDup l → StronglySorted lt l.
Proof.
  induction 1 as [|x l Hl IH Hx]; intros Hnd; [constructor|].
  apply NoDup_cons in Hnd as [Hx' Hnd]. constructor; [by apply IH|].
  rewrite Forall_forall in Hx |- *. intros y Hy. split; [by apply Hx|].
  by intros ->.
Qed.

Lemma strict_sorted_le l : StronglySorted lt l → StronglySorted le l.
Proof.
  induction 1 as [|x l Hl IH Hx]; constructor; [done|].
  eapply Forall_impl; [exact Hx|]. by intros y [? _].
Qed.



Lemma sort_dedup_sorted l : StronglySorted lt (merge_sort le (remove_dups l)).
Proof.
  apply sorted_nodup_strict.
  - by apply StronglySorted_merge_sort.
  - rewrite merge_sort_Permutation. apply NoDup_remove_dups.
Qed.

Lemma sort_dedup_elem l x : x ∈ merge_sort le (remove_dups l) ↔ x ∈ l.
Proof. by rewrite merge_sort_Permutation, elem_of_remove_dups. Qed.

Lemma merge_sort_strict_sorted l : StronglySorted lt l → merge_sort le l = l.
Proof.
  intros Hl. apply (StronglySorted_unique le).
  - by apply StronglySorted_merge_sort.
  - by apply strict_sorted_le.
  - apply merge_sort_Permutation.
Qed.

End strict_sorting.

(** *** The orders of labels and rows are total orders *)

Lemma str_compare_lt_trans (a b c : string) :
  String.compare a b = Lt → String.compare b c = Lt → String.compare a c = Lt.
Proof.
  intros H1 H2. apply String_as_OT.cmp_lt.
  apply String_as_OT.cmp_lt in H1, H2. by eapply String_as_OT.lt_trans.
Qed.

Lemma str_compare_eq (a b : string) : String.compare a b = Eq ↔ a = b.
Proof. apply String_as_OT.cmp_eq. Qed.

Lemma str_compare_refl (a : string) : String.compare a a = Eq.
Proof. by apply str_compare_eq. Qed.

Global Instance chromo_le_total : Total chromo_le.
Proof. intros a b. apply String.leb_total. Qed.

Global Instance chromo_le_antisymm : AntiSymm (=) chromo_le.
Proof. intros a b ??. by apply String.leb_antisym. Qed.

Global Instance chromo_le_trans : Transitive chromo_le.
Proof.
  unfold chromo_le, String.leb. intros a b c Hab Hbc.
  destruct (String.compare a b) eqn:E1; [| |done].
  { apply str_compare_eq in E1 as ->. done. }
  destruct (String.compare b c) eqn:E2; [| |done].
  { apply str_compare_eq in E2 as ->. by rewrite E1. }
  by rewrite (str_compare_lt_trans a b c).
Qed.

Global Instance row_le_total : Total row_le.
Proof.
  intros [c1 p1] [c2 p2]. unfold row_le, row_leb. simpl.
  rewrite (String.compare_antisym c1 c2).
  destruct (String.compare c2 c1); simpl; auto.
  destruct (Z.leb_spec p1 p2), (Z.leb_spec p2 p1); auto; lia.
Qed.

Global Instance row_le_antisymm : AntiSymm (=) row_le.
Proof.
  intros [c1 p1] [c2 p2]. unfold row_le, row_leb. simpl.
  rewrite (String.compare_antisym c1 c2).
  destruct (String.compare c2 c1) eqn:E; simpl; try done.
  apply str_compare_eq in E as ->. intros ?%Z.leb_le ?%Z.leb_le.
  f_equal. lia.
Qed.

Global Instance row_le_trans : Transitive row_le.
Proof.
  intros [c1 p1] [c2 p2] [c3 p3]. unfold row_le, row_leb. simpl.
  destruct (String.compare c1 c2) eqn:E1; [| |done].
  - apply str_compare_eq in E1 as ->.
    destruct (String.compare c2 c3); try done.
    intros ?%Z.leb_le ?%Z.leb_le. apply Z.leb_le. lia.
  - intros _. destruct (String.compare c2 c3) eqn:E2; [| |done].
    + apply str_compare_eq in E2 as ->. by rewrite E1.
    + by rewrite (str_compare_lt_trans c1 c2 c3).
Qed.

Lemma row_lt_same_chromo c p q : p < q → row_lt (c, p) (c, q).
Proof.
  intros Hpq. split.
  - unfold row_le, row_leb. simpl. rewrite str_compare_refl.
    apply Z.leb_le. lia.
  - intros [= ?]. lia.
Qed.

Lemma row_lt_chromo c d p q : chromo_le c d → c ≠ d → row_lt (c, p) (d, q).
Proof.
  intros Hcd Hne. split; [|congruence].
  unfold row_le, row_leb, chromo_le, String.leb in *. simpl.
  destruct (String.compare c d) eqn:E; try done.
  by apply str_compare_eq in E.
Qed.

(** *** The grid of one table *)

Lemma np_unique_sorted l : StronglySorted Z.lt (np_unique l).
Proof.
  unfold np_unique.
  eapply StronglySorted_weaken; [|apply (sort_dedup_sorted Z.le)].
  intros x y [??]. lia.
Qed.

Lemma np_unique_elem l x : x ∈ np_unique l ↔ x ∈ l.
Proof. apply (sort_dedup_elem Z.le). Qed.

Lemma unique_blocks_elem t r : r ∈ unique_blocks t ↔ r ∈ t.
Proof.
  unfold unique_blocks, group_keys. rewrite list_elem_of_bind. split.
  - intros (c & Hr & Hc). apply list_elem_of_fmap in Hr as (p & -> & Hp).
    rewrite np_unique_elem in Hp. apply list_elem_of_fmap in Hp as ([c' p'] & -> & Hp).
    by apply list_elem_of_filter in Hp as [<- Hp].
  - intros Hr. exists r.1. split.
    + apply list_elem_of_fmap. exists r.2. split; [by destruct r|].
      apply np_unique_elem, list_elem_of_fmap. exists r. split; [done|].
      by apply list_elem_of_filter.
    + apply (sort_dedup_elem chromo_le), list_elem_of_fmap. by exists r.
Qed.

Lemma groupby_blocks_sorted (keys : list string) (f : string → list Z) :
  StronglySorted (λ c d, chromo_le c d ∧ c ≠ d) keys →
  (∀ c, StronglySorted Z.lt (f c)) →
  StronglySorted row_lt (c ← keys; (λ p, (c, p)) <$> f c).
Proof.
  intros Hk Hf. induction Hk as [|c keys Hk IH Hc]; [constructor|].
  rewrite bind_cons. apply StronglySorted_app_2; [| |done].
  - intros r1 r2 Hr1 Hr2.
    apply list_elem_of_fmap in Hr1 as (p & -> & _).
    apply list_elem_of_bind in Hr2 as (d & Hr2 & Hd).
    apply list_elem_of_fmap in Hr2 as (q & -> & _).
    rewrite Forall_forall in Hc. destruct (Hc d Hd). by apply row_lt_chromo.
  - eapply StronglySorted_fmap; [|apply Hf].
    intros p q. apply row_lt_same_chromo.
Qed.

Lemma unique_blocks_sorted t : StronglySorted row_lt (unique_blocks t).
Proof.
  apply groupby_blocks_sorted.
  - apply (sort_dedup_sorted chromo_le).
  - intros c. apply np_unique_sorted.
Qed.

Lemma sort_values_sorted t : StronglySorted row_lt t → sort_values t = t.
Proof. apply (merge_sort_strict_sorted row_le). Qed.


Lemma grid_sorted t : StronglySorted row_lt (sort_values (unique_blocks t)).
Proof.
  rewrite sort_values_sorted by apply unique_blocks_sorted.
  apply unique_blocks_sorted.
Qed.

Lemma grid_elem t r : r ∈ sort_values (unique_blocks t) ↔ r ∈ t.
Proof.
  rewrite sort_values_sorted by apply unique_blocks_sorted.
  apply unique_blocks_elem.
Qed.


Lemma grid_rows t : t ≠ [] → sort_values (unique_blocks t) ≠ [].
Proof.
  destruct t as [|r t]; [done|]. intros _ Hnil.
  assert (r ∈ sort_values (unique_blocks (r :: t))) as Hr by (apply grid_elem; left).
  rewrite Hnil in Hr. by apply elem_of_nil in Hr.
Qed.

(** One iteration on a table with rows. *)
Lemma add_table_rows (pos_table : option table) (next_pos_table : table) :
  let t := match pos_table with
           | None => next_pos_table
           | Some t => t ++ next_pos_table
           end in
  t ≠ [] → add_table pos_table next_pos_table = Ok (Some (sort_values (unique_blocks t))).
Proof.
  intros t Ht. unfold add_table. fold t. by destruct t.
Qed.

Lemma pos_loop_rows (a : table) (ts : list table) :
  a ≠ [] →
  ∃ out, pos_loop (Some a) ts = Ok (Some out)
    ∧ out ≠ []
    ∧ (∀ r, r ∈ out ↔ r ∈ a ∨ ∃ t, t ∈ ts ∧ r ∈ t)
    ∧ (StronglySorted row_lt a → StronglySorted row_lt out).
Proof.
  revert a. induction ts as [|t ts IH]; intros a Ha.
  { simpl. exists a. split; [done|]. split; [done|]. split; [|done].
    intros r. split; [auto|]. intros [?|(t & Ht & _)]; [done|]. by inv Ht. }
  assert (Hat : a ++ t ≠ []) by (by destruct a).
  cbn [pos_loop]. rewrite (add_table_rows (Some a) t Hat). cbn [bind].
  destruct (IH (sort_values (unique_blocks (a ++ t))) (grid_rows _ Hat))
    as (out & Hout & Hne & Hel & Hs).
  exists out. split; [exact Hout|]. split; [exact Hne|]. split.
  - intros r. rewrite Hel, grid_elem, elem_of_app. split.
    + intros [[?|?]|(t' & Ht' & Hr)]; [by left| |].
      * right. exists t. split; [left|done].
      * right. exists t'. split; [by right|done].
    + intros [?|(t' & Ht' & Hr)]; [by left; left|].
      apply elem_of_cons in Ht' as [->|Ht']; [by left; right|].
      right. by exists t'.
  - intros _. apply Hs, grid_sorted.
Qed.

Lemma chromo_positions_sorted c g :
  StronglySorted row_lt g → StronglySorted Z.lt (chromo_positions c g).
Proof.
  unfold chromo_positions.
  induction 1 as [|[c' p] g Hg IH Hr]; [constructor|].
  rewrite (filter_cons (λ r : string * Z, r.1 = c)).
  case_decide as Hc; [|done]. simpl in Hc. subst c'.
  csimpl. constructor; [done|].
  rewrite Forall_forall in Hr. apply Forall_forall. intros q0 Hq.
  apply list_elem_of_fmap in Hq as ([c' q] & -> & Hq).
  apply list_elem_of_filter in Hq as [Hc Hq]. simpl in Hc. subst c'.
  destruct (Hr _ Hq) as [Hle Hne]. unfold row_le, row_leb in Hle. simpl in *.
  rewrite str_compare_refl in Hle. apply Z.leb_le in Hle.
  assert (p ≠ q) by congruence. lia.
Qed.

(** A list of tables whose first table has rows. *)
Lemma prepro_pos_table_nonempty_list (t : table) (ts : list table) :
  t ≠ [] →
  ∃ G, prepro_pos_table (TableList (t :: ts)) = Ok (Some G)
    ∧ G ≠ []
    ∧ StronglySorted row_lt G
    ∧ (∀ r, r ∈ G ↔ ∃ t', t' ∈ t :: ts ∧ r ∈ t').
Proof.
  intros Ht. unfold prepro_pos_table. cbn [as_list pos_loop].
  rewrite (add_table_rows None t Ht). cbn [bind].
  destruct (pos_loop_rows (sort_values (unique_blocks t)) ts (grid_rows t Ht))
    as (G & HG & Hne & Hel & Hs).
  exists G. split; [exact HG|]. split; [exact Hne|].
  split; [apply Hs, grid_sorted|].
  intros r. rewrite Hel, grid_elem. split.
  - intros [?|(t' & Ht' & Hr)]; [exists t; split; [left|done]|].
    exists t'. split; [by right|done].
  - intros (t' & Ht' & Hr). apply elem_of_cons in Ht' as [->|Ht']; [by left|].
    right. by exists t'.
Qed.



Example prepro_pos_table_example :
  prepro_pos_table
    (TableList [[("2", 7); ("1", 30)]; [("1", 10); ("2", 7); ("10", 5)]])
  = Ok (Some [("1", 10); ("1", 30); ("10", 5); ("2", 7)]).
Proof. vm_compute. reflexivity. Qed.


End PosGrid.

(** ** Value alignment: [map_values] of [scripts/dcpg_data.py] *)

Module Align.
Section map_values.
Context {V : Type}.

(** [np.sort] on an integer vector. *)
Definition np_sort : list Z → list Z := merge_sort Z.le.

(** [np.in1d(a, b)]: the mask of the entries of [a] that occur in [b]. *)
Definition in1d (a b : list Z) : list bool :=
  (λ x, bool_decide (x ∈ b)) <$> a.

(** [a[mask]] for a boolean mask of the length of [a]. *)
Fixpoint bool_index {A} (a : list A) (mask : list bool) : list A :=
  match a, mask with
  | x :: a', b :: mask' =>
      if b then x :: bool_index a' mask' else bool_index a' mask'
  | _, _ => []
  end.

(** [mask.nonzero()[0]]: the indices of the true entries, counted from
    [k] for the first entry. *)
Fixpoint nonzero_from (k : nat) (mask : list bool) : list nat :=
  match mask with
  | [] => []
  | b :: mask' =>
      if b then k :: nonzero_from (S k) mask' else nonzero_from (S k) mask'
  end.
Definition nonzero (mask : list bool) : list nat := nonzero_from 0 mask.

(** [a[idx]] for an index vector. *)
Fixpoint fancy_index {A} (a : list A) (idx : list nat) : result (list A) :=
  match idx with
  | [] => Ok []
  | i :: idx' =>
      match a !! i with
      | None => Raise IndexError
      | Some x => do r <- fancy_index a idx'; Ok (x :: r)
      end
  end.

(** [a[idx] = vs] for an index vector and as many values. *)
Fixpoint fancy_assign {A} (a : list A) (idx : list nat) (vs : list A) : list A :=
  match idx, vs with
  | i :: idx', v :: vs' => fancy_assign (<[i:=v]> a) idx' vs'
  | _, _ => a
  end.

(** [map_values(values, pos, target_pos, nan=nan)].  The arrays are one
    dimensional, so [ravel] is the identity; the values stay in the value
    type of the input array. *)
Definition map_values (values : list V) (pos target_pos : list Z) (nan : V)
    : result (list V) :=
  do _ <- py_assert (bool_decide (length values = length pos));
  do _ <- py_assert (bool_decide (pos = np_sort pos));
  do _ <- py_assert (bool_decide (target_pos = np_sort target_pos));
  let idx := in1d pos target_pos in
  let pos := bool_index pos idx in
  let values := bool_index values idx in
  let target_values := replicate (length target_pos) nan in
  let idx := nonzero (in1d target_pos pos) in
  do _ <- py_assert (bool_decide (length idx = length values));
  do tp <- fancy_index target_pos idx;
  do _ <- py_assert (bool_decide (tp = pos));
  Ok (fancy_assign target_values idx values).

(** The value recorded for position [t], if any. *)
Fixpoint value_at (t : Z) (pos : list Z) (values : list V) : option V :=
  match pos, values with
  | p :: pos', v :: values' =>
      if bool_decide (p = t) then Some v else value_at t pos' values'
  | _, _ => None
  end.

(** The aligned vector the specification describes: the recorded value at
    every target position that has one, the sentinel elsewhere. *)
Definition aligned (values : list V) (pos target_pos : list Z) (nan : V)
    : list V :=
  (λ t, default nan (value_at t pos values)) <$> target_pos.

(** What [fancy_assign] leaves in a fresh sentinel vector: the values, one
    per true entry of the mask. *)
Fixpoint scatter (mask : list bool) (vs : list V) (nan : V) : list V :=
  match mask with
  | [] => []
  | true :: mask' =>
      match vs with
      | v :: vs' => v :: scatter mask' vs' nan
      | [] => nan :: scatter mask' [] nan
      end
  | false :: mask' => nan :: scatter mask' vs nan
  end.

End map_values.

Section facts.
Context {V : Type}.
Implicit Types (pos tgt : list Z) (values vs : list V) (mask : list bool).

Lemma np_sort_sorted (l : list Z) : Sorted Z.lt l → l = np_sort l.
Proof.
  intros Hl. unfold np_sort.
  apply (Sorted_unique Z.le).
  - rewrite <-(list_fmap_id l). eapply Sorted_fmap; [|exact Hl].
    intros x y; simpl; lia.
  - apply Sorted_merge_sort. apply _.
  - symmetry. apply merge_sort_Permutation.
Qed.

Lemma in1d_cons x a b : in1d (x :: a) b = bool_decide (x ∈ b) :: in1d a b.
Proof. done. Qed.

Lemma in1d_length a b : length (in1d a b) = length a.
Proof. unfold in1d. by rewrite length_fmap. Qed.

Lemma in1d_ext (a b b' : list Z) :
  (∀ x, x ∈ a → x ∈ b ↔ x ∈ b') → in1d a b = in1d a b'.
Proof.
  intros H. unfold in1d. apply list_fmap_ext. intros i x Hx.
  apply bool_decide_ext, H. by eapply list_elem_of_lookup_2.
Qed.

Lemma bool_index_in1d pos tgt :
  bool_index pos (in1d pos tgt) = filter (λ x, x ∈ tgt) pos.
Proof.
  induction pos as [|p pos IH]; [done|].
  rewrite in1d_cons, filter_cons. simpl. rewrite IH.
  destruct (decide (p ∈ tgt)).
  - by rewrite bool_decide_true.
  - by rewrite bool_decide_false.
Qed.

Lemma StronglySorted_filter_lt (P : Z → Prop) `{∀ x, Decision (P x)} (l : list Z) :
  StronglySorted Z.lt l → StronglySorted Z.lt (filter P l).
Proof.
  induction 1 as [|x l Hl IH Hx]; [constructor|].
  rewrite filter_cons. case_decide; [|done].
  constructor; [done|].
  rewrite Forall_forall in Hx |- *. intros y Hy.
  apply Hx. by apply list_elem_of_filter in Hy as [_ ?].
Qed.

Lemma value_at_nil_r t pos : value_at t pos ([] : list V) = None.
Proof. by destruct pos. Qed.

Lemma value_at_not_in t pos values : t ∉ pos → value_at t pos values = None.
Proof.
  revert values. induction pos as [|p pos IH]; intros [|v values] Hn; try done.
  simpl. rewrite bool_decide_false by set_solver. apply IH. set_solver.
Qed.

Lemma value_at_filtered t pos values tgt :
  t ∈ tgt →
  value_at t (bool_index pos (in1d pos tgt)) (bool_index values (in1d pos tgt))
  = value_at t pos values.
Proof.
  intros Ht. revert values.
  induction pos as [|p pos IH]; intros [|v values]; try done.
  - rewrite in1d_cons. simpl. apply value_at_nil_r.
  - rewrite in1d_cons. simpl. case_bool_decide as Hp; simpl.
    + by rewrite IH.
    + rewrite IH. rewrite (bool_decide_false (p = t)); [done|congruence].
Qed.

Lemma value_at_lookup t pos values i v :
  NoDup pos → pos !! i = Some t → values !! i = Some v →
  value_at t pos values = Some v.
Proof.
  revert values i. induction pos as [|p pos IH]; intros [|w values] [|i] Hnd Hp Hv;
    simplify_eq/=.
  - by rewrite bool_decide_true.
  - apply NoDup_cons in Hnd as [Hnot Hnd].
    rewrite bool_decide_false; [by eapply IH|].
    intros ->. apply Hnot. by eapply list_elem_of_lookup_2.
Qed.

Lemma scatter_nil mask (nan : V) :
  scatter mask [] nan = replicate (length mask) nan.
Proof. induction mask as [|[] mask IH]; simpl; by rewrite ?IH. Qed.

Lemma fancy_assign_nil_r (a : list V) idx : fancy_assign a idx [] = a.
Proof. by destruct idx. Qed.

Lemma fancy_assign_scatter pre mask vs nan :
  fancy_assign (pre ++ replicate (length mask) nan)
    (nonzero_from (length pre) mask) vs
  = pre ++ scatter mask vs nan.
Proof.
  revert pre vs. induction mask as [|b mask IH]; intros pre vs; simpl.
  { by destruct vs. }
  destruct b.
  - destruct vs as [|v vs]; simpl.
    { by rewrite scatter_nil. }
    replace (<[length pre:=v]> (pre ++ nan :: replicate (length mask) nan))
      with ((pre ++ [v]) ++ replicate (length mask) nan).
    2:{ rewrite <-(Nat.add_0_r (length pre)) at 1.
        rewrite insert_app_r. simpl. by rewrite <-app_assoc. }
    replace (S (length pre)) with (length (pre ++ [v]))
      by (rewrite length_app; simpl; lia).
    rewrite IH. by rewrite <-app_assoc.
  - replace (pre ++ nan :: replicate (length mask) nan)
      with ((pre ++ [nan]) ++ replicate (length mask) nan)
      by (by rewrite <-app_assoc).
    replace (S (length pre)) with (length (pre ++ [nan]))
      by (rewrite length_app; simpl; lia).
    rewrite IH. by rewrite <-app_assoc.
Qed.

Lemma fancy_index_nonzero (pre tgt : list Z) mask :
  length mask = length tgt →
  fancy_index (pre ++ tgt) (nonzero_from (length pre) mask)
  = Ok (bool_index tgt mask).
Proof.
  revert pre mask. induction tgt as [|t tgt IH]; intros pre [|b mask] Hlen;
    simplify_eq/=; [done|].
  assert (Hstep : fancy_index (pre ++ t :: tgt) (nonzero_from (S (length pre)) mask)
                  = Ok (bool_index tgt mask)).
  { replace (pre ++ t :: tgt) with ((pre ++ [t]) ++ tgt) by (by rewrite <-app_assoc).
    replace (S (length pre)) with (length (pre ++ [t]))
      by (rewrite length_app; simpl; lia).
    by apply IH. }
  destruct b; [|done]. simpl.
  rewrite list_lookup_middle by done. by rewrite Hstep.
Qed.

Lemma nonzero_from_length k (tgt : list Z) mask :
  length mask = length tgt →
  length (nonzero_from k mask) = length (bool_index tgt mask).
Proof.
  revert k mask. induction tgt as [|t tgt IH]; intros k [|b mask] Hlen;
    simplify_eq/=; [done|].
  destruct b; simpl; by rewrite (IH _ mask).
Qed.

(** The first target position that carries a value is the first position of
    the (sorted) source. *)
Lemma sorted_head_eq t tgt p pos' :
  StronglySorted Z.lt (t :: tgt) → StronglySorted Z.lt (p :: pos') →
  (∀ x, x ∈ p :: pos' → x ∈ t :: tgt) → t ∈ p :: pos' → p = t.
Proof.
  intros [Htl _]%StronglySorted_cons [Hpl _]%StronglySorted_cons Hsub Ht.
  rewrite Forall_forall in Htl, Hpl.
  assert (Hp : p ∈ t :: tgt) by (apply Hsub; left).
  apply elem_of_cons in Hp as [->|Hp]; [done|].
  apply elem_of_cons in Ht as [->|Ht]; [done|].
  specialize (Htl _ Hp). specialize (Hpl _ Ht). lia.
Qed.

Lemma scatter_aligned tgt pos' vs nan :
  StronglySorted Z.lt tgt → StronglySorted Z.lt pos' →
  (∀ x, x ∈ pos' → x ∈ tgt) → length vs = length pos' →
  scatter (in1d tgt pos') vs nan = aligned vs pos' tgt nan
  ∧ bool_index tgt (in1d tgt pos') = pos'.
Proof.
  unfold aligned. intros Htgt. revert pos' vs.
  induction Htgt as [|t tgt Htgt IH Ht]; intros pos' vs Hpos Hsub Hlen.
  { destruct pos' as [|p pos']; [done|].
    exfalso. specialize (Hsub p). set_solver. }
  rewrite in1d_cons. csimpl. case_bool_decide as Hin.
  - destruct pos' as [|p pos']; [set_solver|].
    assert (p = t) as ->.
    { apply (sorted_head_eq t tgt p pos'); [by constructor|done..]. }
    destruct vs as [|v vs]; [done|]. simplify_eq/=.
    rewrite bool_decide_true by done. simpl.
    apply StronglySorted_cons in Hpos as [Hpl Hpos].
    rewrite Forall_forall in Ht, Hpl.
    assert (Hsub' : ∀ x, x ∈ pos' → x ∈ tgt).
    { intros x Hx. specialize (Hsub x). specialize (Hpl x Hx).
      assert (x ∈ t :: tgt) as [?|?]%elem_of_cons
        by (apply Hsub; by right); [lia|done]. }
    assert (Hmask : in1d tgt (t :: pos') = in1d tgt pos').
    { apply in1d_ext. intros x Hx. specialize (Ht x Hx).
      rewrite elem_of_cons. split; [intros [?|?]; [lia|done]|auto]. }
    rewrite Hmask. destruct (IH pos' vs) as [-> ->]; [done..|lia|].
    split; [|done]. f_equal. apply list_fmap_ext. intros i x Hx.
    rewrite bool_decide_false; [done|].
    apply list_elem_of_lookup_2, Ht in Hx. lia.
  - assert (Hsub' : ∀ x, x ∈ pos' → x ∈ tgt).
    { intros x Hx. specialize (Hsub x Hx).
      apply elem_of_cons in Hsub as [->|?]; done. }
    destruct (IH pos' vs) as [-> ->]; [done..|].
    split; [|done]. by rewrite value_at_not_in.
Qed.

Lemma bool_index_length_eq pos values mask :
  length values = length pos →
  length (bool_index values mask) = length (bool_index pos mask).
Proof.
  revert values mask. induction pos as [|p pos IH]; intros [|v values] [|b mask] Hlen;
    simplify_eq/=; try done.
  destruct b; simpl; by rewrite (IH values mask).
Qed.

Lemma bool_index_scatter mask vs (tgt : list Z) nan :
  length mask = length tgt → length vs = length (bool_index tgt mask) →
  bool_index (scatter mask vs nan) mask = vs.
Proof.
  revert mask vs. induction tgt as [|t tgt IH]; intros [|b mask] vs Hm Hv;
    simplify_eq/=.
  { by destruct vs. }
  destruct b; simpl in *.
  - destruct vs as [|v vs]; simplify_eq/=. f_equal. by apply IH.
  - by apply IH.
Qed.

Lemma aligned_filtered values pos tgt nan :
  aligned (bool_index values (in1d pos tgt)) (bool_index pos (in1d pos tgt)) tgt nan
  = aligned values pos tgt nan.
Proof.
  unfold aligned. apply list_fmap_ext. intros i t Ht.
  rewrite value_at_filtered; [done|]. by eapply list_elem_of_lookup_2.
Qed.

Lemma map_values_spec values pos tgt nan :
  length values = length pos → Sorted Z.lt pos → Sorted Z.lt tgt →
  map_values values pos tgt nan = Ok (aligned values pos tgt nan).
Proof.
  intros Hlen Hpos Htgt. unfold map_values.
  rewrite bool_decide_true by done. simpl.
  rewrite bool_decide_true by by apply np_sort_sorted. simpl.
  rewrite bool_decide_true by by apply np_sort_sorted. simpl.
  apply (Sorted_StronglySorted Z.lt) in Hpos, Htgt; try apply _.
  set (pos' := bool_index pos (in1d pos tgt)).
  set (values' := bool_index values (in1d pos tgt)).
  assert (Hpos' : StronglySorted Z.lt pos').
  { unfold pos'. rewrite bool_index_in1d. by apply StronglySorted_filter_lt. }
  assert (Hsub : ∀ x, x ∈ pos' → x ∈ tgt).
  { unfold pos'. rewrite bool_index_in1d. intros x Hx.
    by apply list_elem_of_filter in Hx as [? _]. }
  assert (Hlen' : length values' = length pos') by by apply bool_index_length_eq.
  destruct (scatter_aligned tgt pos' values' nan) as [Hsc Hidx]; [done..|].
  assert (Hm : length (in1d tgt pos') = length tgt) by apply in1d_length.
  unfold nonzero.
  rewrite bool_decide_true
    by (by rewrite (nonzero_from_length 0%nat tgt), Hidx). simpl.
  rewrite (fancy_index_nonzero [] tgt) by done. simpl.
  rewrite bool_decide_true by done. simpl.
  pose proof (fancy_assign_scatter [] (in1d tgt pos') values' nan) as Hfa.
  simpl in Hfa. rewrite Hm in Hfa. rewrite Hfa, Hsc.
  f_equal. apply aligned_filtered.
Qed.

Lemma aligned_in_order values pos tgt nan :
  length values = length pos → Sorted Z.lt pos → Sorted Z.lt tgt →
  bool_index (aligned values pos tgt nan) (in1d tgt pos)
  = bool_index values (in1d pos tgt).
Proof.
  intros Hlen Hpos Htgt.
  apply (Sorted_StronglySorted Z.lt) in Hpos, Htgt; try apply _.
  set (pos' := bool_index pos (in1d pos tgt)).
  set (values' := bool_index values (in1d pos tgt)).
  assert (Hpos' : StronglySorted Z.lt pos').
  { unfold pos'. rewrite bool_index_in1d. by apply StronglySorted_filter_lt. }
  assert (Hsub : ∀ x, x ∈ pos' → x ∈ tgt).
  { unfold pos'. rewrite bool_index_in1d. intros x Hx.
    by apply list_elem_of_filter in Hx as [? _]. }
  assert (Hlen' : length values' = length pos') by by apply bool_index_length_eq.
  destruct (scatter_aligned tgt pos' values' nan) as [Hsc Hidx]; [done..|].
  assert (Hmask : in1d tgt pos = in1d tgt pos').
  { apply in1d_ext. intros x Hx. unfold pos'. rewrite bool_index_in1d.
    rewrite list_elem_of_filter. tauto. }
  rewrite <-aligned_filtered. fold pos' values'. rewrite <-Hsc, Hmask.
  apply (bool_index_scatter _ _ tgt); [apply in1d_length|].
  by rewrite Hidx.
Qed.

(** C5. For values recorded at strictly ascending source positions and a
    strictly ascending target grid, [map_values] raises nothing and returns
    a vector of the length of the grid that holds the sentinel at every grid
    position without a source value and the source value at every grid
    position that has one; read off at the shared positions the result is
    the sequence of the retained source values in their order; and the
    values at source positions outside the grid are dropped silently: the
    call returns what it returns on the source restricted to the grid. *)
Theorem map_values_aligns (values : list V) (pos target_pos : list Z) (nan : V) :
  length values = length pos → Sorted Z.lt pos → Sorted Z.lt target_pos →
  ∃ r, map_values values pos target_pos nan = Ok r
    ∧ length r = length target_pos
    ∧ (∀ j t, target_pos !! j = Some t → t ∉ pos → r !! j = Some nan)
    ∧ (∀ i j t v, pos !! i = Some t → values !! i = Some v →
         target_pos !! j = Some t → r !! j = Some v)
    ∧ bool_index r (in1d target_pos pos) = bool_index values (in1d pos target_pos)
    ∧ map_values (bool_index values (in1d pos target_pos))
        (bool_index pos (in1d pos target_pos)) target_pos nan = Ok r.
Proof.
  intros Hlen Hpos Htgt. exists (aligned values pos target_pos nan).
  split; [by apply map_values_spec|].
  split; [unfold aligned; by rewrite length_fmap|].
  split.
  { intros j t Hj Hn. unfold aligned. rewrite list_lookup_fmap, Hj. simpl.
    by rewrite value_at_not_in. }
  split.
  { intros i j t v Hi Hv Hj. unfold aligned. rewrite list_lookup_fmap, Hj. simpl.
    assert (Hnd : NoDup pos).
    { apply (Sorted_StronglySorted Z.lt) in Hpos.
      clear -Hpos. induction Hpos as [|x l Hl IH Hx]; [constructor|].
      constructor; [|done].
      rewrite Forall_forall in Hx. intros Hin%Hx. lia. }
    by rewrite (value_at_lookup t pos values i v). }
  split; [by apply aligned_in_order|].
  rewrite map_values_spec.
  - by rewrite aligned_filtered.
  - by apply bool_index_length_eq.
  - rewrite bool_index_in1d. apply StronglySorted_Sorted, StronglySorted_filter_lt.
    by apply (Sorted_StronglySorted Z.lt).
  - done.
Qed.

End facts.

Lemma map_values_aligns_witness :
  ∃ r, map_values [7; 8; 9] [2; 5; 9] [1; 2; 3; 9] (-1) = Ok r
    ∧ length r = length [1; 2; 3; 9]
    ∧ (∀ j t, [1; 2; 3; 9] !! j = Some t → t ∉ [2; 5; 9] → r !! j = Some (-1))
    ∧ (∀ i j t v, [2; 5; 9] !! i = Some t → [7; 8; 9] !! i = Some v →
         [1; 2; 3; 9] !! j = Some t → r !! j = Some v)
    ∧ bool_index r (in1d [1; 2; 3; 9] [2; 5; 9])
      = bool_index [7; 8; 9] (in1d [2; 5; 9] [1; 2; 3; 9])
    ∧ map_values (bool_index [7; 8; 9] (in1d [2; 5; 9] [1; 2; 3; 9]))
        (bool_index [2; 5; 9] (in1d [2; 5; 9] [1; 2; 3; 9])) [1; 2; 3; 9] (-1)
      = Ok r.
Proof.
  apply (map_values_aligns [7; 8; 9] [2; 5; 9] [1; 2; 3; 9] (-1));
    [reflexivity | repeat constructor ..].
Defined.

Example map_values_example :
  map_values [7; 8; 9] [2; 5; 9] [1; 2; 3; 9] (-1) = Ok [-1; 7; -1; 9].
Proof. vm_compute. reflexivity. Qed.

End Align.

(** ** Coverage filter: lines 356-372 of [App.main], [scripts/dcpg_data.py] *)

Module Coverage.

(** [int(x)] for a float [x]: the integer part, rounding towards zero. *)
Definition int_of_float (x : Q) : Z := Z.quot (Qnum x) (Z.pos (Qden x)).

(** [round(x)] as the specification words it: to the nearest integer, a tie
    going to the even neighbour (Python 3 and numpy). *)
Definition round_half_even (x : Q) : Z :=
  let n := Qnum x in
  let d := Z.pos (Qden x) in
  let f := n / d in
  match Z.compare (2 * (n - f * d)) d with
  | Lt => f
  | Gt => f + 1
  | Eq => if Z.even f then f else f + 1
  end.

(** The aligned matrix [cpg_mat]: [shape[1]] columns, one row per position. *)
Record matrix : Type := { shape1 : Z; mat_rows : list (list Z) }.

(** What the filter block leaves for the rest of the loop body. *)
Inductive outcome : Type :=
  | Unfiltered                                 (* the block is not entered *)
  | SkipChromo                                 (* [continue] *)
  | Keep (idx : list bool) (chromo_pos : list Z).

Section coverage.
(** [dat.CPG_NAN] is declared in [deepcpg/data], outside the sources at
    hand; the filter only compares with it. *)
Variable CPG_NAN : Z.
(** [nb_cell * min_cpg_cov]: the product of an integer and a float as the
    floating-point unit rounds it. *)
Variable float_mul : Z → Q → Q.

(** [np.sum(row != CPG_NAN)] for one row. *)
Definition coverage (row : list Z) : Z :=
  Z.of_nat (length (filter (λ v, v ≠ CPG_NAN) row)).

(** The threshold the block compares the coverage with. *)
Definition min_coverage (cpg_mat : matrix) (min_cpg_cov : Q) : Q :=
  if Qlt_le_dec min_cpg_cov 1 then
    (* Convert percentage to absolute number *)
    let nb_cell := shape1 cpg_mat in
    inject_Z (Z.max (int_of_float (float_mul nb_cell min_cpg_cov)) 1)
  else min_cpg_cov.

(** [sum] of an integer vector and of a boolean vector. *)
Definition np_sum (l : list Z) : Z := foldr Z.add 0 l.
Definition count_true (l : list bool) : Z :=
  Z.of_nat (length (filter (λ b, b = true) l)).

(** [if 'cpg_mat' in chromo_outputs and opts.min_cpg_cov: ...]; the option
    [--min_cpg_cov] is a float or [None], and [0.0] is false as well. *)
Definition coverage_filter (cpg_mat : option matrix) (min_cpg_cov : option Q)
    (chromo_pos : list Z) : result outcome :=
  match cpg_mat, min_cpg_cov with
  | Some m, Some f =>
      if Qeq_bool f 0 then Ok Unfiltered else
      let thr := min_coverage m f in
      let idx := coverage <$> mat_rows m in
      do _ <- py_assert (1 <=? np_sum idx);
      let idx := (λ n, Qle_bool thr (inject_Z n)) <$> idx in
      if count_true idx =? 0 then Ok SkipChromo
      else Ok (Keep idx (Align.bool_index chromo_pos idx))
  | _, _ => Ok Unfiltered
  end.

(** The conversion in the words of the specification. *)
Definition spec_threshold (sample_count : Z) (fraction : Q) : Z :=
  Z.max (round_half_even (inject_Z sample_count * fraction)) 1.

Lemma np_sum_nonneg (l : list Z) : Forall (λ n, 0 ≤ n) l → 0 ≤ np_sum l.
Proof. induction 1; simpl; lia. Qed.

Lemma np_sum_elem (l : list Z) n :
  Forall (λ n, 0 ≤ n) l → n ∈ l → n ≤ np_sum l.
Proof.
  induction 1 as [|x l Hx Hl IH]; intros Hn; [by inv Hn|].
  pose proof (np_sum_nonneg l Hl). simpl.
  apply elem_of_cons in Hn as [->|Hn]; [lia|]. specialize (IH Hn). lia.
Qed.

Lemma count_true_zero (l : list bool) : count_true l = 0 ↔ Forall (λ b, b = false) l.
Proof.
  unfold count_true. induction l as [|b l IH].
  { split; [constructor|done]. }
  rewrite (filter_cons (λ b, b = true)), Forall_cons.
  destruct b; case_decide; try done; simpl.
  - split; [lia|]. by intros [[=] _].
  - rewrite IH. tauto.
Qed.

(** C2 (amended). For a fractional threshold [f < 1] other than zero the
    block compares with [max(int(nb_cell * f), 1)], the product cut off
    towards zero rather than rounded.  Whenever the block passes its
    assertion, a position is kept exactly when the number of entries of its
    row that differ from the sentinel is at least that threshold ([continue]
    drops the chromosome when no row qualifies); and the assertion passes as
    soon as one entry of the matrix differs from the sentinel. *)
Theorem coverage_filter_truncates (m : matrix) (f : Q) (chromo_pos : list Z) :
  (f < 1)%Q → ¬ (f == 0)%Q →
  let thr := Z.max (int_of_float (float_mul (shape1 m) f)) 1 in
  (∀ out, coverage_filter (Some m) (Some f) chromo_pos = Ok out →
     match out with
     | Unfiltered => False
     | SkipChromo => ∀ row, row ∈ mat_rows m → ¬ thr ≤ coverage row
     | Keep idx pos' =>
         length idx = length (mat_rows m)
         ∧ pos' = Align.bool_index chromo_pos idx
         ∧ ∀ j row, mat_rows m !! j = Some row →
             (idx !! j = Some true ↔ thr ≤ coverage row)
     end)
  ∧ ((∃ row v, row ∈ mat_rows m ∧ v ∈ row ∧ v ≠ CPG_NAN) →
     ∃ out, coverage_filter (Some m) (Some f) chromo_pos = Ok out).
Proof.
  intros Hf Hf0 thr. unfold coverage_filter.
  assert (Hz : Qeq_bool f 0 = false).
  { destruct (Qeq_bool f 0) eqn:E; [|done]. by apply Qeq_bool_iff in E. }
  rewrite Hz.
  assert (Hthr : min_coverage m f = inject_Z thr).
  { unfold min_coverage. destruct (Qlt_le_dec f 1) as [_|Hge]; [done|].
    exfalso. by apply (Qlt_not_le f 1). }
  rewrite Hthr.
  assert (Hle : ∀ n, Qle_bool (inject_Z thr) (inject_Z n) = true ↔ thr ≤ n).
  { intros n. rewrite Qle_bool_iff. by rewrite <-Zle_Qle. }
  split.
  - intros out. destruct (1 <=? np_sum (coverage <$> mat_rows m)); [|done].
    simpl. case_match eqn:Hc.
    + intros [= <-]. intros row Hrow Hcov.
      apply Z.eqb_eq, count_true_zero in Hc. rewrite Forall_forall in Hc.
      assert (Qle_bool (inject_Z thr) (inject_Z (coverage row)) = false) as Hb.
      { apply Hc. do 2 (apply list_elem_of_fmap; eexists; split; [done|]). done. }
      apply Hle in Hcov. congruence.
    + intros [= <-]. split; [by rewrite !length_fmap|]. split; [done|].
      intros j row Hj. rewrite !list_lookup_fmap, Hj. simpl.
      rewrite <-Hle. split; [by intros [= ->]|by intros ->].
  - intros (row & v & Hrow & Hv & Hne).
    assert (1 ≤ np_sum (coverage <$> mat_rows m)) as Hs.
    { transitivity (coverage row).
      - unfold coverage.
        assert (v ∈ filter (λ v, v ≠ CPG_NAN) row) as Hin
          by by apply list_elem_of_filter.
        destruct (filter _ row); [by inv Hin|]. simpl. lia.
      - apply np_sum_elem.
        + apply Forall_forall. intros n (r & -> & _)%list_elem_of_fmap.
          unfold coverage. lia.
        + apply list_elem_of_fmap. by exists row. }
    apply Z.leb_le in Hs. rewrite Hs. simpl. case_match; eauto.
Qed.

End coverage.

(** The float product where it is exact (small integers times dyadic
    fractions). *)
Definition exact_mul (n : Z) (x : Q) : Q := inject_Z n * x.

Lemma coverage_filter_truncates_witness :
  let m := {| shape1 := 3; mat_rows := [[1; -1; -1]; [0; 1; -1]; [-1; -1; -1]] |} in
  let thr := Z.max (int_of_float (exact_mul (shape1 m) (1 # 2))) 1 in
  (∀ out, coverage_filter (-1) exact_mul (Some m) (Some (1 # 2)) [10; 20; 30] = Ok out →
     match out with
     | Unfiltered => False
     | SkipChromo => ∀ row, row ∈ mat_rows m → ¬ thr ≤ coverage (-1) row
     | Keep idx pos' =>
         length idx = length (mat_rows m)
         ∧ pos' = Align.bool_index [10; 20; 30] idx
         ∧ ∀ j row, mat_rows m !! j = Some row →
             (idx !! j = Some true ↔ thr ≤ coverage (-1) row)
     end)
  ∧ ((∃ row v, row ∈ mat_rows m ∧ v ∈ row ∧ v ≠ -1) →
     ∃ out, coverage_filter (-1) exact_mul (Some m) (Some (1 # 2)) [10; 20; 30] = Ok out).
Proof.
  apply (coverage_filter_truncates (-1) exact_mul
           {| shape1 := 3; mat_rows := [[1; -1; -1]; [0; 1; -1]; [-1; -1; -1]] |}
           (1 # 2) [10; 20; 30]).
  - reflexivity.
  - discriminate.
Defined.

(** C2, as stated, fails for three samples and the fraction one half: the
    product is 1.5, the specification's rounding gives the threshold 2, the
    code's [int] gives 1, and the position with a single observation is kept
    by the code although its coverage is below 2. *)
Lemma coverage_filter_not_rounded :
  spec_threshold 3 (1 # 2) = 2
  ∧ coverage (-1) [1; -1; -1] = 1
  ∧ min_coverage exact_mul
      {| shape1 := 3; mat_rows := [[1; -1; -1]; [0; 1; -1]; [-1; -1; -1]] |}
      (1 # 2) = inject_Z 1
  ∧ coverage_filter (-1) exact_mul
      (Some {| shape1 := 3; mat_rows := [[1; -1; -1]; [0; 1; -1]; [-1; -1; -1]] |})
      (Some (1 # 2)) [10; 20; 30]
    = Ok (Keep [true; true; false] [10; 20]).
Proof. vm_compute. repeat split; reflexivity. Qed.

(** A threshold of zero is false in [if ... and opts.min_cpg_cov]: the block
    is not entered and every position stays, whatever the matrix holds. *)
Lemma coverage_filter_zero_threshold CPG_NAN float_mul (m : matrix) (f : Q)
    (chromo_pos : list Z) :
  (f == 0)%Q → coverage_filter CPG_NAN float_mul (Some m) (Some f) chromo_pos = Ok Unfiltered.
Proof. intros Hf. unfold coverage_filter. apply Qeq_bool_iff in Hf. by rewrite Hf. Qed.

End Coverage.

(** ** Statistics: [mode] of [scripts/dcpg_data.py] *)

Module Stats.

(** A row of a masked array: [None] is a masked entry. *)
Definition masked_row : Type := list (option Z).

(** [np.ma.masked_values(row, CPG_NAN)] *)
Definition masked_values (CPG_NAN : Z) (row : list Z) : masked_row :=
  (λ v, if bool_decide (v = CPG_NAN) then None else Some v) <$> row.

(** The entries of a row that are not masked. *)
Definition observed (row : masked_row) : list Z := omap id row.

(** [x.mean(axis=1)] for one row of a masked array: the average of the
    entries that are not masked, itself masked when there is none.  The
    average of integers is the exact quotient here; for the 0/1 rows of the
    pipeline the float quotient lies on the same side of every integer. *)
Definition ma_mean (row : masked_row) : option Q :=
  match observed row with
  | [] => None
  | v :: vs => Some (Coverage.np_sum (v :: vs) # Pos.of_nat (length (v :: vs)))
  end.

(** [.astype(np.int8)] on a float in the range of [int8]: the fraction is
    cut off. *)
Definition astype_int8 (x : Q) : Z := Coverage.int_of_float x.

(** [np.all(b)] for a masked vector of truth values, as [assert] takes
    it: masked entries are skipped, and when the vector has entries and
    every one of them is masked the result is the masked constant, which
    counts as false.  A vector without entries has no mask and is all
    true. *)
Definition ma_all (b : list (option bool)) : bool :=
  match b with
  | [] => true
  | _ :: _ =>
      existsb (λ m, match m with Some _ => true | None => false end) b
      && forallb (λ m, default true m) b
  end.

(** [mode(x)] on the rows of a masked matrix. *)
Definition mode (x : list masked_row) : result (list (option Z)) :=
  let mode := (λ row, astype_int8 <$> ma_mean row) <$> x in
  do _ <- py_assert (ma_all ((λ m, (λ v, (v =? 0) || (v =? 1)) <$> m) <$> mode));
  Ok mode.

(** The statistic in the words of the specification: the row mean rounded
    to the nearest integer. *)
Definition spec_mode (row : masked_row) : option Z :=
  Coverage.round_half_even <$> ma_mean row.


(** What the code computes on 0/1 rows: 1 when every observed entry is 1,
    and 0 otherwise. *)
Definition all_ones (row : masked_row) : Z :=
  if forallb (λ v, v =? 1) (observed row) then 1 else 0.

Lemma np_sum_zero_one (vs : list Z) :
  Forall (λ v, v = 0 ∨ v = 1) vs →
  0 ≤ Coverage.np_sum vs ≤ Z.of_nat (length vs)
  ∧ (Coverage.np_sum vs = Z.of_nat (length vs) ↔ forallb (λ v, v =? 1) vs = true).
Proof.
  induction 1 as [|v vs Hv Hvs [IH1 IH2]]; [done|].
  cbn [Coverage.np_sum foldr length forallb]. fold (Coverage.np_sum vs).
  rewrite andb_true_iff, <-IH2, Z.eqb_eq. lia.
Qed.

Lemma int_of_float_ratio (s : Z) (n : nat) :
  0 ≤ s ≤ Z.of_nat (S n) →
  Coverage.int_of_float (s # Pos.of_nat (S n))
  = if bool_decide (s = Z.of_nat (S n)) then 1 else 0.
Proof.
  intros Hs. unfold Coverage.int_of_float. cbn [Qnum Qden].
  rewrite <-Pos.of_nat_succ, Zpos_P_of_succ_nat, <-Nat2Z.inj_succ.
  case_bool_decide as E.
  - rewrite E. apply Z.quot_same. lia.
  - apply Z.quot_small. lia.
Qed.

Lemma mode_row_zero_one (row : masked_row) :
  Forall (λ v, v = 0 ∨ v = 1) (observed row) →
  astype_int8 <$> ma_mean row
  = match observed row with [] => None | _ => Some (all_ones row) end.
Proof.
  intros Hrow. unfold ma_mean, all_ones, astype_int8.
  destruct (observed row) as [|v vs] eqn:E; [done|]. cbn [fmap option_fmap option_map].
  destruct (np_sum_zero_one (v :: vs) Hrow) as [Hb Hiff].
  change (length (v :: vs)) with (S (length vs)) in *.
  rewrite int_of_float_ratio by done. f_equal.
  case_bool_decide as Hs.
  - apply Hiff in Hs. by rewrite Hs.
  - destruct (forallb _ (v :: vs)) eqn:Hf; [|done]. exfalso. by apply Hs, Hiff.
Qed.

(** When the assertion on a masked vector passes. *)
Lemma ma_all_spec (b : list (option bool)) :
  ma_all b = true
  ↔ (b = [] ∨ Exists is_Some b) ∧ Forall (λ m, default true m = true) b.
Proof.
  assert (Hex : existsb (λ m : option bool,
                   match m with Some _ => true | None => false end) b = true
                ↔ Exists is_Some b).
  { rewrite existsb_exists, Exists_exists. split.
    - intros ([v|] & Hin%list_elem_of_In & Hv); [|done]. by exists (Some v).
    - intros (m & Hin%list_elem_of_In & [v ->]). by exists (Some v). }
  assert (Hall : forallb (λ m : option bool, default true m) b = true
                 ↔ Forall (λ m, default true m = true) b).
  { rewrite forallb_forall, Forall_forall. split.
    - intros H m Hin%list_elem_of_In. by apply H.
    - intros H m Hin%list_elem_of_In. by apply H. }
  destruct b as [|m b]; [by intuition|].
  cbn [ma_all]. rewrite andb_true_iff, Hex, Hall. split.
  - intros [H1 H2]. split; [by right|done].
  - intros [[?|H1] H2]; [done|by split].
Qed.

Lemma mode_zero_one (x : list masked_row) :
  Forall (λ row, Forall (λ v, v = 0 ∨ v = 1) (observed row)) x →
  x = [] ∨ Exists (λ row, observed row ≠ []) x →
  mode x = Ok ((λ row, match observed row with
                       | [] => None
                       | _ => Some (all_ones row)
                       end) <$> x).
Proof.
  intros Hx Hsome. unfold mode.
  assert (Heq : (λ row, astype_int8 <$> ma_mean row) <$> x
                = (λ row, match observed row with
                          | [] => None
                          | _ => Some (all_ones row)
                          end) <$> x).
  { apply list_fmap_ext. intros i row Hi. apply mode_row_zero_one.
    rewrite Forall_forall in Hx. apply Hx. by eapply list_elem_of_lookup_2. }
  rewrite Heq.
  rewrite (proj2 (ma_all_spec _)); [done|]. split.
  - destruct Hsome as [->|Hsome]; [by left|right].
    apply Exists_exists in Hsome as (row & Hin & Hobs).
    apply Exists_exists. eexists. split.
    + apply list_elem_of_fmap. eexists. split; [done|].
      apply list_elem_of_fmap. by exists row.
    + destruct (observed row); [done|]. by eexists.
  - apply Forall_forall. intros m (m' & -> & Hm')%list_elem_of_fmap.
    apply list_elem_of_fmap in Hm' as (row & -> & _).
    destruct (observed row); [done|]. unfold all_ones. by case_match.
Qed.

(** C3 (the code departs from the claim). For the row 1, 1, 0 without a
    masked entry the mean is 2/3 and the nearest integer is 1, the value
    that occurs most often; [mode] returns 0, because [astype(np.int8)] cuts
    the fraction off.  The returned value is 0 or 1, as the claim says. *)
Theorem mode_cuts_off_mean :
  mode [[Some 1; Some 1; Some 0]] = Ok [Some 0]
  ∧ spec_mode [Some 1; Some 1; Some 0] = Some 1
  ∧ ma_mean [Some 1; Some 1; Some 0] = Some (2 # 3).
Proof. vm_compute. repeat split; reflexivity. Qed.

End Stats.

(** ** DNA windows: [extract_seq_windows] of [scripts/dcpg_data.py] *)

Module SeqWin.

(** [str.upper] on the ASCII letters of a sequence. *)
Definition upper_char (c : ascii) : ascii :=
  let n := Ascii.N_of_ascii c in
  if ((97 <=? n) && (n <=? 122))%N then Ascii.ascii_of_N (n - 32) else c.
Definition upper (s : list ascii) : list ascii := upper_char <$> s.

(** Modelled from the spec: [dna.CHAR_TO_INT] of [deepcpg/data/dna.py], which
    is not among the sources at hand.  The alphabet A, C, G, T is encoded
    0..3 and the unknown symbol has a code of its own; the codes of C and G
    are the ones lines 93 and 94 compare with, and line 91 puts the unknown
    symbol above the four bases. *)
Definition CHAR_TO_INT (c : ascii) : option Z :=
  match c with
  | "A" => Some 0
  | "T" => Some 1
  | "G" => Some 2
  | "C" => Some 3
  | "N" => Some 4
  | _ => None
  end%char.

(** Modelled from the spec: [dna.char2int], the integer codes of the symbols
    of a sequence; a symbol outside the alphabet is a missing dictionary
    key. *)
Fixpoint char2int (s : list ascii) : result (list Z) :=
  match s with
  | [] => Ok []
  | c :: s' =>
      match CHAR_TO_INT (upper_char c) with
      | None => Raise (KeyError (String c EmptyString))
      | Some x => do r <- char2int s'; Ok (x :: r)
      end
  end.

(** [np.zeros((nb_win, wlen), dtype='int8')] *)
Definition np_zeros (nb_win : nat) (wlen : Z) : result (list (list Z)) :=
  if wlen <? 0 then Raise (ValueError "negative dimensions are not allowed")
  else Ok (replicate nb_win (replicate (Z.to_nat wlen) 0)).

(** [seq_wins[i] = v] for a list [v]: numpy takes a vector of the row
    length, repeats a single value along the row, and refuses any other
    length. *)
Definition assign_row (seq_wins : list (list Z)) (i : nat) (wlen : Z)
    (v : list Z) : result (list (list Z)) :=
  if Z.of_nat (length v) =? wlen then Ok (<[i:=v]> seq_wins)
  else match v with
       | [x] => Ok (<[i:=replicate (Z.to_nat wlen) x]> seq_wins)
       | _ => Raise (ValueError "could not broadcast input array")
       end.

(** [n * 'N'] *)
Definition unknowns (n : Z) : list ascii := replicate (Z.to_nat n) "N"%char.

(** Lines 82-86: the window around index [p], padded at the ends of the
    sequence. *)
Definition window (seq : list ascii) (wlen delta p : Z) : result (list ascii) :=
  let len_seq := Z.of_nat (length seq) in
  let win := py_slice seq (Z.max 0 (p - delta)) (Z.min len_seq (p + delta + 1)) in
  if Z.of_nat (length win) <? wlen then
    let win := unknowns (Z.max 0 (delta - p)) ++ win in
    let win := win ++ unknowns (Z.max 0 (p + delta + 1 - len_seq)) in
    do _ <- py_assert (Z.of_nat (length win) =? wlen);
    Ok win
  else Ok win.

(** The error of line 81. *)
Definition no_cpg (p : Z) : exn :=
  ValueError ("No CpG at position " +:+ fmt_d p +:+ "!").

(** The body of the loop of lines 78-87, from index [i] on. *)
Fixpoint fill_windows (seq : list ascii) (wlen delta seq_index : Z)
    (cpg_sites : bool) (pos : list Z) (i : nat) (seq_wins : list (list Z))
    : result (list (list Z)) :=
  match pos with
  | [] => Ok seq_wins
  | pos_i :: pos' =>
      let p := pos_i - seq_index in
      if cpg_sites && negb (bool_decide (py_slice seq p (p + 2) = ["C"; "G"]%char))
      then Raise (no_cpg p)
      else
        do win <- window seq wlen delta p;
        do codes <- char2int win;
        do seq_wins <- assign_row seq_wins i wlen codes;
        fill_windows seq wlen delta seq_index cpg_sites pos' (S i) seq_wins
  end.

(** [seq_wins.max()] *)
Definition np_max (a : list (list Z)) : result Z :=
  match concat a with
  | [] => Raise (ValueError "zero-size array to reduction operation maximum which has no identity")
  | x :: xs => Ok (foldl Z.max x xs)
  end.

(** [a[:, j]] for a matrix with [wlen] columns. *)
Definition column (a : list (list Z)) (wlen j : Z) : result (list Z) :=
  if (0 <=? j) && (j <? wlen) then Ok ((λ row, nth (Z.to_nat j) row 0) <$> a)
  else if (- wlen <=? j) && (j <? 0)
       then Ok ((λ row, nth (Z.to_nat (j + wlen)) row 0) <$> a)
       else Raise IndexError.

(** [np.all(v == x)] *)
Definition all_eq (v : list Z) (x : Z) : bool := forallb (λ y, y =? x) v.

Section extract.
(** The random source: [randint k] is the [k]-th of the values that the one
    call [np.random.randint(0, 4, idx.sum())] hands out. *)
Variable randint : nat → Z.

(** [seq_wins[idx] = np.random.randint(0, 4, idx.sum())] with
    [idx = seq_wins == CHAR_TO_INT['N']]: the unknown entries take the drawn
    values in row-major order, [k] being the number of values used so far. *)
Fixpoint fill_row (row : list Z) (k : nat) : list Z * nat :=
  match row with
  | [] => ([], k)
  | x :: row' =>
      if x =? 4 then
        let '(r, k') := fill_row row' (S k) in (randint k :: r, k')
      else
        let '(r, k') := fill_row row' k in (x :: r, k')
  end.
Fixpoint fill_unknown (seq_wins : list (list Z)) (k : nat) : list (list Z) :=
  match seq_wins with
  | [] => []
  | row :: rest =>
      let '(r, k') := fill_row row k in r :: fill_unknown rest k'
  end.

(** [extract_seq_windows(seq, pos, wlen, seq_index, cpg_sites)] *)
Definition extract_seq_windows (seq : string) (pos : list Z) (wlen : Z)
    (seq_index : Z) (cpg_sites : bool) : result (list (list Z)) :=
  let delta := wlen `div` 2 in
  let nb_win := length pos in
  let seq := upper (String.list_ascii_of_string seq) in
  do seq_wins <- np_zeros nb_win wlen;
  do seq_wins <- fill_windows seq wlen delta seq_index cpg_sites pos 0 seq_wins;
  (* Randomly choose missing nucleotides *)
  let seq_wins := fill_unknown seq_wins 0 in
  do m <- np_max seq_wins;
  do _ <- py_assert (m <? 4);
  do _ <- (if cpg_sites then
             do c <- column seq_wins wlen delta;
             do _ <- py_assert (all_eq c 3);
             do g <- column seq_wins wlen (delta + 1);
             py_assert (all_eq g 2)
           else Ok tt);
  Ok seq_wins.

End extract.

(** The symbols of the alphabet, in either case. *)
Definition in_alphabet (seq : string) : Prop :=
  Forall (λ c, is_Some (CHAR_TO_INT (upper_char c))) (String.list_ascii_of_string seq).

(** The two symbols at index [p] and its successor are C and G. *)
Definition cpg_at (seq : string) (p : Z) : Prop :=
  0 ≤ p
  ∧ upper (String.list_ascii_of_string seq) !! Z.to_nat p = Some "C"%char
  ∧ upper (String.list_ascii_of_string seq) !! Z.to_nat (p + 1) = Some "G"%char.



(** *** Shape and range of what the loop writes *)

(** A row of the window matrix before the unknown entries are drawn. *)
Definition coded_row (wlen : Z) (row : list Z) : Prop :=
  Z.of_nat (length row) = wlen ∧ Forall (λ x, 0 ≤ x ≤ 4) row.

Lemma CHAR_TO_INT_range c x : CHAR_TO_INT c = Some x → 0 ≤ x ≤ 4.
Proof.
  unfold CHAR_TO_INT.
  repeat (case_match; try done); intros [= <-]; lia.
Qed.

Lemma char2int_range s codes :
  char2int s = Ok codes →
  length codes = length s ∧ Forall (λ x, 0 ≤ x ≤ 4) codes.
Proof.
  revert codes. induction s as [|c s IH]; intros codes; simpl.
  { intros [= <-]. by split. }
  destruct (CHAR_TO_INT (upper_char c)) as [x|] eqn:Hc; [|done].
  destruct (char2int s) as [r|]; [|done]. simpl. intros [= <-].
  destruct (IH r eq_refl) as [Hlen Hr]. split; [simpl; by rewrite Hlen|].
  constructor; [by eapply CHAR_TO_INT_range|done].
Qed.


Lemma assign_row_coded a i wlen v a' :
  0 ≤ wlen → Forall (coded_row wlen) a → Forall (λ x, 0 ≤ x ≤ 4) v →
  assign_row a i wlen v = Ok a' →
  length a' = length a ∧ Forall (coded_row wlen) a'.
Proof.
  intros Hw Ha Hv. unfold assign_row. case_match eqn:Hlen.
  - intros [= <-]. split; [by rewrite length_insert|].
    apply Forall_insert; [done|]. apply Z.eqb_eq in Hlen. by split.
  - destruct v as [|x [|??]]; try done. intros [= <-].
    split; [by rewrite length_insert|].
    apply Forall_insert; [done|]. split; [rewrite length_replicate; lia|].
    apply Forall_replicate. by apply Forall_cons in Hv as [? _].
Qed.

Lemma fill_windows_coded seq wlen delta seq_index cpg_sites pos i a a' :
  0 ≤ wlen → Forall (coded_row wlen) a →
  fill_windows seq wlen delta seq_index cpg_sites pos i a = Ok a' →
  length a' = length a ∧ Forall (coded_row wlen) a'.
Proof.
  intros Hw. revert i a. induction pos as [|p0 pos IH]; intros i a Ha; simpl.
  { by intros [= <-]. }
  case_match; [done|].
  destruct (window _ _ _ _) as [win|]; [|done]. simpl.
  destruct (char2int win) as [codes|] eqn:Hc; [|done]. simpl.
  destruct (assign_row a i wlen codes) as [a1|] eqn:Ha1; [|done]. simpl.
  apply char2int_range in Hc as [_ Hc].
  destruct (assign_row_coded a i wlen codes a1) as [Hl1 Hc1]; [done..|].
  intros Hrec. destruct (IH _ _ Hc1 Hrec) as [Hl' Hc']. split; [congruence|done].
Qed.


(** *** Drawing the unknown entries *)

Section draws.
Variable randint : nat → Z.
Hypothesis randint_range : ∀ k, 0 ≤ randint k < 4.

(** A row after the draw: same length, the known entries where they were,
    and every entry one of the four bases. *)
Definition drawn_row (row r : list Z) : Prop :=
  length r = length row
  ∧ (∀ j x, row !! j = Some x → x ≠ 4 → r !! j = Some x)
  ∧ (Forall (λ x, 0 ≤ x ≤ 4) row → Forall (λ x, 0 ≤ x < 4) r).

Lemma fill_row_drawn row k : drawn_row row (fill_row randint row k).1.
Proof.
  revert k. induction row as [|x row IH]; intros k; simpl.
  { split; [done|]. split; [done|]. constructor. }
  destruct (Z.eqb_spec x 4) as [->|Hx].
  - specialize (IH (S k)). destruct (fill_row randint row (S k)) as [r k'].
    destruct IH as (Hl & Hk & Hr). unfold drawn_row. simpl in *.
    split; [by rewrite Hl|]. split.
    + intros [|j] y Hj Hy; simplify_eq/=. by apply Hk.
    + intros [_ Hrow]%Forall_cons. constructor; [apply randint_range|auto].
  - specialize (IH k). destruct (fill_row randint row k) as [r k'].
    destruct IH as (Hl & Hk & Hr). unfold drawn_row. simpl in *.
    split; [by rewrite Hl|]. split.
    + intros [|j] y Hj Hy; simplify_eq/=; [done|]. by apply Hk.
    + intros [? Hrow]%Forall_cons. constructor; [lia|auto].
Qed.

Lemma fill_unknown_drawn a k : Forall2 drawn_row a (fill_unknown randint a k).
Proof.
  revert k. induction a as [|row a IH]; intros k; simpl; [constructor|].
  pose proof (fill_row_drawn row k) as Hrow.
  destruct (fill_row randint row k) as [r k']. constructor; [done|apply IH].
Qed.

End draws.

(** *** Reading the assertions back *)

Lemma foldl_max_ge (x : Z) (xs : list Z) :
  x ≤ foldl Z.max x xs ∧ Forall (λ y, y ≤ foldl Z.max x xs) xs.
Proof.
  revert x. induction xs as [|y xs IH]; intros x; simpl; [by split|].
  destruct (IH (Z.max x y)) as [H1 H2]. split; [lia|].
  constructor; [lia|done].
Qed.

Lemma np_max_bound a m :
  np_max a = Ok m → Forall (Forall (λ x, x ≤ m)) a.
Proof.
  unfold np_max. destruct (concat a) as [|x xs] eqn:E; [done|]. intros [= <-].
  destruct (foldl_max_ge x xs) as [H1 H2].
  assert (Forall (λ y, y ≤ foldl Z.max x xs) (concat a)) as Hc
    by (rewrite E; by constructor).
  apply Forall_forall. intros row Hrow. apply Forall_forall. intros y Hy.
  rewrite Forall_forall in Hc. apply Hc.
  apply list_elem_of_In, in_concat. exists row.
  split; by apply list_elem_of_In.
Qed.



(** A row of the returned matrix: [wlen] entries, each one of the four
    bases. *)
Definition base_row (wlen : Z) (row : list Z) : Prop :=
  Z.of_nat (length row) = wlen ∧ Forall (λ x, 0 ≤ x < 4) row.

Lemma drawn_rows_base randint wlen a k :
  (∀ k, 0 ≤ randint k < 4) → Forall (coded_row wlen) a →
  Forall (base_row wlen) (fill_unknown randint a k).
Proof.
  intros Hr Ha. pose proof (fill_unknown_drawn randint Hr a k) as H2.
  induction H2 as [|row r a b (Hl & _ & Hb) _ IH]; [constructor|].
  apply Forall_cons in Ha as [[Hlen Hrow] Ha].
  constructor; [|by apply IH]. split; [lia|auto].
Qed.



(** *** Windows inside and across the ends of the sequence *)

Lemma py_slice_forward {A} (l : list A) (a b : Z) :
  0 ≤ a ≤ b →
  py_slice l a b = take (Z.to_nat (b - a)) (drop (Z.to_nat a) l).
Proof.
  intros Hab. unfold py_slice, slice_bound.
  destruct (Z.ltb_spec a 0), (Z.ltb_spec b 0); try lia.
  destruct (Z_le_gt_dec (Z.of_nat (length l)) a) as [Hn|Hn].
  { rewrite !drop_ge by lia. by rewrite !take_nil. }
  replace (Z.min a (Z.of_nat (length l))) with a by lia.
  destruct (Z_le_gt_dec b (Z.of_nat (length l))) as [Hb|Hb].
  { by replace (Z.min b (Z.of_nat (length l))) with b by lia. }
  replace (Z.min b (Z.of_nat (length l))) with (Z.of_nat (length l)) by lia.
  rewrite !take_ge; [done|rewrite length_drop; lia..].
Qed.

Lemma cpg_check (seq : list ascii) (p : Z) (x y : ascii) :
  0 ≤ p →
  py_slice seq p (p + 2) = [x; y]
  ↔ seq !! Z.to_nat p = Some x ∧ seq !! Z.to_nat (p + 1) = Some y.
Proof.
  intros Hp. rewrite py_slice_forward by lia.
  replace (Z.to_nat (p + 2 - p)) with 2%nat by lia.
  replace (Z.to_nat (p + 1)) with (Z.to_nat p + 1)%nat by lia.
  rewrite <-(Nat.add_0_r (Z.to_nat p)) at 2. rewrite <-!lookup_drop.
  destruct (drop (Z.to_nat p) seq) as [|c [|d r]]; simpl.
  - split; [done|]. by intros [? _].
  - split; [done|]. by intros [_ ?].
  - split; [by intros [= -> ->]|]. by intros [[= ->] [= ->]].
Qed.

Lemma window_padded (seq : list ascii) (delta p : Z) :
  0 ≤ delta → 0 ≤ p ≤ Z.of_nat (length seq) →
  let a := Z.max 0 (p - delta) in
  let b := Z.min (Z.of_nat (length seq)) (p + delta + 1) in
  window seq (2 * delta + 1) delta p
  = Ok (unknowns (Z.max 0 (delta - p))
        ++ take (Z.to_nat (b - a)) (drop (Z.to_nat a) seq)
        ++ unknowns (Z.max 0 (p + delta + 1 - Z.of_nat (length seq)))).
Proof.
  intros Hd Hp a b. unfold window. fold a b.
  rewrite py_slice_forward by lia.
  set (win := take (Z.to_nat (b - a)) (drop (Z.to_nat a) seq)).
  assert (Hlen : Z.of_nat (length win) = b - a).
  { unfold win. rewrite length_take, length_drop. lia. }
  destruct (Z.ltb_spec (Z.of_nat (length win)) (2 * delta + 1)) as [Hlt|Hge].
  - rewrite (proj2 (Z.eqb_eq _ _)).
    + simpl. by rewrite <-app_assoc.
    + rewrite !length_app. unfold unknowns. rewrite !length_replicate. lia.
  - unfold unknowns.
    replace (Z.to_nat (Z.max 0 (delta - p))) with 0%nat by lia.
    replace (Z.to_nat (Z.max 0 (p + delta + 1 - Z.of_nat (length seq))))
      with 0%nat by lia.
    simpl. by rewrite app_nil_r.
Qed.

Lemma window_ok (seq : list ascii) (delta p : Z) (P : ascii → Prop) :
  0 ≤ delta → 0 ≤ p ≤ Z.of_nat (length seq) →
  Forall P seq → P "N"%char →
  ∃ win, window seq (2 * delta + 1) delta p = Ok win
    ∧ Z.of_nat (length win) = 2 * delta + 1
    ∧ Forall P win
    ∧ ∀ q, 0 ≤ q < Z.of_nat (length seq) → p - delta ≤ q ≤ p + delta →
        win !! Z.to_nat (q - p + delta) = seq !! Z.to_nat q.
Proof.
  intros Hd Hp Hseq HN. eexists. split; [by apply window_padded|].
  set (a := Z.max 0 (p - delta)).
  set (b := Z.min (Z.of_nat (length seq)) (p + delta + 1)).
  set (lp := Z.max 0 (delta - p)).
  set (rp := Z.max 0 (p + delta + 1 - Z.of_nat (length seq))).
  assert (Hw : length (take (Z.to_nat (b - a)) (drop (Z.to_nat a) seq))
               = Z.to_nat (b - a)).
  { rewrite length_take, length_drop. lia. }
  split; [|split].
  - rewrite !length_app, Hw. unfold unknowns. rewrite !length_replicate. lia.
  - unfold unknowns. rewrite !Forall_app. split; [by apply Forall_replicate|].
    split; [|by apply Forall_replicate].
    by apply Forall_take, Forall_drop.
  - intros q Hq Hwin.
    rewrite lookup_app_r by (unfold unknowns; rewrite length_replicate; lia).
    unfold unknowns at 1. rewrite length_replicate.
    rewrite lookup_app_l by (rewrite Hw; lia).
    rewrite lookup_take_lt by lia. rewrite lookup_drop. f_equal. lia.
Qed.

(** *** The codes of a window *)

Lemma upper_char_idemp c : upper_char (upper_char c) = upper_char c.
Proof. destruct c as [[] [] [] [] [] [] [] []]; reflexivity. Qed.

Lemma char2int_ok (s : list ascii) :
  Forall (λ c, is_Some (CHAR_TO_INT (upper_char c))) s →
  ∃ codes, char2int s = Ok codes
    ∧ length codes = length s
    ∧ ∀ k c, s !! k = Some c → codes !! k = CHAR_TO_INT (upper_char c).
Proof.
  induction 1 as [|c s [x Hx] Hs (codes & Hc & Hl & Hk)]; simpl.
  { exists []. by split. }
  rewrite Hx, Hc. simpl. exists (x :: codes). split; [done|].
  split; [simpl; by rewrite Hl|].
  intros [|k] c' Hk'; simplify_eq/=; [done|]. by apply Hk.
Qed.


(** *** The loop on positions inside the sequence *)

(** The row the loop writes for index [p]: the code of the symbol at every
    index of the window that lies inside the sequence. *)
Definition window_row (seq : list ascii) (delta p : Z) (row : list Z) : Prop :=
  Z.of_nat (length row) = 2 * delta + 1
  ∧ ∀ q c, 0 ≤ q → p - delta ≤ q ≤ p + delta →
      seq !! Z.to_nat q = Some c →
      row !! Z.to_nat (q - p + delta) = CHAR_TO_INT (upper_char c).

Definition alphabet (seq : list ascii) : Prop :=
  Forall (λ c, is_Some (CHAR_TO_INT (upper_char c))) seq.

Lemma fill_windows_cons seq delta seq_index cpg_sites p1 pos i a :
  0 ≤ delta → alphabet seq →
  0 ≤ p1 - seq_index ≤ Z.of_nat (length seq) →
  (cpg_sites = true →
   py_slice seq (p1 - seq_index) (p1 - seq_index + 2) = ["C"; "G"]%char) →
  ∃ codes, window_row seq delta (p1 - seq_index) codes
    ∧ fill_windows seq (2 * delta + 1) delta seq_index cpg_sites (p1 :: pos) i a
      = fill_windows seq (2 * delta + 1) delta seq_index cpg_sites pos (S i)
          (<[i:=codes]> a).
Proof.
  intros Hd Hseq Hp Hcg.
  destruct (window_ok seq delta (p1 - seq_index)
              (λ c, is_Some (CHAR_TO_INT (upper_char c))))
    as (win & Hwin & Hlen & Hal & Hlook); [done..|by eexists|].
  destruct (char2int_ok win Hal) as (codes & Hcodes & Hcl & Hck).
  exists codes. split.
  - split; [lia|]. intros q c Hq Hqw Hc.
    apply Hck. rewrite Hlook; [done| |done].
    apply lookup_lt_Some in Hc. lia.
  - cbn [fill_windows].
    assert ((cpg_sites && negb (bool_decide
              (py_slice seq (p1 - seq_index) (p1 - seq_index + 2)
               = ["C"; "G"]%char))) = false) as ->.
    { destruct cpg_sites; [|done]. simpl. by rewrite bool_decide_true by auto. }
    rewrite Hwin. simpl. rewrite Hcodes. simpl.
    unfold assign_row. by rewrite (proj2 (Z.eqb_eq _ _)) by lia.
Qed.

Lemma fill_windows_ok seq delta seq_index cpg_sites pos i a :
  0 ≤ delta → alphabet seq →
  Forall (λ p0, 0 ≤ p0 - seq_index ≤ Z.of_nat (length seq)
                ∧ (cpg_sites = true →
                   py_slice seq (p0 - seq_index) (p0 - seq_index + 2)
                   = ["C"; "G"]%char)) pos →
  (i + length pos ≤ length a)%nat →
  ∃ a', fill_windows seq (2 * delta + 1) delta seq_index cpg_sites pos i a = Ok a'
    ∧ (∀ j, (j < i)%nat → a' !! j = a !! j)
    ∧ ∀ j p0, pos !! j = Some p0 →
        ∃ row, a' !! (i + j)%nat = Some row
               ∧ window_row seq delta (p0 - seq_index) row.
Proof.
  intros Hd Hseq Hpos. revert i a.
  induction Hpos as [|p1 pos [Hp1 Hcg] Hpos IH]; intros i a Hcap.
  { exists a. split; [done|]. split; [done|]. by intros j p0 ?. }
  simpl in Hcap.
  destruct (fill_windows_cons seq delta seq_index cpg_sites p1 pos i a)
    as (codes & Hrow & ->); [done..|].
  destruct (IH (S i) (<[i:=codes]> a)) as (a' & Ha' & Hlow & Hrows).
  { rewrite length_insert. lia. }
  exists a'. split; [done|]. split.
  - intros j Hj. rewrite Hlow by lia. apply list_lookup_insert_ne. lia.
  - intros [|j] p0 Hj; simplify_eq/=.
    + exists codes. split; [|done]. rewrite Nat.add_0_r, Hlow by lia.
      apply list_lookup_insert_eq. lia.
    + destruct (Hrows j p0 Hj) as (row & Hr & Hw). exists row.
      split; [|done]. by replace (i + S j)%nat with (S i + j)%nat by lia.
Qed.

Lemma fill_windows_raises seq delta seq_index pos k p0 i a :
  0 ≤ delta → alphabet seq →
  pos !! k = Some p0 →
  py_slice seq (p0 - seq_index) (p0 - seq_index + 2) ≠ ["C"; "G"]%char →
  (∀ j pj, (j < k)%nat → pos !! j = Some pj →
     0 ≤ pj - seq_index ≤ Z.of_nat (length seq)
     ∧ py_slice seq (pj - seq_index) (pj - seq_index + 2) = ["C"; "G"]%char) →
  fill_windows seq (2 * delta + 1) delta seq_index true pos i a
  = Raise (no_cpg (p0 - seq_index)).
Proof.
  intros Hd Hseq. revert pos i a.
  induction k as [|k IH]; intros [|p1 pos] i a Hk Hbad Hgood; try done.
  { injection Hk as ->. cbn [fill_windows].
    by rewrite bool_decide_false by done. }
  simpl in Hk.
  destruct (Hgood 0%nat p1) as [Hp1 Hcg]; [lia|done|].
  destruct (fill_windows_cons seq delta seq_index true p1 pos i a)
    as (codes & _ & Heq); [done..|].
  rewrite Heq. apply IH; [done..|].
  intros j pj Hj Hpj. apply (Hgood (S j)); [lia|done].
Qed.

Lemma first_failure {A} (P : A → Prop) `{∀ x, Decision (P x)} (l : list A) :
  ¬ Forall P l →
  ∃ k x, l !! k = Some x ∧ ¬ P x ∧ ∀ j y, (j < k)%nat → l !! j = Some y → P y.
Proof.
  induction l as [|x l IH]; intros Hn.
  { destruct Hn. constructor. }
  destruct (decide (P x)) as [Hx|Hx].
  - destruct IH as (k & y & Hk & Hy & Hlow).
    { intros Hl. apply Hn. by constructor. }
    exists (S k), y. split; [done|]. split; [done|].
    intros [|j] z Hj Hz; simplify_eq/=; [done|]. apply (Hlow j); [lia|done].
  - exists 0%nat, x. split; [done|]. split; [done|]. intros j y Hj. lia.
Qed.


(** *** The whole call on positions inside the sequence *)

Lemma foldl_max_lt (b x : Z) (xs : list Z) :
  x < b → Forall (λ y, y < b) xs → foldl Z.max x xs < b.
Proof.
  intros Hx Hxs. revert x Hx.
  induction Hxs as [|y xs Hy _ IH]; intros x Hx; simpl; [done|].
  apply IH. lia.
Qed.

Lemma np_max_lt (a : list (list Z)) (row : list Z) (x : Z) :
  row ∈ a → x ∈ row → Forall (Forall (λ y, y < 4)) a →
  ∃ m, np_max a = Ok m ∧ m < 4.
Proof.
  intros Hrow Hx Ha. unfold np_max.
  assert (Hall : Forall (λ y, y < 4) (concat a)).
  { apply Forall_forall. intros y (r & Hr & Hy)%list_elem_of_In%in_concat.
    rewrite Forall_forall in Ha. specialize (Ha r).
    rewrite Forall_forall in Ha. apply Ha; by apply list_elem_of_In. }
  destruct (concat a) as [|y ys] eqn:E.
  { assert (x ∈ concat a) as Hin.
    { apply list_elem_of_In, in_concat. exists row.
      split; by apply list_elem_of_In. }
    rewrite E in Hin. by inv Hin. }
  apply Forall_cons in Hall as [Hy Hys]. eexists. split; [done|].
  by apply foldl_max_lt.
Qed.

Lemma length_list_ascii_of_string (s : string) :
  length (String.list_ascii_of_string s) = String.length s.
Proof. induction s; simpl; congruence. Qed.

Lemma upper_alphabet (seq : string) :
  in_alphabet seq → alphabet (upper (String.list_ascii_of_string seq)).
Proof.
  unfold in_alphabet, alphabet, upper. intros H. apply Forall_fmap.
  eapply Forall_impl; [exact H|]. intros c Hc. simpl.
  by rewrite upper_char_idemp.
Qed.

Lemma upper_length (seq : string) :
  Z.of_nat (length (upper (String.list_ascii_of_string seq)))
  = Z.of_nat (String.length seq).
Proof. unfold upper. by rewrite length_fmap, length_list_ascii_of_string. Qed.

Lemma cpg_at_in_range (seq : string) (p : Z) :
  cpg_at seq p → 0 ≤ p ≤ Z.of_nat (String.length seq).
Proof.
  intros (Hp & Hc & _). apply lookup_lt_Some in Hc.
  rewrite <-upper_length. lia.
Qed.

Global Instance cpg_at_dec seq p : Decision (cpg_at seq p).
Proof. unfold cpg_at. apply _. Defined.

Lemma extract_seq_windows_ok randint (seq : string) pos delta seq_index cpg_sites :
  (∀ k, 0 ≤ randint k < 4) →
  0 ≤ delta → (cpg_sites = true → 1 ≤ delta) →
  in_alphabet seq → pos ≠ [] →
  Forall (λ p0, 0 ≤ p0 - seq_index ≤ Z.of_nat (String.length seq)
                ∧ (cpg_sites = true → cpg_at seq (p0 - seq_index))) pos →
  ∃ wins, extract_seq_windows randint seq pos (2 * delta + 1) seq_index cpg_sites
          = Ok wins.
Proof.
  intros Hr Hd Hd1 Hal Hne Hpos. unfold extract_seq_windows.
  replace ((2 * delta + 1) `div` 2) with delta.
  2:{ apply (Z.div_unique _ 2 delta 1); lia. }
  set (seq' := upper (String.list_ascii_of_string seq)).
  unfold np_zeros. destruct (Z.ltb_spec (2 * delta + 1) 0) as [?|_]; [lia|].
  cbn [bind].
  set (a0 := replicate (length pos) (replicate (Z.to_nat (2 * delta + 1)) 0)).
  destruct (fill_windows_ok seq' delta seq_index cpg_sites pos 0%nat a0)
    as (a1 & Ha1 & _ & Hrows).
  { done. }
  { by apply upper_alphabet. }
  { eapply Forall_impl; [exact Hpos|]. intros p0 [Hp Hcg].
    unfold seq'. rewrite upper_length. split; [done|]. intros Hc.
    destruct (Hcg Hc) as (Hp0 & HC & HG). by apply cpg_check. }
  { unfold a0. rewrite length_replicate. lia. }
  rewrite Ha1. cbn [bind].
  destruct (fill_windows_coded seq' (2 * delta + 1) delta seq_index cpg_sites
              pos 0%nat a0 a1) as [Hl1 Hc1]; [lia| |done|].
  { apply Forall_replicate. split; [rewrite length_replicate; lia|].
    apply Forall_replicate. lia. }
  pose proof (drawn_rows_base randint _ a1 0%nat Hr Hc1) as Hbase.
  pose proof (fill_unknown_drawn randint Hr a1 0%nat) as Hdrawn.
  set (a2 := fill_unknown randint a1 0) in *.
  (* the maximum *)
  destruct pos as [|p0 pos']; [done|].
  destruct (Hrows 0%nat p0 eq_refl) as (row0 & Hrow0 & _). simpl in Hrow0.
  destruct (Forall2_lookup_l _ _ _ _ _ Hdrawn Hrow0) as (r0 & Hr0 & _).
  assert (Hr0len : Z.of_nat (length r0) = 2 * delta + 1).
  { rewrite Forall_forall in Hbase.
    by destruct (Hbase r0 (list_elem_of_lookup_2 _ _ _ Hr0)). }
  destruct r0 as [|x r0]; [simpl in Hr0len; lia|].
  destruct (np_max_lt a2 (x :: r0) x) as (m & -> & Hm).
  { by eapply list_elem_of_lookup_2. }
  { left. }
  { eapply Forall_impl; [exact Hbase|]. intros r [_ Hb].
    eapply Forall_impl; [exact Hb|]. simpl. lia. }
  cbn [bind]. rewrite (proj2 (Z.ltb_lt m 4)) by done. cbn [py_assert bind].
  destruct cpg_sites; [|by eexists].
  specialize (Hd1 eq_refl).
  (* the two centre columns *)
  assert (Hcentre : ∀ r, r ∈ a2 →
            r !! Z.to_nat delta = Some 3 ∧ r !! Z.to_nat (delta + 1) = Some 2).
  { intros r (j & Hj)%list_elem_of_lookup_1.
    destruct (Forall2_lookup_r _ _ _ _ _ Hdrawn Hj) as (row & Hrow & _ & Hkeep & _).
    assert (j < length (p0 :: pos'))%nat as Hjlt.
    { apply lookup_lt_Some in Hrow. rewrite Hl1 in Hrow. unfold a0 in Hrow.
      by rewrite length_replicate in Hrow. }
    destruct (lookup_lt_is_Some_2 _ _ Hjlt) as [pj Hpj].
    destruct (Hrows j pj Hpj) as (row' & Hrow' & _ & Hw). simpl in Hrow'.
    assert (row' = row) as -> by congruence.
    rewrite Forall_forall in Hpos.
    destruct (Hpos pj (list_elem_of_lookup_2 _ _ _ Hpj)) as [_ Hcg].
    destruct (Hcg eq_refl) as (Hp & HC & HG). fold seq' in HC, HG. split.
    - apply Hkeep; [|done].
      pose proof (Hw (pj - seq_index) "C"%char) as Hq.
      replace (pj - seq_index - (pj - seq_index) + delta) with delta in Hq by lia.
      apply Hq; [lia|lia|done].
    - apply Hkeep; [|done].
      pose proof (Hw (pj - seq_index + 1) "G"%char) as Hq.
      replace (pj - seq_index + 1 - (pj - seq_index) + delta)
        with (delta + 1) in Hq by lia.
      apply Hq; [lia|lia|done]. }
  assert (Hcols : ∀ j x, 0 ≤ j < 2 * delta + 1 →
            (∀ r, r ∈ a2 → r !! Z.to_nat j = Some x) →
            ∃ c, column a2 (2 * delta + 1) j = Ok c ∧ all_eq c x = true).
  { intros j y Hj Hall. unfold column.
    rewrite (proj2 (Z.leb_le 0 j)), (proj2 (Z.ltb_lt j _)) by lia.
    eexists. split; [done|]. unfold all_eq. apply forallb_forall.
    intros z (r & -> & Hr')%list_elem_of_In%list_elem_of_fmap.
    rewrite (nth_lookup_Some _ _ _ _ (Hall r Hr')). apply Z.eqb_refl. }
  destruct (Hcols delta 3) as (c & Hc & Hc3); [lia|intros; by apply Hcentre|].
  rewrite Hc. cbn [bind]. rewrite Hc3. cbn [bind py_assert].
  destruct (Hcols (delta + 1) 2) as (g & Hg & Hg2);
    [lia|intros; by apply Hcentre|].
  rewrite Hg. cbn [bind]. rewrite Hg2. cbn [bind py_assert].
  by eexists.
Qed.


Lemma odd_window (wlen : Z) :
  Z.odd wlen = true → 0 < wlen →
  0 ≤ wlen `div` 2 ∧ wlen = 2 * (wlen `div` 2) + 1.
Proof.
  intros Hodd Hpos. pose proof (Z.div_mod wlen 2 ltac:(lia)) as Hdm.
  rewrite Zmod_odd, Hodd in Hdm. split; [|lia]. apply Z.div_pos; lia.
Qed.


(** C7 (amended). With the CpG check on, an odd window length of at least
    three, a sequence over the alphabet and a non-empty list of positions
    not below [seq_index]: the call returns when every position has C and G
    at its index and the next one; it raises the validation error exactly
    when some position has not; and the error it raises then names the
    0-based index [pos - seq_index] of the first such position, which for
    the default [seq_index = 1] is one less than the position that was asked
    for. *)
Theorem extract_seq_windows_cpg_check (randint : nat → Z) (seq : string)
    (pos : list Z) (wlen seq_index : Z) :
  (∀ k, 0 ≤ randint k < 4) → Z.odd wlen = true → 3 ≤ wlen →
  in_alphabet seq → pos ≠ [] → Forall (λ p0, seq_index ≤ p0) pos →
  let res := extract_seq_windows randint seq pos wlen seq_index true in
  (Forall (λ p0, cpg_at seq (p0 - seq_index)) pos → ∃ wins, res = Ok wins)
  ∧ ((∃ p, res = Raise (no_cpg p))
     ↔ Exists (λ p0, ¬ cpg_at seq (p0 - seq_index)) pos)
  ∧ (Exists (λ p0, ¬ cpg_at seq (p0 - seq_index)) pos →
     ∃ k p0, pos !! k = Some p0
       ∧ ¬ cpg_at seq (p0 - seq_index)
       ∧ (∀ j pj, (j < k)%nat → pos !! j = Some pj → cpg_at seq (pj - seq_index))
       ∧ res = Raise (ValueError
                 ("No CpG at position " +:+ fmt_d (p0 - seq_index) +:+ "!"))).
Proof.
  intros Hr Hodd H3 Hal Hne Hge res.
  destruct (odd_window wlen Hodd ltac:(lia)) as [Hd Hw].
  assert (Hok : Forall (λ p0, cpg_at seq (p0 - seq_index)) pos →
                ∃ wins, res = Ok wins).
  { intros Hall. unfold res. rewrite Hw.
    apply extract_seq_windows_ok; try done; [lia|].
    eapply Forall_impl; [exact Hall|]. intros p0 Hp0.
    split; [by apply cpg_at_in_range|done]. }
  assert (Hbad : Exists (λ p0, ¬ cpg_at seq (p0 - seq_index)) pos →
     ∃ k p0, pos !! k = Some p0
       ∧ ¬ cpg_at seq (p0 - seq_index)
       ∧ (∀ j pj, (j < k)%nat → pos !! j = Some pj → cpg_at seq (pj - seq_index))
       ∧ res = Raise (no_cpg (p0 - seq_index))).
  { intros Hex.
    destruct (first_failure (λ p0, cpg_at seq (p0 - seq_index)) pos)
      as (k & p0 & Hk & Hp0 & Hlow).
    { by apply Exists_not_Forall. }
    exists k, p0. split; [done|]. split; [done|]. split; [done|].
    unfold res, extract_seq_windows. rewrite Hw at 1.
    unfold np_zeros. destruct (Z.ltb_spec (2 * (wlen `div` 2) + 1) 0); [lia|].
    cbn [bind]. rewrite Hw at 1.
    replace ((2 * (wlen `div` 2) + 1) `div` 2) with (wlen `div` 2)
      by (apply (Z.div_unique _ 2 (wlen `div` 2) 1); lia).
    erewrite fill_windows_raises; [done|done|by apply upper_alphabet|done|..].
    - rewrite Forall_forall in Hge.
      assert (0 ≤ p0 - seq_index) as Hp.
      { specialize (Hge p0 (list_elem_of_lookup_2 _ _ _ Hk)). lia. }
      intros Hs. apply cpg_check in Hs as [HC HG]; [|done].
      apply Hp0. by split.
    - intros j pj Hj Hpj. pose proof (Hlow j pj Hj Hpj) as Hcg.
      rewrite upper_length. split; [by apply cpg_at_in_range|].
      destruct Hcg as (Hp & HC & HG). by apply cpg_check. }
  split; [done|]. split; [|done]. split.
  - intros [p Hp].
    destruct (decide (Forall (λ p0, cpg_at seq (p0 - seq_index)) pos))
      as [Hall|Hnall].
    + destruct (Hok Hall) as [wins Hwins]. congruence.
    + by apply not_Forall_Exists in Hnall; [|apply _].
  - intros Hex. destruct (Hbad Hex) as (k & p0 & _ & _ & _ & Hres). eauto.
Qed.


(** A random source for the examples: the draws 0, 1, 2, 3, 0, ... *)
Definition cycle_draws (k : nat) : Z := Z.of_nat (k `mod` 4).

Lemma cycle_draws_range (k : nat) : 0 ≤ cycle_draws k < 4.
Proof.
  unfold cycle_draws. pose proof (Nat.mod_upper_bound k 4). lia.
Qed.


Example extract_seq_windows_padded :
  extract_seq_windows cycle_draws "aacgtacgnn" [1; 10; 11] 3 1 false
  = Ok [[0; 0; 0]; [1; 2; 3]; [0; 1; 2]].
Proof. vm_compute. reflexivity. Qed.

Lemma extract_seq_windows_cpg_check_witness :
  (∃ wins, extract_seq_windows cycle_draws "aacgtacgnn" [3; 7] 5 1 true = Ok wins)
  ∧ (∃ p, extract_seq_windows cycle_draws "aacgtacgnn" [3; 8; 5] 5 1 true
          = Raise (no_cpg p))
  ∧ ∃ k p0, [3; 8; 5] !! k = Some p0
      ∧ ¬ cpg_at "aacgtacgnn" (p0 - 1)
      ∧ (∀ j pj, (j < k)%nat → [3; 8; 5] !! j = Some pj →
           cpg_at "aacgtacgnn" (pj - 1))
      ∧ extract_seq_windows cycle_draws "aacgtacgnn" [3; 8; 5] 5 1 true
        = Raise (ValueError
                   ("No CpG at position " +:+ fmt_d (p0 - 1) +:+ "!")).
Proof.
  assert (Hal : in_alphabet "aacgtacgnn").
  { unfold in_alphabet. simpl. repeat constructor; by eexists. }
  assert (Hbad : Exists (λ p0, ¬ cpg_at "aacgtacgnn" (p0 - 1)) [3; 8; 5]).
  { apply Exists_cons_tl, Exists_cons_hd. intros (_ & HC & _). discriminate. }
  destruct (extract_seq_windows_cpg_check cycle_draws "aacgtacgnn" [3; 7] 5 1)
    as (Hok & _ & _);
    [exact cycle_draws_range|reflexivity|lia|exact Hal|discriminate
    |repeat constructor; lia|].
  destruct (extract_seq_windows_cpg_check cycle_draws "aacgtacgnn" [3; 8; 5] 5 1)
    as (_ & Hiff & Hfirst);
    [exact cycle_draws_range|reflexivity|lia|exact Hal|discriminate
    |repeat constructor; lia|].
  split; [|split].
  - apply Hok. repeat constructor; simpl; lia.
  - by apply Hiff.
  - by apply Hfirst.
Defined.

Example extract_seq_windows_cpg_ok :
  extract_seq_windows cycle_draws "aacgtacgnn" [3; 7] 5 1 true
  = Ok [[0; 0; 3; 2; 1]; [1; 0; 3; 2; 0]].
Proof. vm_compute. reflexivity. Qed.

(** C7, as stated, fails in five ways.  The error names the index, not the
    position: asked for the positions 3, 8 and 5 with [seq_index = 1], the
    call complains about position 7.  Without a position the call raises
    although no position lacks its CpG: the maximum of line 91 is taken of
    an empty array.  With a window of one symbol it raises although every
    position has its CpG: the window has no column for the G of line 94.
    With a window of four symbols it raises a validation error that is not
    about a CpG: the slice of line 82 has five symbols, one more than a row
    of line 87 takes.  And it returns for the position -2, which lies before the sequence and
    has no symbols: the slices of lines 80 and 82 count the index -3 from
    the end. *)
Lemma extract_seq_windows_cpg_claim_fails :
  extract_seq_windows cycle_draws "aacgtacgnn" [3; 8; 5] 5 1 true
  = Raise (ValueError "No CpG at position 7!")
  ∧ extract_seq_windows cycle_draws "aacgtacgnn" [] 5 1 true
    = Raise (ValueError
               "zero-size array to reduction operation maximum which has no identity")
  ∧ (Forall (λ p0, cpg_at "aacgtacgnn" (p0 - 1)) [3; 7]
     ∧ extract_seq_windows cycle_draws "aacgtacgnn" [3; 7] 1 1 true
       = Raise IndexError)
  ∧ (∃ msg, extract_seq_windows cycle_draws "aacgtacgnn" [3; 7] 4 1 true
            = Raise (ValueError msg)
            ∧ msg ≠ "No CpG at position 2!" ∧ msg ≠ "No CpG at position 6!")
  ∧ (¬ cpg_at "acgt" (-2 - 1)
     ∧ extract_seq_windows cycle_draws "acgt" [-2] 3 1 true = Ok [[0; 3; 2]]).
Proof.
  split; [vm_compute; reflexivity|]. split; [vm_compute; reflexivity|]. split; [|split].
  - split; [|vm_compute; reflexivity]. repeat constructor; simpl; lia.
  - eexists. split; [vm_compute; reflexivity|]. split; discriminate.
  - split; [|vm_compute; reflexivity]. intros [Hp _]. lia.
Qed.

End SeqWin.

(** ** Argument checks: the head of [App.main], [scripts/dcpg_data.py] *)

Module Args.

(** The parsed options the checks read ([None] when the flag is absent). *)
Record options : Type := {
  dna_db : option string;
  dna_wlen : option Z;
  cpg_profiles : option (list string);
  bulk_profiles : option (list string);
  cpg_wlen : option Z;
  pos_file : option string;
}.

(** Truth values of the option types. *)
Definition truthy_str (o : option string) : bool :=
  match o with Some s => negb (bool_decide (s = "")) | None => false end.
Definition truthy_list (o : option (list string)) : bool :=
  match o with Some (_ :: _) => true | _ => false end.
Definition truthy_int (o : option Z) : bool :=
  match o with Some n => negb (n =? 0) | None => false end.

(** What stands after [raise]: an exception instance or, as in lines 291
    and 293, a plain string. *)
Inductive raised : Type :=
  | ExnObject (e : exn)
  | StrObject (s : string).

(** [raise o]: Python refuses to raise what is not an exception and raises
    [TypeError] in its place. *)
Definition py_raise {A} (o : raised) : result A :=
  match o with
  | ExnObject e => Raise e
  | StrObject _ => Raise (TypeError "exceptions must derive from BaseException")
  end.

(** Lines 285-293; [Ok tt] lets [main] go on to read the profiles. *)
Definition check_args (opts : options) : result unit :=
  do _ <- (if negb (truthy_list (cpg_profiles opts) || truthy_list (bulk_profiles opts))
           then if negb (truthy_str (pos_file opts) || truthy_str (dna_db opts))
                then py_raise (ExnObject
                       (ValueError "Position table and DNA database expected!"))
                else Ok tt
           else Ok tt);
  do _ <- (if truthy_int (dna_wlen opts) && (default 0 (dna_wlen opts) `mod` 2 =? 0)
           then py_raise (StrObject "--dna_wlen must be odd!")
           else Ok tt);
  do _ <- (if truthy_int (cpg_wlen opts) && negb (default 0 (cpg_wlen opts) `mod` 2 =? 0)
           then py_raise (StrObject "--cpg_wlen must be even!")
           else Ok tt);
  Ok tt.

(** Is [sub] a substring of [s]? *)
Fixpoint contains (sub s : string) : bool :=
  String.prefix sub s ||
  match s with
  | EmptyString => false
  | String _ s' => contains sub s'
  end.

Definition dna_run : options :=
  {| dna_db := Some "mm10.fa"; dna_wlen := Some 500;
     cpg_profiles := Some ["cell1.bed"]; bulk_profiles := None;
     cpg_wlen := None; pos_file := None |}.

Definition cpg_run : options :=
  {| dna_db := Some "mm10.fa"; dna_wlen := Some 501;
     cpg_profiles := Some ["cell1.bed"]; bulk_profiles := None;
     cpg_wlen := Some 51; pos_file := None |}.

(** The run stops at the check whenever the DNA window length is even and
    not zero, or the neighbour window length is odd, once the first check
    has passed; it stops with the same [TypeError] in both cases. *)
Lemma check_args_fails_fast (opts : options) :
  truthy_list (cpg_profiles opts) || truthy_list (bulk_profiles opts) = true →
  (∃ n, dna_wlen opts = Some n ∧ n ≠ 0 ∧ n `mod` 2 = 0)
  ∨ (∃ n, cpg_wlen opts = Some n ∧ n `mod` 2 ≠ 0) →
  check_args opts = Raise (TypeError "exceptions must derive from BaseException").
Proof.
  intros Hp Hw. unfold check_args. rewrite Hp. simpl.
  destruct Hw as [(n & Hn & Hn0 & Hmod)|(n & Hn & Hmod)].
  - rewrite Hn. simpl. rewrite Hmod.
    by rewrite (proj2 (Z.eqb_neq n 0)) by done.
  - destruct (truthy_int (dna_wlen opts) && _); [done|]. simpl.
    rewrite Hn. simpl.
    assert (n ≠ 0) by (intros ->; by apply Hmod).
    rewrite (proj2 (Z.eqb_neq n 0)) by done.
    by rewrite (proj2 (Z.eqb_neq (n `mod` 2) 0)) by done.
Qed.

(** C4 (the code departs from the claim). A run with the even DNA window
    length 500 does stop at the check, before anything is read, but not with
    the error the code spells out: [raise] is given a plain string, so
    Python raises [TypeError] with its own message, which names no option;
    a run with the odd neighbour window length 51 stops with the very same
    error. *)
Theorem check_args_raises_type_error :
  check_args dna_run
  = Raise (TypeError "exceptions must derive from BaseException")
  ∧ check_args cpg_run = check_args dna_run
  ∧ contains "dna_wlen" "exceptions must derive from BaseException" = false
  ∧ contains "cpg_wlen" "exceptions must derive from BaseException" = false.
Proof. vm_compute. repeat split; reflexivity. Qed.

End Args.

(** ** Nested writer: [write_data] of [deepcpg/data/hdf.py] *)

Module HdfWrite.
Section write_data.
(** The arrays stored as datasets. *)
Context {V : Type}.

(** The nested mapping [data]: its items in the order of [dict.items()],
    every value an array or a mapping again. *)
Inductive pyvalue : Type :=
  | Leaf (v : V)
  | Dict (items : pydict)
with pydict : Type :=
  | DNil
  | DItem (key : string) (value : pyvalue) (rest : pydict).

(** What a file holds at a path below its root group [[]]. *)
Inductive entry : Type :=
  | IsGroup
  | IsDataset (v : V).

(** The files on disk and the names of the files that are open. *)
Record h5_state : Type := {
  disk : gmap string (gmap (list string) entry);
  open_files : gset string;
}.

(** A group handle: the file it lives in and the path of the group. *)
Definition handle : Type := string * list string.

(** The second argument of [write_data]: a file name or a group handle. *)
Inductive dest : Type :=
  | FileName (filename : string)
  | GroupHandle (group : handle).

(** The members of the file behind an open, valid handle. *)
Definition members (σ : h5_state) (g : handle) : result (gmap (list string) entry) :=
  if bool_decide (g.1 ∈ open_files σ) then
    match disk σ !! g.1 with
    | Some m =>
        match m !! g.2 with
        | Some IsGroup => Ok m
        | _ => Raise (ValueError "Invalid location identifier")
        end
    | None => Raise (ValueError "Invalid location identifier")
    end
  else Raise (ValueError "Invalid location identifier").

Definition put (σ : h5_state) (f : string) (m : gmap (list string) entry)
    : h5_state :=
  {| disk := <[f:=m]> (disk σ); open_files := open_files σ |}.

(** [h5.File(filename, 'w')]: a new, empty file that is open; HDF5 refuses
    to truncate a file that is open already. *)
Definition h5_File_w (filename : string) (σ : h5_state) : result (handle * h5_state) :=
  if bool_decide (filename ∈ open_files σ)
  then Raise (OSError "Unable to truncate a file which is already open")
  else Ok ((filename, []),
           {| disk := <[filename:={[ [] := IsGroup ]}]> (disk σ);
              open_files := {[filename]} ∪ open_files σ |}).

(** [group.close()] on a file object. *)
Definition h5_close (g : handle) (σ : h5_state) : h5_state :=
  {| disk := disk σ; open_files := open_files σ ∖ {[g.1]} |}.

(** HDF5 reads a name as a path.  These are the words of a name between
    its slashes. *)
Fixpoint split_path (key : string) : list string :=
  match key with
  | EmptyString => [EmptyString]
  | String c key' =>
      if bool_decide (c = "/"%char) then EmptyString :: split_path key'
      else match split_path key' with
           | w :: ws => String c w :: ws
           | [] => [String c EmptyString]
           end
  end.

(** The components of a path: the empty words (a slash at an end, slashes
    in a row) and the word [.], which is the group itself, are passed
    over. *)
Definition components (key : string) : list string :=
  filter (λ w, w ≠ EmptyString ∧ w ≠ ".") (split_path key).

(** A name that starts with a slash is read from the root group of the
    file, any other name from the group of the handle. *)
Definition absolute (key : string) : bool :=
  match key with
  | String c _ => bool_decide (c = "/"%char)
  | EmptyString => false
  end.
Definition start_of (g : handle) (key : string) : list string :=
  if absolute key then [] else g.2.

(** The path at which a name of the group [g] ends. *)
Definition target (g : handle) (key : string) : list string :=
  start_of g key ++ components key.

(** A new link [e] at the end of the path [comps] below [p]: the groups on
    the way are made where they are missing (h5py asks HDF5 for that), a
    dataset on the way blocks the path, and the last name must be free.  A
    path without components is the group [p] itself, which is there
    already. *)
Fixpoint link (taken blocked : exn) (m : gmap (list string) entry)
    (p comps : list string) (e : entry)
    : result (list string * gmap (list string) entry) :=
  match comps with
  | [] => Raise taken
  | c :: cs =>
      let q := p ++ [c] in
      match cs with
      | [] =>
          match m !! q with
          | Some _ => Raise taken
          | None => Ok (q, <[q:=e]> m)
          end
      | _ :: _ =>
          match m !! q with
          | Some IsGroup => link taken blocked m q cs e
          | Some (IsDataset _) => Raise blocked
          | None => link taken blocked (<[q:=IsGroup]> m) q cs e
          end
      end
  end.

(** [group.create_group(key)]; the texts of the errors are those of
    HDF5. *)
Definition create_group (g : handle) (key : string) (σ : h5_state)
    : result (handle * h5_state) :=
  do m <- members σ g;
  if bool_decide (key = EmptyString)
  then Raise (ValueError "Name parameter cannot be an empty string")
  else
    do r <- link (ValueError "Unable to create group (name already exists)")
              (ValueError "Unable to create group (message type not found)")
              m (start_of g key) (components key) IsGroup;
    Ok ((g.1, r.1), put σ g.1 r.2).

(** [group[key] = value] for an array [value]. *)
Definition set_item (g : handle) (key : string) (v : V) (σ : h5_state)
    : result h5_state :=
  do m <- members σ g;
  if bool_decide (key = EmptyString)
  then Raise (ValueError "Name parameter cannot be an empty string")
  else
    do r <- link (OSError "Unable to create link (name already exists)")
              (OSError "Unable to create link (message type not found)")
              m (start_of g key) (components key) (IsDataset v);
    Ok (put σ g.1 r.2).

(** [write_data(data, filename)].  The recursive call of line 44 passes
    the new group, so that [is_root] is false in it. *)
Fixpoint write_data (data : pydict) (filename : dest) (σ : h5_state)
    {struct data} : result h5_state :=
  let is_root := match filename with FileName _ => true | GroupHandle _ => false end in
  do r <- (match filename with
           | FileName s => h5_File_w s σ
           | GroupHandle group => Ok (group, σ)
           end);
  let group := r.1 in
  do σ <- (fix items (data : pydict) (σ : h5_state) : result h5_state :=
             match data with
             | DNil => Ok σ
             | DItem key value rest =>
                 do σ <- (match value with
                          | Dict d =>
                              do kg <- create_group group key σ;
                              write_data d (GroupHandle kg.1) kg.2
                          | Leaf v => set_item group key v σ
                          end);
                 items rest σ
             end) data r.2;
  if is_root then Ok (h5_close group σ) else Ok σ.

(** The loop of lines 41-46 on its own. *)
Fixpoint write_items (group : handle) (data : pydict) (σ : h5_state)
    : result h5_state :=
  match data with
  | DNil => Ok σ
  | DItem key value rest =>
      do σ <- (match value with
               | Dict d =>
                   do kg <- create_group group key σ;
                   write_data d (GroupHandle kg.1) kg.2
               | Leaf v => set_item group key v σ
               end);
      write_items group rest σ
  end.

(** The keys of a mapping, in order. *)
Fixpoint keys (data : pydict) : list string :=
  match data with
  | DNil => []
  | DItem key _ rest => key :: keys rest
  end.

(** The items of [data] are stored in the group at [g]: a dataset with the
    array, or a group with the items of the nested mapping stored in it. *)
Fixpoint stored (m : gmap (list string) entry) (g : list string) (data : pydict)
    : Prop :=
  match data with
  | DNil => True
  | DItem key value rest =>
      (match value with
       | Leaf v => m !! (g ++ [key]) = Some (IsDataset v)
       | Dict d => m !! (g ++ [key]) = Some IsGroup ∧ stored m (g ++ [key]) d
       end)
      ∧ stored m g rest
  end.

(** The keys of a Python dictionary are distinct, at every level. *)
Fixpoint distinct_keys (data : pydict) : Prop :=
  match data with
  | DNil => True
  | DItem key value rest =>
      (key ∉ keys rest)
      ∧ (match value with
         | Leaf _ => True
         | Dict d => distinct_keys d
         end)
      ∧ distinct_keys rest
  end.

(** Every path of a file hangs off an existing path, so that a name that
    is free in a group has nothing below it. *)
Definition closed_below (m : gmap (list string) entry) : Prop :=
  ∀ p k, is_Some (m !! (p ++ [k])) → is_Some (m !! p).

(** The keys are plain names: h5py reads a key with a slash as a path. *)
Fixpoint plain_keys (data : pydict) : Prop :=
  match data with
  | DNil => True
  | DItem key value rest =>
      Args.contains "/" key = false
      ∧ (match value with
         | Leaf _ => True
         | Dict d => plain_keys d
         end)
      ∧ plain_keys rest
  end.

(** A name of one component: without a slash, not empty and not [.]. *)
Definition plain_name (key : string) : Prop :=
  Args.contains "/" key = false ∧ key ≠ EmptyString ∧ key ≠ ".".

(** Every key, at every level, is a name of one component. *)
Fixpoint plain_names (data : pydict) : Prop :=
  match data with
  | DNil => True
  | DItem key value rest =>
      plain_name key
      ∧ (match value with
         | Leaf _ => True
         | Dict d => plain_names d
         end)
      ∧ plain_names rest
  end.

(** The contents of file [f], empty when there is no such file. *)
Definition file (σ : h5_state) (f : string) : gmap (list string) entry :=
  default ∅ (disk σ !! f).

Definition is_root (filename : dest) : bool :=
  match filename with FileName _ => true | GroupHandle _ => false end.
Definition dest_file (filename : dest) : string :=
  match filename with FileName s => s | GroupHandle g => g.1 end.
Definition dest_path (filename : dest) : list string :=
  match filename with FileName _ => [] | GroupHandle g => g.2 end.

End write_data.
Global Arguments pyvalue : clear implicits.
Global Arguments pydict : clear implicits.
Global Arguments entry : clear implicits.
Global Arguments h5_state : clear implicits.

Section write_facts.
Context {V : Type}.
Implicit Types (data d : pydict V) (σ : h5_state V) (g : handle)
  (m : gmap (list string) (entry V)).

Scheme pyvalue_mut := Induction for pyvalue Sort Prop
  with pydict_mut := Induction for pydict Sort Prop.

Lemma write_data_group data g σ :
  write_data data (GroupHandle g) σ = write_items g data σ.
Proof.
  destruct data as [|key value rest]; [done|].
  cbn [write_data write_items bind fst snd].
  destruct (match value with
            | Leaf v => set_item g key v σ
            | Dict d => _
            end) as [σ1|e]; [|done]. cbn [bind].
  generalize σ1. clear. induction rest as [|k v rest IH]; intros σ; [done|].
  cbn [write_items].
  destruct (match v with
            | Leaf x => set_item g k x σ
            | Dict d => _
            end) as [σ1|e]; [|done]. cbn [bind]. apply IH.
Qed.


Lemma write_data_root data s σ :
  write_data data (FileName s) σ
  = (do r <- h5_File_w s σ;
     do σ' <- write_items r.1 data r.2;
     Ok (h5_close r.1 σ')).
Proof.
  destruct data as [|key value rest].
  { cbn [write_data write_items]. by destruct (h5_File_w s σ). }
  cbn [write_data write_items]. destruct (h5_File_w s σ) as [[g σ0]|e]; [|done].
  cbn [bind fst snd].
  destruct (match value with
            | Leaf v => set_item g key v σ0
            | Dict d => _
            end) as [σ1|e]; [|done]. cbn [bind].
  generalize σ1. clear. induction rest as [|k v rest IH]; intros σ; [done|].
  cbn [write_items].
  destruct (match v with
            | Leaf x => set_item g k x σ
            | Dict d => _
            end) as [σ1|e]; [|done]. cbn [bind]. apply IH.
Qed.

Lemma file_put σ f m : file (put σ f m) f = m.
Proof. unfold file, put. simpl. by rewrite lookup_insert_eq. Qed.

Lemma members_inv σ g m :
  members σ g = Ok m →
  g.1 ∈ open_files σ ∧ disk σ !! g.1 = Some m ∧ m !! g.2 = Some IsGroup.
Proof.
  unfold members. case_bool_decide; [|done].
  destruct (disk σ !! g.1) as [m0|]; [|done].
  destruct (m0 !! g.2) as [[|v]|] eqn:E; try done. by intros [= <-].
Qed.

Lemma members_valid σ g m :
  g.1 ∈ open_files σ → disk σ !! g.1 = Some m → m !! g.2 = Some IsGroup →
  members σ g = Ok m.
Proof.
  intros Ho Hd Hg. unfold members. rewrite bool_decide_true by done.
  by rewrite Hd, Hg.
Qed.

(** *** Path names *)

Lemma no_slash_cons (c : ascii) (s : string) :
  Args.contains "/" (String c s) = false
  ↔ c ≠ "/"%char ∧ Args.contains "/" s = false.
Proof.
  cbn [Args.contains String.prefix].
  destruct (Ascii.ascii_dec "/"%char c) as [<-|Hne].
  - split; [|by intros [? _]]. by destruct s.
  - rewrite orb_false_l. split; [by intros ?|by intros [_ ?]].
Qed.

Lemma split_path_plain (key : string) :
  Args.contains "/" key = false → split_path key = [key].
Proof.
  induction key as [|c key IH]; [done|].
  intros [Hc Hkey]%no_slash_cons. cbn [split_path].
  rewrite bool_decide_false by done. by rewrite IH.
Qed.

Lemma start_of_plain g (key : string) :
  Args.contains "/" key = false → start_of g key = g.2.
Proof.
  unfold start_of, absolute. destruct key as [|c key]; [done|].
  intros [Hc _]%no_slash_cons. by rewrite bool_decide_false.
Qed.

Lemma components_plain (key : string) : plain_name key → components key = [key].
Proof.
  intros (Hs & He & Hd). unfold components. rewrite split_path_plain by done.
  by rewrite filter_cons_True.
Qed.

Lemma target_plain g (key : string) : plain_name key → target g key = g.2 ++ [key].
Proof.
  intros Hk. unfold target. rewrite components_plain by done.
  by rewrite start_of_plain by apply Hk.
Qed.

(** A name without a slash has its own name as its one component, or none
    at all. *)
Lemma components_no_slash (key : string) :
  Args.contains "/" key = false → components key ≠ [] → plain_name key.
Proof.
  intros Hs Hc. unfold components in Hc. rewrite split_path_plain in Hc by done.
  split; [done|].
  destruct (decide (key ≠ EmptyString ∧ key ≠ ".")) as [?|Hn]; [done|].
  by rewrite filter_cons_False in Hc.
Qed.

Lemma plain_names_keys data : plain_names data → plain_keys data.
Proof.
  induction data using pydict_mut
    with (P := λ value, match value with
                        | Leaf _ => True
                        | Dict d => plain_names d → plain_keys d
                        end); try done.
  intros ((Hk & _) & Hv & Hr). split; [done|]. split; [|by apply IHdata0].
  destruct value; [done|by apply IHdata].
Qed.

(** What a new link leaves: the link at the end of the path, which was free,
    and everything that was there before. *)
Lemma link_inv (taken blocked : exn) m (p comps : list string) (e : entry V) q m' :
  link taken blocked m p comps e = Ok (q, m') →
  q = p ++ comps ∧ comps ≠ [] ∧ m !! q = None ∧ m' !! q = Some e ∧ m ⊆ m'.
Proof.
  revert m p. induction comps as [|c cs IH]; intros m p; [done|].
  cbn [link]. destruct cs as [|c' cs'].
  - destruct (m !! (p ++ [c])) eqn:E; [done|]. intros [= <- <-].
    split; [done|]. split; [done|]. split; [done|].
    split; [apply lookup_insert_eq|by apply insert_subseteq].
  - assert (Hq : p ++ c :: c' :: cs' = (p ++ [c]) ++ c' :: cs')
      by (by rewrite <-app_assoc).
    assert (Hne : (p ++ [c]) ++ c' :: cs' ≠ p ++ [c]).
    { intros H. apply (f_equal length) in H. rewrite !length_app in H.
      simpl in H. lia. }
    destruct (m !! (p ++ [c])) as [[|v]|] eqn:E; [|done|].
    + intros (-> & _ & Hfree & Hnew & Hsub)%IH. by rewrite Hq.
    + intros (-> & _ & Hfree & Hnew & Hsub)%IH. rewrite Hq.
      split; [done|]. split; [done|].
      rewrite lookup_insert_ne in Hfree by done. split; [done|].
      split; [done|]. etransitivity; [|exact Hsub]. by apply insert_subseteq.
Qed.

(** For a name of one component the two calls look at the name in the
    group, and put the new entry there when the name is free. *)
Lemma create_group_plain g (key : string) σ :
  plain_name key →
  create_group g key σ
  = (do m <- members σ g;
     match m !! (g.2 ++ [key]) with
     | Some _ => Raise (ValueError "Unable to create group (name already exists)")
     | None => Ok ((g.1, g.2 ++ [key]), put σ g.1 (<[g.2 ++ [key]:=IsGroup]> m))
     end).
Proof.
  intros Hk. unfold create_group. destruct (members σ g) as [m|]; [|done].
  cbn [bind]. rewrite bool_decide_false by apply Hk.
  rewrite components_plain, start_of_plain by (done || apply Hk).
  cbn [link]. by destruct (m !! (g.2 ++ [key])).
Qed.

Lemma set_item_plain g (key : string) (v : V) σ :
  plain_name key →
  set_item g key v σ
  = (do m <- members σ g;
     match m !! (g.2 ++ [key]) with
     | Some _ => Raise (OSError "Unable to create link (name already exists)")
     | None => Ok (put σ g.1 (<[g.2 ++ [key]:=IsDataset v]> m))
     end).
Proof.
  intros Hk. unfold set_item. destruct (members σ g) as [m|]; [|done].
  cbn [bind]. rewrite bool_decide_false by apply Hk.
  rewrite components_plain, start_of_plain by (done || apply Hk).
  cbn [link]. by destruct (m !! (g.2 ++ [key])).
Qed.

Lemma create_group_inv g key σ kg σ1 :
  create_group g key σ = Ok (kg, σ1) →
  ∃ m m', members σ g = Ok m
    ∧ kg = (g.1, target g key) ∧ σ1 = put σ g.1 m'
    ∧ m !! target g key = None ∧ m' !! target g key = Some IsGroup ∧ m ⊆ m'
    ∧ (Args.contains "/" key = false → plain_name key).
Proof.
  unfold create_group. destruct (members σ g) as [m|]; [|done]. cbn [bind].
  case_bool_decide; [done|].
  destruct (link _ _ m _ _ _) as [[q m']|] eqn:Hl; [|done]. cbn [bind fst snd].
  intros [= <- <-].
  apply link_inv in Hl as (-> & Hc & Hfree & Hnew & Hsub).
  exists m, m'. repeat split; try done; by apply components_no_slash.
Qed.

Lemma set_item_inv g key v σ σ1 :
  set_item g key v σ = Ok σ1 →
  ∃ m m', members σ g = Ok m ∧ σ1 = put σ g.1 m'
    ∧ m !! target g key = None ∧ m' !! target g key = Some (IsDataset v)
    ∧ m ⊆ m'
    ∧ (Args.contains "/" key = false → plain_name key).
Proof.
  unfold set_item. destruct (members σ g) as [m|]; [|done]. cbn [bind].
  case_bool_decide; [done|].
  destruct (link _ _ m _ _ _) as [[q m']|] eqn:Hl; [|done]. cbn [bind fst snd].
  intros [= <-].
  apply link_inv in Hl as (-> & Hc & Hfree & Hnew & Hsub).
  exists m, m'. repeat split; try done; by apply components_no_slash.
Qed.

(** The same for a name without a slash, in the shape of the file. *)
Lemma create_group_inv_plain g key σ kg σ1 :
  Args.contains "/" key = false →
  create_group g key σ = Ok (kg, σ1) →
  ∃ m, members σ g = Ok m ∧ m !! (g.2 ++ [key]) = None
    ∧ kg = (g.1, g.2 ++ [key])
    ∧ σ1 = put σ g.1 (<[g.2 ++ [key]:=IsGroup]> m).
Proof.
  intros Hs Hcg.
  assert (Hk : plain_name key).
  { destruct (create_group_inv _ _ _ _ _ Hcg) as (m0 & m1 & H). by apply H. }
  rewrite create_group_plain in Hcg by done.
  destruct (members σ g) as [m|]; [|done]. cbn [bind] in Hcg.
  destruct (m !! (g.2 ++ [key])) eqn:E; [done|]. injection Hcg as <- <-.
  by exists m.
Qed.

Lemma set_item_inv_plain g key v σ σ1 :
  Args.contains "/" key = false →
  set_item g key v σ = Ok σ1 →
  ∃ m, members σ g = Ok m ∧ m !! (g.2 ++ [key]) = None
    ∧ σ1 = put σ g.1 (<[g.2 ++ [key]:=IsDataset v]> m).
Proof.
  intros Hs Hsi.
  assert (Hk : plain_name key).
  { destruct (set_item_inv _ _ _ _ _ Hsi) as (m0 & m1 & H). by apply H. }
  rewrite set_item_plain in Hsi by done.
  destruct (members σ g) as [m|]; [|done]. cbn [bind] in Hsi.
  destruct (m !! (g.2 ++ [key])) eqn:E; [done|]. injection Hsi as <-.
  by exists m.
Qed.

Lemma stored_mono data m m' p : m ⊆ m' → stored m p data → stored m' p data.
Proof.
  intros Hsub. revert p.
  induction data using pydict_mut
    with (P := λ value, match value with
                        | Leaf _ => True
                        | Dict d => ∀ p, stored m p d → stored m' p d
                        end); try done.
  intros p [Hv Hrest]. split; [|by apply IHdata0].
  destruct value as [v|d].
  - by eapply lookup_weaken.
  - destruct Hv as [Hg Hd]. split; [by eapply lookup_weaken|by apply IHdata].
Qed.

(** What a round of the loop leaves behind when it returns: the same files
    open, the other files as they were, the file of the group grown, and,
    for keys without a slash, the items stored in the group. *)
Lemma write_items_frame data g σ σ' :
  write_items g data σ = Ok σ' →
  open_files σ' = open_files σ
  ∧ (∀ f, f ≠ g.1 → disk σ' !! f = disk σ !! f)
  ∧ file σ g.1 ⊆ file σ' g.1
  ∧ (plain_keys data → stored (file σ' g.1) g.2 data).
Proof.
  revert g σ σ'.
  induction data using pydict_mut
    with (P := λ value, match value with
                        | Leaf _ => True
                        | Dict d => ∀ g σ σ', write_items g d σ = Ok σ' →
                            open_files σ' = open_files σ
                            ∧ (∀ f, f ≠ g.1 → disk σ' !! f = disk σ !! f)
                            ∧ file σ g.1 ⊆ file σ' g.1
                            ∧ (plain_keys d → stored (file σ' g.1) g.2 d)
                        end); try done.
  { intros g σ σ' [= <-]. by repeat split. }
  intros g σ σ'. cbn [write_items].
  destruct value as [v|d].
  - destruct (set_item g key v σ) as [σ1|] eqn:H1; [|done]. cbn [bind].
    intros Hrest.
    apply set_item_inv in H1 as (m & m' & Hm & -> & Hfree & Hnew & Hsub0 & Hk).
    apply members_inv in Hm as (Ho & Hd & Hg).
    destruct (IHdata0 _ _ _ Hrest) as (Hopen & Hother & Hsub & Hst).
    rewrite file_put in Hsub. split; [done|]. split.
    { intros f Hf. rewrite Hother by done. simpl. by rewrite lookup_insert_ne. }
    split.
    { etransitivity; [|exact Hsub]. unfold file. by rewrite Hd. }
    intros (Hs & _ & Hpr). split; [|by apply Hst].
    rewrite <-(target_plain g key) by by apply Hk.
    by eapply lookup_weaken.
  - destruct (create_group g key σ) as [[kg σ1]|] eqn:H1; [|done].
    cbn [bind fst snd]. rewrite write_data_group.
    destruct (write_items kg d σ1) as [σ2|] eqn:H2; [|done]. cbn [bind].
    intros Hrest.
    apply create_group_inv in H1
      as (m & m' & Hm & -> & -> & Hfree & Hnew & Hsub0 & Hk).
    apply members_inv in Hm as (Ho & Hd & Hg).
    destruct (IHdata _ _ _ H2) as (Hopen2 & Hother2 & Hsub2 & Hst2).
    destruct (IHdata0 _ _ _ Hrest) as (Hopen & Hother & Hsub & Hst).
    cbn [fst snd] in Hsub2, Hst2, Hother2. rewrite file_put in Hsub2.
    split; [by rewrite Hopen, Hopen2|]. split.
    { intros f Hf. rewrite Hother, Hother2 by done. simpl.
      by rewrite lookup_insert_ne. }
    split.
    { etransitivity; [|exact Hsub]. etransitivity; [|exact Hsub2].
      unfold file. by rewrite Hd. }
    intros (Hs & Hpd & Hpr). split; [|by apply Hst].
    rewrite <-(target_plain g key) by by apply Hk. split.
    + eapply lookup_weaken; [|exact Hsub]. by eapply lookup_weaken.
    + eapply stored_mono; [exact Hsub|]. by apply Hst2.
Qed.


(** The handle [g] is open and names a group of a well-formed file. *)
Definition valid (g : handle) σ m : Prop :=
  g.1 ∈ open_files σ ∧ disk σ !! g.1 = Some m
  ∧ m !! g.2 = Some IsGroup ∧ closed_below m.

Lemma app_single_ne {A} (p : list A) (k : A) : p ++ [k] ≠ p.
Proof. intros H. apply (f_equal length) in H. rewrite length_app in H. simpl in H. lia. Qed.

Lemma closed_below_insert m p k (e : entry V) :
  closed_below m → is_Some (m !! p) → closed_below (<[p ++ [k]:=e]> m).
Proof.
  intros Hc Hp q k' Hq.
  destruct (decide (p ++ [k] = q ++ [k'])) as [Heq|Hne].
  - apply app_inj_tail in Heq as [<- _]. rewrite lookup_insert_ne; [done|].
    apply app_single_ne.
  - rewrite lookup_insert_ne in Hq by done. apply Hc in Hq.
    destruct (decide (p ++ [k] = q)) as [<-|Hne'].
    + rewrite lookup_insert_eq. by eexists.
    + by rewrite lookup_insert_ne.
Qed.

Lemma valid_put g σ m p k (e : entry V) :
  valid g σ m → is_Some (m !! p) →
  valid g (put σ g.1 (<[p ++ [k]:=e]> m)) (<[p ++ [k]:=e]> m)
  ∨ g.2 = p ++ [k].
Proof.
  intros (Ho & Hd & Hg & Hc) Hp.
  destruct (decide (g.2 = p ++ [k])) as [?|Hne]; [by right|left].
  split; [done|]. split; [simpl; apply lookup_insert_eq|].
  split; [by rewrite lookup_insert_ne|by apply closed_below_insert].
Qed.

Lemma prefix_single_ne {A} (p : list A) (k k' : A) :
  k ≠ k' → ¬ (p ++ [k]) `prefix_of` (p ++ [k']).
Proof.
  intros Hne [r Hr]. rewrite <-app_assoc in Hr. apply app_inv_head in Hr.
  simpl in Hr. congruence.
Qed.

Lemma prefix_longer {A} (p q : list A) :
  (length q < length p)%nat → ¬ p `prefix_of` q.
Proof. intros Hl Hp%prefix_length. lia. Qed.

(** On a valid handle, with distinct keys of one component that are free in
    the group, the loop runs through, and it changes the file only below the
    new names. *)
Lemma write_items_ok data g σ m :
  valid g σ m → distinct_keys data → plain_names data →
  (∀ k, k ∈ keys data → m !! (g.2 ++ [k]) = None) →
  ∃ σ' m', write_items g data σ = Ok σ'
    ∧ valid g σ' m'
    ∧ (∀ p, (∀ k, k ∈ keys data → ¬ (g.2 ++ [k]) `prefix_of` p) →
         m' !! p = m !! p).
Proof.
  revert g σ m.
  induction data using pydict_mut
    with (P := λ value, match value with
                        | Leaf _ => True
                        | Dict d => ∀ g σ m,
                            valid g σ m → distinct_keys d → plain_names d →
                            (∀ k, k ∈ keys d → m !! (g.2 ++ [k]) = None) →
                            ∃ σ' m', write_items g d σ = Ok σ'
                              ∧ valid g σ' m'
                              ∧ (∀ p, (∀ k, k ∈ keys d →
                                         ¬ (g.2 ++ [k]) `prefix_of` p) →
                                   m' !! p = m !! p)
                        end); try done.
  { intros g σ m Hv _ _ _. by exists σ, m. }
  intros g σ m Hv (Hkey & Hval & Hdist) (Hname & Hnval & Hnames) Hfree.
  pose proof Hv as (Ho & Hd & Hg & Hc).
  assert (Hp : m !! (g.2 ++ [key]) = None) by (apply Hfree; left).
  cbn [write_items].
  destruct value as [v|d].
  - rewrite set_item_plain by done.
    rewrite (members_valid σ g m) by done. cbn [bind].
    rewrite Hp.
    set (m1 := <[g.2 ++ [key]:=IsDataset v]> m).
    destruct (valid_put g σ m g.2 key (IsDataset v) Hv) as [Hv1|Hbad];
      [by eexists| |by destruct (app_single_ne g.2 key)].
    destruct (IHdata0 g (put σ g.1 m1) m1) as (σ' & m' & Hw & Hv' & Hfr);
      [done|done|done| |].
    { intros k Hk. unfold m1. rewrite lookup_insert_ne; [apply Hfree; by right|].
      intros [_ ->]%app_inj_tail. done. }
    exists σ', m'. split; [done|]. split; [done|].
    intros p Hnp. rewrite Hfr by (intros k Hk; apply Hnp; by right).
    unfold m1. apply lookup_insert_ne. intros <-.
    apply (Hnp key); [left|done].
  - rewrite create_group_plain by done.
    rewrite (members_valid σ g m) by done. cbn [bind].
    rewrite Hp. cbn [bind fst snd]. rewrite write_data_group.
    set (p := g.2 ++ [key]). set (m1 := <[p:=IsGroup]> m).
    assert (Hc1 : closed_below m1) by (apply closed_below_insert; [done|by eexists]).
    destruct (IHdata (g.1, p) (put σ g.1 m1) m1) as (σ2 & m2 & Hw2 & Hv2 & Hfr2).
    { split; [done|]. split; [simpl; apply lookup_insert_eq|].
      split; [apply lookup_insert_eq|done]. }
    { done. }
    { done. }
    { intros k Hk. simpl. unfold m1. rewrite lookup_insert_ne by apply not_eq_sym, app_single_ne.
      destruct (m !! (p ++ [k])) eqn:E; [|done].
      assert (is_Some (m !! p)) as [? Hs] by (apply (Hc p k); by eexists).
      unfold p in Hs. congruence. }
    rewrite Hw2. cbn [bind].
    destruct Hv2 as (Ho2 & Hd2 & _ & Hc2). simpl in Ho2, Hd2, Hfr2.
    assert (Hshort : ∀ q, (length q ≤ length g.2 + 1)%nat → q ≠ p →
                      m2 !! q = m !! q).
    { intros q Hq Hqp. rewrite Hfr2.
      - unfold m1. by rewrite lookup_insert_ne.
      - intros k _. apply prefix_longer. unfold p. rewrite !length_app. simpl. lia. }
    destruct (IHdata0 g σ2 m2) as (σ' & m' & Hw & Hv' & Hfr); [|done|done| |].
    { split; [done|]. split; [done|]. split; [|done].
      rewrite Hshort; [done|lia|]. apply not_eq_sym, app_single_ne. }
    { intros k Hk. rewrite Hshort.
      - apply Hfree. by right.
      - rewrite length_app. simpl. lia.
      - unfold p. intros [_ ->]%app_inj_tail. done. }
    exists σ', m'. split; [done|]. split; [done|].
    intros q Hnq. rewrite Hfr by (intros k Hk; apply Hnq; by right).
    assert (Hpq : ¬ p `prefix_of` q) by (apply (Hnq key); left).
    rewrite Hfr2.
    + unfold m1. apply lookup_insert_ne. intros <-. by apply Hpq.
    + intros k _ Hpre. apply Hpq. etransitivity; [|exact Hpre].
      by apply prefix_app_r.
Qed.


(** C10. When [write_data] returns, the files that are open are the files
    that were open before the call, and every other file is untouched.
    Called with a file name it has opened that file itself (the file was not
    open before) and has closed it again; called with a group handle it
    closes nothing, so that the handle's file is open at the return exactly
    when it was open at the call.  In both cases the items of the nested
    mapping, with plain names as keys, are stored in the destination group.
    The call does return: for a file name that is not open, and for an open
    handle on a group in which the keys are free, whenever the keys of the
    mapping are distinct at every level and are names of one component (a
    key with a slash is a path, on which the call can fail in more ways). *)
Theorem write_data_closes_iff_root (data : pydict V) (filename : dest)
    (σ : h5_state V) :
  (∀ σ', write_data data filename σ = Ok σ' →
     open_files σ' = open_files σ
     ∧ (∀ f, f ≠ dest_file filename → disk σ' !! f = disk σ !! f)
     ∧ (match filename with
        | FileName s => (s ∉ open_files σ) ∧ (s ∉ open_files σ')
        | GroupHandle g => (g.1 ∈ open_files σ') ↔ (g.1 ∈ open_files σ)
        end)
     ∧ (plain_keys data →
        stored (file σ' (dest_file filename)) (dest_path filename) data))
  ∧ (distinct_keys data → plain_names data →
     match filename with
     | FileName s => s ∉ open_files σ
     | GroupHandle g =>
         ∃ m, valid g σ m ∧ ∀ k, k ∈ keys data → m !! (g.2 ++ [k]) = None
     end →
     ∃ σ', write_data data filename σ = Ok σ'
       ∧ (dest_file filename ∈ open_files σ' ↔ is_root filename = false)).
Proof.
  split.
  - intros σ'. destruct filename as [s|g].
    + rewrite write_data_root. unfold h5_File_w.
      case_bool_decide as Hs; [done|]. cbn [bind fst snd].
      destruct (write_items _ data _) as [σ1|] eqn:Hw; [|done]. cbn [bind].
      intros [= <-].
      apply write_items_frame in Hw as (Hopen & Hother & _ & Hst). simpl in *.
      split; [rewrite Hopen; set_solver|]. split.
      { intros f Hf. rewrite Hother by done. by rewrite lookup_insert_ne. }
      split; [split; [done|set_solver]|]. done.
    + rewrite write_data_group. intros Hw.
      apply write_items_frame in Hw as (Hopen & Hother & _ & Hst). simpl.
      split; [done|]. split; [done|]. split; [by rewrite Hopen|done].
  - intros Hdist Hnames Hdest. destruct filename as [s|g].
    + rewrite write_data_root. unfold h5_File_w.
      rewrite bool_decide_false by done. cbn [bind fst snd].
      set (σ0 := {| disk := <[s:={[ [] := IsGroup ]}]> (disk σ);
                    open_files := {[s]} ∪ open_files σ |}).
      destruct (write_items_ok data (s, []) σ0 {[ [] := IsGroup ]})
        as (σ1 & m1 & -> & _ & _).
      { split; [simpl; set_solver|]. split; [simpl; apply lookup_insert_eq|].
        split; [apply lookup_singleton_eq|].
        intros p k [e He]. apply lookup_singleton_Some in He as [He _].
        by destruct p. }
      { done. }
      { done. }
      { intros k _. simpl. by apply lookup_singleton_ne. }
      cbn [bind]. eexists. split; [done|]. simpl. set_solver.
    + rewrite write_data_group. destruct Hdest as (m & Hv & Hfree).
      destruct (write_items_ok data g σ m) as (σ1 & m1 & -> & (Ho & _) & _);
        [done..|].
      eexists. split; [done|]. simpl. done.
Qed.

End write_facts.

Definition empty_state : h5_state Z := {| disk := ∅; open_files := ∅ |}.

Definition chunk : pydict Z :=
  DItem "pos" (Leaf 1)
    (DItem "outputs" (Dict (DItem "cpg" (Leaf 2) (DItem "stats" (Leaf 3) DNil)))
       DNil).

Lemma write_data_closes_iff_root_witness :
  (∀ σ', write_data chunk (FileName "c1.h5") empty_state = Ok σ' →
     open_files σ' = open_files empty_state
     ∧ (∀ f, f ≠ "c1.h5" → disk σ' !! f = disk empty_state !! f)
     ∧ (("c1.h5" ∉ open_files empty_state) ∧ ("c1.h5" ∉ open_files σ'))
     ∧ (plain_keys chunk → stored (file σ' "c1.h5") [] chunk))
  ∧ ∃ σ', write_data chunk (FileName "c1.h5") empty_state = Ok σ'
      ∧ (("c1.h5" ∈ open_files σ') ↔ true = false).
Proof.
  destruct (write_data_closes_iff_root chunk (FileName "c1.h5") empty_state)
    as [Hret Hok].
  split; [exact Hret|]. apply Hok.
  - simpl. repeat split; set_solver.
  - cbn [plain_names chunk]. unfold plain_name. repeat split; done.
  - simpl. set_solver.
Defined.

Example write_data_example :
  (λ r, match r with
        | Ok σ' => file σ' "c1.h5" !! ["outputs"; "cpg"] = Some (IsDataset 2)
                   ∧ bool_decide ("c1.h5" ∈ open_files σ') = false
        | Raise _ => False
        end) (write_data chunk (FileName "c1.h5") empty_state).
Proof. vm_compute. split; reflexivity. Qed.

End HdfWrite.

(** ** Batch generator: [reader], [read_from] and [read] of
    [deepcpg/data/hdf.py] *)

Module HdfRead.

(** A Python dictionary with string keys, its items in insertion order. *)
Definition pydict (B : Type) : Type := list (string * B).

(** [d[k] = v]: a key that is there keeps its place. *)
Fixpoint dict_set {B} (d : pydict B) (k : string) (v : B) : pydict B :=
  match d with
  | [] => [(k, v)]
  | (k', v') :: d' =>
      if bool_decide (k' = k) then (k, v) :: d' else (k', v') :: dict_set d' k v
  end.

(** [d.get(k)] *)
Fixpoint dict_get {B} (d : pydict B) (k : string) : option B :=
  match d with
  | [] => None
  | (k', v) :: d' => if bool_decide (k' = k) then Some v else dict_get d' k
  end.

(** The list objects that hold file names, by identity: the caller's list
    and the lists the generator makes are entries of one heap. *)
Abbreviation heap := (gmap nat (list string)).

(** A new list object. *)
Definition alloc (h : heap) (l : list string) : nat * heap :=
  let r := fresh (dom h) in (r, <[r:=l]> h).

(** The contents of the list object [r]. *)
Definition deref (h : heap) (r : nat) : list string := default [] (h !! r).

(** The argument [data_files]: a list object or a single file name. *)
Inductive files_arg : Type :=
  | FilesList (r : nat)
  | FileStr (s : string).

(** What a generator has done when it is left alone: it ran to its end, it
    raised, or it is suspended (the trace was cut after a number of rounds
    of [while True]). *)
Inductive outcome : Type :=
  | Finished
  | Raised (e : exn)
  | Suspended.

Inductive control : Type :=
  | Continue
  | Stop
  | Fail (e : exn).

Section reader.
(** One sample: a row of a dataset. *)
Context {A : Type}.

(** A container as the reader addresses it: key path to dataset. *)
Abbreviation h5file := (gmap string (list A)).
Abbreviation filesystem := (gmap string (gmap string (list A))).

(** A batch: key to the rows of the slice. *)
Definition batch_dict : Type := pydict (list A).

(** What the generator does: it yields a batch, or it restarts from the
    first container with the sample counter at zero. *)
Inductive event : Type :=
  | Yield (b : batch_dict)
  | Restart.

(** The keyword arguments; [nb_sample = None] is the default. *)
Record config : Type := {
  names : list string;
  batch_size : Z;
  nb_sample : option Z;
  shuffle : bool;
  loop : bool;
}.

(** The local variables of the generator across rounds of [while True];
    [cap = None] is [np.inf]. *)
Record locals : Type := {
  objects : heap;
  data_files : nat;
  cap : option Z;
  file_idx : nat;
  nb_seen : Z;
  rng : nat;
}.

(** The random source: the [k]-th call of [np.random.shuffle] turns the
    list [l] into [shuffle_files k l], or the index vector [l] into
    [shuffle_idx k l]. *)
Variable shuffle_files : nat → list string → list string.
Variable shuffle_idx : nat → list nat → list nat.

(** [h5.File(name, 'r')] and [h5_file[name]] *)
Definition open_read (fs : filesystem) (name : string) : result h5file :=
  match fs !! name with
  | Some f => Ok f
  | None => Raise (OSError "Unable to open file")
  end.
Definition getitem (f : h5file) (name : string) : result (list A) :=
  match f !! name with
  | Some d => Ok d
  | None => Raise (KeyError name)
  end.

(** [len(h5_file[names[0]])] for the file [data_file] *)
Definition first_len (fs : filesystem) (names : list string) (data_file : string)
    : result Z :=
  do f <- open_read fs data_file;
  match names with
  | [] => Raise IndexError
  | name :: _ => do d <- getitem f name; Ok (Z.of_nat (length d))
  end.

(** Lines 81-87: the files are added to the list object [_data_files] until
    they hold [nb_sample] samples. *)
Fixpoint select_files (fs : filesystem) (names : list string) (nb_sample : Z)
    (files : list string) (_data_files : nat) (nb_seen : Z) (h : heap)
    : result unit * heap :=
  match files with
  | [] => (Ok tt, h)
  | data_file :: rest =>
      match first_len fs names data_file with
      | Raise e => (Raise e, h)
      | Ok n =>
          let nb_seen := nb_seen + n in
          let h := <[_data_files:=deref h _data_files ++ [data_file]]> h in
          if nb_seen >=? nb_sample then (Ok tt, h)
          else select_files fs names nb_sample rest _data_files nb_seen h
      end
  end.

(** Lines 69-93: the state in which the loop is entered. *)
Definition reader_init (fs : filesystem) (arg : files_arg) (cfg : config)
    (h : heap) : result locals * heap :=
  (* if not isinstance(data_files, list): data_files = [data_files] *)
  let '(r, h) := match arg with
                 | FilesList r => (r, h)
                 | FileStr s => alloc h [s]
                 end in
  (* Copy, since it might be changed by shuffling *)
  let '(r, h) := alloc h (deref h r) in
  match nb_sample cfg with
  | Some n =>
      if n =? 0 then
        (Ok {| objects := h; data_files := r; cap := None;
               file_idx := 0; nb_seen := 0; rng := 0 |}, h)
      else
        let '(r', h) := alloc h [] in
        match select_files fs (names cfg) n (deref h r) r' 0 h with
        | (Raise e, h) => (Raise e, h)
        | (Ok _, h) =>
            (Ok {| objects := h; data_files := r'; cap := Some n;
                   file_idx := 0; nb_seen := 0; rng := 0 |}, h)
        end
  | None =>
      (Ok {| objects := h; data_files := r; cap := None;
             file_idx := 0; nb_seen := 0; rng := 0 |}, h)
  end.

(** Lines 99-101: the datasets of the keys, in the order of [names]. *)
Fixpoint load_names (f : h5file) (names : list string) (data_file : pydict (list A))
    : result (pydict (list A)) :=
  match names with
  | [] => Ok data_file
  | name :: names' =>
      do d <- getitem f name;
      load_names f names' (dict_set data_file name d)
  end.

(** Lines 109-110: every dataset is read whole and permuted by [idx]. *)
Fixpoint permute_all (data_file : pydict (list A)) (idx : list nat)
    : result (pydict (list A)) :=
  match data_file with
  | [] => Ok []
  | (name, value) :: rest =>
      do v <- Align.fancy_index (take (length idx) value) idx;
      do r <- permute_all rest idx;
      Ok ((name, v) :: r)
  end.

(** [int(np.ceil(n / batch_size))] for a batch size other than zero. *)
Definition ceil_div (n batch_size : Z) : Z := - ((- n) `div` batch_size).

(** [data_batch[name] = data_file[name][batch_start:batch_end]] for the
    names in turn. *)
Definition cut_batch (names : list string) (data_file : pydict (list A))
    (batch_start batch_end : Z) : batch_dict :=
  foldl (λ data_batch name,
           dict_set data_batch name
             (py_slice (default [] (dict_get data_file name)) batch_start batch_end))
    [] names.

(** Lines 113-128: the batches of one file from batch number [batch] on,
    [k] being the number of rounds that [range(nb_batch)] still has. *)
Fixpoint batch_loop (names : list string) (data_file : pydict (list A))
    (batch_size : Z) (cap : option Z) (nb_sample_file : Z)
    (k : nat) (batch : Z) (nb_seen : Z) : list batch_dict * Z :=
  match k with
  | O => ([], nb_seen)
  | S k' =>
      let batch_start := batch * batch_size in
      let nb_read := match cap with
                     | Some c => Z.min (c - nb_seen) batch_size
                     | None => batch_size
                     end in
      let batch_end := Z.min nb_sample_file (batch_start + nb_read) in
      let _batch_size := batch_end - batch_start in
      if _batch_size =? 0 then ([], nb_seen)
      else
        let nb_seen := nb_seen + _batch_size in
        let data_batch := cut_batch names data_file batch_start batch_end in
        if match cap with Some c => nb_seen >=? c | None => false end
        then ([data_batch], nb_seen)
        else
          let '(rest, nb_seen) :=
            batch_loop names data_file batch_size cap nb_sample_file
              k' (batch + 1) nb_seen in
          (data_batch :: rest, nb_seen)
  end.

(** Lines 95-112: the file of this round, read (and permuted). *)
Definition load_file (fs : filesystem) (cfg : config) (st : locals)
    : result (pydict (list A) * Z) * locals :=
  let st :=
    if shuffle cfg && bool_decide (file_idx st = 0%nat) then
      {| objects := <[data_files st:=
                        shuffle_files (rng st) (deref (objects st) (data_files st))]>
                      (objects st);
         data_files := data_files st; cap := cap st; file_idx := file_idx st;
         nb_seen := nb_seen st; rng := S (rng st) |}
    else st in
  match deref (objects st) (data_files st) !! file_idx st with
  | None => (Raise IndexError, st)
  | Some name =>
      match (do f <- open_read fs name;
             do data_file <- load_names f (names cfg) [];
             match data_file with
             | [] => Raise IndexError
             | (_, v) :: _ => Ok (data_file, length v)
             end) with
      | Raise e => (Raise e, st)
      | Ok (data_file, n) =>
          if shuffle cfg then
            let idx := shuffle_idx (rng st) (seq 0 n) in
            let st := {| objects := objects st; data_files := data_files st;
                         cap := cap st; file_idx := file_idx st;
                         nb_seen := nb_seen st; rng := S (rng st) |} in
            match permute_all data_file idx with
            | Raise e => (Raise e, st)
            | Ok data_file => (Ok (data_file, Z.of_nat n), st)
            end
          else (Ok (data_file, Z.of_nat n), st)
      end
  end.

(** One round of [while True]: what it yields, how it leaves the loop, and
    the local variables after it. *)
Definition round (fs : filesystem) (cfg : config) (st : locals)
    : list event * control * locals :=
  match load_file fs cfg st with
  | (Raise e, st) => ([], Fail e, st)
  | (Ok (data_file, nb_sample_file), st) =>
      if batch_size cfg =? 0 then ([], Fail ZeroDivisionError, st) else
      let nb_batch := ceil_div nb_sample_file (batch_size cfg) in
      let '(batches, seen) :=
        batch_loop (names cfg) data_file (batch_size cfg) (cap st)
          nb_sample_file (Z.to_nat nb_batch) 0 (nb_seen st) in
      let idx := S (file_idx st) in
      let len_files := length (deref (objects st) (data_files st)) in
      let at_step (i : nat) (s : Z) :=
        {| objects := objects st; data_files := data_files st; cap := cap st;
           file_idx := i; nb_seen := s; rng := rng st |} in
      let yields := Yield <$> batches in
      if negb (match cap st with Some c => seen <=? c | None => true end)
      then (yields, Fail AssertionError, at_step idx seen)
      else if match cap st with Some c => c =? seen | None => false end
                && negb (bool_decide (idx = len_files))
      then (yields, Fail AssertionError, at_step idx seen)
      else if bool_decide (idx = len_files) then
        if loop cfg then (yields ++ [Restart], Continue, at_step 0%nat 0)
        else (yields, Stop, at_step idx seen)
      else (yields, Continue, at_step idx seen)
  end.

(** The loop, cut after [fuel] rounds. *)
Fixpoint reader_loop (fs : filesystem) (cfg : config) (fuel : nat) (st : locals)
    : list event * outcome * locals :=
  match fuel with
  | O => ([], Suspended, st)
  | S fuel' =>
      match round fs cfg st with
      | (evs, Continue, st) =>
          let '(evs', out, st) := reader_loop fs cfg fuel' st in
          (evs ++ evs', out, st)
      | (evs, Stop, st) => (evs, Finished, st)
      | (evs, Fail e, st) => (evs, Raised e, st)
      end
  end.

(** [reader(data_files, names, ...)] run for [fuel] rounds: the events, the
    outcome and the heap it leaves. *)
Definition reader (fs : filesystem) (arg : files_arg) (cfg : config) (h : heap)
    (fuel : nat) : list event * outcome * heap :=
  match reader_init fs arg cfg h with
  | (Raise e, h) => ([], Raised e, h)
  | (Ok st, _) =>
      let '(evs, out, st) := reader_loop fs cfg fuel st in
      (evs, out, objects st)
  end.

(** The batches among the events, and the batches of every pass over the
    containers. *)
Definition yields (evs : list event) : list batch_dict :=
  omap (λ ev, match ev with Yield b => Some b | Restart => None end) evs.
Fixpoint passes (evs : list event) : list (list batch_dict) :=
  match evs with
  | [] => [[]]
  | Yield b :: evs' =>
      match passes evs' with
      | p :: ps => (b :: p) :: ps
      | [] => [[b]]
      end
  | Restart :: evs' => [] :: passes evs'
  end.

(** [len(list(data_batch.values())[0])] where it is defined, and the number
    of samples of a sequence of batches. *)
Definition batch_len (b : batch_dict) : Z :=
  match b with
  | [] => 0
  | (_, v) :: _ => Z.of_nat (length v)
  end.
Definition nb_samples (bs : list batch_dict) : Z := foldr (λ b s, batch_len b + s) 0 bs.

(** Lines 160-162: [data.setdefault(key, []).append(value)] for the items
    of a batch. *)
Definition add_batch (data : pydict (list (list A))) (b : batch_dict)
    : pydict (list (list A)) :=
  foldl (λ data '(key, value),
           dict_set data key (default [] (dict_get data key) ++ [value]))
    data b.

(** Lines 156-165 on the batches the reader yields: [None] when the trace
    of the reader was cut before the loop was done. *)
Fixpoint collect (batches : list batch_dict) (out : outcome) (nb_sample : option Z)
    (data : pydict (list (list A))) (nb_seen : Z)
    : option (result (pydict (list (list A)))) :=
  match batches with
  | [] =>
      match out with
      | Finished => Some (Ok data)
      | Raised e => Some (Raise e)
      | Suspended => None
      end
  | data_batch :: rest =>
      let data := add_batch data data_batch in
      match data_batch with
      | [] => Some (Raise IndexError)
      | (_, v) :: _ =>
          let nb_seen := nb_seen + Z.of_nat (length v) in
          if match nb_sample with
             | Some n => negb (n =? 0) && (nb_seen >=? n)
             | None => false
             end
          then Some (Ok data)
          else collect rest out nb_sample data nb_seen
      end
  end.

(** Modelled from the spec: [stack_dict] of [deepcpg/data/utils.py], which
    is not among the sources at hand; it concatenates the batches of every
    key in the order in which they were yielded. *)
Definition stack_dict (data : pydict (list (list A))) : pydict (list A) :=
  (λ kv, (kv.1, concat kv.2)) <$> data.

(** [read_from(reader, nb_sample)] for a reader that yields dictionaries. *)
Definition read_from (batches : list batch_dict) (out : outcome) (nb_sample : option Z)
    : option (result (pydict (list A))) :=
  match collect batches out nb_sample [] 0 with
  | None => None
  | Some (Raise e) => Some (Raise e)
  | Some (Ok data) =>
      let data := stack_dict data in
      Some (Ok (match nb_sample with
                | Some n =>
                    if n =? 0 then data
                    else (λ kv, (kv.1, py_slice kv.2 0 n)) <$> data
                | None => data
                end))
  end.

(** [read(data_files, names, nb_sample, batch_size, shuffle=shuffle)].  The
    reader does not loop, so it is done, or has raised, after one round per
    file and one more. *)
Definition read (fs : filesystem) (arg : files_arg) (names : list string)
    (nb_sample : option Z) (batch_size : Z) (shuffle : bool) (h : heap)
    : option (result (pydict (list A))) :=
  let cfg := {| names := names; batch_size := batch_size; nb_sample := nb_sample;
                shuffle := shuffle; loop := false |} in
  let nb_files := match arg with
                  | FilesList r => length (deref h r)
                  | FileStr _ => 1%nat
                  end in
  let '(evs, out, _) := reader fs arg cfg h (S nb_files) in
  read_from (yields evs) out nb_sample.

End reader.

(** *** Dictionaries *)

Section dict_facts.
Context {B : Type}.
Implicit Types (d : pydict B) (k : string) (v : B).

Lemma dict_get_set_eq d k v : dict_get (dict_set d k v) k = Some v.
Proof.
  induction d as [|[k' v'] d IH]; simpl.
  { by rewrite bool_decide_true. }
  case_bool_decide as E; simpl.
  - by rewrite bool_decide_true.
  - by rewrite bool_decide_false.
Qed.

Lemma dict_get_set_ne d k k' v :
  k ≠ k' → dict_get (dict_set d k v) k' = dict_get d k'.
Proof.
  intros Hne. induction d as [|[k0 v0] d IH]; simpl.
  { by rewrite bool_decide_false. }
  case_bool_decide as E; simpl.
  - subst k0. by rewrite !bool_decide_false.
  - case_bool_decide; [done|apply IH].
Qed.

Lemma dict_set_head d k0 v0 k v :
  ∃ v1 d', dict_set ((k0, v0) :: d) k v = (k0, v1) :: d'
           ∧ (v1 = v0 ∨ (k = k0 ∧ v1 = v)).
Proof.
  simpl. case_bool_decide as E.
  - subst. exists v, d. split; [done|]. by right.
  - exists v0, (dict_set d k v). split; [done|]. by left.
Qed.

Lemma dict_set_keys d k v :
  (dict_set d k v).*1 = if bool_decide (k ∈ d.*1) then d.*1 else d.*1 ++ [k].
Proof.
  induction d as [|[k' v'] d IH]; [done|]. cbn [dict_set].
  destruct (decide (k' = k)) as [->|Hne].
  - rewrite bool_decide_true by done. csimpl.
    by rewrite bool_decide_true by (apply elem_of_cons; by left).
  - rewrite (bool_decide_false (k' = k)) by done. csimpl. rewrite IH.
    destruct (decide (k ∈ d.*1)) as [Hin|Hnin].
    + rewrite (bool_decide_true (k ∈ d.*1)) by done.
      by rewrite bool_decide_true by (apply elem_of_cons; by right).
    + rewrite (bool_decide_false (k ∈ d.*1)) by done.
      rewrite bool_decide_false; [done|].
      intros [?|?]%elem_of_cons; [congruence|done].
Qed.

Lemma dict_set_NoDup d k v : NoDup d.*1 → NoDup (dict_set d k v).*1.
Proof.
  intros Hd. rewrite dict_set_keys. case_bool_decide as E; [done|].
  apply NoDup_app. split; [done|]. split; [|apply NoDup_singleton].
  intros x Hx ->%list_elem_of_singleton. done.
Qed.

Lemma dict_get_Some_keys d k v : dict_get d k = Some v → k ∈ d.*1.
Proof.
  induction d as [|[k' v'] d IH]; [done|]. simpl.
  case_bool_decide as E; [subst; intros _; apply elem_of_cons; by left|].
  intros H. apply elem_of_cons. right. by apply IH.
Qed.

Lemma dict_get_None d k : k ∉ d.*1 → dict_get d k = None.
Proof.
  induction d as [|[k' v'] d IH]; [done|]. simpl. intros Hn.
  rewrite bool_decide_false by (intros ->; apply Hn, elem_of_cons; by left).
  apply IH. intros ?. apply Hn, elem_of_cons. by right.
Qed.

End dict_facts.

(** *** The list objects the generator writes to *)

Section heap_facts.
Context {A : Type}.
Variable shuffle_files : nat → list string → list string.
Variable shuffle_idx : nat → list nat → list nat.
Implicit Types (fs : gmap string (gmap string (list A))) (cfg : config)
  (st : locals) (h : heap).

Lemma alloc_fresh h l r h' :
  alloc h l = (r, h') → h !! r = None ∧ h' = <[r:=l]> h.
Proof.
  unfold alloc. intros [= <- <-]. split; [|done].
  apply not_elem_of_dom, is_fresh.
Qed.

Lemma select_files_frame fs names n files r' s h l :
  l ≠ r' → (select_files fs names n files r' s h).2 !! l = h !! l.
Proof.
  intros Hl. revert s h. induction files as [|f files IH]; intros s h; [done|].
  cbn [select_files]. destruct (first_len fs names f) as [m|e]; [|done].
  case_match; cbn [snd]; [by rewrite lookup_insert_ne|].
  rewrite IH. by rewrite lookup_insert_ne.
Qed.

(** The loop starts on a list object that did not exist at the call, and
    the list objects of the caller are as they were. *)
Lemma reader_init_frame fs arg cfg h :
  (∀ l, is_Some (h !! l) → (reader_init fs arg cfg h).2 !! l = h !! l)
  ∧ ∀ st, (reader_init fs arg cfg h).1 = Ok st →
      objects st = (reader_init fs arg cfg h).2 ∧ h !! data_files st = None.
Proof.
  unfold reader_init.
  destruct (match arg with
            | FilesList r => (r, h)
            | FileStr s => alloc h [s]
            end) as [r0 h0] eqn:H0.
  assert (Hh0 : ∀ l, is_Some (h !! l) → h0 !! l = h !! l).
  { destruct arg as [r|s0]; [by injection H0 as <- <-|].
    apply alloc_fresh in H0 as [Hr ->]. intros l [x Hx].
    apply lookup_insert_ne. congruence. }
  destruct (alloc h0 (deref h0 r0)) as [r1 h1] eqn:H1.
  apply alloc_fresh in H1 as [Hr1 ->].
  assert (Hh1 : ∀ l, is_Some (h !! l) → <[r1:=deref h0 r0]> h0 !! l = h !! l).
  { intros l Hl. rewrite lookup_insert_ne; [by apply Hh0|].
    intros <-. rewrite Hh0 in Hr1 by done. destruct Hl. congruence. }
  assert (Hr1' : h !! r1 = None).
  { destruct (h !! r1) eqn:E; [|done]. rewrite <-Hh0 in E by by eexists. congruence. }
  destruct (nb_sample cfg) as [n|]; [|by split; [|intros st [= <-]]].
  destruct (n =? 0); [by split; [|intros st [= <-]]|].
  destruct (alloc _ []) as [r2 h2] eqn:H2.
  apply alloc_fresh in H2 as [Hr2 ->].
  assert (Hr2' : h !! r2 = None).
  { destruct (h !! r2) eqn:E; [|done]. rewrite <-Hh1 in E by by eexists. congruence. }
  pose proof (select_files_frame fs (names cfg) n
                (deref (<[r2:=[]]> (<[r1:=deref h0 r0]> h0)) r1) r2 0
                (<[r2:=[]]> (<[r1:=deref h0 r0]> h0))) as Hsel.
  destruct (select_files _ _ _ _ _ _ _) as [[[]|e] h3]; simpl in *.
  - split; [|by intros st [= <-]].
    intros l Hl. rewrite Hsel by (intros ->; destruct Hl; congruence).
    rewrite lookup_insert_ne by (intros <-; destruct Hl; congruence).
    by apply Hh1.
  - split; [|done].
    intros l Hl. rewrite Hsel by (intros ->; destruct Hl; congruence).
    rewrite lookup_insert_ne by (intros <-; destruct Hl; congruence).
    by apply Hh1.
Qed.

(** A round writes to the list object bound to [data_files] only. *)
Definition same_binding st st' : Prop :=
  data_files st' = data_files st
  ∧ ∀ l, l ≠ data_files st → objects st' !! l = objects st !! l.

Lemma load_file_frame fs cfg st :
  same_binding st (load_file shuffle_files shuffle_idx fs cfg st).2.
Proof.
  unfold load_file.
  set (st1 := if shuffle cfg && bool_decide (file_idx st = 0%nat) then _ else st).
  assert (H1 : same_binding st st1).
  { unfold st1. destruct (shuffle cfg && _); [|by split].
    split; [done|]. intros l Hl. simpl. by rewrite lookup_insert_ne. }
  destruct (deref (objects st1) (data_files st1) !! file_idx st1); [|done].
  destruct (bind _ _) as [[d n]|e]; [|done].
  destruct (shuffle cfg); [|done].
  destruct (permute_all d _); done.
Qed.

Lemma round_frame fs cfg st :
  same_binding st (round shuffle_files shuffle_idx fs cfg st).2.
Proof.
  unfold round. pose proof (load_file_frame fs cfg st) as Hl.
  destruct (load_file _ _ fs cfg st) as [[[d n]|e] st1]; [|done].
  simpl in Hl. destruct (batch_size cfg =? 0); [done|].
  destruct (batch_loop _ _ _ _ _ _ _ _) as [bs seen].
  repeat case_match; done.
Qed.

Lemma reader_loop_frame fs cfg fuel st :
  same_binding st (reader_loop shuffle_files shuffle_idx fs cfg fuel st).2.
Proof.
  revert st. induction fuel as [|fuel IH]; intros st; [by split|].
  simpl. pose proof (round_frame fs cfg st) as Hr.
  destruct (round _ _ fs cfg st) as [[evs ctl] st1]. simpl in Hr.
  destruct ctl; [|done..].
  specialize (IH st1).
  destruct (reader_loop _ _ fs cfg fuel st1) as [[evs' out] st2]. simpl in *.
  destruct Hr as [Hd Ho], IH as [Hd' Ho']. split; [congruence|].
  intros l Hl. rewrite Ho' by congruence. by apply Ho.
Qed.

(** C9. Whatever the arguments and however long the generator runs, every
    list object that exists at the call, the caller's [data_files] among
    them, holds at the end what it held at the call: [np.random.shuffle]
    permutes the generator's own copy. *)
Theorem reader_keeps_callers_list fs (arg : files_arg) cfg h (fuel : nat)
    (l : nat) (files : list string) :
  h !! l = Some files →
  (reader shuffle_files shuffle_idx fs arg cfg h fuel).2 !! l = Some files.
Proof.
  intros Hl. unfold reader.
  destruct (reader_init_frame fs arg cfg h) as [Hpre Hst].
  destruct (reader_init fs arg cfg h) as [[st|e] h1]; simpl in *.
  2:{ by rewrite Hpre by by eexists. }
  destruct (Hst st eq_refl) as [Hobj Hfresh].
  pose proof (reader_loop_frame fs cfg fuel st) as [_ Hloop].
  destruct (reader_loop _ _ fs cfg fuel st) as [[evs out] st']. simpl in *.
  rewrite Hloop by congruence. rewrite Hobj, Hpre by by eexists. done.
Qed.

End heap_facts.

(** *** The batches of one file *)

Section batch_facts.
Context {A : Type}.
Implicit Types (d : pydict (list A)) (names : list string).

Lemma py_slice_length (l : list A) (a b : Z) :
  0 ≤ a ≤ b → b ≤ Z.of_nat (length l) →
  Z.of_nat (length (py_slice l a b)) = b - a.
Proof.
  intros Hab Hb. rewrite SeqWin.py_slice_forward by done.
  rewrite length_take, length_drop. lia.
Qed.

Lemma cut_batch_head n0 rest d a b :
  ∃ d', cut_batch (n0 :: rest) d a b
        = (n0, py_slice (default [] (dict_get d n0)) a b) :: d'.
Proof.
  unfold cut_batch. cbn [foldl dict_set].
  generalize (@nil (string * list A)).
  induction rest as [|n rest IH]; intros t; [by eexists|].
  cbn [foldl dict_set]. case_bool_decide as E; [subst; apply IH|apply IH].
Qed.

Lemma batch_len_cut n0 rest v0 d' a b :
  0 ≤ a ≤ b → b ≤ Z.of_nat (length v0) →
  batch_len (cut_batch (n0 :: rest) ((n0, v0) :: d') a b) = b - a.
Proof.
  intros Hab Hb. destruct (cut_batch_head n0 rest ((n0, v0) :: d') a b) as [t ->].
  cbn [batch_len dict_get]. rewrite bool_decide_true by done. simpl.
  by apply py_slice_length.
Qed.

Lemma nb_samples_nonneg (bs : list (@batch_dict A)) : 0 ≤ nb_samples bs.
Proof.
  induction bs as [|b bs IH]; simpl; [done|].
  assert (0 ≤ batch_len b) by (destruct b as [|[??]?]; simpl; lia). lia.
Qed.

Lemma nb_samples_app (bs bs' : list (@batch_dict A)) :
  nb_samples (bs ++ bs') = nb_samples bs + nb_samples bs'.
Proof. induction bs as [|b bs IH]; simpl; lia. Qed.

(** The batches of a file of [n] samples, cut from batch number [batch] on
    under the cap [c], hold what is left of the file or what is left under
    the cap, whichever is less; [q] is the number of batches of the file.
    Every batch is a slice inside the file. *)
Lemma batch_loop_capped n0 rest v0 d' (batch_size c q : Z) (k : nat)
    (batch seen : Z) :
  let n := Z.of_nat (length v0) in
  0 < batch_size → (q - 1) * batch_size < n ≤ q * batch_size →
  0 ≤ batch ≤ q → k = Z.to_nat (q - batch) → batch * batch_size ≤ n →
  seen ≤ c →
  let r := batch_loop (n0 :: rest) ((n0, v0) :: d') batch_size (Some c) n
             k batch seen in
  nb_samples r.1 = Z.min (n - batch * batch_size) (c - seen)
  ∧ r.2 = seen + nb_samples r.1
  ∧ Forall (λ b, ∃ start stop,
              b = cut_batch (n0 :: rest) ((n0, v0) :: d') start stop
              ∧ 0 ≤ start ≤ stop ∧ stop ≤ n) r.1.
Proof.
  intros n Hbs Hq. revert batch seen.
  induction k as [|k IH]; intros batch seen Hb Hk Hstart Hseen r.
  { unfold r. simpl. split; [|split; [lia|constructor]].
    assert (batch = q) as -> by lia. lia. }
  unfold r. cbn [batch_loop].
  set (start := batch * batch_size) in *.
  assert (Hlt : start < n).
  { unfold start. assert (batch ≤ q - 1) by lia. nia. }
  assert (H0 : 0 ≤ start) by (unfold start; nia).
  destruct (Z.eqb_spec (Z.min n (start + Z.min (c - seen) batch_size) - start) 0)
    as [Hz|Hnz].
  { simpl. split; [lia|]. split; [lia|constructor]. }
  set (stop := Z.min n (start + Z.min (c - seen) batch_size)) in *.
  assert (Hcut : ∃ a e, cut_batch (n0 :: rest) ((n0, v0) :: d') start stop
                        = cut_batch (n0 :: rest) ((n0, v0) :: d') a e
                        ∧ 0 ≤ a ≤ e ∧ e ≤ n).
  { exists start, stop. split; [done|]. unfold stop. lia. }
  assert (Hlen : batch_len (cut_batch (n0 :: rest) ((n0, v0) :: d') start stop)
                 = stop - start).
  { apply batch_len_cut; unfold stop; [lia|fold n; lia]. }
  destruct (Z.geb_spec (seen + (stop - start)) c) as [Hge|Hlt'].
  { cbn [fst snd nb_samples foldr]. rewrite Hlen. unfold stop in *.
    split; [lia|]. split; [lia|]. by constructor. }
  specialize (IH (batch + 1) (seen + (stop - start))).
  assert (Hnext : (batch + 1) * batch_size = start + batch_size)
    by (unfold start; ring).
  assert (Hstop : stop - start = Z.min (n - start) batch_size)
    by (unfold stop in *; lia).
  destruct (decide (batch + 1 ≤ q ∧ start + batch_size ≤ n)) as [[Hb1 Hs1]|Hend].
  - destruct IH as (IH1 & IH2 & IH3); [lia|lia|lia|lia|].
    destruct (batch_loop _ _ _ _ _ k (batch + 1) _) as [bs' seen'].
    cbn [fst snd] in *.
    change (nb_samples (?b :: bs')) with (batch_len b + nb_samples bs').
    rewrite Hlen, IH2, IH1, Hnext. split; [lia|]. split; [lia|].
    by constructor.
  - (* the file is used up *)
    assert (Hrest : n - start ≤ batch_size).
    { destruct (decide (batch + 1 ≤ q)); [lia|]. assert (batch = q) by lia.
      subst batch. unfold start in *. lia. }
    assert (Hq1 : k = 0%nat).
    { destruct (decide (batch + 1 ≤ q)); [|lia].
      assert (q ≤ batch + 1); [|lia].
      destruct (decide (q ≤ batch + 1)); [done|].
      assert (batch + 1 ≤ q - 1) by lia. nia. }
    subst k. cbn [batch_loop fst snd].
    change (nb_samples [?b]) with (batch_len b + 0). rewrite Hlen.
    split; [lia|]. split; [lia|]. by constructor.
Qed.

Lemma ceil_div_pos (n batch_size : Z) :
  0 ≤ n → 0 < batch_size →
  (ceil_div n batch_size - 1) * batch_size < n ≤ ceil_div n batch_size * batch_size
  ∧ 0 ≤ ceil_div n batch_size.
Proof.
  intros Hn Hbs. unfold ceil_div.
  pose proof (Z.div_mod (- n) batch_size ltac:(lia)) as Hdm.
  pose proof (Z.mod_pos_bound (- n) batch_size Hbs) as Hmod. nia.
Qed.

Lemma ceil_div_neg (n batch_size : Z) :
  0 ≤ n → batch_size < 0 → ceil_div n batch_size ≤ 0.
Proof.
  intros Hn Hbs. unfold ceil_div.
  rewrite <-(Z.opp_involutive batch_size), Z.div_opp_opp by lia.
  assert (0 ≤ n `div` (- batch_size)) by (apply Z.div_pos; lia). lia.
Qed.

End batch_facts.

(** *** Rounds of the loop under a cap *)

Section round_facts.
Context {A : Type}.
Variable shuffle_files : nat → list string → list string.
Variable shuffle_idx : nat → list nat → list nat.
Hypothesis shuffle_idx_perm : ∀ k l, shuffle_idx k l ≡ₚ l.
Implicit Types (fs : gmap string (gmap string (list A))) (cfg : config)
  (st : locals) (d : pydict (list A)).

Lemma load_names_head (f : gmap string (list A)) rest n0 v0 t d :
  f !! n0 = Some v0 →
  load_names f rest ((n0, v0) :: t) = Ok d → ∃ d', d = (n0, v0) :: d'.
Proof.
  intros Hf. revert t. induction rest as [|n rest IH]; intros t.
  { intros [= <-]. by eexists. }
  cbn [load_names]. unfold getitem. destruct (f !! n) as [v|] eqn:E; [|done].
  cbn [bind dict_set]. case_bool_decide as Hn.
  - subst n. assert (v = v0) as -> by congruence. apply IH.
  - apply IH.
Qed.

Lemma fancy_index_length {B} (a : list B) (idx : list nat) r :
  Align.fancy_index a idx = Ok r → length r = length idx.
Proof.
  revert r. induction idx as [|i idx IH]; intros r; simpl.
  { by intros [= <-]. }
  destruct (a !! i); [|done]. destruct (Align.fancy_index a idx) as [r'|]; [|done].
  simpl. intros [= <-]. simpl. by rewrite (IH r').
Qed.

(** The file of a round has the first name as its first key, and the
    number of samples of the round is the number of rows under that key. *)
Definition headed (names : list string) d (n : Z) : Prop :=
  ∃ n0 rest v0 d', names = n0 :: rest ∧ d = (n0, v0) :: d'
                   ∧ Z.of_nat (length v0) = n.

Lemma load_file_head fs cfg st d n st1 :
  load_file shuffle_files shuffle_idx fs cfg st = (Ok (d, n), st1) →
  headed (names cfg) d n
  ∧ cap st1 = cap st ∧ nb_seen st1 = nb_seen st ∧ file_idx st1 = file_idx st.
Proof.
  unfold load_file.
  set (st0 := if shuffle cfg && bool_decide (file_idx st = 0%nat) then _ else st).
  assert (H0 : cap st0 = cap st ∧ nb_seen st0 = nb_seen st
               ∧ file_idx st0 = file_idx st).
  { unfold st0. by destruct (shuffle cfg && _). }
  destruct (deref (objects st0) (data_files st0) !! file_idx st0) as [name|];
    [|done].
  unfold open_read. destruct (fs !! name) as [f|]; [|done]. cbn [bind].
  destruct (names cfg) as [|n0 rest] eqn:Hnames.
  { simpl. done. }
  cbn [load_names]. unfold getitem at 1.
  destruct (f !! n0) as [v0|] eqn:Hv0; [|done]. cbn [bind dict_set].
  destruct (load_names f rest [(n0, v0)]) as [d0|] eqn:Hload; [|done].
  destruct (load_names_head f rest n0 v0 [] d0 Hv0 Hload) as [d' ->].
  cbn [bind].
  destruct (shuffle cfg).
  - cbn [permute_all].
    destruct (Align.fancy_index _ _) as [v1|] eqn:Hfi; [|done]. cbn [bind].
    destruct (permute_all d' _) as [d2|]; [|done]. cbn [bind].
    intros [= <- <- <-]. split; [|done].
    exists n0, rest, v1, d2. split; [done|]. split; [done|].
    apply fancy_index_length in Hfi. rewrite Hfi.
    by rewrite shuffle_idx_perm, length_seq.
  - intros [= <- <- <-]. split; [|done]. by exists n0, rest, v0, d'.
Qed.

(** What a round under the cap [c] does to the counter: it yields batches
    [bs] that fit under the cap, and it either goes on from the counter plus
    their samples, or restarts from zero. *)
Lemma round_capped fs cfg st c :
  cap st = Some c → 0 ≤ nb_seen st ≤ c →
  ∃ bs : list (@batch_dict A),
    nb_seen st + nb_samples bs ≤ c
    ∧ cap (round shuffle_files shuffle_idx fs cfg st).2 = Some c
    ∧ ( ((round shuffle_files shuffle_idx fs cfg st).1.1 = Yield <$> bs
         ∧ ((round shuffle_files shuffle_idx fs cfg st).1.2 = Continue →
            nb_seen (round shuffle_files shuffle_idx fs cfg st).2
            = nb_seen st + nb_samples bs)
         ∧ (loop cfg = false ∨
            (round shuffle_files shuffle_idx fs cfg st).1.2 ≠ Stop))
        ∨ ((round shuffle_files shuffle_idx fs cfg st).1.1
             = (Yield <$> bs) ++ [Restart]
           ∧ (round shuffle_files shuffle_idx fs cfg st).1.2 = Continue
           ∧ nb_seen (round shuffle_files shuffle_idx fs cfg st).2 = 0
           ∧ loop cfg = true) ).
Proof.
  intros Hcap Hseen. unfold round.
  pose proof (load_file_frame shuffle_files shuffle_idx fs cfg st) as _.
  destruct (load_file _ _ fs cfg st) as [[[d n]|e] st1] eqn:Hload.
  2:{ exists []. simpl. split; [lia|].
      assert (cap st1 = Some c) as ->.
      2:{ split; [done|]. left. split; [done|]. split; [done|]. by right. }
      revert Hload. unfold load_file.
      set (st0 := if shuffle cfg && bool_decide (file_idx st = 0%nat)
                  then _ else st).
      assert (cap st0 = Some c) by (unfold st0; by destruct (shuffle cfg && _)).
      destruct (deref _ _ !! _); [|by intros [= _ <-]].
      destruct (bind _ _) as [[d n]|e']; [|by intros [= _ <-]].
      destruct (shuffle cfg); [|done].
      destruct (permute_all d _); by intros [= _ <-]. }
  apply load_file_head in Hload as ((n0 & rest & v0 & d' & Hnames & -> & Hn)
                                    & Hcap1 & Hseen1 & Hidx1).
  rewrite Hcap1, Hcap, Hseen1, Hnames.
  destruct (Z.eqb_spec (batch_size cfg) 0) as [Hz|Hnz].
  { exists []. simpl. split; [lia|]. split; [congruence|]. left.
    split; [done|]. split; [done|]. by right. }
  assert (Hbl : ∃ bs seen,
    batch_loop (n0 :: rest) ((n0, v0) :: d') (batch_size cfg) (Some c) n
      (Z.to_nat (ceil_div n (batch_size cfg))) 0 (nb_seen st) = (bs, seen)
    ∧ seen = nb_seen st + nb_samples bs ∧ seen ≤ c).
  { destruct (Z_lt_le_dec 0 (batch_size cfg)) as [Hpos|Hneg].
    - subst n. destruct (ceil_div_pos (Z.of_nat (length v0)) (batch_size cfg))
        as [Hq Hq0]; [lia|done|].
      pose proof (batch_loop_capped n0 rest v0 d' (batch_size cfg) c
                    (ceil_div (Z.of_nat (length v0)) (batch_size cfg))
                    (Z.to_nat (ceil_div (Z.of_nat (length v0)) (batch_size cfg)))
                    0 (nb_seen st) Hpos Hq) as Hspec.
      destruct Hspec as (H1 & H2 & _); [lia|f_equal; lia|lia|lia|].
      destruct (batch_loop _ _ _ _ _ _ _ _) as [bs seen]. simpl in *.
      exists bs, seen. split; [done|]. split; [done|]. lia.
    - assert (Z.to_nat (ceil_div n (batch_size cfg)) = 0%nat) as ->.
      { pose proof (ceil_div_neg n (batch_size cfg)). lia. }
      exists [], (nb_seen st). simpl. split; [done|]. lia. }
  destruct Hbl as (bs & seen & -> & Hs & Hle).
  exists bs. split; [lia|].
  rewrite (proj2 (Z.leb_le seen c)) by done. cbn [negb].
  destruct (_ && _).
  { simpl. split; [congruence|]. left. split; [done|]. split; [done|]. by right. }
  case_bool_decide.
  - destruct (loop cfg) eqn:Hloop; simpl.
    + split; [congruence|]. right. by repeat split.
    + split; [congruence|]. left. split; [done|]. split; [done|]. by left.
  - simpl. split; [congruence|]. left. split; [done|]. split; [done|]. by right.
Qed.

Lemma passes_cons (evs : list (@event A)) : ∃ p ps, passes evs = p :: ps.
Proof.
  induction evs as [|[b|] evs (p & ps & IH)]; simpl; [by eexists _, _..| |].
  - rewrite IH. by eexists _, _.
  - by eexists _, _.
Qed.

Lemma passes_yields_app (bs : list (@batch_dict A)) evs p ps :
  passes evs = p :: ps → passes ((Yield <$> bs) ++ evs) = (bs ++ p) :: ps.
Proof.
  intros Hp. induction bs as [|b bs IH]; [done|]. csimpl. by rewrite IH.
Qed.

Lemma passes_restart_app (bs : list (@batch_dict A)) evs :
  passes (((Yield <$> bs) ++ [Restart]) ++ evs) = bs :: passes evs.
Proof.
  rewrite <-app_assoc.
  rewrite (passes_yields_app bs ([Restart] ++ evs) [] (passes evs)) by done.
  by rewrite app_nil_r.
Qed.

Lemma yields_passes (evs : list (@event A)) : yields evs = concat (passes evs).
Proof.
  unfold yields. induction evs as [|[b|] evs IH]; csimpl; [done| |done].
  rewrite IH. by destruct (passes_cons evs) as (p & ps & ->).
Qed.

(** Under a cap, every pass over the containers yields no more samples
    than the cap leaves, whatever the number of rounds. *)
Lemma reader_loop_capped fs cfg (fuel : nat) st c :
  cap st = Some c → 0 ≤ nb_seen st ≤ c →
  ∃ p ps,
    passes (reader_loop shuffle_files shuffle_idx fs cfg fuel st).1.1 = p :: ps
    ∧ nb_seen st + nb_samples p ≤ c
    ∧ Forall (λ p, nb_samples p ≤ c) ps
    ∧ (loop cfg = false → ps = []).
Proof.
  revert st. induction fuel as [|fuel IH]; intros st Hcap Hseen.
  { exists [], []. simpl. split; [done|]. split; [lia|]. by split. }
  cbn [reader_loop].
  destruct (round_capped fs cfg st c Hcap Hseen) as (bs & Hbs & Hcap1 & Hcases).
  pose proof (nb_samples_nonneg bs) as Hnn.
  destruct (round _ _ fs cfg st) as [[evs ctl] st1]. simpl in *.
  destruct Hcases as [(-> & Hcont & Hloop)|(-> & -> & Hzero & Hloop)].
  - destruct ctl.
    + specialize (Hcont eq_refl).
      destruct (IH st1) as (p & ps & Hp & Hle & Hps & Hl); [done|lia|].
      destruct (reader_loop _ _ fs cfg fuel st1) as [[evs' out] st2].
      simpl in *. exists (bs ++ p), ps.
      split; [by apply passes_yields_app|]. rewrite nb_samples_app.
      split; [lia|]. by split.
    + exists bs, []. simpl.
      rewrite <-(app_nil_r (Yield <$> bs)).
      rewrite (passes_yields_app bs [] [] []) by done. rewrite app_nil_r.
      split; [done|]. split; [lia|]. by split.
    + exists bs, []. simpl.
      rewrite <-(app_nil_r (Yield <$> bs)).
      rewrite (passes_yields_app bs [] [] []) by done. rewrite app_nil_r.
      split; [done|]. split; [lia|]. by split.
  - destruct (IH st1) as (p & ps & Hp & Hle & Hps & Hl); [done|lia|].
    destruct (reader_loop _ _ fs cfg fuel st1) as [[evs' out] st2].
    simpl in *. exists bs, (p :: ps).
    split; [by rewrite passes_restart_app, Hp|]. split; [lia|].
    split; [constructor; [lia|done]|]. congruence.
Qed.

Lemma reader_init_cap fs arg cfg h st c :
  nb_sample cfg = Some c → c ≠ 0 →
  (reader_init fs arg cfg h).1 = Ok st → cap st = Some c ∧ nb_seen st = 0.
Proof.
  intros Hc Hc0. unfold reader_init.
  destruct (match arg with FilesList r => _ | FileStr s => _ end) as [r0 h0].
  destruct (alloc h0 _) as [r1 h1]. rewrite Hc.
  rewrite (proj2 (Z.eqb_neq c 0)) by done.
  destruct (alloc h1 []) as [r2 h2].
  destruct (select_files _ _ _ _ _ _ _) as [[[]|e] h3]; [|done].
  simpl. by intros [= <-].
Qed.

End round_facts.

(** *** Well-formed containers *)

Section exact_facts.
Context {A : Type}.
Variable shuffle_files : nat → list string → list string.
Variable shuffle_idx : nat → list nat → list nat.
Hypothesis shuffle_files_perm : ∀ k l, shuffle_files k l ≡ₚ l.
Hypothesis shuffle_idx_perm : ∀ k l, shuffle_idx k l ≡ₚ l.
Implicit Types (fs : gmap string (gmap string (list A))) (cfg : config)
  (st : locals) (d : pydict (list A)) (names : list string).

(** The number of samples of a container: the rows under the first key. *)
Definition rows fs names (f : string) : nat :=
  match names with
  | [] => 0%nat
  | n0 :: _ => length (default [] (fs !! f ≫= (.!! n0)))
  end.

(** The container [f] exists and holds, under every key asked for, as many
    rows as under the first. *)
Definition well_formed fs names (f : string) : Prop :=
  ∃ hf, fs !! f = Some hf
        ∧ ∀ name, name ∈ names →
            ∃ v, hf !! name = Some v ∧ length v = rows fs names f.

Definition total fs names (files : list string) : Z :=
  foldr (λ f s, Z.of_nat (rows fs names f) + s) 0 files.

(** A dictionary that has every key asked for, all values of length [n]. *)
Definition full_dict names d (n : nat) : Prop :=
  Forall (λ kv, length kv.2 = n) d ∧ ∀ name, name ∈ names → name ∈ d.*1.

(** A batch with one slice of the same length under every key asked for. *)
Definition uniform_batch names (b : @batch_dict A) : Prop :=
  NoDup b.*1
  ∧ ∀ name, name ∈ names →
      ∃ v, dict_get b name = Some v ∧ Z.of_nat (length v) = batch_len b.

Lemma dict_set_Forall {B} (P : string * B → Prop) (d0 : pydict B) k v :
  Forall P d0 → P (k, v) → Forall P (dict_set d0 k v).
Proof.
  intros Hd Hv. induction Hd as [|[k' v'] d0 Hkv Hd IH]; simpl.
  { by constructor. }
  case_bool_decide; constructor; auto.
Qed.

Lemma dict_get_elem {B} (d0 : pydict B) k v :
  dict_get d0 k = Some v → (k, v) ∈ d0.
Proof.
  induction d0 as [|[k' v'] d0 IH]; [done|]. simpl.
  case_bool_decide as E.
  - intros [= ->]. subst. left.
  - intros H. right. by apply IH.
Qed.

Lemma dict_get_is_Some {B} (d0 : pydict B) k : k ∈ d0.*1 → is_Some (dict_get d0 k).
Proof.
  induction d0 as [|[k' v'] d0 IH]; csimpl; [by intros ?%elem_of_nil|].
  intros [->|Hk]%elem_of_cons.
  - rewrite bool_decide_true by done. by eexists.
  - case_bool_decide; [by eexists|by apply IH].
Qed.

Lemma full_dict_get names d n name :
  full_dict names d n → name ∈ names →
  ∃ v, dict_get d name = Some v ∧ length v = n.
Proof.
  intros [Hall Hkeys] Hn.
  destruct (dict_get_is_Some d name (Hkeys name Hn)) as [v Hv].
  exists v. split; [done|]. rewrite Forall_forall in Hall.
  by apply (Hall (name, v)), dict_get_elem.
Qed.

Lemma load_names_full (hf : gmap string (list A)) names d0 n :
  (∀ name, name ∈ names → ∃ v, hf !! name = Some v ∧ length v = n) →
  Forall (λ kv, length kv.2 = n) d0 →
  ∃ d, load_names hf names d0 = Ok d
    ∧ Forall (λ kv, length kv.2 = n) d
    ∧ ∀ k, k ∈ d0.*1 ∨ k ∈ names → k ∈ d.*1.
Proof.
  revert d0. induction names as [|name names IH]; intros d0 Hhf Hd0.
  { exists d0. split; [done|]. split; [done|].
    intros k [?|?%elem_of_nil]; done. }
  destruct (Hhf name) as (v & Hv & Hlen); [left|].
  cbn [load_names]. unfold getitem. rewrite Hv. cbn [bind].
  destruct (IH (dict_set d0 name v)) as (d & Hd & Hall & Hkeys).
  { intros k Hk. apply Hhf. by right. }
  { by apply dict_set_Forall. }
  exists d. split; [done|]. split; [done|].
  intros k Hk. apply Hkeys. rewrite dict_set_keys.
  destruct Hk as [Hk|[->|Hk]%elem_of_cons].
  - left. case_bool_decide; [done|]. apply elem_of_app. by left.
  - left. case_bool_decide; [done|]. apply elem_of_app. right. left.
  - by right.
Qed.

Lemma fancy_index_perm {B} (a : list B) (idx : list nat) :
  idx ≡ₚ seq 0 (length a) →
  ∃ r, Align.fancy_index (take (length idx) a) idx = Ok r
       ∧ length r = length a.
Proof.
  intros Hperm.
  assert (Hlen : length idx = length a).
  { by rewrite Hperm, length_seq. }
  rewrite Hlen, firstn_all.
  assert (Hall : Forall (λ i, (i < length a)%nat) idx).
  { rewrite Hperm. apply Forall_forall. intros i Hi%elem_of_seq. lia. }
  rewrite <-Hlen. clear Hlen Hperm.
  induction Hall as [|i idx Hi _ (r & Hr & Hl)]; [by exists []|].
  simpl. destruct (lookup_lt_is_Some_2 a i Hi) as [x ->].
  rewrite Hr. simpl. exists (x :: r). split; [done|]. simpl. by rewrite Hl.
Qed.

Lemma permute_all_full d (idx : list nat) n :
  Forall (λ kv, length kv.2 = n) d → idx ≡ₚ seq 0 n →
  ∃ d2, permute_all d idx = Ok d2
    ∧ d2.*1 = d.*1 ∧ Forall (λ kv, length kv.2 = n) d2.
Proof.
  intros Hd Hidx. induction Hd as [|[k v] d Hv Hd (d2 & Hd2 & Hk & Hall)].
  { by exists []. }
  simpl in Hv. subst n. cbn [permute_all].
  destruct (fancy_index_perm v idx Hidx) as (r & -> & Hr). cbn [bind].
  rewrite Hd2. cbn [bind]. exists ((k, r) :: d2).
  split; [done|]. split; [csimpl; by rewrite Hk|]. by constructor.
Qed.

(** The list of files a round works on: the list bound to [data_files],
    shuffled first when the round is the first of a pass. *)
Definition round_files cfg st (files : list string) : list string :=
  if shuffle cfg && bool_decide (file_idx st = 0%nat)
  then shuffle_files (rng st) files else files.

Lemma load_file_exact fs cfg st files f :
  objects st !! data_files st = Some files →
  round_files cfg st files !! file_idx st = Some f →
  well_formed fs (names cfg) f → names cfg ≠ [] →
  ∃ d st1,
    load_file shuffle_files shuffle_idx fs cfg st
    = (Ok (d, Z.of_nat (rows fs (names cfg) f)), st1)
    ∧ headed (names cfg) d (Z.of_nat (rows fs (names cfg) f))
    ∧ full_dict (names cfg) d (rows fs (names cfg) f)
    ∧ objects st1 !! data_files st1 = Some (round_files cfg st files)
    ∧ data_files st1 = data_files st ∧ cap st1 = cap st
    ∧ nb_seen st1 = nb_seen st ∧ file_idx st1 = file_idx st.
Proof.
  intros Hfiles Hf (hf & Hhf & Hkeys) Hnames.
  assert (Hex : ∃ d st1,
    load_file shuffle_files shuffle_idx fs cfg st
    = (Ok (d, Z.of_nat (rows fs (names cfg) f)), st1)
    ∧ full_dict (names cfg) d (rows fs (names cfg) f)
    ∧ objects st1 !! data_files st1 = Some (round_files cfg st files)
    ∧ data_files st1 = data_files st).
  { unfold load_file, round_files in *.
    set (st0 := if shuffle cfg && bool_decide (file_idx st = 0%nat)
                then _ else st).
    assert (H0 : objects st0 !! data_files st0
                 = Some (if shuffle cfg && bool_decide (file_idx st = 0%nat)
                         then shuffle_files (rng st) files else files)
                 ∧ data_files st0 = data_files st ∧ file_idx st0 = file_idx st).
    { unfold st0. destruct (shuffle cfg && _); [|done]. simpl.
      split; [|done]. unfold deref. rewrite Hfiles. simpl.
      apply lookup_insert_eq. }
    destruct H0 as (Hobj & Hdf & Hidx).
    unfold deref at 1. rewrite Hobj, Hidx. cbn [default]. unfold id.
    rewrite Hf.
    unfold open_read. rewrite Hhf. cbn [bind].
    destruct (load_names_full hf (names cfg) [] (rows fs (names cfg) f))
      as (d & Hd & Hall & Hin); [done|constructor|].
    rewrite Hd. cbn [bind].
    destruct d as [|[k v] d'].
    { destruct (names cfg) as [|n0 ?]; [done|].
      assert (n0 ∈ ([] : pydict (list A)).*1) as Hn0 by (apply Hin; right; left).
      by apply elem_of_nil in Hn0. }
    assert (Hv : length v = rows fs (names cfg) f).
    { by apply Forall_cons in Hall as [? _]. }
    rewrite Hv.
    destruct (shuffle cfg) eqn:Hsh.
    - destruct (permute_all_full ((k, v) :: d')
                  (shuffle_idx (rng st0) (seq 0 (rows fs (names cfg) f)))
                  (rows fs (names cfg) f)) as (d2 & -> & Hk2 & Hall2);
        [done|apply shuffle_idx_perm|].
      eexists d2, _. split; [done|]. split; [|by split].
      split; [done|]. intros name Hn. rewrite Hk2. apply Hin. by right.
    - eexists _, st0. split; [done|]. split; [|by split].
      split; [done|]. intros name Hn. apply Hin. by right. }
  destruct Hex as (d & st1 & Hload & Hfull & Hobj & Hdf).
  exists d, st1. split; [done|].
  destruct (load_file_head shuffle_files shuffle_idx shuffle_idx_perm
              fs cfg st d _ st1 Hload) as (Hhead & Hc & Hs & Hi).
  split; [exact Hhead|]. split; [exact Hfull|]. split; [exact Hobj|].
  by repeat split.
Qed.

Lemma cut_batch_get names d (a e : Z) (k : string) :
  dict_get (cut_batch names d a e) k
  = if bool_decide (k ∈ names)
    then Some (py_slice (default [] (dict_get d k)) a e) else None.
Proof.
  unfold cut_batch.
  assert (Hgen : ∀ acc,
    dict_get (foldl (λ data_batch name,
                dict_set data_batch name
                  (py_slice (default [] (dict_get d name)) a e)) acc names) k
    = if bool_decide (k ∈ names)
      then Some (py_slice (default [] (dict_get d k)) a e)
      else dict_get acc k); [|by rewrite Hgen].
  induction names as [|name names IH]; intros acc.
  { by rewrite bool_decide_false by apply not_elem_of_nil. }
  cbn [foldl]. rewrite IH.
  destruct (decide (k ∈ names)) as [Hin|Hnin].
  - rewrite !bool_decide_true; [done|by right|done].
  - rewrite (bool_decide_false (k ∈ names)) by done.
    destruct (decide (k = name)) as [->|Hne].
    + rewrite dict_get_set_eq. by rewrite bool_decide_true by left.
    + rewrite dict_get_set_ne by done.
      rewrite bool_decide_false; [done|].
      intros [?|?]%elem_of_cons; done.
Qed.

Lemma cut_batch_NoDup names d (a e : Z) : NoDup (cut_batch names d a e).*1.
Proof.
  unfold cut_batch.
  assert (Hgen : ∀ acc : pydict (list A), NoDup acc.*1 →
    NoDup (foldl (λ data_batch name,
             dict_set data_batch name
               (py_slice (default [] (dict_get d name)) a e)) acc names).*1).
  { induction names as [|name names IH]; intros acc Hacc; [done|].
    cbn [foldl]. by apply IH, dict_set_NoDup. }
  apply Hgen. constructor.
Qed.

Lemma cut_batch_uniform names d (n : nat) (a e : Z) :
  headed names d (Z.of_nat n) → full_dict names d n →
  0 ≤ a ≤ e → e ≤ Z.of_nat n →
  uniform_batch names (cut_batch names d a e).
Proof.
  intros (n0 & rest & v0 & d' & -> & -> & Hv0) Hfull Hae He.
  split; [apply cut_batch_NoDup|].
  intros name Hname. rewrite cut_batch_get, bool_decide_true by done.
  eexists. split; [done|].
  rewrite batch_len_cut by lia.
  destruct (full_dict_get _ _ _ name Hfull Hname) as (v & -> & Hv). simpl.
  apply py_slice_length; lia.
Qed.

(** How a round that does not loop leaves [while True]: it stops after the
    last file, fails the assertion of line 134 when the cap is reached on
    an earlier file, and goes on otherwise. *)
Definition next_control (seen c : Z) (idx len_files : nat) : control :=
  if bool_decide (seen = c) then
    if bool_decide (idx = len_files) then Stop else Fail AssertionError
  else if bool_decide (idx = len_files) then Stop else Continue.

Lemma round_exact fs cfg st c files f :
  loop cfg = false → 0 < batch_size cfg → names cfg ≠ [] →
  cap st = Some c → 0 ≤ nb_seen st < c →
  objects st !! data_files st = Some files →
  round_files cfg st files !! file_idx st = Some f →
  well_formed fs (names cfg) f →
  ∃ bs st1,
    round shuffle_files shuffle_idx fs cfg st
    = (Yield <$> bs,
       next_control (nb_seen st + nb_samples bs) c (S (file_idx st))
         (length (round_files cfg st files)),
       st1)
    ∧ nb_samples bs = Z.min (Z.of_nat (rows fs (names cfg) f)) (c - nb_seen st)
    ∧ Forall (uniform_batch (names cfg)) bs
    ∧ objects st1 !! data_files st1 = Some (round_files cfg st files)
    ∧ cap st1 = Some c
    ∧ nb_seen st1 = nb_seen st + nb_samples bs
    ∧ file_idx st1 = S (file_idx st).
Proof.
  intros Hloop Hbs Hnames Hcap Hseen Hfiles Hf Hwf.
  destruct (load_file_exact fs cfg st files f Hfiles Hf Hwf Hnames)
    as (d & st0 & Hload & Hhead & Hfull & Hobj & Hdf & Hcap0 & Hseen0 & Hidx0).
  unfold round. rewrite Hload.
  rewrite (proj2 (Z.eqb_neq (batch_size cfg) 0)) by lia.
  set (n := rows fs (names cfg) f) in *.
  pose proof Hhead as (n0 & rest & v0 & d' & Hn & -> & Hv0).
  destruct (ceil_div_pos (Z.of_nat n) (batch_size cfg)) as [Hq Hq0]; [lia|done|].
  rewrite Hcap0, Hcap, Hseen0, Hn, <-Hv0.
  pose proof (batch_loop_capped n0 rest v0 d' (batch_size cfg) c
                (ceil_div (Z.of_nat (length v0)) (batch_size cfg))
                (Z.to_nat (ceil_div (Z.of_nat (length v0)) (batch_size cfg)))
                0 (nb_seen st) Hbs) as Hspec.
  rewrite Hv0 in Hspec. rewrite Hv0.
  destruct Hspec as (H1 & H2 & H3); [done|lia|f_equal; lia|lia|lia|].
  destruct (batch_loop _ _ _ _ _ _ _ _) as [bs seen]. cbn [fst snd] in *.
  assert (Hdr : deref (objects st0) (data_files st0) = round_files cfg st files).
  { unfold deref. by rewrite Hobj. }
  rewrite Hdr, Hidx0. subst seen.
  exists bs, {| objects := objects st0; data_files := data_files st0;
                cap := Some c; file_idx := S (file_idx st);
                nb_seen := nb_seen st + nb_samples bs; rng := rng st0 |}.
  split.
  { rewrite (proj2 (Z.leb_le _ c)) by lia. cbn [negb].
    unfold next_control.
    destruct (decide (nb_seen st + nb_samples bs = c)) as [Hc|Hc].
    - rewrite (proj2 (Z.eqb_eq c _)) by lia.
      rewrite (bool_decide_true (_ = c)) by done.
      case_bool_decide; cbn [negb andb]; [|done]. by rewrite Hloop.
    - rewrite (proj2 (Z.eqb_neq c _)) by lia.
      rewrite (bool_decide_false (_ = c)) by done.
      cbn [andb]. case_bool_decide; [|done]. by rewrite Hloop. }
  split; [lia|]. split.
  { eapply Forall_impl; [exact H3|]. intros b (a & e & -> & Hae & He).
    rewrite <-Hn. by apply (cut_batch_uniform _ _ n). }
  simpl. by repeat split.
Qed.

Lemma total_nonneg fs names (files : list string) : 0 ≤ total fs names files.
Proof. induction files; simpl; lia. Qed.

Lemma total_perm fs names (files files' : list string) :
  files ≡ₚ files' → total fs names files = total fs names files'.
Proof. induction 1; simpl; lia. Qed.

Lemma total_app fs names (l1 l2 : list string) :
  total fs names (l1 ++ l2) = total fs names l1 + total fs names l2.
Proof. induction l1; simpl; lia. Qed.

Lemma round_files_perm cfg st (files : list string) :
  round_files cfg st files ≡ₚ files.
Proof. unfold round_files. by destruct (_ && _). Qed.

(** The rounds of a reader that does not loop, from a state in which the
    files still to be read hold what the cap leaves: the batches make up
    exactly what the cap leaves. *)
Lemma loop_exact fs cfg c (fuel : nat) st (files : list string) :
  loop cfg = false → 0 < batch_size cfg → names cfg ≠ [] →
  cap st = Some c → 0 ≤ nb_seen st < c →
  objects st !! data_files st = Some files →
  Forall (well_formed fs (names cfg)) files →
  c - nb_seen st
    ≤ total fs (names cfg) (drop (file_idx st) (round_files cfg st files)) →
  (length files - file_idx st ≤ fuel)%nat →
  ∃ bs out st',
    reader_loop shuffle_files shuffle_idx fs cfg fuel st
    = (Yield <$> bs, out, st')
    ∧ nb_samples bs = c - nb_seen st
    ∧ Forall (uniform_batch (names cfg)) bs.
Proof.
  intros Hloop Hbs Hnames. revert st files.
  induction fuel as [|fuel IH]; intros st files Hcap Hseen Hfiles Hwf Htot Hfuel.
  { pose proof (Permutation_length (round_files_perm cfg st files)) as Hlen.
    rewrite drop_ge in Htot by lia. simpl in Htot. lia. }
  pose proof (round_files_perm cfg st files) as Hperm.
  pose proof (Permutation_length Hperm) as Hlen.
  assert (Hwf' : Forall (well_formed fs (names cfg)) (round_files cfg st files)).
  { by rewrite Hperm. }
  destruct (round_files cfg st files !! file_idx st) as [f|] eqn:Hf.
  2:{ apply lookup_ge_None in Hf. rewrite drop_ge in Htot by lia.
      simpl in Htot. lia. }
  destruct (round_exact fs cfg st c files f Hloop Hbs Hnames Hcap Hseen Hfiles Hf)
    as (bs & st1 & Hround & Hnb & Hunif & Hobj1 & Hcap1 & Hseen1 & Hidx1).
  { by eapply Forall_lookup_1. }
  cbn [reader_loop]. rewrite Hround.
  rewrite (drop_S _ _ _ Hf) in Htot. simpl in Htot.
  unfold next_control.
  destruct (decide (nb_seen st + nb_samples bs = c)) as [Hc|Hc].
  { rewrite bool_decide_true by done.
    case_bool_decide; exists bs; eexists _, st1;
      (split; [done|]); (split; [lia|done]). }
  rewrite bool_decide_false by done.
  pose proof (total_nonneg fs (names cfg)
                (drop (S (file_idx st)) (round_files cfg st files))) as Hnn.
  assert (Hlt : (S (file_idx st) < length (round_files cfg st files))%nat).
  { destruct (decide (S (file_idx st) < length (round_files cfg st files))%nat);
      [done|].
    rewrite drop_ge in Htot by lia. simpl in Htot. lia. }
  rewrite bool_decide_false by lia.
  assert (Hrf : round_files cfg st1 (round_files cfg st files)
                = round_files cfg st files).
  { unfold round_files at 1. rewrite Hidx1.
    rewrite (bool_decide_false (S _ = 0%nat)) by done. by rewrite andb_false_r. }
  destruct (IH st1 (round_files cfg st files)) as (bs' & out & st' & Hl & Hnb' & Hu');
    [done|lia|done|done|rewrite Hrf, Hidx1, Hseen1; lia|lia|].
  rewrite Hl. exists (bs ++ bs'), out, st'. rewrite fmap_app.
  split; [done|]. rewrite nb_samples_app. split; [lia|by apply Forall_app].
Qed.

(** *** The files a capped reader selects *)

(** The file names behind the argument [data_files]. *)
Definition arg_files (h : heap) (arg : files_arg) : list string :=
  match arg with
  | FilesList r => deref h r
  | FileStr s => [s]
  end.

Lemma first_len_exact fs names (f : string) :
  names ≠ [] → well_formed fs names f →
  first_len fs names f = Ok (Z.of_nat (rows fs names f)).
Proof.
  intros Hnames (hf & Hhf & Hall). unfold first_len, open_read. rewrite Hhf.
  cbn [bind]. destruct names as [|n0 rest]; [done|].
  destruct (Hall n0) as (v & Hv & Hlen); [by left|].
  unfold getitem. rewrite Hv. cbn [bind]. by rewrite Hlen.
Qed.

Lemma select_files_exact fs names (c : Z) (files : list string) (r' : nat)
    (s : Z) (h : heap) (acc : list string) :
  names ≠ [] → Forall (well_formed fs names) files →
  h !! r' = Some acc → c ≤ s + total fs names files → s < c →
  ∃ sel rest h',
    select_files fs names c files r' s h = (Ok tt, h')
    ∧ h' !! r' = Some (acc ++ sel) ∧ files = sel ++ rest
    ∧ c ≤ s + total fs names sel.
Proof.
  intros Hnames Hwf. revert s h acc.
  induction Hwf as [|f files Hf Hwf IH]; intros s h acc Hacc Htot Hs.
  { simpl in Htot. lia. }
  cbn [select_files]. rewrite first_len_exact by done.
  unfold deref. rewrite Hacc. cbn [default]. simpl in Htot.
  rewrite Z.geb_leb. destruct (Z.leb_spec c (s + Z.of_nat (rows fs names f))).
  { exists [f], files, (<[r':=acc ++ [f]]> h).
    split; [done|]. split; [by rewrite lookup_insert_eq|].
    split; [done|]. simpl. lia. }
  destruct (IH (s + Z.of_nat (rows fs names f)) (<[r':=acc ++ [f]]> h) (acc ++ [f]))
    as (sel & rest & h' & Hsel & Hh' & -> & Hc); [by rewrite lookup_insert_eq|lia..|].
  exists (f :: sel), rest, h'. split; [done|].
  split; [by rewrite Hh', <-app_assoc|]. split; [done|]. simpl. lia.
Qed.

Lemma reader_init_exact fs (arg : files_arg) cfg (h : heap) (c : Z) :
  nb_sample cfg = Some c → 0 < c → names cfg ≠ [] →
  Forall (well_formed fs (names cfg)) (arg_files h arg) →
  c ≤ total fs (names cfg) (arg_files h arg) →
  ∃ st h' sel rest,
    reader_init fs arg cfg h = (Ok st, h')
    ∧ objects st !! data_files st = Some sel
    ∧ arg_files h arg = sel ++ rest
    ∧ c ≤ total fs (names cfg) sel
    ∧ cap st = Some c ∧ file_idx st = 0%nat ∧ nb_seen st = 0.
Proof.
  intros Hc Hpos Hnames Hwf Htot. unfold reader_init.
  destruct (match arg with
            | FilesList r => (r, h)
            | FileStr s => alloc h [s]
            end) as [r0 h0] eqn:H0.
  assert (Hfiles : deref h0 r0 = arg_files h arg).
  { destruct arg as [r|s0]; [by injection H0 as <- <-|].
    injection H0 as <- <-. unfold deref. by rewrite lookup_insert_eq. }
  rewrite Hfiles.
  destruct (alloc h0 (arg_files h arg)) as [r1 h1] eqn:H1.
  apply alloc_fresh in H1 as [Hr1 ->].
  rewrite Hc, (proj2 (Z.eqb_neq c 0)) by lia.
  destruct (alloc _ []) as [r2 h2] eqn:H2.
  apply alloc_fresh in H2 as [Hr2 ->].
  assert (Hne : r2 ≠ r1).
  { intros ->. by rewrite lookup_insert_eq in Hr2. }
  assert (Hd : deref (<[r2:=[]]> (<[r1:=arg_files h arg]> h0)) r1
               = arg_files h arg).
  { unfold deref. by rewrite lookup_insert_ne, lookup_insert_eq. }
  rewrite Hd.
  destruct (select_files_exact fs (names cfg) c (arg_files h arg) r2 0
              (<[r2:=[]]> (<[r1:=arg_files h arg]> h0)) [])
    as (sel & rest & h' & Hsel & Hh' & Hsplit & Hcsel);
    [done|done|by rewrite lookup_insert_eq|lia|lia|].
  rewrite Hsel. eexists _, h', sel, rest. split; [done|]. simpl.
  split; [done|]. split; [done|]. split; [lia|done].
Qed.

Lemma yields_fmap (bs : list (@batch_dict A)) : yields (Yield <$> bs) = bs.
Proof. induction bs as [|b bs IH]; [done|]. unfold yields in *. csimpl. by rewrite IH. Qed.

(** A capped reader that does not loop, on files that hold the cap: it
    yields the cap exactly, in batches that have every key. *)
Lemma reader_exact fs (arg : files_arg) cfg (h : heap) (fuel : nat) (c : Z) :
  nb_sample cfg = Some c → 0 < c → loop cfg = false →
  0 < batch_size cfg → names cfg ≠ [] →
  Forall (well_formed fs (names cfg)) (arg_files h arg) →
  c ≤ total fs (names cfg) (arg_files h arg) →
  (length (arg_files h arg) ≤ fuel)%nat →
  ∃ bs out h',
    reader shuffle_files shuffle_idx fs arg cfg h fuel = (Yield <$> bs, out, h')
    ∧ nb_samples bs = c ∧ Forall (uniform_batch (names cfg)) bs.
Proof.
  intros Hc Hpos Hloop Hbs Hnames Hwf Htot Hfuel.
  destruct (reader_init_exact fs arg cfg h c Hc Hpos Hnames Hwf Htot)
    as (st & h0 & sel & rest & Hinit & Hobj & Hsplit & Hsel & Hcap & Hidx & Hseen).
  unfold reader. rewrite Hinit.
  rewrite Hsplit in Hwf, Hfuel. apply Forall_app in Hwf as [Hwf _].
  rewrite length_app in Hfuel.
  destruct (loop_exact fs cfg c fuel st sel Hloop Hbs Hnames Hcap)
    as (bs & out & st' & Hrun & Hnb & Hunif); [lia|done|done| |lia|].
  { rewrite Hidx, Hseen, drop_0, (total_perm _ _ _ _ (round_files_perm cfg st sel)).
    lia. }
  rewrite Hrun. exists bs, out, (objects st'). split; [done|].
  split; [lia|done].
Qed.

(** *** Collecting the batches *)

Lemma add_batch_get (data : pydict (list (list A))) (b : @batch_dict A)
    (name : string) :
  NoDup b.*1 →
  dict_get (add_batch data b) name
  = match dict_get b name with
    | Some v => Some (default [] (dict_get data name) ++ [v])
    | None => dict_get data name
    end.
Proof.
  unfold add_batch. revert data.
  induction b as [|[k v] b IH]; intros data Hnd; [done|].
  rewrite fmap_cons in Hnd. apply NoDup_cons in Hnd as [Hk Hnd].
  cbn [foldl]. rewrite IH by done. cbn [dict_get].
  case_bool_decide as Hkn.
  - subst name. rewrite (dict_get_None b k) by done.
    by rewrite dict_get_set_eq.
  - by rewrite dict_get_set_ne.
Qed.

Lemma collect_enough names (bs : list (@batch_dict A)) out (c : Z)
    (data : pydict (list (list A))) (seen t : Z) :
  names ≠ [] → 0 < c → Forall (uniform_batch names) bs →
  seen < c → c ≤ seen + nb_samples bs →
  (∀ name, name ∈ names →
     Z.of_nat (length (concat (default [] (dict_get data name)))) = t) →
  ∃ data',
    collect bs out (Some c) data seen = Some (Ok data')
    ∧ ∀ name, name ∈ names →
        ∃ vs, dict_get data' name = Some vs
              ∧ t + (c - seen) ≤ Z.of_nat (length (concat vs)).
Proof.
  intros Hnames Hpos Hunif. revert data seen t.
  induction Hunif as [|b bs [Hnd Hb] Hunif IH]; intros data seen t Hseen Htot Hdata.
  { simpl in Htot. lia. }
  assert (Hnext : ∀ name, name ∈ names →
            ∃ vs, dict_get (add_batch data b) name = Some vs
                  ∧ Z.of_nat (length (concat vs)) = t + batch_len b).
  { intros name Hname. destruct (Hb name Hname) as (v & Hv & Hlen).
    rewrite add_batch_get, Hv by done. eexists. split; [done|].
    rewrite concat_app, length_app. simpl. rewrite app_nil_r.
    specialize (Hdata name Hname). lia. }
  cbn [collect]. destruct b as [|[k0 v0] b'].
  { destruct names as [|n0 names']; [done|].
    destruct (Hb n0) as (v & Hv & _); [by left|]. done. }
  cbn [batch_len] in *. simpl in Htot.
  rewrite (proj2 (Z.eqb_neq c 0)) by lia. cbn [negb andb].
  rewrite Z.geb_leb. destruct (Z.leb_spec c (seen + Z.of_nat (length v0))).
  { eexists. split; [done|]. intros name Hname.
    destruct (Hnext name Hname) as (vs & Hvs & Hlen). exists vs. split; [done|]. lia. }
  destruct (IH (add_batch data ((k0, v0) :: b')) (seen + Z.of_nat (length v0))
              (t + Z.of_nat (length v0))) as (data' & Hcol & Hres); [lia|lia| |].
  { intros name Hname. destruct (Hnext name Hname) as (vs & -> & Hlen). done. }
  exists data'. split; [done|]. intros name Hname.
  destruct (Hres name Hname) as (vs & Hvs & Hlen). exists vs. split; [done|]. lia.
Qed.

Lemma dict_get_fmap {B C} (g : B → C) (d0 : pydict B) (k : string) :
  dict_get ((λ kv, (kv.1, g kv.2)) <$> d0) k = g <$> dict_get d0 k.
Proof.
  induction d0 as [|[k' v'] d0 IH]; [done|]. csimpl.
  by case_bool_decide.
Qed.

(** [read] on files that hold the cap: every key gets exactly the cap. *)
Lemma read_exact fs (arg : files_arg) names (c batch_size : Z) (shuffle : bool)
    (h : heap) :
  0 < c → 0 < batch_size → names ≠ [] →
  Forall (well_formed fs names) (arg_files h arg) →
  c ≤ total fs names (arg_files h arg) →
  ∃ data,
    read shuffle_files shuffle_idx fs arg names (Some c) batch_size shuffle h
    = Some (Ok data)
    ∧ ∀ name, name ∈ names →
        ∃ v, dict_get data name = Some v ∧ Z.of_nat (length v) = c.
Proof.
  intros Hpos Hbs Hnames Hwf Htot. unfold read.
  set (cfg := {| names := names; batch_size := batch_size;
                 nb_sample := Some c; shuffle := shuffle; loop := false |}).
  replace (match arg with
           | FilesList r => length (deref h r)
           | FileStr _ => 1%nat
           end) with (length (arg_files h arg)) by by destruct arg.
  destruct (reader_exact fs arg cfg h (S (length (arg_files h arg))) c)
    as (bs & out & h' & Hrun & Hnb & Hunif); [done..|lia|].
  rewrite Hrun, yields_fmap. unfold read_from.
  destruct (collect_enough names bs out c [] 0 0)
    as (data' & Hcol & Hres); [done|done|done|lia|lia|done|].
  rewrite Hcol, (proj2 (Z.eqb_neq c 0)) by lia.
  eexists. split; [done|]. intros name Hname.
  destruct (Hres name Hname) as (vs & Hvs & Hlen).
  unfold stack_dict.
  rewrite (dict_get_fmap (λ v, py_slice v 0 c)), (dict_get_fmap (λ l, concat l)), Hvs.
  eexists. split; [done|]. rewrite py_slice_length; lia.
Qed.

(** C1, amended. With a cap [c > 0], the batches of every pass over the
    containers hold at most [c] samples, however long the generator runs and
    whatever the shuffling, and so does the whole run of a generator that
    does not loop.  When batch size is positive, every container has every
    key with as many rows as the first, and the containers hold at least [c]
    samples, the generator that does not loop yields exactly [c] samples
    once it has had a round for every container, and [read] returns a
    dictionary with exactly [c] samples under every key. *)
Theorem reader_cap_exact fs (arg : files_arg) cfg (h : heap) (fuel : nat) (c : Z) :
  nb_sample cfg = Some c → 0 < c →
  let run := reader shuffle_files shuffle_idx fs arg cfg h fuel in
  Forall (λ p, nb_samples p ≤ c) (passes run.1.1)
  ∧ (loop cfg = false → nb_samples (yields run.1.1) ≤ c)
  ∧ (0 < batch_size cfg → names cfg ≠ [] →
     Forall (well_formed fs (names cfg)) (arg_files h arg) →
     c ≤ total fs (names cfg) (arg_files h arg) →
     (loop cfg = false → (length (arg_files h arg) ≤ fuel)%nat →
      nb_samples (yields run.1.1) = c)
     ∧ ∃ data,
         read shuffle_files shuffle_idx fs arg (names cfg) (Some c)
           (batch_size cfg) (shuffle cfg) h = Some (Ok data)
         ∧ ∀ name, name ∈ names cfg →
             ∃ v, dict_get data name = Some v ∧ Z.of_nat (length v) = c).
Proof.
  intros Hc Hpos run.
  assert (Hpass : ∃ p ps, passes run.1.1 = p :: ps ∧ nb_samples p ≤ c
                          ∧ Forall (λ p, nb_samples p ≤ c) ps
                          ∧ (loop cfg = false → ps = [])).
  { subst run. unfold reader.
    pose proof (reader_init_cap fs arg cfg h) as Hinit.
    destruct (reader_init fs arg cfg h) as [[st|e] h0].
    2:{ exists [], []. simpl. split; [done|]. split; [lia|]. by split. }
    destruct (Hinit st c Hc) as [Hcap Hseen]; [lia|done|].
    destruct (reader_loop_capped shuffle_files shuffle_idx shuffle_idx_perm
                fs cfg fuel st c Hcap) as (p & ps & Hp & Hle & Hps & Hnl); [lia|].
    destruct (reader_loop _ _ fs cfg fuel st) as [[evs out] st']. simpl in *.
    exists p, ps. split; [done|]. split; [lia|]. by split. }
  destruct Hpass as (p & ps & Hp & Hle & Hps & Hnl).
  split; [rewrite Hp; by constructor|]. split.
  { intros Hloop. rewrite yields_passes, Hp, (Hnl Hloop). simpl.
    by rewrite app_nil_r. }
  intros Hbs Hnames Hwf Htot. split; [|by apply read_exact].
  intros Hloop Hfuel. subst run.
  destruct (reader_exact fs arg cfg h fuel c)
    as (bs & out & h' & Hrun & Hnb & _); [done..|].
  rewrite Hrun. cbn [fst]. by rewrite yields_fmap.
Qed.

End exact_facts.
(** *** Runs on two containers *)

(** Random sources for the examples: one that reverses what it is given,
    and one that leaves the order. *)
Definition reversing {B} (k : nat) (l : list B) : list B := reverse l.
Definition keeping {B} (k : nat) (l : list B) : list B := l.

Lemma reversing_perm {B} (k : nat) (l : list B) : reversing k l ≡ₚ l.
Proof. apply reverse_Permutation. Qed.

Lemma keeping_perm {B} (k : nat) (l : list B) : keeping k l ≡ₚ l.
Proof. done. Qed.

(** Two containers of one and five samples with the keys [x] and [y], and
    the caller's list of their names. *)
Definition two_files : gmap string (gmap string (list Z)) :=
  {[ "a.h5" := {[ "x" := [1]; "y" := [11] ]};
     "b.h5" := {[ "x" := [2; 3; 4; 5; 6]; "y" := [12; 13; 14; 15; 16] ]} ]}.
Definition callers_list : gmap nat (list string) := {[ 0%nat := ["a.h5"; "b.h5"] ]}.

Definition capped (shuffle loop : bool) : config :=
  {| names := ["x"; "y"]; batch_size := 2; nb_sample := Some 3;
     shuffle := shuffle; loop := loop |}.

Lemma two_files_well_formed :
  Forall (well_formed two_files ["x"; "y"]) ["a.h5"; "b.h5"].
Proof.
  repeat constructor.
  - exists {[ "x" := [1]; "y" := [11] ]}. split; [reflexivity|].
    intros name [->|[->|Hn]%elem_of_cons]%elem_of_cons;
      [by eexists|by eexists|by apply elem_of_nil in Hn].
  - exists {[ "x" := [2; 3; 4; 5; 6]; "y" := [12; 13; 14; 15; 16] ]}.
    split; [reflexivity|].
    intros name [->|[->|Hn]%elem_of_cons]%elem_of_cons;
      [by eexists|by eexists|by apply elem_of_nil in Hn].
Qed.

Lemma reader_cap_exact_witness :
  let run := reader reversing reversing two_files (FilesList 0) (capped true false)
               callers_list 3 in
  Forall (λ p, nb_samples p ≤ 3) (passes run.1.1)
  ∧ nb_samples (yields run.1.1) ≤ 3
  ∧ nb_samples (yields run.1.1) = 3
  ∧ ∃ data,
      read reversing reversing two_files (FilesList 0) ["x"; "y"] (Some 3) 2 true
        callers_list = Some (Ok data)
      ∧ ∀ name, name ∈ ["x"; "y"] →
          ∃ v, dict_get data name = Some v ∧ Z.of_nat (length v) = 3.
Proof.
  destruct (reader_cap_exact reversing reversing (@reversing_perm string)
              (@reversing_perm nat) two_files (FilesList 0) (capped true false)
              callers_list 3 3 eq_refl) as (Hpass & Hrun & Hexact); [lia|].
  destruct Hexact as [Hyield Hread].
  - reflexivity.
  - discriminate.
  - exact two_files_well_formed.
  - vm_compute. discriminate.
  - split; [exact Hpass|]. split; [by apply Hrun|].
    split; [apply Hyield; [reflexivity|vm_compute; lia]|exact Hread].
Defined.

(** The run of the witness: the list is reversed, the five-sample container
    comes first and gives all three samples, the third cut out of the second
    batch; the generator then fails its assertion, which [read] never sees
    because it stops asking at the cap. *)
Example reader_shuffled_run :
  (reader reversing reversing two_files (FilesList 0) (capped true false)
     callers_list 3).1
  = ([Yield [("x", [6; 5]); ("y", [16; 15])]; Yield [("x", [4]); ("y", [14])]],
     Raised AssertionError)
  ∧ read reversing reversing two_files (FilesList 0) ["x"; "y"] (Some 3) 2 true
      callers_list
    = Some (Ok [("x", [6; 5; 4]); ("y", [16; 15; 14])]).
Proof. vm_compute. split; reflexivity. Qed.

(** C1, as stated, fails for a generator that loops: the counter of the cap
    starts again at every pass, so with the cap 3 two passes yield six
    samples. *)
Lemma reader_loop_exceeds_cap :
  let run := reader keeping keeping two_files (FilesList 0) (capped false true)
               callers_list 4 in
  nb_sample (capped false true) = Some 3
  ∧ yields run.1.1
    = [[("x", [1]); ("y", [11])]; [("x", [2; 3]); ("y", [12; 13])];
       [("x", [1]); ("y", [11])]; [("x", [2; 3]); ("y", [12; 13])]]
  ∧ nb_samples (yields run.1.1) = 6
  ∧ ¬ nb_samples (yields run.1.1) ≤ 3.
Proof.
  vm_compute. split; [reflexivity|]. split; [reflexivity|].
  split; [reflexivity|]. intros Hle. by apply Hle.
Qed.

Lemma reader_keeps_callers_list_witness :
  (reader reversing reversing two_files (FilesList 0) (capped true true)
     callers_list 5).2 !! 0%nat = Some ["a.h5"; "b.h5"].
Proof.
  apply (reader_keeps_callers_list reversing reversing two_files (FilesList 0)
           (capped true true) callers_list 5 0 ["a.h5"; "b.h5"]).
  reflexivity.
Defined.

(** The heap after that run: the caller's list, the copy, and the list of
    the selected files, which is the one that was shuffled. *)
Example reader_shuffles_own_list :
  (reader reversing reversing two_files (FilesList 0) (capped true true)
     callers_list 1).2
  = {[ 0%nat := ["a.h5"; "b.h5"]; 1%nat := ["a.h5"; "b.h5"];
       2%nat := ["b.h5"; "a.h5"] ]}.
Proof. vm_compute. reflexivity. Qed.

End HdfRead.

(** ** Profile names: [output_name_from_filename] and [read_cpg_profiles]
    of [scripts/dcpg_data.py] *)

Module Profiles.

(** [s.rfind(c)] for a single character: the last index at which [c]
    stands, or -1. *)
Fixpoint rfind_from (i : Z) (s : list ascii) (c : ascii) (found : Z) : Z :=
  match s with
  | [] => found
  | x :: s' => rfind_from (i + 1) s' c (if bool_decide (x = c) then i else found)
  end.
Definition rfind (s : list ascii) (c : ascii) : Z := rfind_from 0 s c (-1).

(** [os.path.basename]: [i = p.rfind('/') + 1; return p[i:]]. *)
Definition basename (p : list ascii) : list ascii :=
  py_slice p (rfind p "/"%char + 1) (Z.of_nat (length p)).

(** [os.path.splitext]: the path is cut at its last dot when that dot
    stands after the last slash and after a character of the file name that
    is no dot; otherwise the extension is empty. *)
Definition splitext (p : list ascii) : list ascii * list ascii :=
  let sepIndex := rfind p "/"%char in
  let dotIndex := rfind p "."%char in
  if (sepIndex <? dotIndex)
     && existsb (λ c, negb (bool_decide (c = "."%char)))
          (py_slice p (sepIndex + 1) dotIndex)
  then (py_slice p 0 dotIndex, py_slice p dotIndex (Z.of_nat (length p)))
  else (p, []).

(** The characters of [s] before its first dot. *)
Fixpoint before_dot (s : list ascii) : list ascii :=
  match s with
  | [] => []
  | c :: s' => if bool_decide (c = "."%char) then [] else c :: before_dot s'
  end.

(** [re.match(r'([^.]+)\.?', name)] and its [group(1)]: the pattern matches
    at the start of [name] when a character other than a dot stands there,
    and the group takes all such characters up to the first dot. *)
Definition re_match (name : list ascii) : option (list ascii) :=
  match before_dot name with
  | [] => None
  | g => Some g
  end.

(** [output_name_from_filename(filename)] *)
Definition output_name_from_filename (filename : string) : result string :=
  let name := (splitext (basename (String.list_ascii_of_string filename))).1 in
  match re_match name with
  | None => Raise AssertionError          (* assert match *)
  | Some g => Ok (String.string_of_list_ascii g)
  end.

Section read_cpg_profiles.
(** [dat.GzipFile(filename, 'r')] and [dat.read_cpg_table(cpg_file, ...)]
    are left open: every behaviour of the two is covered. *)
Context {F T : Type}.
Variable GzipFile : string → result F.
Variable read_cpg_table : F → result T.

(** The loop of [read_cpg_profiles], [cpg_profiles] being the ordered
    dictionary built so far. *)
Fixpoint read_files (filenames : list string) (cpg_profiles : HdfRead.pydict T)
    : result (HdfRead.pydict T) :=
  match filenames with
  | [] => Ok cpg_profiles
  | filename :: rest =>
      do cpg_file <- GzipFile filename;
      do output_name <- output_name_from_filename filename;
      do table <- read_cpg_table cpg_file;
      read_files rest (HdfRead.dict_set cpg_profiles output_name table)
  end.

(** [read_cpg_profiles(filenames, ...)] *)
Definition read_cpg_profiles (filenames : list string) : result (HdfRead.pydict T) :=
  read_files filenames [].

(** What one file contributes: its output name and its table. *)
Definition profile_of (filename : string) : result (string * T) :=
  do cpg_file <- GzipFile filename;
  do output_name <- output_name_from_filename filename;
  do table <- read_cpg_table cpg_file;
  Ok (output_name, table).

End read_cpg_profiles.

(** *** The output name *)

Lemma rfind_from_spec (s : list ascii) (c : ascii) (i found : Z) :
  ((c ∉ s) ∧ rfind_from i s c found = found)
  ∨ ∃ pre post, s = pre ++ c :: post ∧ (c ∉ post)
      ∧ rfind_from i s c found = i + Z.of_nat (length pre).
Proof.
  revert i found. induction s as [|x s IH]; intros i found.
  { left. split; [apply not_elem_of_nil|done]. }
  cbn [rfind_from].
  destruct (IH (i + 1) (if bool_decide (x = c) then i else found))
    as [[Hn Hr]|(pre & post & -> & Hpost & Hr)].
  - case_bool_decide as Hx.
    + subst x. right. exists [], s. split; [done|]. split; [done|].
      rewrite Hr. simpl. lia.
    + left. split; [|done]. rewrite not_elem_of_cons. by split.
  - right. exists (x :: pre), post. split; [done|]. split; [done|].
    rewrite Hr. rewrite length_cons. lia.
Qed.

Lemma rfind_spec (s : list ascii) (c : ascii) :
  ((c ∉ s) ∧ rfind s c = -1)
  ∨ ∃ pre post, s = pre ++ c :: post ∧ (c ∉ post)
      ∧ rfind s c = Z.of_nat (length pre).
Proof.
  unfold rfind. destruct (rfind_from_spec s c 0 (-1)) as [?|(pre & post & ? & ? & ->)];
    [by left|right]. by exists pre, post.
Qed.

Lemma py_slice_suffix {A} (pre post : list A) :
  py_slice (pre ++ post) (Z.of_nat (length pre)) (Z.of_nat (length (pre ++ post)))
  = post.
Proof.
  rewrite SeqWin.py_slice_forward by (rewrite length_app; lia).
  rewrite Nat2Z.id, drop_app_length.
  apply take_ge. rewrite length_app. lia.
Qed.

Lemma py_slice_prefix {A} (pre post : list A) :
  py_slice (pre ++ post) 0 (Z.of_nat (length pre)) = pre.
Proof.
  rewrite SeqWin.py_slice_forward by lia.
  change (Z.to_nat 0) with 0%nat.
  by rewrite drop_0, Z.sub_0_r, Nat2Z.id, take_app_length.
Qed.

Lemma py_slice_whole {A} (l : list A) : py_slice l 0 (Z.of_nat (length l)) = l.
Proof.
  rewrite <-(app_nil_r l) at 1 3. rewrite py_slice_prefix. by rewrite app_nil_r.
Qed.

(** The base name is what follows the last slash. *)
Lemma basename_spec (p : list ascii) :
  ∃ dir, p = dir ++ basename p ∧ ("/"%char ∉ basename p)
         ∧ (dir = [] ∨ ∃ d, dir = d ++ ["/"%char]).
Proof.
  unfold basename.
  destruct (rfind_spec p "/"%char) as [[Hn ->]|(pre & post & -> & Hpost & ->)].
  - exists []. simpl. rewrite py_slice_whole. split; [done|]. split; [done|by left].
  - exists (pre ++ ["/"%char]).
    replace (pre ++ "/"%char :: post) with ((pre ++ ["/"%char]) ++ post)
      by by rewrite <-app_assoc.
    replace (Z.of_nat (length pre) + 1) with (Z.of_nat (length (pre ++ ["/"%char])))
      by (rewrite length_app; simpl; lia).
    rewrite py_slice_suffix. split; [done|]. split; [done|]. right. by exists pre.
Qed.

Lemma before_dot_app (a b : list ascii) :
  "."%char ∉ a → before_dot (a ++ "."%char :: b) = a.
Proof.
  induction a as [|c a IH]; intros Ha; cbn [before_dot app].
  { by rewrite bool_decide_true. }
  apply not_elem_of_cons in Ha as [Hc Ha].
  rewrite bool_decide_false by done. by rewrite IH.
Qed.

Lemma before_dot_no_dot (a : list ascii) : "."%char ∉ a → before_dot a = a.
Proof.
  induction a as [|c a IH]; intros Ha; [done|]. cbn [before_dot].
  apply not_elem_of_cons in Ha as [Hc Ha].
  rewrite bool_decide_false by done. by rewrite IH.
Qed.

Lemma before_dot_spec (s : list ascii) :
  ("."%char ∉ before_dot s)
  ∧ (s = before_dot s ∨ ∃ rest, s = before_dot s ++ "."%char :: rest).
Proof.
  induction s as [|c s [IH1 IH2]]; cbn [before_dot].
  { split; [apply not_elem_of_nil|by left]. }
  case_bool_decide as Hc.
  - subst c. split; [apply not_elem_of_nil|]. right. by exists s.
  - split; [rewrite not_elem_of_cons; by split|].
    destruct IH2 as [IH2|[rest IH2]]; [left|right; exists rest];
      cbn [app]; by rewrite <-IH2.
Qed.

(** Cutting the extension off leaves the characters before the first dot
    as they are. *)
Lemma before_dot_splitext (p : list ascii) :
  "/"%char ∉ p → before_dot (splitext p).1 = before_dot p.
Proof.
  intros Hsep. unfold splitext.
  destruct (_ && _) eqn:Hc; [|done]. cbn [fst].
  assert (Hs : rfind p "/"%char = -1).
  { destruct (rfind_spec p "/"%char) as [[_ Hr]|(pre & post & -> & _)]; [done|].
    exfalso. apply Hsep. set_solver. }
  rewrite Hs in Hc. apply andb_prop in Hc as [Hlt%Z.ltb_lt _].
  destruct (rfind_spec p "."%char) as [[Hn Hr]|(pre & post & -> & Hpost & Hr)];
    [lia|].
  rewrite Hr, py_slice_prefix.
  destruct (before_dot_spec pre) as [Hnd [Hpre|[rest Hpre]]].
  - rewrite Hpre at 2. by rewrite before_dot_app, <-Hpre.
  - rewrite Hpre at 2. rewrite <-app_assoc. cbn [app].
    rewrite before_dot_app by done. done.
Qed.

(** X1. The output name of a profile file is what stands in its base name
    (the part after the last slash) before the first dot: it is not empty
    and holds no dot, whatever extensions follow.  A base name that is empty
    or starts with a dot has no output name: the call fails its assertion,
    and it raises nothing else. *)
Theorem output_name_is_stem (filename : string) :
  ∃ dir base : list ascii,
    String.list_ascii_of_string filename = dir ++ base
    ∧ ("/"%char ∉ base) ∧ (dir = [] ∨ ∃ d, dir = d ++ ["/"%char])
    ∧ match output_name_from_filename filename with
      | Ok name =>
          String.list_ascii_of_string name ≠ []
          ∧ ("."%char ∉ String.list_ascii_of_string name)
          ∧ (base = String.list_ascii_of_string name
             ∨ ∃ rest, base = String.list_ascii_of_string name ++ "."%char :: rest)
      | Raise e =>
          e = AssertionError ∧ (base = [] ∨ ∃ rest, base = "."%char :: rest)
      end.
Proof.
  destruct (basename_spec (String.list_ascii_of_string filename))
    as (dir & Hsplit & Hsep & Hdir).
  exists dir, (basename (String.list_ascii_of_string filename)).
  split; [done|]. split; [done|]. split; [done|].
  unfold output_name_from_filename, re_match.
  rewrite before_dot_splitext by done.
  destruct (before_dot_spec (basename (String.list_ascii_of_string filename)))
    as [Hnd Hbase].
  destruct (before_dot _) as [|c g] eqn:Hg.
  - split; [done|]. destruct Hbase as [?|[rest ?]]; [by left|right; by exists rest].
  - rewrite String.list_ascii_of_string_of_list_ascii. by split.
Qed.

Example output_name_examples :
  output_name_from_filename "data/run.1/cell1.bed.gz" = Ok "cell1"
  ∧ output_name_from_filename "cell1" = Ok "cell1"
  ∧ output_name_from_filename "data/.hidden.bed" = Raise AssertionError
  ∧ output_name_from_filename "data/" = Raise AssertionError.
Proof. vm_compute. repeat split; reflexivity. Qed.

(** *** The profiles of a list of files *)

Section profile_facts.
Context {F T : Type}.
Variable GzipFile : string → result F.
Variable read_cpg_table : F → result T.

Lemma foldl_dict_set_get (ps : list (string * T)) (acc : HdfRead.pydict T)
    (k : string) (v : T) :
  HdfRead.dict_get (foldl (λ a p, HdfRead.dict_set a p.1 p.2) acc ps) k = Some v
  ↔ (∃ i p, ps !! i = Some p ∧ p = (k, v)
       ∧ ∀ j p', (i < j)%nat → ps !! j = Some p' → p'.1 ≠ k)
    ∨ (HdfRead.dict_get acc k = Some v ∧ ∀ p, p ∈ ps → p.1 ≠ k).
Proof.
  revert acc. induction ps as [|[k0 v0] ps IH]; intros acc.
  { simpl. split.
    - intros H. right. split; [done|]. intros p Hp. by apply elem_of_nil in Hp.
    - intros [(i & p & Hi & _)|[H _]]; [done|done]. }
  cbn [foldl fst snd]. rewrite IH. split.
  - intros [(i & p & Hi & Hp & Hlast)|[Hget Hnone]].
    + left. exists (S i), p. split; [done|]. split; [done|].
      intros [|j] p' Hj Hp'; [lia|]. apply (Hlast j); [lia|done].
    + destruct (decide (k0 = k)) as [->|Hne].
      * rewrite HdfRead.dict_get_set_eq in Hget. injection Hget as ->.
        left. exists 0%nat, (k, v). split; [done|]. split; [done|].
        intros [|j] p' Hj Hp'; [lia|]. apply Hnone.
        by eapply list_elem_of_lookup_2.
      * rewrite HdfRead.dict_get_set_ne in Hget by done. right. split; [done|].
        intros p [->|Hp]%elem_of_cons; [done|by apply Hnone].
  - intros [(i & p & Hi & Hp & Hlast)|[Hget Hnone]].
    + destruct i as [|i].
      * injection Hi as <-. injection Hp as -> ->. right.
        rewrite HdfRead.dict_get_set_eq. split; [done|].
        intros p [j Hj]%list_elem_of_lookup. apply (Hlast (S j)); [lia|done].
      * left. exists i, p. split; [done|]. split; [done|].
        intros j p' Hj Hp'. apply (Hlast (S j)); [lia|done].
    + right. assert (k0 ≠ k) by (apply (Hnone (k0, v0)); left).
      rewrite HdfRead.dict_get_set_ne by done. split; [done|].
      intros p Hp. apply Hnone. by right.
Qed.

Lemma foldl_dict_set_NoDup (ps : list (string * T)) (acc : HdfRead.pydict T) :
  NoDup acc.*1 → NoDup (foldl (λ a p, HdfRead.dict_set a p.1 p.2) acc ps).*1.
Proof.
  revert acc. induction ps as [|p ps IH]; intros acc Hacc; [done|].
  cbn [foldl]. by apply IH, HdfRead.dict_set_NoDup.
Qed.

Lemma read_files_fold (filenames : list string) (acc r : HdfRead.pydict T) :
  read_files GzipFile read_cpg_table filenames acc = Ok r →
  ∃ ps, Forall2 (λ f p, profile_of GzipFile read_cpg_table f = Ok p) filenames ps
        ∧ r = foldl (λ a p, HdfRead.dict_set a p.1 p.2) acc ps.
Proof.
  revert acc. induction filenames as [|f fl IH]; intros acc.
  { intros [= <-]. exists []. by split. }
  cbn [read_files].
  destruct (GzipFile f) as [file|] eqn:Hfile; [|done]. cbn [bind].
  destruct (output_name_from_filename f) as [name|] eqn:Hname; [|done]. cbn [bind].
  destruct (read_cpg_table file) as [t|] eqn:Ht; [|done]. cbn [bind].
  intros (ps & Hps & ->)%IH. exists ((name, t) :: ps). split; [|done].
  constructor; [|done]. unfold profile_of.
  rewrite Hfile. cbn [bind]. rewrite Hname. cbn [bind]. by rewrite Ht.
Qed.

Lemma profile_of_name (f : string) (p : string * T) :
  profile_of GzipFile read_cpg_table f = Ok p →
  output_name_from_filename f = Ok p.1.
Proof.
  unfold profile_of. destruct (GzipFile f) as [file|]; [|done]. cbn [bind].
  destruct (output_name_from_filename f) as [name|]; [|done]. cbn [bind].
  destruct (read_cpg_table file) as [t|]; [|done]. cbn [bind].
  by intros [= <-].
Qed.

(** X2. When [read_cpg_profiles] returns, the profiles have distinct names,
    and the profile under a name is the table of the last file with that
    output name: of two files whose base names agree before the first dot,
    the earlier one is dropped without a word. *)
Theorem read_cpg_profiles_last_wins (filenames : list string)
    (profiles : HdfRead.pydict T) :
  read_cpg_profiles GzipFile read_cpg_table filenames = Ok profiles →
  NoDup profiles.*1
  ∧ ∀ name table,
      HdfRead.dict_get profiles name = Some table
      ↔ ∃ i filename,
          filenames !! i = Some filename
          ∧ profile_of GzipFile read_cpg_table filename = Ok (name, table)
          ∧ ∀ j filename', (i < j)%nat → filenames !! j = Some filename' →
              output_name_from_filename filename' ≠ Ok name.
Proof.
  unfold read_cpg_profiles. intros (ps & Hps & ->)%read_files_fold.
  split; [apply foldl_dict_set_NoDup; constructor|].
  intros name table. rewrite foldl_dict_set_get. split.
  - intros [(i & p & Hi & -> & Hlast)|[Hget _]]; [|done].
    destruct (Forall2_lookup_r _ _ _ _ _ Hps Hi) as (f & Hf & Hprof).
    exists i, f. split; [done|]. split; [done|].
    intros j f' Hj Hf'.
    destruct (Forall2_lookup_l _ _ _ _ _ Hps Hf') as (p' & Hp' & Hprof').
    rewrite (profile_of_name _ _ Hprof'). intros [= Heq].
    by apply (Hlast j p').
  - intros (i & f & Hf & Hprof & Hlast). left.
    destruct (Forall2_lookup_l _ _ _ _ _ Hps Hf) as (p & Hp & Hprof').
    assert (p = (name, table)) as -> by congruence.
    exists i, (name, table). split; [done|]. split; [done|].
    intros j p' Hj Hp'.
    destruct (Forall2_lookup_r _ _ _ _ _ Hps Hp') as (f' & Hf' & Hprof'').
    intros Heq. apply (Hlast j f' Hj Hf').
    rewrite (profile_of_name _ _ Hprof''). by rewrite Heq.
Qed.

End profile_facts.

(** Two files with the output name [cell1]; the table of a file is its
    own name here. *)
Lemma read_cpg_profiles_last_wins_witness :
  NoDup [("cell1", "b/cell1.tsv"); ("cell2", "a/cell2.bed")].*1
  ∧ ∀ name table,
      HdfRead.dict_get [("cell1", "b/cell1.tsv"); ("cell2", "a/cell2.bed")] name
      = Some table
      ↔ ∃ i filename,
          ["a/cell1.bed.gz"; "a/cell2.bed"; "b/cell1.tsv"] !! i = Some filename
          ∧ profile_of (λ f, Ok f) (λ f : string, Ok f) filename = Ok (name, table)
          ∧ ∀ j filename', (i < j)%nat →
              ["a/cell1.bed.gz"; "a/cell2.bed"; "b/cell1.tsv"] !! j = Some filename' →
              output_name_from_filename filename' ≠ Ok name.
Proof.
  apply (read_cpg_profiles_last_wins (λ f, Ok f) (λ f : string, Ok f)
           ["a/cell1.bed.gz"; "a/cell2.bed"; "b/cell1.tsv"]).
  vm_compute. reflexivity.
Defined.

End Profiles.

(** ** The statistics by name: [output_stats_meta_by_name], [mean] and
    [diff] of [scripts/dcpg_data.py] *)

Module StatFuns.

(** The functions of lines 137-169 and the two types of their results. *)
Inductive stat : Type := Mean | Var | Entropy | Diff | Disp | Mode.
Inductive dtype : Type := Float32 | Int8.

(** The double quote of the error message. *)
Definition quote : string := String (Ascii.ascii_of_nat 34) EmptyString.

(** The error of line 188. *)
Definition invalid (name : string) : exn :=
  ValueError ("Invalid statistic " +:+ quote +:+ name +:+ quote +:+ "!").

(** The chain of comparisons of lines 175-188. *)
Definition fun_of (name : string) : result (stat * dtype) :=
  if bool_decide (name = "mean") then Ok (Mean, Float32)
  else if bool_decide (name = "var") then Ok (Var, Float32)
  else if bool_decide (name = "entropy") then Ok (Entropy, Float32)
  else if bool_decide (name = "diff") then Ok (Diff, Int8)
  else if bool_decide (name = "disp") then Ok (Disp, Float32)
  else if bool_decide (name = "mode") then Ok (Mode, Int8)
  else Raise (invalid name).

(** The loop of lines 174-189. *)
Fixpoint stats_loop (names : list string) (funs : HdfRead.pydict (stat * dtype))
    : result (HdfRead.pydict (stat * dtype)) :=
  match names with
  | [] => Ok funs
  | name :: rest =>
      do f <- fun_of name;
      stats_loop rest (HdfRead.dict_set funs name f)
  end.

(** [output_stats_meta_by_name(names)]; [names] is [None] when the option
    [--cpg_stats] is absent, and [for name in None] is a [TypeError]. *)
Definition output_stats_meta_by_name (names : option (list string))
    : result (HdfRead.pydict (stat * dtype)) :=
  match names with
  | None => Raise (TypeError "'NoneType' object is not iterable")
  | Some names => stats_loop names []
  end.

(** Lines 285-296 of [main]: the checks of the arguments, then the
    statistics of the option [--cpg_stats]. *)
Definition main_prologue (opts : Args.options) (cpg_stats : option (list string))
    : result (HdfRead.pydict (stat * dtype)) :=
  do _ <- Args.check_args opts;
  output_stats_meta_by_name cpg_stats.

(** The six names the chain knows. *)
Definition known : list string := ["mean"; "var"; "entropy"; "diff"; "disp"; "mode"].

Lemma fun_of_known (name : string) :
  (name ∈ known ∧ ∃ f, fun_of name = Ok f)
  ∨ ((name ∉ known) ∧ fun_of name = Raise (invalid name)).
Proof.
  unfold fun_of, known.
  do 6 (case_bool_decide as H;
        [left; split; [rewrite !elem_of_cons; auto 10|by eexists]|];
        revert H; intros ?Hne).
  right. split; [|done].
  rewrite !not_elem_of_cons. repeat split; try done. apply not_elem_of_nil.
Qed.

Lemma stats_loop_ok (names : list string) (acc : HdfRead.pydict (stat * dtype)) :
  Forall (λ n, n ∈ known) names → NoDup acc.*1 →
  ∃ funs, stats_loop names acc = Ok funs
    ∧ NoDup funs.*1
    ∧ ∀ name f, HdfRead.dict_get funs name = Some f
        ↔ (name ∈ names ∧ fun_of name = Ok f)
          ∨ ((name ∉ names) ∧ HdfRead.dict_get acc name = Some f).
Proof.
  intros Hall. revert acc. induction Hall as [|n names Hn Hall IH]; intros acc Hacc.
  { exists acc. split; [done|]. split; [done|]. intros name f. split.
    - intros H. right. split; [apply not_elem_of_nil|done].
    - intros [[H _]|[_ H]]; [by apply elem_of_nil in H|done]. }
  cbn [stats_loop].
  destruct (fun_of_known n) as [[_ [f0 Hf0]]|[Hnk _]]; [|done].
  rewrite Hf0. cbn [bind].
  destruct (IH (HdfRead.dict_set acc n f0)) as (funs & -> & Hnd & Hget).
  { by apply HdfRead.dict_set_NoDup. }
  exists funs. split; [done|]. split; [done|].
  intros name f. rewrite Hget. rewrite elem_of_cons.
  destruct (decide (name = n)) as [->|Hne].
  - rewrite HdfRead.dict_get_set_eq. rewrite Hf0. split.
    + intros [[? ?]|[? [= <-]]]; left; (split; [|done]); [by right|by left].
    + intros [[_ Hf]|[Hn' _]]; [|exfalso; apply Hn'; by left].
      destruct (decide (n ∈ names)); [left; by split|right].
      split; [done|]. congruence.
  - rewrite HdfRead.dict_get_set_ne by done. split.
    + intros [[? ?]|[? ?]]; [left; split; [by right|done]|right].
      split; [|done]. by intros [?|?].
    + intros [[[?|?] ?]|[Hn' ?]]; [done|left; by split|right].
      split; [|done]. intros ?. apply Hn'. by right.
Qed.

Lemma stats_loop_invalid (pre post : list string) (name : string)
    (acc : HdfRead.pydict (stat * dtype)) :
  Forall (λ n, n ∈ known) pre → name ∉ known →
  stats_loop (pre ++ name :: post) acc = Raise (invalid name).
Proof.
  intros Hpre Hname. revert acc.
  induction Hpre as [|n pre Hn Hpre IH]; intros acc; cbn [app stats_loop].
  - destruct (fun_of_known name) as [[? _]|[_ ->]]; done.
  - destruct (fun_of_known n) as [[_ [f ->]]|[? _]]; [|done]. cbn [bind].
    apply IH.
Qed.

Lemma first_unknown (names : list string) :
  Forall (λ n, n ∈ known) names
  ∨ ∃ pre name post, names = pre ++ name :: post
      ∧ Forall (λ n, n ∈ known) pre ∧ (name ∉ known).
Proof.
  induction names as [|n names IH]; [by left|].
  destruct (decide (n ∈ known)) as [Hn|Hn].
  - destruct IH as [IH|(pre & name & post & -> & Hpre & Hname)].
    + left. by constructor.
    + right. exists (n :: pre), name, post. split; [done|].
      split; [by constructor|done].
  - right. by exists [], n, names.
Qed.

(** X3. Given a list of names, [output_stats_meta_by_name] returns exactly
    when every name is one of the six statistics; the dictionary then has
    one entry for every name that was given, a repeated name counting once.
    Otherwise it raises the [ValueError] that quotes the first name that is
    none of the six.  Given [None], which is what [main] passes when the
    option [--cpg_stats] is absent, it raises [TypeError], so that such a run
    ends right after the checks of its arguments. *)
Theorem output_stats_meta_by_name_accepts (names : list string) :
  match output_stats_meta_by_name (Some names) with
  | Ok funs =>
      Forall (λ n, n ∈ known) names
      ∧ NoDup funs.*1
      ∧ ∀ name f, HdfRead.dict_get funs name = Some f
          ↔ name ∈ names ∧ fun_of name = Ok f
  | Raise e =>
      ∃ pre name post, names = pre ++ name :: post
        ∧ Forall (λ n, n ∈ known) pre ∧ (name ∉ known) ∧ e = invalid name
  end
  ∧ ∀ opts, Args.check_args opts = Ok tt →
      main_prologue opts None
      = Raise (TypeError "'NoneType' object is not iterable").
Proof.
  split.
  - cbn [output_stats_meta_by_name].
    destruct (first_unknown names) as [Hall|(pre & name & post & -> & Hpre & Hname)].
    + destruct (stats_loop_ok names [] Hall) as (funs & -> & Hnd & Hget);
        [constructor|].
      split; [done|]. split; [done|]. intros name f. rewrite Hget. split.
      * intros [?|[_ ?]]; done.
      * intros ?. by left.
    + rewrite stats_loop_invalid by done. by exists pre, name, post.
  - intros opts Hopts. unfold main_prologue. by rewrite Hopts.
Qed.

Example output_stats_meta_by_name_examples :
  output_stats_meta_by_name (Some ["mean"; "mode"; "mean"])
  = Ok [("mean", (Mean, Float32)); ("mode", (Mode, Int8))]
  ∧ output_stats_meta_by_name (Some ["mean"; "median"; "max"])
    = Raise (invalid "median").
Proof. vm_compute. split; reflexivity. Qed.

End StatFuns.

Module StatRows.
Import Stats.

(** [x.min(axis=1)] and [x.max(axis=1)] for one row of a masked array: the
    least and the greatest entry that is not masked, masked when there is
    none. *)
Definition ma_min (row : masked_row) : option Z :=
  match observed row with
  | [] => None
  | v :: vs => Some (foldl Z.min v vs)
  end.
Definition ma_max (row : masked_row) : option Z :=
  match observed row with
  | [] => None
  | v :: vs => Some (foldl Z.max v vs)
  end.

(** [diff(x)] on the rows of a masked matrix. *)
Definition diff (x : list masked_row) : list (option bool) :=
  (λ row, match ma_min row, ma_max row with
          | Some a, Some b => Some (negb (a =? b))
          | _, _ => None
          end) <$> x.

(** [mean(x)] on the rows of a masked matrix: the row means, with the
    assertion of line 139. *)
Definition mean (x : list masked_row) : result (list (option Q)) :=
  let mean := ma_mean <$> x in
  do _ <- py_assert
            (ma_all ((λ m, (λ v, Qle_bool 0 v && Qle_bool v 1) <$> m) <$> mean));
  Ok mean.

Lemma foldl_min_le (v : Z) (vs : list Z) :
  foldl Z.min v vs ≤ v ∧ Forall (λ u, foldl Z.min v vs ≤ u) vs.
Proof.
  revert v. induction vs as [|w vs IH]; intros v; [by split|].
  cbn [foldl]. destruct (IH (Z.min v w)) as [H1 H2]. split; [lia|].
  constructor; [lia|done].
Qed.

Lemma foldl_max_le (v : Z) (vs : list Z) :
  v ≤ foldl Z.max v vs ∧ Forall (λ u, u ≤ foldl Z.max v vs) vs.
Proof.
  revert v. induction vs as [|w vs IH]; intros v; [by split|].
  cbn [foldl]. destruct (IH (Z.max v w)) as [H1 H2]. split; [lia|].
  constructor; [lia|done].
Qed.

Lemma foldl_min_max_same (v : Z) (vs : list Z) :
  Forall (λ u, u = v) vs → foldl Z.min v vs = v ∧ foldl Z.max v vs = v.
Proof.
  induction 1 as [|w vs -> Hvs [IH1 IH2]]; [done|]. cbn [foldl].
  by rewrite Z.min_id, Z.max_id.
Qed.

Lemma diff_row_spec (v : Z) (vs : list Z) :
  (foldl Z.min v vs =? foldl Z.max v vs) = forallb (λ u, u =? v) vs.
Proof.
  destruct (forallb (λ u, u =? v) vs) eqn:Hall.
  - assert (Forall (λ u, u = v) vs) as Hvs.
    { apply Forall_forall. intros u Hu%list_elem_of_In.
      rewrite forallb_forall in Hall. by apply Z.eqb_eq, Hall. }
    destruct (foldl_min_max_same v vs Hvs) as [-> ->]. apply Z.eqb_refl.
  - apply Z.eqb_neq. intros Heq.
    destruct (foldl_min_le v vs) as [Hm1 Hm2], (foldl_max_le v vs) as [HM1 HM2].
    assert (forallb (λ u, u =? v) vs = true); [|congruence].
    apply forallb_forall. intros u Hu%list_elem_of_In. apply Z.eqb_eq.
    rewrite Forall_forall in Hm2, HM2.
    specialize (Hm2 u Hu). specialize (HM2 u Hu). lia.
Qed.

Lemma np_sum_zero (vs : list Z) :
  Forall (λ v, v = 0 ∨ v = 1) vs →
  (Coverage.np_sum vs = 0 ↔ forallb (λ v, v =? 0) vs = true).
Proof.
  induction 1 as [|v vs Hv Hvs IH]; [done|].
  cbn [Coverage.np_sum foldr forallb]. fold (Coverage.np_sum vs).
  rewrite andb_true_iff, <-IH, Z.eqb_eq.
  destruct (np_sum_zero_one vs Hvs) as [Hb _]. lia.
Qed.

(** X4. [diff] marks the rows in which the observed entries disagree: for a
    row with an observed entry the result is false exactly when all its
    observed entries are equal, and it is masked for a row without one.  On
    a row of zeros and ones it is true exactly when the row mean lies
    strictly between 0 and 1. *)
Theorem diff_marks_disagreement (x : list masked_row) (i : nat) (row : masked_row) :
  x !! i = Some row →
  length (diff x) = length x
  ∧ (diff x !! i = Some None ↔ observed row = [])
  ∧ (diff x !! i = Some (Some false)
     ↔ observed row ≠ [] ∧ ∀ u v, u ∈ observed row → v ∈ observed row → u = v)
  ∧ (Forall (λ v, v = 0 ∨ v = 1) (observed row) →
     diff x !! i = Some (Some true)
     ↔ ∃ m, ma_mean row = Some m ∧ (0 < m)%Q ∧ (m < 1)%Q).
Proof.
  intros Hi. unfold diff. rewrite length_fmap, list_lookup_fmap, Hi.
  split; [done|]. cbn [fmap option_fmap option_map].
  unfold ma_min, ma_max, ma_mean.
  destruct (observed row) as [|v vs] eqn:Hobs.
  { split; [done|]. split; [split; [done|by intros [? _]]|].
    intros _. split; [done|]. by intros (m & ? & _). }
  rewrite diff_row_spec. split; [done|]. split.
  - split.
    + intros [= Hall%negb_false_iff]. split; [done|].
      assert (∀ u, u ∈ v :: vs → u = v) as Hv.
      { intros u [->|Hu]%elem_of_cons; [done|].
        rewrite forallb_forall in Hall. by apply Z.eqb_eq, Hall, list_elem_of_In. }
      intros u w Hu Hw. by rewrite (Hv u Hu), (Hv w Hw).
    + intros [_ Heq]. do 2 f_equal. apply negb_false_iff, forallb_forall.
      intros u Hu%list_elem_of_In. apply Z.eqb_eq, Heq; [by right|by left].
  - intros Hbin.
    destruct (np_sum_zero_one (v :: vs) Hbin) as [Hb Hone].
    pose proof (np_sum_zero (v :: vs) Hbin) as Hzero.
    set (s := Coverage.np_sum (v :: vs)) in *.
    set (n := length (v :: vs)) in *.
    assert (Hn : Z.pos (Pos.of_nat n) = Z.of_nat n).
    { unfold n. cbn [length]. rewrite <-Pos.of_nat_succ, Zpos_P_of_succ_nat. lia. }
    assert (Hlt : (0 < s # Pos.of_nat n)%Q ∧ (s # Pos.of_nat n < 1)%Q
                  ↔ 0 < s < Z.of_nat n).
    { unfold Qlt. cbn [Qnum Qden]. rewrite Hn. lia. }
    assert (Hall : forallb (λ u, u =? v) vs = false ↔ 0 < s < Z.of_nat n).
    { inversion Hbin as [|? ? [->| ->] Hvs]; subst;
        cbn [forallb] in Hzero, Hone;
        change (0 =? 0) with true in *; change (1 =? 1) with true in *;
        change (0 =? 1) with false in *; change (1 =? 0) with false in *;
        cbn [andb] in Hzero, Hone.
      - destruct (forallb _ vs).
        + split; [done|]. intros ?. assert (s = 0) by (by apply Hzero). lia.
        + split; [|done]. intros _.
          assert (s ≠ 0) by (intros E; by apply Hzero in E).
          assert (s ≠ Z.of_nat n) by (intros E; by apply Hone in E). lia.
      - destruct (forallb _ vs).
        + split; [done|]. intros ?. assert (s = Z.of_nat n) by (by apply Hone). lia.
        + split; [|done]. intros _.
          assert (s ≠ 0) by (intros E; by apply Hzero in E).
          assert (s ≠ Z.of_nat n) by (intros E; by apply Hone in E). lia. }
    split.
    + intros [= Hd%negb_true_iff]. eexists. split; [done|]. by apply Hlt, Hall.
    + intros (m & [= <-] & Hm0 & Hm1). do 2 f_equal.
      apply negb_true_iff, Hall, Hlt. by split.
Qed.

Lemma diff_marks_disagreement_witness :
  length (diff [[Some 1; None; Some 1]; [Some 0; Some 1]; [None]]) = 3%nat
  ∧ (diff [[Some 1; None; Some 1]; [Some 0; Some 1]; [None]] !! 1%nat = Some None
     ↔ observed [Some 0; Some 1] = [])
  ∧ (diff [[Some 1; None; Some 1]; [Some 0; Some 1]; [None]] !! 1%nat
       = Some (Some false)
     ↔ observed [Some 0; Some 1] ≠ []
       ∧ ∀ u v, u ∈ observed [Some 0; Some 1] → v ∈ observed [Some 0; Some 1] →
           u = v)
  ∧ (Forall (λ v, v = 0 ∨ v = 1) (observed [Some 0; Some 1]) →
     diff [[Some 1; None; Some 1]; [Some 0; Some 1]; [None]] !! 1%nat
       = Some (Some true)
     ↔ ∃ m, ma_mean [Some 0; Some 1] = Some m ∧ (0 < m)%Q ∧ (m < 1)%Q).
Proof.
  apply (diff_marks_disagreement
           [[Some 1; None; Some 1]; [Some 0; Some 1]; [None]] 1 [Some 0; Some 1]).
  reflexivity.
Defined.

Example diff_example :
  diff [[Some 1; None; Some 1]; [Some 0; Some 1]; [None]]
  = [Some false; Some true; None].
Proof. vm_compute. reflexivity. Qed.

(** X5. On rows of zeros and ones of which at least one has an observed
    entry, [mean] passes its assertion and returns the share of ones among
    the observed entries of every row, a value between 0 and 1, masked for
    a row without an observed entry; so it does for a matrix without rows.
    It fails the assertion when the matrix has rows and none of them has an
    observed entry, and as soon as the mean of one row lies outside the
    range from 0 to 1. *)
Theorem mean_of_binary_rows (x : list masked_row) :
  (Forall (λ row, Forall (λ v, v = 0 ∨ v = 1) (observed row)) x →
   x = [] ∨ Exists (λ row, observed row ≠ []) x →
   mean x = Ok (ma_mean <$> x)
   ∧ ∀ i row, x !! i = Some row →
       match ma_mean row with
       | Some m =>
           (0 <= m)%Q ∧ (m <= 1)%Q
           ∧ m = (Z.of_nat (length (filter (λ v, v = 1) (observed row)))
                  # Pos.of_nat (length (observed row)))
       | None => observed row = []
       end)
  ∧ (x ≠ [] → Forall (λ row, observed row = []) x →
     mean x = Raise AssertionError)
  ∧ ((∃ row m, row ∈ x ∧ ma_mean row = Some m ∧ ((m < 0)%Q ∨ (1 < m)%Q)) →
     mean x = Raise AssertionError).
Proof.
  assert (Hfail : ∀ b, ma_all b = false →
            (do _ <- py_assert (ma_all b); Ok (ma_mean <$> x))
            = Raise AssertionError).
  { by intros b ->. }
  split; [|split].
  - intros Hbin Hsome.
    assert (Hrow : ∀ row, row ∈ x →
              match ma_mean row with
              | Some m =>
                  (0 <= m)%Q ∧ (m <= 1)%Q
                  ∧ m = (Z.of_nat (length (filter (λ v, v = 1) (observed row)))
                         # Pos.of_nat (length (observed row)))
              | None => observed row = []
              end).
    { intros row Hin. rewrite Forall_forall in Hbin. specialize (Hbin row Hin).
      unfold ma_mean. destruct (observed row) as [|v vs] eqn:Hobs; [done|].
      destruct (np_sum_zero_one (v :: vs) Hbin) as [Hb _].
      assert (Hn : Z.pos (Pos.of_nat (length (v :: vs))) = Z.of_nat (length (v :: vs))).
      { cbn [length]. rewrite <-Pos.of_nat_succ, Zpos_P_of_succ_nat. lia. }
      split; [unfold Qle; cbn [Qnum Qden]; lia|].
      split; [unfold Qle; cbn [Qnum Qden]; rewrite Hn; lia|].
      f_equal. clear -Hbin. induction Hbin as [|w ws [->| ->] Hws IH]; [done|..];
        rewrite (filter_cons (λ v, v = 1)); case_decide; try done;
        cbn [Coverage.np_sum foldr length]; fold (Coverage.np_sum ws);
        rewrite IH; lia. }
    split.
    + unfold mean. rewrite (proj2 (ma_all_spec _)); [done|]. split.
      * destruct Hsome as [->|Hsome]; [by left|right].
        apply Exists_exists in Hsome as (row & Hin & Hobs).
        apply Exists_exists. eexists. split.
        -- apply list_elem_of_fmap. eexists. split; [done|].
           apply list_elem_of_fmap. by exists row.
        -- unfold ma_mean. destruct (observed row); [done|]. by eexists.
      * apply Forall_forall. intros m (m' & -> & Hm')%list_elem_of_fmap.
        apply list_elem_of_fmap in Hm' as (row & -> & Hin).
        specialize (Hrow row Hin). destruct (ma_mean row) as [m|]; [|done].
        destruct Hrow as (H0 & H1 & _). cbn.
        apply andb_true_iff. split; by apply Qle_bool_iff.
    + intros i row Hi. apply Hrow. by eapply list_elem_of_lookup_2.
  - intros Hne Hnone. unfold mean. apply Hfail.
    destruct (ma_all _) eqn:Hall; [|done]. exfalso.
    apply ma_all_spec in Hall as [[Hnil|Hex] _].
    + apply fmap_nil_inv, fmap_nil_inv in Hnil. done.
    + apply Exists_exists in Hex as (m & Hin & [b Hb]).
      apply list_elem_of_fmap in Hin as (m' & -> & Hm').
      apply list_elem_of_fmap in Hm' as (row & -> & Hrow).
      rewrite Forall_forall in Hnone. specialize (Hnone row Hrow).
      unfold ma_mean in Hb. by rewrite Hnone in Hb.
  - intros (row & m & Hin & Hm & Hout). unfold mean. apply Hfail.
    destruct (ma_all _) eqn:Hall; [|done]. exfalso.
    apply ma_all_spec in Hall as [_ Hall]. rewrite Forall_forall in Hall.
    specialize (Hall (Some (Qle_bool 0 m && Qle_bool m 1))). cbn in Hall.
    apply andb_true_iff in Hall as [H0%Qle_bool_iff H1%Qle_bool_iff].
    + destruct Hout as [Hlt|Hlt]; by eapply Qlt_not_le.
    + apply list_elem_of_fmap. exists (Some m). split; [done|].
      apply list_elem_of_fmap. by exists row.
Qed.

Lemma mean_of_binary_rows_witness :
  (mean [[Some 1; None; Some 1]; [Some 0; Some 1; Some 1]; [None]]
   = Ok [Some (2 # 2); Some (2 # 3); None])
  ∧ mean [[None; None]; [None; None]] = Raise AssertionError
  ∧ mean [[Some 1]; [Some 2; Some 1]] = Raise AssertionError.
Proof.
  destruct (mean_of_binary_rows
              [[Some 1; None; Some 1]; [Some 0; Some 1; Some 1]; [None]])
    as (Hok & _ & _).
  destruct (mean_of_binary_rows [[None; None]; [None; None]]) as (_ & Hnone & _).
  destruct (mean_of_binary_rows [[Some 1]; [Some 2; Some 1]]) as (_ & _ & Hfail).
  split; [|split].
  - apply Hok.
    + apply (bool_decide_unpack _). by vm_compute.
    + right. left. discriminate.
  - apply Hnone; [discriminate|]. by repeat constructor.
  - apply Hfail. exists [Some 2; Some 1], (3 # 2). split; [set_solver|].
    split; [reflexivity|]. right. reflexivity.
Defined.

End StatRows.

(** ** The coverage filter with an absolute threshold, and its assertion *)

Module CoverageAbs.
Import Coverage.

Section absolute.
Variable CPG_NAN : Z.
Variable float_mul : Z → Q → Q.




End absolute.


End CoverageAbs.

(** ** Profiles on the grid: [map_cpg_tables] of [scripts/dcpg_data.py] *)

Module CpgTables.
Section map_cpg_tables.
Context {V : Type}.
(** [dat.CPG_NAN], the default of [map_values] for [nan]. *)
Variable CPG_NAN : V.

(** A profile: the rows [(chromo, pos, value)] of the data frame, in row
    order. *)
Definition cpg_table : Type := list (string * Z * V).

(** [cpg_table.loc[cpg_table.chromo == chromo]] *)
Definition loc_chromo (t : cpg_table) (chromo : string) : cpg_table :=
  filter (λ r, r.1.1 = chromo) t.

(** The columns [pos] and [value], and the columns [chromo] and [pos]. *)
Definition pos_values (t : cpg_table) : list Z := t.*1.*2.
Definition value_values (t : cpg_table) : list V := t.*2.
Definition chromo_pos_columns (t : cpg_table) : PosGrid.table := t.*1.

(** The loop of lines 123-129, [mapped_tables] being the ordered dictionary
    built so far. *)
Fixpoint tables_loop (items : list (string * cpg_table)) (chromo : string)
    (chromo_pos : list Z) (mapped_tables : HdfRead.pydict (list V))
    : result (HdfRead.pydict (list V)) :=
  match items with
  | [] => Ok mapped_tables
  | (name, cpg_table) :: rest =>
      let cpg_table := loc_chromo cpg_table chromo in
      do mapped_table <- Align.map_values (value_values cpg_table)
                           (pos_values cpg_table) chromo_pos CPG_NAN;
      do _ <- py_assert (bool_decide (length mapped_table = length chromo_pos));
      tables_loop rest chromo chromo_pos
        (HdfRead.dict_set mapped_tables name mapped_table)
  end.

(** [map_cpg_tables(cpg_tables, chromo, chromo_pos)] *)
Definition map_cpg_tables (cpg_tables : HdfRead.pydict cpg_table) (chromo : string)
    (chromo_pos : list Z) : result (HdfRead.pydict (list V)) :=
  tables_loop cpg_tables chromo chromo_pos [].

(** Lines 325-328 of [main]: the grid of the positions of all profiles. *)
Definition grid_of (cpg_tables : HdfRead.pydict cpg_table)
    : result (option PosGrid.table) :=
  PosGrid.prepro_pos_table
    (PosGrid.TableList ((λ kt, chromo_pos_columns kt.2) <$> cpg_tables)).

(** The profile has one row per position in every chromosome, in
    ascending order of the positions. *)
Definition ascending (t : cpg_table) : Prop :=
  ∀ chromo, Sorted Z.lt (pos_values (loc_chromo t chromo)).

(** What a profile on the grid is: a vector with the value of the profile at
    every grid position that the profile has, and the sentinel elsewhere. *)
Definition on_grid (t : cpg_table) (chromo : string) (chromo_pos : list Z)
    (vec : list V) : Prop :=
  length vec = length chromo_pos
  ∧ (∀ p v, (chromo, p, v) ∈ t →
       ∃ j, chromo_pos !! j = Some p ∧ vec !! j = Some v)
  ∧ (∀ j p, chromo_pos !! j = Some p → (∀ v, (chromo, p, v) ∉ t) →
       vec !! j = Some CPG_NAN).

Lemma loc_chromo_elem (t : cpg_table) (chromo : string) (p : Z) (v : V) :
  (chromo, p, v) ∈ t ↔ (chromo, p, v) ∈ loc_chromo t chromo.
Proof. unfold loc_chromo. rewrite list_elem_of_filter. simpl. tauto. Qed.

Lemma pos_values_elem (t : cpg_table) (chromo : string) (p : Z) :
  p ∈ pos_values (loc_chromo t chromo) ↔ ∃ v, (chromo, p, v) ∈ t.
Proof.
  unfold pos_values. split.
  - intros ([c' p'] & -> & ([[c'' p''] v] & [= <- <-] & Hin)%list_elem_of_fmap)%list_elem_of_fmap.
    exists v. unfold loc_chromo in Hin. apply list_elem_of_filter in Hin as [Hc Hin].
    simpl in Hc. by subst.
  - intros [v Hv%loc_chromo_elem]. apply list_elem_of_fmap. exists (chromo, p).
    split; [done|]. apply list_elem_of_fmap. by exists (chromo, p, v).
Qed.

Lemma sorted_lt_NoDup (l : list Z) : Sorted Z.lt l → NoDup l.
Proof.
  intros Hs%(Sorted_StronglySorted Z.lt).
  induction Hs as [|x l Hl IH Hx]; [constructor|].
  constructor; [|done]. rewrite Forall_forall in Hx. intros Hin%Hx. lia.
Qed.

(** One profile: on sorted positions and a sorted grid that holds them,
    [map_values] puts the profile on the grid. *)
Lemma map_values_on_grid (t : cpg_table) (chromo : string) (chromo_pos : list Z) :
  Sorted Z.lt (pos_values (loc_chromo t chromo)) → Sorted Z.lt chromo_pos →
  (∀ p v, (chromo, p, v) ∈ t → p ∈ chromo_pos) →
  ∃ vec,
    Align.map_values (value_values (loc_chromo t chromo))
      (pos_values (loc_chromo t chromo)) chromo_pos CPG_NAN = Ok vec
    ∧ on_grid t chromo chromo_pos vec.
Proof.
  intros Hpos Hgrid Hsub.
  exists (Align.aligned (value_values (loc_chromo t chromo))
            (pos_values (loc_chromo t chromo)) chromo_pos CPG_NAN).
  split.
  { apply Align.map_values_spec; [|done..].
    unfold value_values, pos_values. by rewrite !length_fmap. }
  split; [unfold Align.aligned; by rewrite length_fmap|]. split.
  - intros p v Hin. destruct (proj1 (list_elem_of_lookup _ _) (Hsub p v Hin)) as [j Hj].
    exists j. split; [done|].
    unfold Align.aligned. rewrite list_lookup_fmap, Hj. cbn [fmap option_fmap option_map].
    apply loc_chromo_elem in Hin.
    apply list_elem_of_lookup in Hin as [i Hi].
    rewrite (Align.value_at_lookup p _ _ i v); [done|by apply sorted_lt_NoDup|..].
    + unfold pos_values. by rewrite !list_lookup_fmap, Hi.
    + unfold value_values. by rewrite list_lookup_fmap, Hi.
  - intros j p Hj Hnone. unfold Align.aligned. rewrite list_lookup_fmap, Hj.
    cbn [fmap option_fmap option_map].
    rewrite Align.value_at_not_in; [done|].
    intros [v Hv]%pos_values_elem. by apply (Hnone v).
Qed.

Lemma tables_loop_on_grid (items : list (string * cpg_table)) (chromo : string)
    (chromo_pos : list Z) (acc : HdfRead.pydict (list V)) :
  Sorted Z.lt chromo_pos →
  Forall (λ kt, ascending kt.2
                ∧ ∀ p v, (chromo, p, v) ∈ kt.2 → p ∈ chromo_pos) items →
  NoDup items.*1 → (∀ k, k ∈ items.*1 → k ∉ acc.*1) →
  ∃ mapped,
    tables_loop items chromo chromo_pos acc = Ok mapped
    ∧ mapped.*1 = acc.*1 ++ items.*1
    ∧ (∀ k, k ∉ items.*1 → HdfRead.dict_get mapped k = HdfRead.dict_get acc k)
    ∧ ∀ name t, (name, t) ∈ items →
        ∃ vec, HdfRead.dict_get mapped name = Some vec
               ∧ on_grid t chromo chromo_pos vec.
Proof.
  intros Hgrid Hall. revert acc.
  induction Hall as [|[name t] items [Hasc Hsub] Hall IH]; intros acc Hnd Hfresh.
  { exists acc. split; [done|]. split; [by rewrite app_nil_r|]. split; [done|].
    intros name t Hin. by apply elem_of_nil in Hin. }
  rewrite fmap_cons in Hnd. apply NoDup_cons in Hnd as [Hname Hnd].
  cbn [tables_loop fst snd] in *.
  destruct (map_values_on_grid t chromo chromo_pos (Hasc chromo) Hgrid Hsub)
    as (vec & -> & Hvec).
  cbn [bind]. rewrite bool_decide_true by apply Hvec. cbn [py_assert bind].
  assert (Hk : name ∉ acc.*1) by (apply Hfresh; left).
  destruct (IH (HdfRead.dict_set acc name vec) Hnd) as (mapped & -> & Hkeys & Hold & Hnew).
  { intros k Hk'. rewrite HdfRead.dict_set_keys, bool_decide_false by done.
    rewrite elem_of_app, list_elem_of_singleton. intros [Hin| ->]; [|done].
    revert Hin. apply Hfresh. by right. }
  exists mapped. split; [done|]. split.
  { rewrite Hkeys, HdfRead.dict_set_keys, bool_decide_false by done.
    by rewrite <-app_assoc. }
  split.
  { intros k Hk'. apply not_elem_of_cons in Hk' as [Hne Hk'].
    rewrite Hold by done. by rewrite HdfRead.dict_get_set_ne. }
  intros name' t' [[= -> ->]|Hin]%elem_of_cons.
  - exists vec. split; [|done]. rewrite Hold by done.
    apply HdfRead.dict_get_set_eq.
  - by apply Hnew.
Qed.

(** X7. The profiles of a run put on the grid that [prepro_pos_table]
    builds from their own positions, as [main] does for every chromosome.
    For profiles with rows, each listing the positions of every chromosome
    once and in ascending order, [map_cpg_tables] raises nothing and returns
    one vector per profile, under the same names in the same order; every
    vector has the length of the grid of the chromosome, holds every value
    of its profile at the grid index of its position, and holds the sentinel
    at the grid positions its profile lacks: no observation is lost, moved
    or made up. *)
Theorem map_cpg_tables_on_own_grid (cpg_tables : HdfRead.pydict cpg_table)
    (chromo : string) :
  cpg_tables ≠ [] → NoDup cpg_tables.*1 →
  Forall (λ kt, kt.2 ≠ [] ∧ ascending kt.2) cpg_tables →
  ∃ G mapped,
    grid_of cpg_tables = Ok (Some G)
    ∧ map_cpg_tables cpg_tables chromo (PosGrid.chromo_positions chromo G)
      = Ok mapped
    ∧ mapped.*1 = cpg_tables.*1
    ∧ ∀ name t, (name, t) ∈ cpg_tables →
        ∃ vec, HdfRead.dict_get mapped name = Some vec
               ∧ on_grid t chromo (PosGrid.chromo_positions chromo G) vec.
Proof.
  intros Hne Hnd Hall. unfold grid_of.
  destruct cpg_tables as [|kt rest] eqn:Htabs; [done|]. rewrite <-Htabs in *.
  assert (Hlist : (λ kt, chromo_pos_columns kt.2) <$> cpg_tables
                  = chromo_pos_columns kt.2
                    :: ((λ kt, chromo_pos_columns kt.2) <$> rest))
    by by rewrite Htabs.
  rewrite Hlist.
  destruct (PosGrid.prepro_pos_table_nonempty_list (chromo_pos_columns kt.2)
              ((λ kt, chromo_pos_columns kt.2) <$> rest))
    as (G & -> & _ & Hs & Hel).
  { rewrite Forall_forall in Hall. destruct (Hall kt) as [Hrows _].
    - rewrite Htabs. left.
    - unfold chromo_pos_columns. intros Hnil. apply Hrows.
      by apply fmap_nil_inv in Hnil. }
  rewrite <-Hlist in Hel.
  exists G.
  assert (Hgrid : Sorted Z.lt (PosGrid.chromo_positions chromo G)).
  { by apply StronglySorted_Sorted, PosGrid.chromo_positions_sorted. }
  destruct (tables_loop_on_grid cpg_tables chromo
              (PosGrid.chromo_positions chromo G) [] Hgrid)
    as (mapped & Hloop & Hkeys & _ & Hvec); [|done|..].
  - apply Forall_forall. intros [name t] Hin. cbn [snd].
    rewrite Forall_forall in Hall. split; [by apply (Hall (name, t))|].
    intros p v Hv. unfold PosGrid.chromo_positions.
    apply list_elem_of_fmap. exists (chromo, p). split; [done|].
    apply list_elem_of_filter. split; [done|]. apply Hel.
    exists (chromo_pos_columns t). split.
    + apply list_elem_of_fmap. by exists (name, t).
    + unfold chromo_pos_columns. apply list_elem_of_fmap. by exists (chromo, p, v).
  - intros k _. apply not_elem_of_nil.
  - exists mapped. by repeat split.
Qed.

End map_cpg_tables.

(** Two profiles of chromosomes 1 and 2. *)
Definition two_cells : HdfRead.pydict (@cpg_table Z) :=
  [("cell1", [("1", 10, 1); ("1", 30, 0); ("2", 7, 1)]);
   ("cell2", [("1", 20, 0); ("1", 30, 1)])].

Lemma two_cells_ascending :
  Forall (λ kt, kt.2 ≠ [] ∧ ascending kt.2) two_cells.
Proof.
  unfold two_cells. apply Forall_cons. split; [|apply Forall_cons; split].
  - split; [discriminate|]. intros chromo. unfold pos_values, loc_chromo.
    cbn [snd].
    rewrite !(filter_cons (λ r : string * Z * Z, r.1.1 = chromo)), filter_nil.
    repeat case_decide; simpl in *; simplify_eq; csimpl; repeat constructor; lia.
  - split; [discriminate|]. intros chromo. unfold pos_values, loc_chromo.
    cbn [snd].
    rewrite !(filter_cons (λ r : string * Z * Z, r.1.1 = chromo)), filter_nil.
    repeat case_decide; simpl in *; simplify_eq; csimpl; repeat constructor; lia.
  - apply Forall_nil.
  Unshelve. all: exact I.
Qed.

Lemma map_cpg_tables_on_own_grid_witness :
  ∃ G mapped,
    grid_of two_cells = Ok (Some G)
    ∧ map_cpg_tables (-1) two_cells "1" (PosGrid.chromo_positions "1" G) = Ok mapped
    ∧ mapped.*1 = two_cells.*1
    ∧ ∀ name t, (name, t) ∈ two_cells →
        ∃ vec, HdfRead.dict_get mapped name = Some vec
               ∧ on_grid (-1) t "1" (PosGrid.chromo_positions "1" G) vec.
Proof.
  apply (map_cpg_tables_on_own_grid (-1) two_cells "1").
  - discriminate.
  - apply (bool_decide_unpack _). by vm_compute.
  - exact two_cells_ascending.
Defined.

Example map_cpg_tables_example :
  grid_of two_cells = Ok (Some [("1", 10); ("1", 20); ("1", 30); ("2", 7)])
  ∧ map_cpg_tables (-1) two_cells "1" [10; 20; 30]
    = Ok [("cell1", [1; -1; 0]); ("cell2", [-1; 0; 1])].
Proof. vm_compute. split; reflexivity. Qed.

End CpgTables.

(** ** Selections and chunks: [select_dict] and the chunk loop of [main]
    in [scripts/dcpg_data.py] *)

Module Chunks.
Import HdfWrite.

(** What [select_dict] is given as [idx]: the boolean mask of the coverage
    filter (line 372) or the slice of a chunk (line 388). *)
Inductive index : Type :=
  | Mask (idx : list bool)
  | Slice (start stop : Z).

Section select_dict.
(** The rows of the arrays: numbers for a vector, rows of numbers for
    [cpg_mat]. *)
Context {A : Type}.

(** [value[idx]] along the first axis: numpy refuses a mask of another
    length than the array. *)
Definition np_getitem (value : list A) (idx : index) : result (list A) :=
  match idx with
  | Mask m =>
      if bool_decide (length m = length value) then Ok (Align.bool_index value m)
      else Raise IndexError
  | Slice start stop => Ok (py_slice value start stop)
  end.

(** [select_dict(data, idx)]: the copy has the keys of [data] in their
    order, and every value is replaced in turn. *)
Fixpoint select_dict (data : pydict (list A)) (idx : index)
    : result (pydict (list A)) :=
  match data with
  | DNil => Ok DNil
  | DItem key value rest =>
      do value <- (match value with
                   | Dict d => do d <- select_dict d idx; Ok (Dict d)
                   | Leaf v => do v <- np_getitem v idx; Ok (Leaf v)
                   end);
      do rest <- select_dict rest idx;
      Ok (DItem key value rest)
  end.

(** [int(np.ceil(len(chromo_pos) / opts.chunk_size))] and the slices of
    lines 381-385, for [n = len(chromo_pos)]. *)
Definition chunk_slices (n chunk_size : Z) : result (list index) :=
  if chunk_size =? 0 then Raise ZeroDivisionError
  else
    let nb_chunk := HdfRead.ceil_div n chunk_size in
    Ok ((λ chunk : nat,
           let chunk_start := Z.of_nat chunk * chunk_size in
           let chunk_end := Z.min n (chunk_start + chunk_size) in
           Slice chunk_start chunk_end)
          <$> seq 0 (Z.to_nat nb_chunk)).

(** The arrays of a nested mapping, in the order of the items. *)
Fixpoint leaves (data : pydict (list A)) : list (list A) :=
  match data with
  | DNil => []
  | DItem _ value rest =>
      (match value with
       | Leaf v => [v]
       | Dict d => leaves d
       end) ++ leaves rest
  end.

End select_dict.

(** The keys and the nesting of a mapping, without its arrays. *)
Fixpoint shape {A} (data : pydict A) : pydict unit :=
  match data with
  | DNil => DNil
  | DItem key value rest =>
      DItem key (match value with
                 | Leaf _ => Leaf tt
                 | Dict d => Dict (shape d)
                 end) (shape rest)
  end.

Section select_facts.
Context {A : Type}.
Implicit Types (data d : pydict (list A)) (v : list A).

(** How [select_dict] comes out, from how [np_getitem] comes out on the
    arrays. *)
Lemma select_dict_spec data (idx : index) :
  match select_dict data idx with
  | Ok r =>
      shape r = shape data
      ∧ Forall2 (λ v w, np_getitem v idx = Ok w) (leaves data) (leaves r)
  | Raise e => Exists (λ v, np_getitem v idx = Raise e) (leaves data)
  end.
Proof.
  induction data as [v|d IH| |key value IHv rest IHr]
    using pydict_mut
    with (P := λ value,
           match value with
           | Leaf v => True
           | Dict d =>
               match select_dict d idx with
               | Ok r => shape r = shape d
                         ∧ Forall2 (λ v w, np_getitem v idx = Ok w) (leaves d) (leaves r)
               | Raise e => Exists (λ v, np_getitem v idx = Raise e) (leaves d)
               end
           end); [done|exact IH|by split; [|constructor]|].
  cbn [select_dict leaves].
  destruct value as [v|d].
  - destruct (np_getitem v idx) as [w|e] eqn:Hw; cbn [bind].
    2:{ by left. }
    destruct (select_dict rest idx) as [r|e]; cbn [bind].
    + destruct IHr as [Hs Hl]. cbn [shape leaves]. rewrite Hs.
      split; [done|]. by constructor.
    + by right.
  - destruct (select_dict d idx) as [r0|e]; cbn [bind].
    2:{ apply Exists_app. by left. }
    destruct (select_dict rest idx) as [r|e]; cbn [bind].
    + destruct IHv as [Hs0 Hl0], IHr as [Hs Hl]. cbn [shape leaves].
      rewrite Hs0, Hs. split; [done|]. by apply Forall2_app.
    + apply Exists_app. by right.
Qed.

(** A slice never fails, so [select_dict] with a slice returns. *)
Lemma select_dict_slice data (start stop : Z) :
  ∃ r, select_dict data (Slice start stop) = Ok r
       ∧ shape r = shape data
       ∧ leaves r = (λ v, py_slice v start stop) <$> leaves data.
Proof.
  pose proof (select_dict_spec data (Slice start stop)) as Hspec.
  destruct (select_dict data (Slice start stop)) as [r|e].
  - destruct Hspec as [Hs Hl]. exists r. split; [done|]. split; [done|].
    clear Hs. induction Hl as [|v w l k Hvw Hl IH]; [done|].
    csimpl. cbn [np_getitem] in Hvw. injection Hvw as <-. by rewrite IH.
  - apply Exists_exists in Hspec as (v & _ & Hv). done.
Qed.

(** The first [k] chunks of a vector make up its first [k * chunk_size]
    rows. *)
Lemma chunks_take v (chunk_size : Z) (k : nat) :
  0 < chunk_size →
  concat ((λ chunk : nat,
             py_slice v (Z.of_nat chunk * chunk_size)
               (Z.min (Z.of_nat (length v)) (Z.of_nat chunk * chunk_size + chunk_size)))
            <$> seq 0 k)
  = take (Z.to_nat (Z.of_nat k * chunk_size)) v.
Proof.
  intros Hcs. induction k as [|k IH]; [done|].
  rewrite seq_S, fmap_app, concat_app, IH. cbn [fmap list_fmap concat plus].
  rewrite app_nil_r.
  set (a := Z.of_nat k * chunk_size).
  assert (Ha : 0 ≤ a) by (unfold a; nia).
  destruct (Z_le_gt_dec (Z.of_nat (length v)) a) as [Hge|Hlt].
  - (* the vector is used up *)
    unfold py_slice, slice_bound.
    destruct (Z.ltb_spec a 0); [lia|].
    destruct (Z.ltb_spec (Z.min (Z.of_nat (length v)) (a + chunk_size)) 0); [lia|].
    rewrite drop_ge by lia. rewrite take_nil, app_nil_r.
    rewrite !take_ge; [done|nia|lia].
  - rewrite SeqWin.py_slice_forward by lia.
    rewrite take_take_drop. 
    destruct (Z_le_gt_dec (a + chunk_size) (Z.of_nat (length v))) as [Hin|Hout].
    + f_equal. nia.
    + rewrite !take_ge; [done|nia|lia].
Qed.

(** X8. The chunks of [main] for a positive chunk size.  For a chromosome
    with [n] positions the loop makes [ceil(n / chunk_size)] slices; cut
    along them, every vector of [n] rows falls into parts of at least one
    and at most [chunk_size] rows that make up the vector again when put
    together in order, so that no position is written twice or left out;
    and [select_dict] with each of the slices returns a mapping with the
    keys and the nesting of [chromo_outputs] whose arrays are the parts of
    the arrays of [chromo_outputs].  A chunk size of zero is a
    [ZeroDivisionError], and with a negative chunk size there is no chunk
    at all. *)
Theorem chunks_partition data (n : nat) (chunk_size : Z) :
  (0 < chunk_size →
   ∃ slices,
     chunk_slices (Z.of_nat n) chunk_size = Ok slices
     ∧ Z.of_nat (length slices) = HdfRead.ceil_div (Z.of_nat n) chunk_size
     ∧ (∀ v, length v = n →
          ∃ parts, Forall2 (λ s p, np_getitem v s = Ok p) slices parts
            ∧ concat parts = v
            ∧ Forall (λ p, 1 ≤ Z.of_nat (length p) ≤ chunk_size) parts)
     ∧ Forall (λ s, ∃ c, select_dict data s = Ok c
                      ∧ shape c = shape data
                      ∧ Forall2 (λ v w, np_getitem v s = Ok w) (leaves data) (leaves c))
         slices)
  ∧ chunk_slices (Z.of_nat n) 0 = Raise ZeroDivisionError
  ∧ (chunk_size < 0 → chunk_slices (Z.of_nat n) chunk_size = Ok []).
Proof.
  split; [|split; [done|]].
  - intros Hcs. unfold chunk_slices.
    rewrite (proj2 (Z.eqb_neq chunk_size 0)) by lia.
    destruct (HdfRead.ceil_div_pos (Z.of_nat n) chunk_size) as [Hq Hq0]; [lia|done|].
    set (q := HdfRead.ceil_div (Z.of_nat n) chunk_size) in *.
    eexists. split; [done|]. split; [rewrite length_fmap, length_seq; lia|]. split.
    + intros v Hv.
      exists ((λ chunk : nat,
                 py_slice v (Z.of_nat chunk * chunk_size)
                   (Z.min (Z.of_nat n) (Z.of_nat chunk * chunk_size + chunk_size)))
                <$> seq 0 (Z.to_nat q)).
      split; [|split].
      * apply Forall2_fmap, Forall_Forall2_diag, Forall_forall. by intros.
      * rewrite <-Hv. rewrite chunks_take by done. apply take_ge. lia.
      * apply Forall_fmap, Forall_forall. intros chunk [_ Hc]%elem_of_seq.
        cbn [compose]. set (a := Z.of_nat chunk * chunk_size).
        assert (a ≤ (q - 1) * chunk_size) by (unfold a; nia).
        assert (0 ≤ a) by (unfold a; nia).
        rewrite HdfRead.py_slice_length by lia. lia.
    + apply Forall_fmap, Forall_forall. intros chunk _. cbn [compose].
      destruct (select_dict_slice data (Z.of_nat chunk * chunk_size)
                  (Z.min (Z.of_nat n) (Z.of_nat chunk * chunk_size + chunk_size)))
        as (c & Hc & Hs & Hl).
      exists c. split; [done|]. split; [done|]. rewrite Hl.
      apply Forall2_fmap_r, Forall_Forall2_diag, Forall_forall. by intros.
  - intros Hneg. unfold chunk_slices.
    rewrite (proj2 (Z.eqb_neq chunk_size 0)) by lia.
    pose proof (HdfRead.ceil_div_neg (Z.of_nat n) chunk_size).
    replace (Z.to_nat _) with 0%nat by lia. done.
Qed.

Lemma bool_index_count v (m : list bool) :
  length v = length m →
  Z.of_nat (length (Align.bool_index v m)) = Coverage.count_true m.
Proof.
  unfold Coverage.count_true. revert m.
  induction v as [|x v IH]; intros [|b m] Hlen; try done.
  injection Hlen as Hlen. specialize (IH m Hlen).
  rewrite (filter_cons (λ b, b = true)). destruct b; case_decide; try done.
  cbn [Align.bool_index length]. lia.
Qed.

(** X9. [select_dict] with a boolean mask, as the coverage filter uses it:
    it returns exactly when every array of the mapping has as many rows as
    the mask has entries; the result has the keys and the nesting of the
    mapping, every array is cut down to its rows under the true entries,
    and all of them have the same number of rows, the number of true
    entries.  When one array has another length it raises [IndexError], and
    it raises nothing else. *)
Theorem select_dict_mask data (m : list bool) :
  match select_dict data (Mask m) with
  | Ok r =>
      Forall (λ v, length v = length m) (leaves data)
      ∧ shape r = shape data
      ∧ leaves r = (λ v, Align.bool_index v m) <$> leaves data
      ∧ Forall (λ w, Z.of_nat (length w) = Coverage.count_true m) (leaves r)
  | Raise e =>
      e = IndexError ∧ Exists (λ v, length v ≠ length m) (leaves data)
  end.
Proof.
  pose proof (select_dict_spec data (Mask m)) as Hspec.
  destruct (select_dict data (Mask m)) as [r|e].
  - destruct Hspec as [Hs Hl]. split; [|split; [done|]].
    + clear Hs. induction Hl as [|v w l k Hvw Hl IH]; constructor; [|done].
      cbn [np_getitem] in Hvw. by case_bool_decide.
    + clear Hs. induction Hl as [|v w l k Hvw Hl [IH1 IH2]]; [by split|].
      cbn [np_getitem] in Hvw. case_bool_decide as Hlen; [|done].
      injection Hvw as <-. csimpl. rewrite IH1. split; [done|].
      constructor; [by apply bool_index_count|]. by rewrite <-IH1.
  - apply Exists_exists in Hspec as (v & Hin & Hv). cbn [np_getitem] in Hv.
    case_bool_decide as Hlen; [done|]. injection Hv as <-. split; [done|].
    apply Exists_exists. exists v. split; [done|]. congruence.
Qed.

End select_facts.
Example chunks_example :
  chunk_slices 5 2 = Ok [Slice 0 2; Slice 2 4; Slice 4 5]
  ∧ select_dict
      (DItem "cpg" (Dict (DItem "cell1" (Leaf [1; 0; 1; 1; 0]) DNil))
         (DItem "cpg_mat" (Leaf [11; 12; 13; 14; 15]) DNil))
      (Slice 4 5)
    = Ok (DItem "cpg" (Dict (DItem "cell1" (Leaf [0]) DNil))
            (DItem "cpg_mat" (Leaf [15]) DNil))
  ∧ select_dict (DItem "cpg_mat" (Leaf [11; 12; 13]) DNil) (Mask [true; false])
    = Raise IndexError.
Proof. vm_compute. repeat split; reflexivity. Qed.

End Chunks.

(** ** Hierarchical names: [hnames_to_names] of [deepcpg/data/hdf.py] *)

Module Names.

(** The values of the mapping [hnames]: a mapping again, a list of names, a
    single name, or anything else ([None] as a rule). *)
Inductive hvalue : Type :=
  | HDict (items : hdict)
  | HList (names : list string)
  | HStr (name : string)
  | HOther
with hdict : Type :=
  | HNil
  | HItem (key : string) (value : hvalue) (rest : hdict).

(** ['%s/%s' % (key, name)] *)
Definition join (key name : string) : string := key +:+ "/" +:+ name.

(** [hnames_to_names(hnames)] *)
Fixpoint hnames_to_names (hnames : hdict) : list string :=
  match hnames with
  | HNil => []
  | HItem key value rest =>
      (match value with
       | HDict d => join key <$> hnames_to_names d
       | HList l => join key <$> l
       | HStr s => [join key s]
       | HOther => [key]
       end) ++ hnames_to_names rest
  end.

(** The keys of a mapping. *)
Fixpoint hkeys (h : hdict) : list string :=
  match h with
  | HNil => []
  | HItem key _ rest => key :: hkeys rest
  end.

(** A name without a slash. *)
Definition plain (s : string) : Prop := Args.contains "/" s = false.

(** The mapping is a Python dictionary of plain names: at every level the
    keys are distinct, a list names nothing twice, and no key and no listed
    name holds a slash. *)
Fixpoint simple (h : hdict) : Prop :=
  match h with
  | HNil => True
  | HItem key value rest =>
      plain key ∧ (key ∉ hkeys rest)
      ∧ (match value with
         | HDict d => simple d
         | HList l => NoDup l ∧ Forall plain l
         | HStr s => plain s
         | HOther => True
         end)
      ∧ simple rest
  end.

(** The keys of [dict.fromkeys(l)]: the names of [l], each once, in the
    order in which they first occur. *)
Fixpoint fromkeys (l : list string) : list string :=
  match l with
  | [] => []
  | name :: l' => name :: filter (λ n, n ≠ name) (fromkeys l')
  end.

(** The mapping with every list and every single name spelled as a mapping
    of names to [None]: [dict.fromkeys(l)] for a list [l], [{s: None}] for a
    single name [s]. *)
Fixpoint spell_out (h : hdict) : hdict :=
  match h with
  | HNil => HNil
  | HItem key value rest =>
      HItem key
        (match value with
         | HDict d => HDict (spell_out d)
         | HList l =>
             HDict (foldr (λ name d, HItem name HOther d) HNil (fromkeys l))
         | HStr s => HDict (HItem s HOther HNil)
         | HOther => HOther
         end)
        (spell_out rest)
  end.

(** The mapping is a Python dictionary: at every level the keys are
    distinct. *)
Fixpoint is_dict (h : hdict) : Prop :=
  match h with
  | HNil => True
  | HItem key value rest =>
      (key ∉ hkeys rest)
      ∧ (match value with
         | HDict d => is_dict d
         | _ => True
         end)
      ∧ is_dict rest
  end.

(** No list of the mapping names something twice. *)
Fixpoint no_repeats (h : hdict) : Prop :=
  match h with
  | HNil => True
  | HItem key value rest =>
      (match value with
       | HDict d => no_repeats d
       | HList l => NoDup l
       | _ => True
       end)
      ∧ no_repeats rest
  end.

Scheme hvalue_mut := Induction for hvalue Sort Prop
with hdict_mut := Induction for hdict Sort Prop.

Lemma plain_cons (c : ascii) (s : string) :
  plain (String c s) ↔ c ≠ "/"%char ∧ plain s.
Proof.
  unfold plain. cbn [Args.contains String.prefix].
  destruct (Ascii.ascii_dec "/"%char c) as [<-|Hne].
  - split; [|by intros [? _]]. by destruct s.
  - rewrite orb_false_l. split; [by intros ?|by intros [_ ?]].
Qed.

Lemma join_cons (c : ascii) (k name : string) :
  join (String c k) name = String c (join k name).
Proof. done. Qed.

(** A plain key can be read off a joined name. *)
Lemma join_inj (k1 k2 r1 r2 : string) :
  plain k1 → plain k2 → join k1 r1 = join k2 r2 → k1 = k2 ∧ r1 = r2.
Proof.
  revert k2. induction k1 as [|c k1 IH]; intros [|c2 k2] H1 H2 Heq.
  - unfold join in Heq. cbn in Heq. injection Heq as Heq. split; [done|exact Heq].
  - apply plain_cons in H2 as [Hc _]. unfold join in Heq. cbn in Heq.
    injection Heq as <- _. done.
  - apply plain_cons in H1 as [Hc _]. unfold join in Heq. cbn in Heq.
    injection Heq as -> _. done.
  - apply plain_cons in H1 as [_ H1]. apply plain_cons in H2 as [_ H2].
    rewrite !join_cons in Heq. injection Heq as -> Heq.
    destruct (IH k2 H1 H2 Heq) as [-> ->]. done.
Qed.

Lemma join_not_plain (k r : string) : ¬ plain (join k r).
Proof.
  induction k as [|c k IH].
  - unfold plain, join. by destruct r.
  - rewrite join_cons, plain_cons. tauto.
Qed.

(** Every name starts with the key it comes from. *)
Lemma names_keyed (h : hdict) (name : string) :
  name ∈ hnames_to_names h →
  ∃ key, key ∈ hkeys h ∧ (name = key ∨ ∃ r, name = join key r).
Proof.
  induction h as [|key value rest IH]; [by intros ?%elem_of_nil|].
  cbn [hnames_to_names hkeys]. rewrite elem_of_app. intros [Hin|Hin].
  - exists key. split; [by left|]. destruct value as [d|l|s|].
    + apply list_elem_of_fmap in Hin as (r & -> & _). right. by exists r.
    + apply list_elem_of_fmap in Hin as (r & -> & _). right. by exists r.
    + apply list_elem_of_singleton in Hin as ->. right. by exists s.
    + apply list_elem_of_singleton in Hin as ->. by left.
  - destruct (IH Hin) as (k & Hk & Hn). exists k. split; [by right|done].
Qed.

Lemma NoDup_fmap_join (key : string) (l : list string) :
  NoDup l → NoDup (join key <$> l).
Proof.
  intros Hl. apply NoDup_fmap_2; [|done]. intros r1 r2 Heq.
  unfold join in Heq. apply (inj (String.app key)) in Heq.
  by apply (inj (String.app "/")) in Heq.
Qed.

Lemma simple_keys_plain (h : hdict) : simple h → Forall plain (hkeys h).
Proof.
  induction h as [|key value rest IH]; [constructor|].
  intros (Hk & _ & _ & Hrest). constructor; [done|by apply IH].
Qed.

(** X10. For a mapping of plain names (no slash in a key or in a listed
    name, and no name twice at one place) [hnames_to_names] gives every
    entry a name of its own: no name comes out twice.  Every name is a
    top-level key, or starts with a top-level key and a slash. *)
Theorem hnames_to_names_distinct (h : hdict) :
  simple h →
  NoDup (hnames_to_names h)
  ∧ ∀ name, name ∈ hnames_to_names h →
      ∃ key, key ∈ hkeys h ∧ (name = key ∨ ∃ r, name = join key r).
Proof.
  intros Hs. split; [|intros name; apply names_keyed].
  revert Hs.
  induction h as [d IH|l|s| | |key value IHv rest IHr]
    using hdict_mut
    with (P := λ value,
           match value with
           | HDict d => simple d → NoDup (hnames_to_names d)
           | _ => True
           end); try done.
  { intros _. constructor. }
  intros (Hkey & Hfresh & Hval & Hrest). cbn [hnames_to_names].
  apply NoDup_app. split; [|split; [|by apply IHr]].
  - destruct value as [d|l|s|].
    + apply NoDup_fmap_join. by apply IHv.
    + apply NoDup_fmap_join. by destruct Hval.
    + apply NoDup_singleton.
    + apply NoDup_singleton.
  - intros x Hx Hx'.
    destruct (names_keyed rest x Hx') as (key' & Hkey' & Hname').
    assert (plain key') as Hp'.
    { pose proof (simple_keys_plain rest Hrest) as Hall.
      rewrite Forall_forall in Hall. by apply Hall. }
    assert (key ≠ key') as Hne by (intros ->; done).
    assert (x = key ∨ ∃ r, x = join key r) as Hname.
    { destruct value as [d|l|s|].
      - apply list_elem_of_fmap in Hx as (r & -> & _). right. by exists r.
      - apply list_elem_of_fmap in Hx as (r & -> & _). right. by exists r.
      - apply list_elem_of_singleton in Hx as ->. right. by exists s.
      - apply list_elem_of_singleton in Hx as ->. by left. }
    destruct Hname as [->|[r ->]], Hname' as [Heq|[r' Heq]].
    + done.
    + subst key. by apply (join_not_plain key' r').
    + subst key'. by apply (join_not_plain key r).
    + by destruct (join_inj key key' r r' Hkey Hp' Heq).
Qed.

Lemma names_of_spelled_list (l : list string) :
  hnames_to_names (foldr (λ name d, HItem name HOther d) HNil l) = l.
Proof. induction l as [|x l IH]; [done|]. cbn [foldr hnames_to_names app]. by rewrite IH. Qed.

Lemma fromkeys_elem (l : list string) (x : string) : x ∈ fromkeys l ↔ x ∈ l.
Proof.
  induction l as [|y l IH]; [done|]. cbn [fromkeys].
  rewrite !elem_of_cons, list_elem_of_filter, IH.
  destruct (decide (x = y)); naive_solver.
Qed.

Lemma fromkeys_NoDup (l : list string) : NoDup (fromkeys l).
Proof.
  induction l as [|y l IH]; [constructor|]. cbn [fromkeys]. constructor.
  - rewrite list_elem_of_filter. by intros [? _].
  - by apply NoDup_filter.
Qed.

Lemma fromkeys_once (l : list string) : NoDup l → fromkeys l = l.
Proof.
  induction 1 as [|y l Hy _ IH]; [done|]. cbn [fromkeys]. rewrite IH. f_equal.
  clear IH. induction l as [|z l IHl]; [done|].
  apply not_elem_of_cons in Hy as [Hne Hy].
  rewrite filter_cons_True by done. f_equal. by apply IHl.
Qed.

Lemma hkeys_spelled_list (l : list string) :
  hkeys (foldr (λ name d, HItem name HOther d) HNil l) = l.
Proof. induction l as [|x l IH]; [done|]. cbn [foldr hkeys]. by rewrite IH. Qed.

Lemma is_dict_spelled_list (l : list string) :
  NoDup l → is_dict (foldr (λ name d, HItem name HOther d) HNil l).
Proof.
  induction 1 as [|x l Hx _ IH]; [done|]. cbn [foldr is_dict].
  by rewrite hkeys_spelled_list.
Qed.

Lemma hkeys_spell_out (h : hdict) : hkeys (spell_out h) = hkeys h.
Proof.
  induction h as [|key value rest IH]; [done|]. cbn [spell_out hkeys]. by rewrite IH.
Qed.

(** X11. The three spellings of a group of names mean the same: a single
    name stands for the list of that name, and a list that names nothing
    twice stands for the mapping of its names to [None], at every level of
    the mapping; the mapping that is spelled out is a dictionary again.  A
    list that names something twice has no such mapping: the dictionary of
    its names has every name once. *)
Theorem hnames_to_names_spellings (h : hdict) :
  no_repeats h →
  hnames_to_names (spell_out h) = hnames_to_names h
  ∧ (is_dict h → is_dict (spell_out h)).
Proof.
  induction h as [d IH|l|s| | |key value IHv rest IHr]
    using hdict_mut
    with (P := λ value,
           match value with
           | HDict d =>
               no_repeats d →
               hnames_to_names (spell_out d) = hnames_to_names d
               ∧ (is_dict d → is_dict (spell_out d))
           | _ => True
           end); try done.
  cbn [no_repeats]. intros [Hval Hrest].
  destruct (IHr Hrest) as [Hnames Hdict]. split.
  - cbn [spell_out hnames_to_names]. rewrite Hnames. f_equal.
    destruct value as [d|l|s|]; [|by rewrite names_of_spelled_list, fromkeys_once|done..].
    by destruct (IHv Hval) as [-> _].
  - cbn [is_dict spell_out]. rewrite hkeys_spell_out.
    intros (Hkey & Hv & Hr). split; [done|]. split; [|by apply Hdict].
    destruct value as [d|l|s|]; [|apply is_dict_spelled_list, fromkeys_NoDup| |done].
    + by apply (IHv Hval).
    + cbn. split; [apply not_elem_of_nil|done].
Qed.

(** The names of the data of a model: an empty list names nothing. *)
Definition model_names : hdict :=
  HItem "inputs" (HList ["dna"])
    (HItem "outputs" (HDict (HItem "cpg" (HList ["cell1"; "cell2"])
                               (HItem "stats" (HStr "mean") HNil)))
       (HItem "pos" HOther (HItem "bulk" (HList []) HNil))).

Lemma hnames_to_names_distinct_witness :
  NoDup (hnames_to_names model_names)
  ∧ ∀ name, name ∈ hnames_to_names model_names →
      ∃ key, key ∈ hkeys model_names ∧ (name = key ∨ ∃ r, name = join key r).
Proof.
  apply (hnames_to_names_distinct model_names).
  cbn [simple model_names hkeys].
  repeat split; try reflexivity; try (apply (bool_decide_unpack _); by vm_compute);
    repeat constructor.
Defined.

Example hnames_to_names_example :
  hnames_to_names model_names
  = ["inputs/dna"; "outputs/cpg/cell1"; "outputs/cpg/cell2"; "outputs/stats/mean";
     "pos"].
Proof. vm_compute. reflexivity. Qed.

Lemma hnames_to_names_spellings_witness :
  hnames_to_names (spell_out model_names) = hnames_to_names model_names
  ∧ (is_dict model_names → is_dict (spell_out model_names)).
Proof.
  apply (hnames_to_names_spellings model_names).
  cbn [no_repeats model_names]. repeat split; repeat constructor;
    apply (bool_decide_unpack _); by vm_compute.
Defined.

(** A list that names a cell twice gives the name twice; the dictionary of
    its names gives it once. *)
Example hnames_to_names_repeated_name :
  hnames_to_names (HItem "cpg" (HList ["cell1"; "cell1"]) HNil)
  = ["cpg/cell1"; "cpg/cell1"]
  ∧ hnames_to_names (spell_out (HItem "cpg" (HList ["cell1"; "cell1"]) HNil))
    = ["cpg/cell1"].
Proof. vm_compute. split; reflexivity. Qed.

End Names.

(** ** What [write_data] leaves in the file *)

Module HdfStore.
Import HdfWrite.

Section content.
Context {V : Type}.
Implicit Types (data d : pydict V) (σ : h5_state V) (g : handle)
  (m : gmap (list string) (entry V)).

(** [data.get(k)]: the value of the first item with the key [k]. *)
Fixpoint find_key data (k : string) : option (pyvalue V) :=
  match data with
  | DNil => None
  | DItem key value rest =>
      if bool_decide (key = k) then Some value else find_key rest k
  end.

(** What the nested mapping holds at a path of keys: an array, a nested
    mapping, or nothing. *)
Fixpoint entry_at data (p : list string) {struct p} : option (entry V) :=
  match p with
  | [] => None
  | k :: q =>
      match find_key data k with
      | Some (Leaf v) => match q with [] => Some (IsDataset v) | _ => None end
      | Some (Dict d) => match q with [] => Some IsGroup | _ => entry_at d q end
      | None => None
      end
  end.

Lemma file_valid g σ m : valid g σ m → file σ g.1 = m.
Proof. intros (_ & Hd & _). unfold file. by rewrite Hd. Qed.

Lemma find_key_None data (k : string) : k ∉ keys data → find_key data k = None.
Proof.
  induction data as [|key value rest IH]; [done|]. cbn [keys find_key].
  intros [Hne Hk]%not_elem_of_cons. rewrite bool_decide_false by done. by apply IH.
Qed.

(** The file after the first item of a loop that returns. *)
Lemma write_item_target (key : string) (value : pyvalue V) g σ σ1 :
  (match value with
   | Leaf v => set_item g key v σ
   | Dict d => do kg <- create_group g key σ;
               write_data d (GroupHandle kg.1) kg.2
   end) = Ok σ1 →
  file σ g.1 !! target g key = None
  ∧ is_Some (file σ1 g.1 !! target g key)
  ∧ file σ g.1 ⊆ file σ1 g.1
  ∧ (Args.contains "/" key = false → plain_name key).
Proof.
  intros Hstep. destruct value as [v|d].
  - apply set_item_inv in Hstep as (m & m' & Hm & -> & Hfree & Hnew & Hsub & Hk).
    apply members_inv in Hm as (_ & Hd & _). rewrite file_put.
    unfold file. rewrite Hd. cbn [default]. split; [done|].
    split; [by rewrite Hnew|by split].
  - destruct (create_group g key σ) as [[kg σ0]|] eqn:Hcg; [|done].
    cbn [bind fst snd] in Hstep. rewrite write_data_group in Hstep.
    apply create_group_inv in Hcg
      as (m & m' & Hm & -> & -> & Hfree & Hnew & Hsub & Hk).
    apply members_inv in Hm as (_ & Hd & _).
    apply write_items_frame in Hstep as (_ & _ & Hgrow & _).
    cbn [fst] in Hgrow. rewrite file_put in Hgrow.
    unfold file at 1 3. rewrite Hd. cbn [default]. split; [done|].
    split; [|split; [by etransitivity|done]].
    exists IsGroup. by eapply lookup_weaken.
Qed.

(** A loop that returns has found the path of every key free in the file:
    for a key without a slash that is the name itself in the group. *)
Lemma write_items_keys_free data g σ σ' :
  write_items g data σ = Ok σ' →
  ∀ k, k ∈ keys data →
    file σ g.1 !! target g k = None
    ∧ (Args.contains "/" k = false → file σ g.1 !! (g.2 ++ [k]) = None).
Proof.
  revert σ. induction data as [|key value rest IH]; intros σ Hw k Hk.
  { by apply elem_of_nil in Hk. }
  cbn [write_items] in Hw.
  destruct (match value with
            | Leaf v => set_item g key v σ
            | Dict d => do kg <- create_group g key σ;
                        write_data d (GroupHandle kg.1) kg.2
            end) as [σ1|] eqn:Hstep; [|done].
  cbn [bind] in Hw.
  apply write_item_target in Hstep as (Hfree & _ & Hsub & Hplain).
  cbn [keys] in Hk. apply elem_of_cons in Hk as [->|Hk].
  - split; [done|]. intros Hs. by rewrite <-(target_plain g key) by by apply Hplain.
  - destruct (IH σ1 Hw k Hk) as [Ht Hp].
    assert (Hback : ∀ q, file σ1 g.1 !! q = None → file σ g.1 !! q = None).
    { intros q Hq. destruct (file σ g.1 !! q) as [e|] eqn:He; [|done].
      apply (lookup_weaken _ _ _ _ He) in Hsub. congruence. }
    split; [by apply Hback|]. intros Hs. by apply Hback, Hp.
Qed.

Lemma write_items_distinct data g σ σ' :
  write_items g data σ = Ok σ' → NoDup (keys data).
Proof.
  revert σ. induction data as [|key value rest IH]; intros σ Hw; [constructor|].
  cbn [write_items] in Hw.
  destruct (match value with
            | Leaf v => set_item g key v σ
            | Dict d => do kg <- create_group g key σ;
                        write_data d (GroupHandle kg.1) kg.2
            end) as [σ1|] eqn:Hstep; [|done].
  cbn [bind] in Hw. cbn [keys]. constructor; [|by eapply IH].
  intros Hk.
  destruct (write_items_keys_free rest g σ1 σ' Hw key Hk) as [Hfree _].
  apply write_item_target in Hstep as (_ & [e He] & _). congruence.
Qed.

Lemma path_cons_ne (p : list string) (k x : string) (q : list string) :
  p ++ [k] ≠ p ++ k :: x :: q.
Proof. intros H. by apply app_inv_head in H. Qed.

Lemma path_key_ne (p : list string) (k k' : string) (q : list string) :
  k ≠ k' → p ++ [k] ≠ p ++ k' :: q.
Proof. intros Hne H. apply app_inv_head in H. congruence. Qed.

Lemma not_prefix_key (p : list string) (k k' : string) (q : list string) :
  k ≠ k' → ¬ (p ++ [k]) `prefix_of` (p ++ k' :: q).
Proof.
  intros Hne [r Hr]. rewrite <-app_assoc in Hr. apply app_inv_head in Hr.
  simpl in Hr. congruence.
Qed.

(** The file after a loop that returns, for keys without a slash: below
    the group it holds what the mapping holds, and everything else is as it
    was. *)
Lemma write_items_exact data g σ σ' m :
  plain_keys data → valid g σ m → write_items g data σ = Ok σ' →
  ∃ m', valid g σ' m'
    ∧ (∀ q, m' !! (g.2 ++ q)
            = match entry_at data q with
              | Some e => Some e
              | None => m !! (g.2 ++ q)
              end)
    ∧ (∀ p, ¬ g.2 `prefix_of` p → m' !! p = m !! p).
Proof.
  revert g σ σ' m.
  induction data as [v|d IHd| |key value IHv rest IHr] using pydict_mut
    with (P := λ value,
           match value with
           | Leaf _ => True
           | Dict d => ∀ g σ σ' m,
               plain_keys d → valid g σ m → write_items g d σ = Ok σ' →
               ∃ m', valid g σ' m'
                 ∧ (∀ q, m' !! (g.2 ++ q)
                         = match entry_at d q with
                           | Some e => Some e
                           | None => m !! (g.2 ++ q)
                           end)
                 ∧ (∀ p, ¬ g.2 `prefix_of` p → m' !! p = m !! p)
           end); try done.
  { intros g σ σ' m _ Hv [= <-]. exists m. split; [done|].
    split; [|done]. intros q. by destruct q. }
  intros g σ σ' m (Hslash & Hpv & Hpr) Hv Hw.
  pose proof (write_items_distinct _ _ _ _ Hw) as Hnd.
  cbn [keys] in Hnd. apply NoDup_cons in Hnd as [Hkey _].
  pose proof Hv as (Ho & Hd & Hg & Hc).
  cbn [write_items] in Hw.
  destruct value as [v|d].
  - destruct (set_item g key v σ) as [σ1|] eqn:H1; [|done]. cbn [bind] in Hw.
    apply set_item_inv_plain in H1 as (m0 & Hm & Hfree & ->); [|done].
    apply members_inv in Hm as (_ & Hd0 & _).
    assert (m0 = m) as -> by congruence.
    set (m1 := <[g.2 ++ [key]:=IsDataset v]> m) in *.
    destruct (valid_put g σ m g.2 key (IsDataset v) Hv) as [Hv1|Hbad];
      [by eexists| |by destruct (app_single_ne g.2 key)].
    destruct (IHr g _ σ' m1 Hpr Hv1 Hw) as (m' & Hv' & Hq & Hp).
    exists m'. split; [done|]. split.
    + intros q. rewrite Hq. destruct q as [|k q'].
      { cbn [entry_at]. unfold m1. apply lookup_insert_ne.
        rewrite app_nil_r. apply app_single_ne. }
      cbn [entry_at find_key]. case_bool_decide as Hk.
      * subst k. rewrite find_key_None by done.
        destruct q' as [|x q'']; unfold m1.
        -- apply lookup_insert_eq.
        -- apply lookup_insert_ne, path_cons_ne.
      * destruct (match find_key rest k with
                  | Some (Leaf v0) => _
                  | Some (Dict d) => _
                  | None => None
                  end); [done|].
        unfold m1. by apply lookup_insert_ne, path_key_ne.
    + intros p Hnp. rewrite Hp by done. unfold m1. apply lookup_insert_ne.
      intros <-. apply Hnp. by apply prefix_app_r.
  - destruct (create_group g key σ) as [[kg σ1]|] eqn:H1; [|done].
    cbn [bind fst snd] in Hw. rewrite write_data_group in Hw.
    destruct (write_items kg d σ1) as [σ2|] eqn:H2; [|done]. cbn [bind] in Hw.
    apply create_group_inv_plain in H1 as (m0 & Hm & Hfree & -> & ->); [|done].
    apply members_inv in Hm as (_ & Hd0 & _).
    assert (m0 = m) as -> by congruence.
    set (p := g.2 ++ [key]) in *. set (m1 := <[p:=IsGroup]> m) in *.
    assert (Hc1 : closed_below m1) by (apply closed_below_insert; [done|by eexists]).
    destruct (IHv (g.1, p) (put σ g.1 m1) σ2 m1) as (m2 & Hv2 & Hq2 & Hp2);
      [done| |exact H2|].
    { split; [done|]. split; [simpl; apply lookup_insert_eq|].
      split; [apply lookup_insert_eq|done]. }
    cbn [fst snd] in Hq2, Hp2.
    assert (Hnpre : ¬ p `prefix_of` g.2).
    { apply prefix_longer. unfold p. rewrite length_app. simpl. lia. }
    assert (Hvg : valid g σ2 m2).
    { destruct Hv2 as (Ho2 & Hd2 & _ & Hc2). split; [done|]. split; [done|].
      split; [|done]. rewrite Hp2 by done. unfold m1.
      rewrite lookup_insert_ne; [done|]. apply app_single_ne. }
    destruct (IHr g σ2 σ' m2 Hpr Hvg Hw) as (m' & Hv' & Hq & Hp).
    exists m'. split; [done|]. split.
    + intros q. rewrite Hq. destruct q as [|k q'].
      { cbn [entry_at]. rewrite Hp2 by (by rewrite app_nil_r).
        unfold m1. apply lookup_insert_ne. rewrite app_nil_r. apply app_single_ne. }
      cbn [entry_at find_key]. case_bool_decide as Hk.
      * subst k. rewrite find_key_None by done.
        replace (g.2 ++ key :: q') with (p ++ q')
          by (unfold p; by rewrite <-app_assoc).
        rewrite Hq2. destruct q' as [|x q''].
        -- cbn [entry_at]. rewrite app_nil_r. unfold m1. apply lookup_insert_eq.
        -- destruct (entry_at d (x :: q'')); [done|].
           unfold m1. apply lookup_insert_ne. unfold p. rewrite <-app_assoc.
           apply path_cons_ne.
      * destruct (match find_key rest k with
                  | Some (Leaf v0) => _
                  | Some (Dict d0) => _
                  | None => None
                  end); [done|].
        rewrite Hp2 by (by apply not_prefix_key).
        unfold m1. by apply lookup_insert_ne, path_key_ne.
    + intros p' Hnp. rewrite Hp by done. rewrite Hp2.
      * unfold m1. apply lookup_insert_ne. intros <-. apply Hnp.
        by apply prefix_app_r.
      * intros Hpre. apply Hnp. etransitivity; [|exact Hpre].
        by apply prefix_app_r.
Qed.

(** X12. [write_data] into a group handle never replaces anything.  When
    it returns, the path of every key of the mapping was free in the file at
    the call (for a key without a slash that is the key itself in the
    group), and every group and dataset the file held at the call is in the
    file at the return, unchanged: with a key that is taken the call raises,
    whatever the order of the items. *)
Theorem write_data_never_overwrites data g σ σ' :
  write_data data (GroupHandle g) σ = Ok σ' →
  (∀ k, k ∈ keys data →
     file σ g.1 !! target g k = None
     ∧ (Args.contains "/" k = false → file σ g.1 !! (g.2 ++ [k]) = None))
  ∧ (∀ p e, file σ g.1 !! p = Some e → file σ' g.1 !! p = Some e)
  ∧ NoDup (keys data).
Proof.
  rewrite write_data_group. intros Hw. split; [by eapply write_items_keys_free|].
  split; [|by eapply write_items_distinct].
  apply write_items_frame in Hw as (_ & _ & Hsub & _).
  intros p e He. by eapply lookup_weaken.
Qed.

(** X13. For a mapping whose keys hold no slash, the file that
    [write_data] leaves under a file name holds the nested mapping and
    nothing else: the root group, and at every path of keys the array or the
    group that the mapping holds there.  What a file of that name held
    before is gone, so that two calls with the same mapping leave the same
    file. *)
Theorem write_data_file_content data (s : string) σ σ' :
  plain_keys data →
  write_data data (FileName s) σ = Ok σ' →
  (∀ p, file σ' s !! p
        = match p with [] => Some IsGroup | _ => entry_at data p end)
  ∧ ∀ σ2 σ2', write_data data (FileName s) σ2 = Ok σ2' → file σ2' s = file σ' s.
Proof.
  intros Hplain.
  assert (Hcontent : ∀ σ σ', write_data data (FileName s) σ = Ok σ' →
            ∀ p, file σ' s !! p
                 = match p with [] => Some IsGroup | _ => entry_at data p end).
  { clear σ σ'. intros σ σ'. rewrite write_data_root. unfold h5_File_w.
    case_bool_decide as Hs; [done|]. cbn [bind fst snd].
    set (σ0 := {| disk := <[s:={[ [] := IsGroup ]}]> (disk σ);
                  open_files := {[s]} ∪ open_files σ |}).
    destruct (write_items (s, []) data σ0) as [σ1|] eqn:Hw; [|done]. cbn [bind].
    intros [= <-] p.
    destruct (write_items_exact data (s, []) σ0 σ1 {[ [] := IsGroup ]})
      as (m' & Hv' & Hq & _); [done| |done|].
    { split; [simpl; set_solver|]. split; [simpl; apply lookup_insert_eq|].
      split; [apply lookup_singleton_eq|].
      intros q k [e He]. apply lookup_singleton_Some in He as [He _].
      by destruct q. }
    change (file (h5_close (s, []) σ1) s) with (file σ1 (s, @nil string).1).
    rewrite (file_valid (s, []) σ1 m' Hv'). specialize (Hq p). cbn [snd app] in Hq.
    rewrite Hq. destruct p as [|k q]; [done|].
    destruct (entry_at data (k :: q)); [done|]. by apply lookup_singleton_ne. }
  intros Hw. split; [by apply (Hcontent σ σ')|].
  intros σ2 σ2' Hw2. apply map_eq. intros p.
  by rewrite (Hcontent _ _ Hw), (Hcontent _ _ Hw2).
Qed.

End content.

(** A file that is open, with a dataset in its root group. *)
Definition open_state : h5_state Z :=
  {| disk := {[ "c1.h5" := {[ [] := IsGroup; ["old"] := IsDataset 9 ]} ]};
     open_files := {[ "c1.h5" ]} |}.

(** A mapping with paths as keys, as the names of the pipeline are. *)
Definition paths : pydict Z :=
  DItem "cpg/c1" (Leaf 1) (DItem "cpg/c2" (Leaf 2) (DItem "pos" (Leaf 3) DNil)).

Lemma write_data_never_overwrites_witness :
  ∃ σ', write_data paths (GroupHandle ("c1.h5", [])) open_state = Ok σ'
    ∧ (∀ k, k ∈ keys paths →
         file open_state "c1.h5" !! target ("c1.h5", []) k = None
         ∧ (Args.contains "/" k = false →
            file open_state "c1.h5" !! ([] ++ [k]) = None))
    ∧ (∀ p e, file open_state "c1.h5" !! p = Some e → file σ' "c1.h5" !! p = Some e)
    ∧ NoDup (keys paths).
Proof.
  eexists. split; [vm_compute; reflexivity|].
  apply (write_data_never_overwrites paths ("c1.h5", []) open_state).
  vm_compute. reflexivity.
Defined.

Lemma write_data_file_content_witness :
  ∃ σ', write_data chunk (FileName "c1.h5") empty_state = Ok σ'
    ∧ (∀ p, file σ' "c1.h5" !! p
            = match p with [] => Some IsGroup | _ => entry_at chunk p end)
    ∧ ∀ σ2 σ2', write_data chunk (FileName "c1.h5") σ2 = Ok σ2' →
        file σ2' "c1.h5" = file σ' "c1.h5".
Proof.
  eexists. split; [vm_compute; reflexivity|].
  apply (write_data_file_content chunk "c1.h5" empty_state).
  - cbn [plain_keys chunk]. repeat split; reflexivity.
  - vm_compute. reflexivity.
Defined.

(** A key that is taken: the call raises and writes nothing over it. *)
Example write_data_taken_key :
  write_data (DItem "old" (Leaf 1) DNil) (GroupHandle ("c1.h5", [])) open_state
  = Raise (OSError "Unable to create link (name already exists)").
Proof. vm_compute. reflexivity. Qed.

(** Keys with a slash are paths: the group [cpg] is made on the way to
    [cpg/c1] and found on the way to [cpg/c2]; a path through a dataset
    cannot be walked; and a name is taken by a group that was made on the
    way. *)
Example write_data_paths :
  (λ r, match r with
        | Ok σ' =>
            file σ' "c1.h5"
            = {[ [] := IsGroup; ["old"] := IsDataset 9; ["cpg"] := IsGroup;
                 ["cpg"; "c1"] := IsDataset 1; ["cpg"; "c2"] := IsDataset 2;
                 ["pos"] := IsDataset 3 ]}
        | Raise _ => False
        end) (write_data paths (GroupHandle ("c1.h5", [])) open_state)
  ∧ write_data (DItem "old/x" (Leaf 1) DNil) (GroupHandle ("c1.h5", [])) open_state
    = Raise (OSError "Unable to create link (message type not found)")
  ∧ write_data (DItem "a/b" (Leaf 1) (DItem "a" (Leaf 2) DNil))
      (FileName "c2.h5") open_state
    = Raise (OSError "Unable to create link (name already exists)").
Proof. vm_compute. repeat split; reflexivity. Qed.

End HdfStore.

(** ** Runs of the batch generator: ends, sizes and contents *)

Module ReaderRuns.
Import HdfRead.

Section ends.
Context {A : Type}.
Variable shuffle_files : nat → list string → list string.
Variable shuffle_idx : nat → list nat → list nat.
Hypothesis shuffle_files_perm : ∀ k l, shuffle_files k l ≡ₚ l.
Implicit Types (fs : gmap string (gmap string (list A))) (cfg : config)
  (st : locals) (h : heap).

(** The files of a round, as the round sees them. *)
Definition current_files st : list string := deref (objects st) (data_files st).

Lemma yields_app (evs evs' : list (@event A)) :
  yields (evs ++ evs') = yields evs ++ yields evs'.
Proof. unfold yields. apply omap_app. Qed.

Lemma yields_yield (bs : list (@batch_dict A)) : yields (Yield <$> bs) = bs.
Proof.
  induction bs as [|b bs IH]; [done|]. unfold yields in *. csimpl. by rewrite IH.
Qed.

(** What loading the file of a round does to the local variables: the
    list of files is permuted at most, and a file was there to load. *)
Lemma load_file_state fs cfg st :
  data_files (load_file shuffle_files shuffle_idx fs cfg st).2 = data_files st
  ∧ file_idx (load_file shuffle_files shuffle_idx fs cfg st).2 = file_idx st
  ∧ cap (load_file shuffle_files shuffle_idx fs cfg st).2 = cap st
  ∧ nb_seen (load_file shuffle_files shuffle_idx fs cfg st).2 = nb_seen st
  ∧ length (current_files (load_file shuffle_files shuffle_idx fs cfg st).2)
    = length (current_files st)
  ∧ (current_files st = [] →
     (load_file shuffle_files shuffle_idx fs cfg st).1 = Raise IndexError)
  ∧ (∀ x, (load_file shuffle_files shuffle_idx fs cfg st).1 = Ok x →
       (file_idx st < length (current_files st))%nat).
Proof.
  unfold load_file.
  set (st0 := if shuffle cfg && bool_decide (file_idx st = 0%nat) then _ else st).
  assert (H0 : data_files st0 = data_files st ∧ file_idx st0 = file_idx st
               ∧ cap st0 = cap st ∧ nb_seen st0 = nb_seen st
               ∧ current_files st0 ≡ₚ current_files st).
  { unfold st0. destruct (shuffle cfg && _); [|done].
    repeat split; try done. unfold current_files, deref. simpl.
    rewrite lookup_insert_eq. simpl. apply shuffle_files_perm. }
  destruct H0 as (Hdf & Hidx & Hcap & Hseen & Hperm).
  pose proof (Permutation_length Hperm) as Hlen.
  fold (current_files st0).
  destruct (current_files st0 !! file_idx st0) as [name|] eqn:Hname.
  2:{ simpl. by repeat split. }
  assert (Hlt : (file_idx st < length (current_files st))%nat).
  { apply lookup_lt_Some in Hname. lia. }
  assert (Hne : current_files st = [] → False).
  { intros E. rewrite E in Hlt. simpl in Hlt. lia. }
  destruct (bind _ _) as [[d n]|e]; [|simpl; by repeat split].
  destruct (shuffle cfg); [|simpl; by repeat split].
  destruct (permute_all d _); simpl; by repeat split.
Qed.

(** What a round does to the local variables. *)
Lemma round_state fs cfg st :
  data_files (round shuffle_files shuffle_idx fs cfg st).2 = data_files st
  ∧ cap (round shuffle_files shuffle_idx fs cfg st).2 = cap st
  ∧ length (current_files (round shuffle_files shuffle_idx fs cfg st).2)
    = length (current_files st)
  ∧ (current_files st = [] →
     (round shuffle_files shuffle_idx fs cfg st).1 = ([], Fail IndexError))
  ∧ (loop cfg = true → (round shuffle_files shuffle_idx fs cfg st).1.2 ≠ Stop)
  ∧ (loop cfg = false →
     (round shuffle_files shuffle_idx fs cfg st).1.2 = Continue →
     file_idx (round shuffle_files shuffle_idx fs cfg st).2 = S (file_idx st)
     ∧ (S (file_idx st) < length (current_files st))%nat).
Proof.
  unfold round.
  destruct (load_file_state fs cfg st) as (Hdf & Hidx & Hcap & Hseen & Hlen & Hnil & Hlt).
  destruct (load_file _ _ fs cfg st) as [[[d n]|e] st1]; cbn [fst snd] in *.
  2:{ repeat split; try done. intros E. specialize (Hnil E).
      by injection Hnil as ->. }
  specialize (Hlt _ eq_refl).
  assert (Hne : current_files st = [] → False).
  { intros E. rewrite E in Hlt. simpl in Hlt. lia. }
  destruct (batch_size cfg =? 0); [simpl; by repeat split|].
  destruct (batch_loop _ _ _ _ _ _ _ _) as [bs seen].
  fold (current_files st1). rewrite Hidx.
  destruct (negb _); [simpl; by repeat split|].
  destruct (_ && _); [simpl; by repeat split|].
  case_bool_decide as Hend.
  - destruct (loop cfg); simpl; by repeat split.
  - simpl. repeat split; try done. lia.
Qed.

(** A generator that loops does not come to an end, and a generator that
    does not loop has ended after one round per file. *)
Lemma reader_loop_ends fs cfg (fuel : nat) st :
  (loop cfg = true →
   (reader_loop shuffle_files shuffle_idx fs cfg fuel st).1.2 ≠ Finished)
  ∧ (loop cfg = false → (1 ≤ fuel)%nat →
     (length (current_files st) - file_idx st ≤ fuel)%nat →
     (reader_loop shuffle_files shuffle_idx fs cfg fuel st).1.2 ≠ Suspended).
Proof.
  revert st. induction fuel as [|fuel IH]; intros st.
  { split; [done|]. intros _ H. lia. }
  cbn [reader_loop].
  destruct (round_state fs cfg st) as (Hdf & Hcap & Hlen & _ & Hloop & Hstep).
  destruct (round _ _ fs cfg st) as [[evs ctl] st1]. cbn [fst snd] in *.
  destruct ctl; cbn [fst snd]; [|split; [intros E; by specialize (Hloop E)|done]|done].
  destruct (IH st1) as [IH1 IH2].
  destruct (reader_loop _ _ fs cfg fuel st1) as [[evs' out] st2]. cbn [fst snd] in *.
  split; [done|]. intros Hl _ Hfuel.
  destruct (Hstep Hl eq_refl) as [Hidx Hlt]. apply IH2; [done|lia|lia].
Qed.

(** The files that are selected under a cap are the first files of the
    list. *)
Lemma select_files_prefix fs names (n : Z) (files : list string) (r' : nat)
    (s : Z) h :
  ∃ sel, deref (select_files fs names n files r' s h).2 r' = deref h r' ++ sel
         ∧ sel `prefix_of` files.
Proof.
  revert s h. induction files as [|f files IH]; intros s h.
  { exists []. split; [by rewrite app_nil_r|done]. }
  cbn [select_files]. destruct (first_len fs names f) as [m|e].
  2:{ exists []. split; [by rewrite app_nil_r|apply prefix_nil]. }
  assert (Hd : deref (<[r':=deref h r' ++ [f]]> h) r' = deref h r' ++ [f]).
  { unfold deref at 1. by rewrite lookup_insert_eq. }
  case_match.
  - exists [f]. split; [done|]. by apply prefix_cons, prefix_nil.
  - destruct (IH (s + m) (<[r':=deref h r' ++ [f]]> h)) as (sel & -> & Hsel).
    exists (f :: sel). rewrite Hd, <-app_assoc. split; [done|].
    by apply prefix_cons.
Qed.

(** The state in which the loop is entered. *)
Lemma reader_init_state fs (arg : files_arg) cfg h st h' :
  reader_init fs arg cfg h = (Ok st, h') →
  file_idx st = 0%nat ∧ nb_seen st = 0
  ∧ current_files st `prefix_of` arg_files h arg
  ∧ cap st = match nb_sample cfg with
             | Some n => if n =? 0 then None else Some n
             | None => None
             end.
Proof.
  unfold reader_init.
  destruct (match arg with
            | FilesList r => (r, h)
            | FileStr s => alloc h [s]
            end) as [r0 h0] eqn:H0.
  assert (Hfiles : deref h0 r0 = arg_files h arg).
  { destruct arg as [r|s0]; [by injection H0 as <- <-|].
    injection H0 as <- <-. unfold deref. by rewrite lookup_insert_eq. }
  rewrite Hfiles.
  destruct (alloc h0 (arg_files h arg)) as [r1 h1] eqn:H1.
  apply alloc_fresh in H1 as [Hr1 ->].
  assert (Hcopy : deref (<[r1:=arg_files h arg]> h0) r1 = arg_files h arg).
  { unfold deref. by rewrite lookup_insert_eq. }
  destruct (nb_sample cfg) as [n|].
  2:{ intros [= <- <-]. unfold current_files. simpl. by rewrite Hcopy. }
  destruct (n =? 0).
  { intros [= <- <-]. unfold current_files. simpl. by rewrite Hcopy. }
  destruct (alloc _ []) as [r2 h2] eqn:H2.
  apply alloc_fresh in H2 as [Hr2 ->].
  assert (Hne : r2 ≠ r1).
  { intros ->. by rewrite lookup_insert_eq in Hr2. }
  assert (Hd : deref (<[r2:=[]]> (<[r1:=arg_files h arg]> h0)) r1
               = arg_files h arg).
  { unfold deref. by rewrite lookup_insert_ne, lookup_insert_eq. }
  rewrite Hd.
  destruct (select_files_prefix fs (names cfg) n (arg_files h arg) r2 0
              (<[r2:=[]]> (<[r1:=arg_files h arg]> h0))) as (sel & Hsel & Hpre).
  destruct (select_files _ _ _ _ _ _ _) as [[[]|e] h3]; [|done].
  intros [= <- <-]. unfold current_files. simpl. simpl in Hsel.
  rewrite Hsel. unfold deref at 1. rewrite lookup_insert_eq. simpl.
  by repeat split.
Qed.

(** X14. The ends of the generator.  With [loop=True] it never comes to
    its end: after any number of rounds it is suspended or has raised.
    With [loop=False] the [while True] loop is left, by [break] or by an
    exception, after at most one round per file of the list (and one round
    when the list is empty); this is why [read] always returns or raises. *)
Theorem reader_ends fs (arg : files_arg) cfg h (fuel : nat) :
  (loop cfg = true →
   (reader shuffle_files shuffle_idx fs arg cfg h fuel).1.2 ≠ Finished)
  ∧ (loop cfg = false → (1 ≤ fuel)%nat → (length (arg_files h arg) ≤ fuel)%nat →
     (reader shuffle_files shuffle_idx fs arg cfg h fuel).1.2 ≠ Suspended)
  ∧ read shuffle_files shuffle_idx fs arg (names cfg) (nb_sample cfg)
      (batch_size cfg) (shuffle cfg) h ≠ None.
Proof.
  assert (Hends : ∀ cfg fuel,
    (loop cfg = true →
     (reader shuffle_files shuffle_idx fs arg cfg h fuel).1.2 ≠ Finished)
    ∧ (loop cfg = false → (1 ≤ fuel)%nat → (length (arg_files h arg) ≤ fuel)%nat →
       (reader shuffle_files shuffle_idx fs arg cfg h fuel).1.2 ≠ Suspended)).
  { clear cfg fuel. intros cfg fuel. unfold reader.
    pose proof (reader_init_state fs arg cfg h) as Hinit.
    destruct (reader_init fs arg cfg h) as [[st|e] h0]; [|by split].
    destruct (Hinit st h0 eq_refl) as (Hidx & _ & Hpre%prefix_length & _).
    destruct (reader_loop_ends fs cfg fuel st) as [H1 H2].
    destruct (reader_loop _ _ fs cfg fuel st) as [[evs out] st']. cbn [fst snd] in *.
    split; [done|]. intros Hl Hf1 Hf. apply H2; [done..|]. lia. }
  split; [apply Hends|]. split; [apply Hends|].
  unfold read.
  set (cfg' := {| names := names cfg; batch_size := batch_size cfg;
                  nb_sample := nb_sample cfg; shuffle := shuffle cfg;
                  loop := false |}).
  replace (match arg with
           | FilesList r => length (deref h r)
           | FileStr _ => 1%nat
           end) with (length (arg_files h arg)) by by destruct arg.
  destruct (Hends cfg' (S (length (arg_files h arg)))) as [_ Hstop].
  specialize (Hstop eq_refl ltac:(lia) ltac:(lia)).
  destruct (reader _ _ fs arg cfg' h _) as [[evs out] h1]. cbn [fst snd] in Hstop.
  unfold read_from.
  assert (Hcol : ∀ (bs : list (@batch_dict A)) data seen,
            collect bs out (nb_sample cfg) data seen ≠ None).
  { induction bs as [|b bs IH]; intros data seen; cbn [collect].
    - by destruct out.
    - destruct b as [|[k v] b]; [done|]. case_match; [done|apply IH]. }
  specialize (Hcol (yields evs) [] 0).
  destruct (collect _ _ _ _ _) as [[d|e]|]; done.
Qed.

Lemma reader_init_empty fs (r : nat) cfg h :
  h !! r = Some [] →
  ∃ st h', reader_init fs (FilesList r) cfg h = (Ok st, h')
           ∧ current_files st = [].
Proof.
  intros Hr. unfold reader_init.
  assert (Hd : deref h r = []) by (unfold deref; by rewrite Hr).
  rewrite Hd.
  destruct (alloc h []) as [r1 h1] eqn:H1.
  apply alloc_fresh in H1 as [Hr1 ->].
  assert (Hcopy : deref (<[r1:=[]]> h) r1 = []).
  { unfold deref. by rewrite lookup_insert_eq. }
  destruct (nb_sample cfg) as [n|]; [|by eexists _, _].
  destruct (n =? 0); [by eexists _, _|].
  destruct (alloc _ []) as [r2 h2] eqn:H2.
  apply alloc_fresh in H2 as [Hr2 ->].
  assert (Hne : r2 ≠ r1).
  { intros ->. by rewrite lookup_insert_eq in Hr2. }
  assert (Hd1 : deref (<[r2:=[]]> (<[r1:=[]]> h)) r1 = []).
  { unfold deref. by rewrite lookup_insert_ne, lookup_insert_eq. }
  rewrite Hd1. cbn [select_files]. eexists _, _. split; [done|].
  unfold current_files, deref. simpl. by rewrite lookup_insert_eq.
Qed.

(** X15. An empty list of files: the generator raises [IndexError] at the
    first file it asks for and yields nothing, whatever the other arguments,
    and so does [read]. *)
Theorem reader_empty_list fs (r : nat) cfg h (fuel : nat) :
  h !! r = Some [] →
  (reader shuffle_files shuffle_idx fs (FilesList r) cfg h (S fuel)).1
  = ([], Raised IndexError)
  ∧ read shuffle_files shuffle_idx fs (FilesList r) (names cfg) (nb_sample cfg)
      (batch_size cfg) (shuffle cfg) h = Some (Raise IndexError).
Proof.
  intros Hr.
  assert (Hrun : ∀ cfg fuel,
            (reader shuffle_files shuffle_idx fs (FilesList r) cfg h (S fuel)).1
            = ([], Raised IndexError)).
  { clear cfg fuel. intros cfg fuel. unfold reader.
    destruct (reader_init_empty fs r cfg h Hr) as (st & h' & -> & Hnil).
    cbn [reader_loop].
    destruct (round_state fs cfg st) as (_ & _ & _ & Hfail & _).
    specialize (Hfail Hnil).
    destruct (round _ _ fs cfg st) as [[evs ctl] st1]. cbn [fst snd] in Hfail.
    by injection Hfail as -> ->. }
  split; [apply Hrun|]. unfold read.
  set (cfg' := {| names := names cfg; batch_size := batch_size cfg;
                  nb_sample := nb_sample cfg; shuffle := shuffle cfg;
                  loop := false |}).
  specialize (Hrun cfg' (length (deref h r))).
  destruct (reader _ _ fs _ cfg' h _) as [[evs out] h1]. cbn [fst] in Hrun.
  injection Hrun as -> ->. done.
Qed.

Lemma load_file_nonneg fs cfg st d (n : Z) st1 :
  load_file shuffle_files shuffle_idx fs cfg st = (Ok (d, n), st1) → 0 ≤ n.
Proof.
  unfold load_file. destruct (_ !! _); [|done].
  destruct (bind _ _) as [[d0 n0]|e]; [|done].
  destruct (shuffle cfg).
  - destruct (permute_all d0 _); [|done]. intros [= _ <- _]. lia.
  - intros [= _ <- _]. lia.
Qed.

Lemma round_no_batches fs cfg st :
  batch_size cfg ≤ 0 →
  yields (round shuffle_files shuffle_idx fs cfg st).1.1 = []
  ∧ (batch_size cfg = 0 →
     ∃ e, (round shuffle_files shuffle_idx fs cfg st).1.2 = Fail e).
Proof.
  intros Hbs. unfold round.
  destruct (load_file _ _ fs cfg st) as [[[d n]|e] st1] eqn:Hload.
  2:{ split; [done|]. intros _. by eexists. }
  apply load_file_nonneg in Hload.
  destruct (Z.eqb_spec (batch_size cfg) 0) as [Hz|Hnz].
  { split; [done|]. intros _. by eexists. }
  pose proof (ceil_div_neg n (batch_size cfg) Hload ltac:(lia)) as Hq.
  replace (Z.to_nat (ceil_div n (batch_size cfg))) with 0%nat by lia.
  cbn [batch_loop]. split; [|done].
  repeat case_match; cbn [fst yields fmap list_fmap omap list_omap app]; done.
Qed.

(** X16. A batch size of zero or less: the generator never yields a batch.
    With the batch size zero every round raises (the division of line 112
    when the file could be loaded), so the generator has raised after its
    first round; with a negative batch size it walks through the files
    without a word. *)
Theorem reader_needs_positive_batch_size fs (arg : files_arg) cfg h (fuel : nat) :
  batch_size cfg ≤ 0 →
  yields (reader shuffle_files shuffle_idx fs arg cfg h fuel).1.1 = []
  ∧ (batch_size cfg = 0 → (1 ≤ fuel)%nat →
     ∃ e, (reader shuffle_files shuffle_idx fs arg cfg h fuel).1.2 = Raised e).
Proof.
  intros Hbs. unfold reader.
  destruct (reader_init fs arg cfg h) as [[st|e] h0]; [|split; [done|by eexists]].
  assert (Hloop : ∀ fuel st,
    yields (reader_loop shuffle_files shuffle_idx fs cfg fuel st).1.1 = []
    ∧ (batch_size cfg = 0 → (1 ≤ fuel)%nat →
       ∃ e, (reader_loop shuffle_files shuffle_idx fs cfg fuel st).1.2 = Raised e)).
  { clear fuel st. induction fuel as [|fuel IH]; intros st.
    { split; [done|]. intros _ H. lia. }
    cbn [reader_loop].
    destruct (round_no_batches fs cfg st Hbs) as [Hy Hz].
    destruct (round _ _ fs cfg st) as [[evs ctl] st1]. cbn [fst snd] in *.
    destruct ctl.
    - destruct (IH st1) as [IHy _].
      destruct (reader_loop _ _ fs cfg fuel st1) as [[evs' out] st2].
      cbn [fst snd] in *. split; [by rewrite yields_app, Hy, IHy|].
      intros H0 _. by destruct (Hz H0).
    - split; [done|]. intros H0 _. by destruct (Hz H0).
    - split; [done|]. intros _ _. by eexists. }
  destruct (Hloop fuel st) as [Hy Hz].
  destruct (reader_loop _ _ fs cfg fuel st) as [[evs out] st']. by split.
Qed.

End ends.

(** *** The rows of a batch *)

Section contents.
Context {A : Type}.
Variable shuffle_files : nat → list string → list string.
Variable shuffle_idx : nat → list nat → list nat.
Hypothesis shuffle_files_perm : ∀ k l, shuffle_files k l ≡ₚ l.
Hypothesis shuffle_idx_perm : ∀ k l, shuffle_idx k l ≡ₚ l.
Implicit Types (fs : gmap string (gmap string (list A))) (cfg : config)
  (st : locals) (h : heap) (d : pydict (list A)) (names : list string).

(** The dataset of a file under a key, empty when there is none. *)
Definition dataset fs (f name : string) : list A :=
  default [] (fs !! f ≫= (.!! name)).

(** The rows of an array at a list of indices. *)
Definition select (v : list A) (idx : list nat) : list A := omap (v !!.) idx.

(** Every file of the list that exists has every key asked for, with as
    many rows as under the first. *)
Definition well_formed_files fs names (files : list string) : Prop :=
  ∀ f, f ∈ files → is_Some (fs !! f) → well_formed fs names f.

(** The batch holds, under every key, the rows [idx] of the file [f]. *)
Definition rows_of fs names (f : string) (idx : list nat) (b : @batch_dict A)
    : Prop :=
  is_Some (fs !! f) ∧ NoDup idx
  ∧ Forall (λ i, (i < rows fs names f)%nat) idx
  ∧ batch_len b = Z.of_nat (length idx)
  ∧ ∀ name, name ∈ names →
      dict_get b name = Some (select (dataset fs f name) idx).

Lemma select_seq (pre v : list A) :
  select (pre ++ v) (seq (length pre) (length v)) = v.
Proof.
  unfold select. revert pre. induction v as [|x v IH]; intros pre; [done|].
  cbn [length seq omap list_omap]. rewrite list_lookup_middle by done.
  f_equal. specialize (IH (pre ++ [x])).
  rewrite <-app_assoc, length_app in IH. cbn [app length] in IH.
  by rewrite Nat.add_1_r in IH.
Qed.

Lemma select_all (v : list A) : select v (seq 0 (length v)) = v.
Proof. apply (select_seq [] v). Qed.

Lemma select_cons (v : list A) (i : nat) (idx : list nat) (x : A) :
  v !! i = Some x → select v (i :: idx) = x :: select v idx.
Proof. intros Hi. unfold select. cbn [omap list_omap]. by rewrite Hi. Qed.

Lemma select_length (v : list A) (idx : list nat) :
  Forall (λ i, (i < length v)%nat) idx → length (select v idx) = length idx.
Proof.
  induction 1 as [|i idx Hi _ IH]; [done|].
  destruct (lookup_lt_is_Some_2 v i Hi) as [x Hx].
  rewrite (select_cons _ _ _ _ Hx). cbn [length]. by rewrite IH.
Qed.

Lemma select_take (v : list A) (idx : list nat) (k : nat) :
  Forall (λ i, (i < length v)%nat) idx →
  take k (select v idx) = select v (take k idx).
Proof.
  intros Hidx. revert k. induction Hidx as [|i idx Hi _ IH]; intros k.
  { by destruct k. }
  destruct (lookup_lt_is_Some_2 v i Hi) as [x Hx].
  rewrite (select_cons _ _ _ _ Hx). destruct k as [|k]; [done|].
  cbn [take]. by rewrite IH, (select_cons _ _ _ _ Hx).
Qed.

Lemma select_drop (v : list A) (idx : list nat) (k : nat) :
  Forall (λ i, (i < length v)%nat) idx →
  drop k (select v idx) = select v (drop k idx).
Proof.
  intros Hidx. revert k. induction Hidx as [|i idx Hi _ IH]; intros k.
  { by destruct k. }
  destruct (lookup_lt_is_Some_2 v i Hi) as [x Hx].
  rewrite (select_cons _ _ _ _ Hx). destruct k as [|k]; [|apply IH].
  by rewrite !drop_0, (select_cons _ _ _ _ Hx).
Qed.

(** A slice of the selected rows is the selection of the slice. *)
Lemma select_slice (v : list A) (idx : list nat) (a e : Z) :
  Forall (λ i, (i < length v)%nat) idx →
  py_slice (select v idx) a e = select v (py_slice idx a e).
Proof.
  intros Hidx. unfold py_slice. rewrite select_length by done.
  rewrite select_drop by done. apply select_take. by apply Forall_drop.
Qed.

Lemma py_slice_sublist {B} (l : list B) (a e : Z) : py_slice l a e `sublist_of` l.
Proof.
  unfold py_slice. etransitivity; [apply sublist_take|apply sublist_drop].
Qed.

Lemma fancy_index_select (v : list A) (idx : list nat) (r : list A) :
  Align.fancy_index v idx = Ok r →
  r = select v idx ∧ Forall (λ i, (i < length v)%nat) idx.
Proof.
  revert r. induction idx as [|i idx IH]; intros r.
  { intros [= <-]. by split. }
  cbn [Align.fancy_index]. destruct (v !! i) as [x|] eqn:Hx; [|done].
  destruct (Align.fancy_index v idx) as [r'|]; [|done]. cbn [bind].
  intros [= <-]. destruct (IH r' eq_refl) as [-> Hall].
  rewrite (select_cons _ _ _ _ Hx). split; [done|].
  constructor; [by eapply lookup_lt_Some|done].
Qed.

Lemma select_perm (v : list A) (idx : list nat) :
  idx ≡ₚ seq 0 (length v) → select v idx ≡ₚ v.
Proof.
  intros Hperm. transitivity (select v (seq 0 (length v))).
  - unfold select. by rewrite Hperm.
  - by rewrite select_all.
Qed.

Lemma load_names_get (hf : gmap string (list A)) names d0 d (k : string) :
  load_names hf names d0 = Ok d →
  dict_get d k = if bool_decide (k ∈ names) then hf !! k else dict_get d0 k.
Proof.
  revert d0. induction names as [|name names IH]; intros d0.
  { intros [= <-]. by rewrite bool_decide_false by apply not_elem_of_nil. }
  cbn [load_names]. unfold getitem. destruct (hf !! name) as [v|] eqn:Hv; [|done].
  cbn [bind]. intros Hd%IH. rewrite Hd.
  destruct (decide (k ∈ names)) as [Hin|Hnin].
  - rewrite !bool_decide_true; [done|by right|done].
  - rewrite (bool_decide_false (k ∈ names)) by done.
    destruct (decide (k = name)) as [->|Hne].
    + rewrite dict_get_set_eq. by rewrite bool_decide_true by left.
    + rewrite dict_get_set_ne by done. rewrite bool_decide_false; [done|].
      intros [?|?]%elem_of_cons; done.
Qed.

Lemma permute_all_get d (idx : list nat) d2 (k : string) :
  permute_all d idx = Ok d2 →
  dict_get d2 k = (λ v, select (take (length idx) v) idx) <$> dict_get d k.
Proof.
  revert d2. induction d as [|[k' v] d IH]; intros d2.
  { by intros [= <-]. }
  cbn [permute_all].
  destruct (Align.fancy_index _ idx) as [r|] eqn:Hr; [|done]. cbn [bind].
  destruct (permute_all d idx) as [d2'|]; [|done]. cbn [bind].
  intros [= <-]. cbn [dict_get]. case_bool_decide.
  - by apply fancy_index_select in Hr as [-> _].
  - by apply IH.
Qed.

(** The rounds permute the list of files at most. *)
Lemma load_file_perm fs cfg st :
  current_files (load_file shuffle_files shuffle_idx fs cfg st).2
  ≡ₚ current_files st.
Proof.
  unfold load_file.
  set (st0 := if shuffle cfg && bool_decide (file_idx st = 0%nat) then _ else st).
  assert (H0 : current_files st0 ≡ₚ current_files st).
  { unfold st0. destruct (shuffle cfg && _); [|done].
    unfold current_files, deref. simpl. rewrite lookup_insert_eq. simpl.
    apply shuffle_files_perm. }
  fold (current_files st0).
  destruct (current_files st0 !! file_idx st0); [|exact H0].
  destruct (bind _ _) as [[d n]|e]; [|exact H0].
  destruct (shuffle cfg); [|exact H0].
  destruct (permute_all d _); exact H0.
Qed.

Lemma round_perm fs cfg st :
  current_files (round shuffle_files shuffle_idx fs cfg st).2 ≡ₚ current_files st.
Proof.
  pose proof (load_file_perm fs cfg st) as Hperm. unfold round.
  destruct (load_file _ _ fs cfg st) as [[[d n]|e] st1]; [|exact Hperm].
  cbn [snd] in Hperm.
  destruct (batch_size cfg =? 0); [exact Hperm|].
  destruct (batch_loop _ _ _ _ _ _ _ _) as [bs seen].
  destruct (negb _); [exact Hperm|].
  destruct (_ && _); [exact Hperm|].
  case_bool_decide; [|exact Hperm].
  destruct (loop cfg); exact Hperm.
Qed.

(** What the file of a round holds once it is loaded: under every key the
    rows of the dataset of that key, all in one order, which is the order
    of the file unless the reader shuffles. *)
Lemma load_file_content fs cfg st d (n : Z) st1 :
  well_formed_files fs (names cfg) (current_files st) →
  load_file shuffle_files shuffle_idx fs cfg st = (Ok (d, n), st1) →
  ∃ f idx,
    current_files st1 !! file_idx st = Some f
    ∧ well_formed fs (names cfg) f
    ∧ n = Z.of_nat (rows fs (names cfg) f)
    ∧ idx ≡ₚ seq 0 (rows fs (names cfg) f)
    ∧ (shuffle cfg = false → idx = seq 0 (rows fs (names cfg) f))
    ∧ ∀ name, name ∈ names cfg →
        dict_get d name = Some (select (dataset fs f name) idx).
Proof.
  intros Hwf. unfold load_file.
  set (st0 := if shuffle cfg && bool_decide (file_idx st = 0%nat) then _ else st).
  assert (Hidx : file_idx st0 = file_idx st).
  { unfold st0. by destruct (shuffle cfg && _). }
  assert (Hfiles : current_files st0 ≡ₚ current_files st).
  { unfold st0. destruct (shuffle cfg && _); [|done].
    unfold current_files, deref. simpl. rewrite lookup_insert_eq. simpl.
    apply shuffle_files_perm. }
  fold (current_files st0). rewrite Hidx.
  destruct (current_files st0 !! file_idx st) as [f|] eqn:Hf; [|done].
  unfold open_read. destruct (fs !! f) as [hf|] eqn:Hhf; [|done]. cbn [bind].
  assert (Hwff : well_formed fs (names cfg) f).
  { apply Hwf; [|by rewrite Hhf]. rewrite <-Hfiles.
    by apply list_elem_of_lookup_2 in Hf. }
  destruct Hwff as (hf' & Hhf' & Hkeys).
  assert (hf' = hf) as -> by congruence.
  destruct (load_names_full hf (names cfg) [] (rows fs (names cfg) f))
    as (d0' & Hd0' & Hall & _); [done|constructor|].
  rewrite Hd0'. cbn [bind].
  assert (Hget : ∀ name, name ∈ names cfg →
            dict_get d0' name = Some (dataset fs f name)
            ∧ length (dataset fs f name) = rows fs (names cfg) f).
  { intros name Hname. rewrite (load_names_get _ _ _ _ name Hd0').
    rewrite bool_decide_true by done.
    destruct (Hkeys name Hname) as (v & Hv & Hlen).
    unfold dataset. rewrite Hhf. cbn. by rewrite Hv. }
  destruct d0' as [|[k v] d0']; [done|].
  assert (Hv : length v = rows fs (names cfg) f).
  { by apply Forall_cons in Hall as [? _]. }
  rewrite Hv.
  destruct (shuffle cfg) eqn:Hsh.
  - set (idx := shuffle_idx (rng st0) (seq 0 (rows fs (names cfg) f))).
    assert (Hperm : idx ≡ₚ seq 0 (rows fs (names cfg) f)) by apply shuffle_idx_perm.
    destruct (permute_all ((k, v) :: d0') idx) as [d2|] eqn:Hd2; [|done].
    intros [= <- <- <-]. exists f, idx. unfold current_files at 1. cbn.
    split; [exact Hf|]. split; [by exists hf|]. split; [done|]. split; [done|].
    split; [done|]. intros name Hname.
    rewrite (permute_all_get _ _ _ name Hd2).
    destruct (Hget name Hname) as [-> Hlen]. cbn. f_equal. f_equal.
    apply take_ge. rewrite Hperm, length_seq. lia.
  - intros [= <- <- <-]. exists f, (seq 0 (rows fs (names cfg) f)).
    split; [exact Hf|]. split; [by exists hf|]. split; [done|]. split; [done|].
    split; [done|]. intros name Hname.
    destruct (Hget name Hname) as [-> Hlen]. by rewrite <-Hlen, select_all.
Qed.

(** Every batch is cut out of the loaded file between two bounds. *)
Lemma batch_loop_cuts names d (batch_size : Z) (cap : option Z) (n : Z)
    (k : nat) (batch seen : Z) (b : @batch_dict A) :
  b ∈ (batch_loop names d batch_size cap n k batch seen).1 →
  ∃ a e, b = cut_batch names d a e.
Proof.
  revert batch seen. induction k as [|k IH]; intros batch seen.
  { by intros ?%elem_of_nil. }
  cbn [batch_loop]. destruct (_ =? 0); [by intros ?%elem_of_nil|].
  match goal with |- context [if ?c then ([_], _) else _] => destruct c end.
  - intros ->%list_elem_of_singleton. by eexists _, _.
  - specialize (IH (batch + 1)
      (seen + (Z.min n (batch * batch_size + match cap with
                                              | Some c => Z.min (c - seen) batch_size
                                              | None => batch_size
                                              end) - batch * batch_size))).
    destruct (batch_loop _ _ _ _ _ k _ _) as [bs s]. cbn [fst] in *.
    intros [->|Hb]%elem_of_cons; [by eexists _, _|]. by apply IH.
Qed.

Lemma py_slice_Forall {B} (P : B → Prop) (l : list B) (a e : Z) :
  Forall P l → Forall P (py_slice l a e).
Proof. intros Hl. unfold py_slice. by apply Forall_take, Forall_drop. Qed.

(** A slice of the loaded file is rows of the file, the same under every
    key. *)
Lemma rows_of_cut fs names (f : string) (idx : list nat) d (a e : Z) :
  names ≠ [] → well_formed fs names f → idx ≡ₚ seq 0 (rows fs names f) →
  (∀ name, name ∈ names →
     dict_get d name = Some (select (dataset fs f name) idx)) →
  rows_of fs names f (py_slice idx a e) (cut_batch names d a e).
Proof.
  intros Hnames (hf & Hhf & Hkeys) Hperm Hget.
  assert (Hrange : Forall (λ i, (i < rows fs names f)%nat) idx).
  { rewrite Hperm. apply Forall_forall. intros i Hi%elem_of_seq. lia. }
  assert (Hlen : ∀ name, name ∈ names →
            length (dataset fs f name) = rows fs names f).
  { intros name Hname. destruct (Hkeys name Hname) as (v & Hv & Hl).
    unfold dataset. rewrite Hhf. cbn. by rewrite Hv. }
  assert (Hcut : ∀ name, name ∈ names →
            py_slice (default [] (dict_get d name)) a e
            = select (dataset fs f name) (py_slice idx a e)).
  { intros name Hname. rewrite (Hget name Hname). cbn.
    apply select_slice. by rewrite (Hlen name Hname). }
  split; [by rewrite Hhf|]. split.
  { eapply sublist_NoDup; [|apply py_slice_sublist].
    rewrite Hperm. apply NoDup_seq. }
  split; [by apply py_slice_Forall|]. split.
  - destruct names as [|n0 rest]; [done|].
    destruct (cut_batch_head n0 rest d a e) as [t ->]. cbn [batch_len].
    rewrite Hcut by left. f_equal. apply select_length.
    rewrite Hlen by left. by apply py_slice_Forall.
  - intros name Hname. rewrite cut_batch_get, bool_decide_true by done.
    by rewrite Hcut.
Qed.

(** The batches of a round are those of the loop over the batches of its
    file. *)
Lemma round_batches fs cfg st :
  yields (round shuffle_files shuffle_idx fs cfg st).1.1
  = match load_file shuffle_files shuffle_idx fs cfg st with
    | (Raise _, _) => []
    | (Ok (d, n), st1) =>
        if batch_size cfg =? 0 then []
        else (batch_loop (names cfg) d (batch_size cfg) (cap st1) n
                (Z.to_nat (ceil_div n (batch_size cfg))) 0 (nb_seen st1)).1
    end.
Proof.
  unfold round.
  destruct (load_file _ _ fs cfg st) as [[[d n]|e] st1]; [|done].
  destruct (batch_size cfg =? 0); [done|].
  destruct (batch_loop _ _ _ _ _ _ _ _) as [bs seen]. cbn [fst].
  destruct (negb _); [apply yields_yield|].
  destruct (_ && _); [apply yields_yield|].
  case_bool_decide; [|apply yields_yield].
  destruct (loop cfg); [|apply yields_yield].
  cbn [fst]. rewrite yields_app, yields_yield. apply app_nil_r.
Qed.

(** A property of the batches of every round, under an invariant of the
    local variables that the rounds keep, holds of every batch the
    generator yields. *)
Lemma reader_loop_Forall (P : @batch_dict A → Prop) (I : locals → Prop) fs cfg :
  (∀ st, I st →
     Forall P (yields (round shuffle_files shuffle_idx fs cfg st).1.1)
     ∧ ((round shuffle_files shuffle_idx fs cfg st).1.2 = Continue →
        I (round shuffle_files shuffle_idx fs cfg st).2)) →
  ∀ (fuel : nat) st, I st →
    Forall P (yields (reader_loop shuffle_files shuffle_idx fs cfg fuel st).1.1).
Proof.
  intros Hround. induction fuel as [|fuel IH]; intros st Hst; [constructor|].
  cbn [reader_loop]. destruct (Hround st Hst) as [HP HI].
  destruct (round _ _ fs cfg st) as [[evs ctl] st1]. cbn [fst snd] in *.
  destruct ctl; [|done..].
  specialize (IH st1 (HI eq_refl)).
  destruct (reader_loop _ _ fs cfg fuel st1) as [[evs' out] st2]. cbn [fst] in *.
  rewrite yields_app. by apply Forall_app.
Qed.

Lemma round_aligned fs cfg st :
  well_formed_files fs (names cfg) (current_files st) →
  Forall (λ b, ∃ f idx, f ∈ current_files st ∧ rows_of fs (names cfg) f idx b)
    (yields (round shuffle_files shuffle_idx fs cfg st).1.1).
Proof.
  intros Hwf. rewrite round_batches.
  pose proof (load_file_perm fs cfg st) as Hfiles.
  destruct (load_file _ _ fs cfg st) as [[[d n]|e] st1] eqn:Hload; [|constructor].
  destruct (batch_size cfg =? 0); [constructor|].
  destruct (load_file_head shuffle_files shuffle_idx shuffle_idx_perm
              fs cfg st d n st1 Hload) as ((n0 & rest & v0 & d' & Hn & _) & _).
  destruct (load_file_content fs cfg st d n st1 Hwf Hload)
    as (f & idx & Hin%list_elem_of_lookup_2 & Hf & _ & Hperm & _ & Hget).
  apply Forall_forall. intros b (a & e & ->)%batch_loop_cuts.
  exists f, (py_slice idx a e). split; [by rewrite <-Hfiles|].
  apply rows_of_cut; [|done..]. by rewrite Hn.
Qed.

(** X17. Rows stay together.  When every file of the list that exists
    holds, under every name asked for, as many rows as under the first,
    every batch the generator yields is made of rows of one of these files:
    there are a file of the list and a list of row numbers of that file,
    none twice, such that the batch holds under every name those rows of
    the dataset of that name, in that order.  This holds with and without
    shuffling, under a cap and in a loop. *)
Theorem reader_batches_aligned fs (arg : files_arg) cfg h (fuel : nat)
    (b : @batch_dict A) :
  well_formed_files fs (names cfg) (arg_files h arg) →
  b ∈ yields (reader shuffle_files shuffle_idx fs arg cfg h fuel).1.1 →
  ∃ f idx, f ∈ arg_files h arg ∧ rows_of fs (names cfg) f idx b.
Proof.
  intros Hwf. unfold reader.
  pose proof (reader_init_state fs arg cfg h) as Hinit.
  destruct (reader_init fs arg cfg h) as [[st|e] h0]; [|by intros ?%elem_of_nil].
  destruct (Hinit st h0 eq_refl) as (_ & _ & Hpre & _).
  assert (Hround : ∀ st, (∀ f, f ∈ current_files st → f ∈ arg_files h arg) →
    Forall (λ b, ∃ f idx, f ∈ arg_files h arg ∧ rows_of fs (names cfg) f idx b)
      (yields (round shuffle_files shuffle_idx fs cfg st).1.1)
    ∧ ((round shuffle_files shuffle_idx fs cfg st).1.2 = Continue →
       ∀ f, f ∈ current_files (round shuffle_files shuffle_idx fs cfg st).2 →
            f ∈ arg_files h arg)).
  { clear st Hinit Hpre. intros st Hst. split.
    - eapply Forall_impl; [apply round_aligned|].
      + intros f Hf. apply Hwf. by apply Hst.
      + intros b' (f & idx & Hf & Hb). exists f, idx. split; [by apply Hst|done].
    - intros _ f Hf. apply Hst. by rewrite <-(round_perm fs cfg st). }
  pose proof (reader_loop_Forall _ _ fs cfg Hround fuel st) as Hloop.
  destruct (reader_loop _ _ fs cfg fuel st) as [[evs out] st']. cbn [fst] in *.
  intros Hb. eapply Forall_forall in Hloop; [exact Hloop| |exact Hb].
  intros f Hf. destruct Hpre as [k ->]. apply elem_of_app. by left.
Qed.

(** Under a cap the counter of samples is below the cap whenever a file
    is opened. *)
Definition cap_ok st : Prop :=
  match cap st with
  | Some c => 0 < c ∧ nb_seen st < c
  | None => True
  end.

Lemma batch_loop_sizes n0 rest v0 d' (batch_size q : Z) (cap : option Z)
    (k : nat) (batch seen : Z) :
  let n := Z.of_nat (length v0) in
  0 < batch_size → (q - 1) * batch_size < n → 0 ≤ batch →
  Z.of_nat k ≤ q - batch →
  match cap with Some c => seen < c | None => True end →
  Forall (λ b, 1 ≤ batch_len b ≤ batch_size)
    (batch_loop (n0 :: rest) ((n0, v0) :: d') batch_size cap n k batch seen).1.
Proof.
  intros n Hbs Hq. revert batch seen.
  induction k as [|k IH]; intros batch seen Hb Hk Hcap; [constructor|].
  cbn [batch_loop].
  set (nb_read := match cap with
                  | Some c => Z.min (c - seen) batch_size
                  | None => batch_size
                  end).
  assert (Hread : 1 ≤ nb_read ≤ batch_size).
  { unfold nb_read. destruct cap; lia. }
  assert (Hstart : 0 ≤ batch * batch_size < n) by nia.
  set (e := Z.min n (batch * batch_size + nb_read)).
  assert (He : 1 ≤ e - batch * batch_size ≤ batch_size) by lia.
  rewrite (proj2 (Z.eqb_neq _ 0)) by lia.
  assert (Hlen : batch_len (cut_batch (n0 :: rest) ((n0, v0) :: d')
                              (batch * batch_size) e) = e - batch * batch_size).
  { apply batch_len_cut; lia. }
  match goal with |- context [if ?c then ([_], _) else _] => destruct c eqn:Hstop end.
  { cbn [fst]. constructor; [by rewrite Hlen|constructor]. }
  specialize (IH (batch + 1) (seen + (e - batch * batch_size))).
  destruct (batch_loop _ _ _ _ _ k _ _) as [bs s]. cbn [fst] in *.
  constructor; [by rewrite Hlen|]. apply IH; [lia|lia|].
  destruct cap as [c|]; [|done]. rewrite Z.geb_leb in Hstop.
  apply Z.leb_gt in Hstop. lia.
Qed.

Lemma round_sizes fs cfg st :
  0 < batch_size cfg → cap_ok st →
  Forall (λ b, 1 ≤ batch_len b ≤ batch_size cfg)
    (yields (round shuffle_files shuffle_idx fs cfg st).1.1)
  ∧ ((round shuffle_files shuffle_idx fs cfg st).1.2 = Continue →
     cap_ok (round shuffle_files shuffle_idx fs cfg st).2).
Proof.
  intros Hbs Hok. split.
  - rewrite round_batches.
    destruct (load_file _ _ fs cfg st) as [[[d n]|e] st1] eqn:Hload; [|constructor].
    destruct (batch_size cfg =? 0); [constructor|].
    destruct (load_file_head shuffle_files shuffle_idx shuffle_idx_perm
                fs cfg st d n st1 Hload)
      as ((n0 & rest & v0 & d' & -> & -> & <-) & Hcap & Hseen & _).
    destruct (ceil_div_pos (Z.of_nat (length v0)) (batch_size cfg))
      as [[Hq _] Hq0]; [lia|done|].
    eapply batch_loop_sizes; [done|exact Hq|lia|lia|].
    rewrite Hcap, Hseen. unfold cap_ok in Hok. destruct (cap st); [lia|done].
  - unfold round.
    destruct (load_file _ _ fs cfg st) as [[[d n]|e] st1] eqn:Hload; [|done].
    destruct (load_file_head shuffle_files shuffle_idx shuffle_idx_perm
                fs cfg st d n st1 Hload) as (_ & Hcap & _ & _).
    destruct (batch_size cfg =? 0); [done|].
    destruct (batch_loop _ _ _ _ _ _ _ _) as [bs seen].
    unfold cap_ok in *. rewrite Hcap.
    destruct (cap st) as [c|].
    2:{ cbn [negb andb]. case_bool_decide; [destruct (loop cfg)|]; done. }
    destruct (Z.leb_spec seen c); cbn [negb]; [|done].
    destruct (Z.eqb_spec c seen); cbn [andb negb].
    + case_bool_decide; cbn [negb]; [|done].
      destruct (loop cfg); [|done]. cbn. intros _. lia.
    + case_bool_decide; [destruct (loop cfg); [|done]|]; cbn; intros _; lia.
Qed.

(** X18. The sizes of the batches.  For a positive [batch_size] and an
    [nb_sample] that is not negative, every batch the generator yields has
    at least one sample and at most [batch_size]: it never yields an empty
    batch. *)
Theorem reader_batch_sizes fs (arg : files_arg) cfg h (fuel : nat)
    (b : @batch_dict A) :
  0 < batch_size cfg → (∀ n, nb_sample cfg = Some n → 0 ≤ n) →
  b ∈ yields (reader shuffle_files shuffle_idx fs arg cfg h fuel).1.1 →
  1 ≤ batch_len b ≤ batch_size cfg.
Proof.
  intros Hbs Hnb. unfold reader.
  pose proof (reader_init_state fs arg cfg h) as Hinit.
  destruct (reader_init fs arg cfg h) as [[st|e] h0]; [|by intros ?%elem_of_nil].
  destruct (Hinit st h0 eq_refl) as (_ & Hseen & _ & Hcap).
  assert (Hok : cap_ok st).
  { unfold cap_ok. rewrite Hcap, Hseen. destruct (nb_sample cfg) as [n|]; [|done].
    specialize (Hnb n eq_refl). destruct (Z.eqb_spec n 0); [done|lia]. }
  pose proof (reader_loop_Forall (λ b, 1 ≤ batch_len b ≤ batch_size cfg) cap_ok
                fs cfg (λ st, round_sizes fs cfg st Hbs) fuel st Hok) as Hloop.
  destruct (reader_loop _ _ fs cfg fuel st) as [[evs out] st']. cbn [fst] in *.
  rewrite Forall_forall in Hloop. apply Hloop.
Qed.

(** *** Reading everything *)

(** The rows of a batch under a key. *)
Definition value (name : string) (b : @batch_dict A) : list A :=
  default [] (dict_get b name).

(** Without a cap the batches of a file, from batch number [batch] on, make
    up the rest of the file under every key; [q] is the number of batches
    of the file. *)
Lemma batch_loop_all names d (batch_size q n : Z) (k : nat) (batch seen : Z) :
  0 < batch_size → (q - 1) * batch_size < n ≤ q * batch_size →
  0 ≤ batch ≤ q → k = Z.to_nat (q - batch) →
  let bs := (batch_loop names d batch_size None n k batch seen).1 in
  Forall (λ b, ∃ a e, b = cut_batch names d a e ∧ 0 ≤ a < e ∧ e ≤ n) bs
  ∧ ∀ name v, name ∈ names → dict_get d name = Some v →
      Z.of_nat (length v) = n →
      concat (value name <$> bs) = drop (Z.to_nat (batch * batch_size)) v.
Proof.
  intros Hbs Hq. revert batch seen.
  induction k as [|k IH]; intros batch seen Hb Hk.
  { split; [constructor|]. intros name v _ _ Hv. cbn.
    symmetry. apply drop_ge. nia. }
  cbn [batch_loop].
  assert (Hstart : 0 ≤ batch * batch_size < n) by nia.
  set (a := batch * batch_size) in *.
  set (e := Z.min n (a + batch_size)).
  rewrite (proj2 (Z.eqb_neq _ 0)) by lia.
  specialize (IH (batch + 1) (seen + (e - a)) ltac:(lia) ltac:(lia)).
  destruct (batch_loop _ _ _ _ _ k _ _) as [bs s]. cbn [fst] in *.
  destruct IH as [IHcut IHcat]. split.
  { constructor; [|done]. exists a, e. split; [done|lia]. }
  intros name v Hname Hd Hv. rewrite fmap_cons. cbn [concat].
  rewrite (IHcat name v Hname Hd Hv).
  unfold value. rewrite cut_batch_get, bool_decide_true by done.
  rewrite Hd. cbn [default].
  rewrite SeqWin.py_slice_forward by lia.
  destruct (Z.le_gt_cases (a + batch_size) n) as [Hle|Hgt].
  - replace (Z.to_nat ((batch + 1) * batch_size))
      with (Z.to_nat a + Z.to_nat (e - a))%nat by (unfold a in *; lia).
    rewrite <-drop_drop. apply take_drop.
  - rewrite (drop_ge v (Z.to_nat ((batch + 1) * batch_size))) by lia.
    rewrite app_nil_r. apply take_ge. rewrite length_drop. lia.
Qed.

(** A batch as the generator makes them from a file that is well formed:
    one slice under every key asked for, all of the same length, which is
    not zero. *)
Definition good_batch names (b : @batch_dict A) : Prop :=
  uniform_batch names b ∧ 1 ≤ batch_len b.

Lemma dataset_length fs names (f name : string) :
  well_formed fs names f → name ∈ names →
  length (dataset fs f name) = rows fs names f.
Proof.
  intros (hf & Hhf & Hkeys) Hname. destruct (Hkeys name Hname) as (v & Hv & Hl).
  unfold dataset. rewrite Hhf. cbn. by rewrite Hv.
Qed.

(** A round without a cap: the batches of the round make up the file of
    the round under every key. *)
Lemma round_all fs cfg st (files : list string) (f : string) :
  loop cfg = false → 0 < batch_size cfg → names cfg ≠ [] → cap st = None →
  objects st !! data_files st = Some files →
  Forall (well_formed fs (names cfg)) files →
  round_files shuffle_files cfg st files !! file_idx st = Some f →
  ∃ bs st1,
    round shuffle_files shuffle_idx fs cfg st
    = (Yield <$> bs,
       if bool_decide (S (file_idx st) = length files) then Stop else Continue,
       st1)
    ∧ Forall (good_batch (names cfg)) bs
    ∧ (∀ name, name ∈ names cfg →
         concat (value name <$> bs) ≡ₚ dataset fs f name
         ∧ (shuffle cfg = false →
            concat (value name <$> bs) = dataset fs f name))
    ∧ objects st1 !! data_files st1
      = Some (round_files shuffle_files cfg st files)
    ∧ cap st1 = None ∧ file_idx st1 = S (file_idx st).
Proof.
  intros Hloop Hbs Hnames Hcap Hfiles Hall Hf.
  pose proof (round_files_perm shuffle_files shuffle_files_perm cfg st files)
    as Hrf.
  assert (Hwf : well_formed fs (names cfg) f).
  { rewrite Forall_forall in Hall. apply Hall. rewrite <-Hrf.
    by apply list_elem_of_lookup_2 in Hf. }
  destruct (load_file_exact shuffle_files shuffle_idx shuffle_idx_perm
              fs cfg st files f Hfiles Hf Hwf Hnames)
    as (d & st0 & Hload & Hhead & Hfull & Hobj & Hdf & Hcap0 & Hseen0 & Hidx0).
  assert (Hdr : current_files st0 = round_files shuffle_files cfg st files).
  { unfold current_files, deref. by rewrite Hobj. }
  destruct (load_file_content fs cfg st d (Z.of_nat (rows fs (names cfg) f)) st0)
    as (f' & idx & Hf' & _ & _ & Hperm & Hsame & Hget); [|exact Hload|].
  { intros g Hg _. rewrite Forall_forall in Hall. apply Hall.
    unfold current_files, deref in Hg. by rewrite Hfiles in Hg. }
  rewrite Hdr, Hf in Hf'. injection Hf' as <-.
  unfold round. rewrite Hload.
  rewrite (proj2 (Z.eqb_neq (batch_size cfg) 0)) by lia.
  set (n := rows fs (names cfg) f) in *.
  destruct (ceil_div_pos (Z.of_nat n) (batch_size cfg)) as [Hq Hq0]; [lia|done|].
  rewrite Hcap0, Hcap.
  destruct (batch_loop_all (names cfg) d (batch_size cfg)
              (ceil_div (Z.of_nat n) (batch_size cfg)) (Z.of_nat n)
              (Z.to_nat (ceil_div (Z.of_nat n) (batch_size cfg))) 0 (nb_seen st0))
    as [Hcut Hcat]; [done|done|lia|f_equal; lia|].
  destruct (batch_loop _ _ _ _ _ _ _ _) as [bs seen]. cbn [fst] in *.
  cbn [negb andb]. fold (current_files st0).
  rewrite Hdr, Hidx0, (Permutation_length Hrf).
  exists bs, {| objects := objects st0; data_files := data_files st0;
                cap := None; file_idx := S (file_idx st);
                nb_seen := seen; rng := rng st0 |}.
  split.
  { case_bool_decide; [by rewrite Hloop|done]. }
  split.
  { eapply Forall_impl; [exact Hcut|]. intros b (a & e & -> & Hae & He). split.
    - apply (cut_batch_uniform _ _ n); [done|done|lia|done].
    - destruct Hhead as (n0 & rest & v0 & d' & -> & -> & Hv0).
      rewrite batch_len_cut by lia. lia. }
  split; [|done].
  intros name Hname. rewrite (Hcat name _ Hname (Hget name Hname)).
  2:{ rewrite select_length.
      - rewrite Hperm, length_seq. done.
      - rewrite (dataset_length fs (names cfg) f name Hwf Hname).
        rewrite Hperm. apply Forall_forall. intros i Hi%elem_of_seq. lia. }
  change (Z.to_nat (0 * batch_size cfg)) with 0%nat. rewrite drop_0. split.
  - apply select_perm.
    by rewrite (dataset_length fs (names cfg) f name Hwf Hname).
  - intros Hsh. rewrite (Hsame Hsh). unfold n.
    rewrite <-(dataset_length fs (names cfg) f name Hwf Hname).
    apply select_all.
Qed.

(** The datasets of a list of files under a key, one after the other. *)
Definition whole fs (files : list string) (name : string) : list A :=
  concat ((λ f, dataset fs f name) <$> files).

Lemma whole_perm fs (files files' : list string) (name : string) :
  files ≡ₚ files' → whole fs files name ≡ₚ whole fs files' name.
Proof. intros Hp. unfold whole. by rewrite Hp. Qed.

Lemma whole_length fs names (files : list string) (name : string) :
  Forall (well_formed fs names) files → name ∈ names →
  Z.of_nat (length (whole fs files name)) = total fs names files.
Proof.
  intros Hwf Hname. induction Hwf as [|f files Hf _ IH]; [done|].
  unfold whole, total in *. cbn [fmap list_fmap concat foldr].
  rewrite length_app, (dataset_length fs names f name Hf Hname). lia.
Qed.

(** The rounds of a reader without a cap that does not loop: it reads the
    files that are left, every row of them, and comes to its end. *)
Lemma loop_all fs cfg (fuel : nat) st (files : list string) :
  loop cfg = false → 0 < batch_size cfg → names cfg ≠ [] → cap st = None →
  objects st !! data_files st = Some files →
  Forall (well_formed fs (names cfg)) files →
  (file_idx st < length files)%nat →
  (length files - file_idx st ≤ fuel)%nat →
  ∃ bs st',
    reader_loop shuffle_files shuffle_idx fs cfg fuel st
    = (Yield <$> bs, Finished, st')
    ∧ Forall (good_batch (names cfg)) bs
    ∧ ∀ name, name ∈ names cfg →
        concat (value name <$> bs)
        ≡ₚ whole fs (drop (file_idx st) (round_files shuffle_files cfg st files))
             name
        ∧ (shuffle cfg = false →
           concat (value name <$> bs) = whole fs (drop (file_idx st) files) name).
Proof.
  intros Hloop Hbs Hnames. revert st files.
  induction fuel as [|fuel IH]; intros st files Hcap Hfiles Hwf Hidx Hfuel; [lia|].
  pose proof (round_files_perm shuffle_files shuffle_files_perm cfg st files)
    as Hperm.
  pose proof (Permutation_length Hperm) as Hlen.
  destruct (lookup_lt_is_Some_2 (round_files shuffle_files cfg st files)
              (file_idx st)) as [f Hf]; [lia|].
  destruct (round_all fs cfg st files f Hloop Hbs Hnames Hcap Hfiles Hwf Hf)
    as (bs & st1 & Hround & Hgood & Hcat & Hobj1 & Hcap1 & Hidx1).
  assert (Hsame : shuffle cfg = false →
            round_files shuffle_files cfg st files = files).
  { intros Hsh. unfold round_files. by rewrite Hsh. }
  cbn [reader_loop]. rewrite Hround.
  rewrite (drop_S _ _ _ Hf). unfold whole at 1. cbn [fmap list_fmap concat].
  fold (whole fs (drop (S (file_idx st)) (round_files shuffle_files cfg st files))).
  case_bool_decide as Hend.
  - exists bs, st1. split; [done|]. split; [done|]. intros name Hname.
    destruct (Hcat name Hname) as [Hp He].
    rewrite drop_ge by lia. split.
    + unfold whole. cbn. by rewrite app_nil_r.
    + intros Hsh. rewrite (Hsame Hsh) in Hf. rewrite (drop_S _ _ _ Hf).
      rewrite drop_ge by lia. unfold whole. cbn. rewrite app_nil_r. by apply He.
  - assert (Hrf : round_files shuffle_files cfg st1
                    (round_files shuffle_files cfg st files)
                  = round_files shuffle_files cfg st files).
    { unfold round_files at 1. rewrite Hidx1.
      rewrite (bool_decide_false (S _ = 0%nat)) by done. by rewrite andb_false_r. }
    destruct (IH st1 (round_files shuffle_files cfg st files))
      as (bs' & st' & Hl & Hgood' & Hcat'); [done|done|by rewrite Hperm|lia|lia|].
    rewrite Hl. exists (bs ++ bs'), st'. rewrite !fmap_app.
    split; [done|]. split; [by apply Forall_app|]. intros name Hname.
    destruct (Hcat name Hname) as [Hp He].
    destruct (Hcat' name Hname) as [Hp' He'].
    rewrite fmap_app, concat_app. rewrite Hrf, Hidx1 in Hp'.
    rewrite Hidx1 in He'. split.
    + by rewrite Hp, Hp'.
    + intros Hsh. rewrite (He Hsh), (He' Hsh), (Hsame Hsh).
      rewrite (Hsame Hsh) in Hf. by rewrite (drop_S _ _ _ Hf).
Qed.

(** [nb_sample] left out, [None] or zero: no cap. *)
Definition no_cap (nb_sample : option Z) : Prop :=
  nb_sample = None ∨ nb_sample = Some 0.

Lemma reader_init_all fs (arg : files_arg) cfg h :
  no_cap (nb_sample cfg) →
  ∃ st h', reader_init fs arg cfg h = (Ok st, h')
    ∧ objects st !! data_files st = Some (arg_files h arg)
    ∧ cap st = None ∧ file_idx st = 0%nat.
Proof.
  intros Hnb. unfold reader_init.
  destruct (match arg with
            | FilesList r => (r, h)
            | FileStr s => alloc h [s]
            end) as [r0 h0] eqn:H0.
  assert (Hfiles : deref h0 r0 = arg_files h arg).
  { destruct arg as [r|s0]; [by injection H0 as <- <-|].
    injection H0 as <- <-. unfold deref. by rewrite lookup_insert_eq. }
  rewrite Hfiles.
  destruct (alloc h0 (arg_files h arg)) as [r1 h1] eqn:H1.
  apply alloc_fresh in H1 as [Hr1 ->].
  destruct Hnb as [-> | ->]; cbn [Z.eqb]; eexists _, _; (split; [done|]);
    cbn; by rewrite lookup_insert_eq.
Qed.

Lemma collect_all (bs : list (@batch_dict A)) (nb_sample : option Z)
    (data : pydict (list (list A))) (seen : Z) :
  no_cap nb_sample → Forall (λ b, 1 ≤ batch_len b) bs →
  collect bs Finished nb_sample data seen = Some (Ok (foldl add_batch data bs)).
Proof.
  intros Hnb Hbs. revert data seen.
  induction Hbs as [|b bs Hb _ IH]; intros data seen; [done|].
  cbn [collect foldl]. destruct b as [|[k v] b]; [cbn in Hb; lia|].
  destruct Hnb as [-> | ->]; cbn [Z.eqb negb andb]; apply IH.
Qed.

Lemma add_batches_get names (bs : list (@batch_dict A))
    (data : pydict (list (list A))) (name : string) :
  Forall (good_batch names) bs → name ∈ names → bs ≠ [] →
  dict_get (foldl add_batch data bs) name
  = Some (default [] (dict_get data name) ++ (value name <$> bs)).
Proof.
  intros Hbs Hname. revert data.
  induction Hbs as [|b bs [[Hnd Hb] _] Hbs IH]; intros data Hne; [done|].
  cbn [foldl]. destruct (Hb name Hname) as (v & Hv & _).
  assert (Hadd : dict_get (add_batch data b) name
                 = Some (default [] (dict_get data name) ++ [v])).
  { by rewrite add_batch_get, Hv. }
  rewrite fmap_cons. unfold value at 1. rewrite Hv. cbn [default].
  destruct bs as [|b' bs].
  - exact Hadd.
  - rewrite IH by done. rewrite Hadd. cbn [default]. unfold id.
    by rewrite <-app_assoc.
Qed.

(** X19. Reading everything.  [read] without [nb_sample] (or with
    [nb_sample=0]), a positive batch size and a list of files that is not
    empty, each holding as many rows under every name asked for as under
    the first: it returns, under every name, the datasets of the files put
    together, every row once; in the order of the files and of their rows
    when it does not shuffle.  When the files hold no row at all it returns
    the empty dictionary. *)
Theorem read_returns_all_rows fs (arg : files_arg) names (nb_sample : option Z)
    (batch_size : Z) (shuffle : bool) h :
  no_cap nb_sample → 0 < batch_size → names ≠ [] → arg_files h arg ≠ [] →
  Forall (well_formed fs names) (arg_files h arg) →
  ∃ data,
    read shuffle_files shuffle_idx fs arg names nb_sample batch_size shuffle h
    = Some (Ok data)
    ∧ (total fs names (arg_files h arg) = 0 → data = [])
    ∧ (0 < total fs names (arg_files h arg) →
       ∀ name, name ∈ names →
         ∃ v, dict_get data name = Some v
              ∧ v ≡ₚ whole fs (arg_files h arg) name
              ∧ (shuffle = false → v = whole fs (arg_files h arg) name)).
Proof.
  intros Hnb Hbs Hnames Hfiles Hwf. unfold read.
  set (cfg := {| names := names; batch_size := batch_size;
                 nb_sample := nb_sample; shuffle := shuffle; loop := false |}).
  replace (match arg with
           | FilesList r => length (deref h r)
           | FileStr _ => 1%nat
           end) with (length (arg_files h arg)) by by destruct arg.
  unfold reader.
  destruct (reader_init_all fs arg cfg h Hnb) as (st & h' & -> & Hobj & Hcap & Hidx).
  assert (Hlen : (0 < length (arg_files h arg))%nat).
  { destruct (arg_files h arg); [done|cbn; lia]. }
  destruct (loop_all fs cfg (S (length (arg_files h arg))) st (arg_files h arg))
    as (bs & st' & -> & Hgood & Hcat); [done..|lia|lia|].
  rewrite yields_yield. unfold read_from.
  rewrite (collect_all bs nb_sample [] 0 Hnb).
  2:{ eapply Forall_impl; [exact Hgood|]. by intros b [_ ?]. }
  set (data := foldl add_batch [] bs).
  assert (Hres : (match nb_sample with
                  | Some n =>
                      if n =? 0 then stack_dict data
                      else (λ kv, (kv.1, py_slice kv.2 0 n)) <$> stack_dict data
                  | None => stack_dict data
                  end) = stack_dict data).
  { by destruct Hnb as [-> | ->]. }
  rewrite Hres. exists (stack_dict data). split; [done|].
  assert (Hwhole : ∀ name, name ∈ names →
            concat (value name <$> bs) ≡ₚ whole fs (arg_files h arg) name
            ∧ (shuffle = false →
               concat (value name <$> bs) = whole fs (arg_files h arg) name)).
  { intros name Hname. destruct (Hcat name Hname) as [Hp He].
    rewrite Hidx, !drop_0 in *. split; [|exact He].
    rewrite Hp. apply whole_perm.
    apply (round_files_perm shuffle_files shuffle_files_perm). }
  assert (∃ n0, n0 ∈ names) as [n0 Hn0].
  { clear -Hnames. destruct names as [|n0 rest]; [done|]. exists n0. left. }
  pose proof (whole_length fs names (arg_files h arg) n0 Hwf Hn0) as Htot.
  destruct (Hwhole n0 Hn0) as [Hp0 _].
  apply Permutation_length in Hp0. split.
  - intros Hzero. destruct bs as [|b bs]; [done|]. exfalso.
    apply Forall_cons in Hgood as [[[_ Hb] Hb1] _].
    destruct (Hb n0 Hn0) as (v & Hv & Hl).
    rewrite fmap_cons in Hp0. unfold value at 1 in Hp0. rewrite Hv in Hp0.
    cbn [default concat] in Hp0. unfold id in Hp0.
    rewrite length_app in Hp0. lia.
  - intros Hpos name Hname.
    assert (Hne : bs ≠ []).
    { intros ->. cbn in Hp0. lia. }
    exists (concat (value name <$> bs)). split; [|by apply Hwhole].
    unfold stack_dict. rewrite (dict_get_fmap (λ l, concat l)).
    unfold data. by rewrite (add_batches_get names bs [] name Hgood Hname Hne).
Qed.

End contents.

(** *** Runs on the two containers *)

(** A reader without a cap over the keys [x] and [y]. *)
Definition uncapped (batch_size : Z) (shuffle loop : bool) : config :=
  {| names := ["x"; "y"]; batch_size := batch_size; nb_sample := None;
     shuffle := shuffle; loop := loop |}.

(** A caller's list without files. *)
Definition no_files : gmap nat (list string) := {[ 0%nat := [] ]}.

Lemma reader_ends_witness :
  (reader reversing reversing two_files (FilesList 0) (uncapped 2 true true)
     callers_list 7).1.2 ≠ Finished
  ∧ (reader reversing reversing two_files (FilesList 0) (uncapped 2 true false)
       callers_list 2).1.2 ≠ Suspended
  ∧ read reversing reversing two_files (FilesList 0) ["x"; "y"] None 2 true
      callers_list ≠ None.
Proof.
  destruct (reader_ends reversing reversing (@reversing_perm string) two_files
              (FilesList 0) (uncapped 2 true true) callers_list 7)
    as (Hloop & _ & _).
  destruct (reader_ends reversing reversing (@reversing_perm string) two_files
              (FilesList 0) (uncapped 2 true false) callers_list 2)
    as (_ & Hstop & Hread).
  split; [by apply Hloop|]. split; [|exact Hread].
  apply Hstop; [reflexivity|lia|vm_compute; lia].
Defined.

Lemma reader_empty_list_witness :
  (reader reversing reversing two_files (FilesList 0) (uncapped 2 true false)
     no_files 1).1 = ([], Raised IndexError)
  ∧ read reversing reversing two_files (FilesList 0) ["x"; "y"] None 2 true
      no_files = Some (Raise IndexError).
Proof.
  apply (reader_empty_list reversing reversing (@reversing_perm string) two_files
           0 (uncapped 2 true false) no_files 0).
  reflexivity.
Defined.

Lemma reader_needs_positive_batch_size_witness :
  yields (reader keeping keeping two_files (FilesList 0) (uncapped 0 false false)
            callers_list 3).1.1 = []
  ∧ ∃ e, (reader keeping keeping two_files (FilesList 0) (uncapped 0 false false)
            callers_list 3).1.2 = Raised e.
Proof.
  destruct (reader_needs_positive_batch_size keeping keeping two_files
              (FilesList 0) (uncapped 0 false false) callers_list 3)
    as [Hnone Hraise]; [vm_compute; discriminate|].
  split; [exact Hnone|]. apply Hraise; [reflexivity|lia].
Defined.

(** What the generator does there: the division by the batch size raises
    in the first round; with the batch size [-2] it reads both files, yields
    nothing and comes to its end. *)
Example reader_batch_size_runs :
  (reader keeping keeping two_files (FilesList 0) (uncapped 0 false false)
     callers_list 3).1 = ([], Raised ZeroDivisionError)
  ∧ (reader keeping keeping two_files (FilesList 0) (uncapped (-2) false false)
       callers_list 3).1 = ([], Finished).
Proof. vm_compute. split; reflexivity. Qed.

Lemma callers_files_well_formed :
  well_formed_files two_files ["x"; "y"] ["a.h5"; "b.h5"].
Proof.
  intros f Hf _. pose proof two_files_well_formed as Hwf.
  rewrite Forall_forall in Hwf. by apply Hwf.
Qed.

Lemma reader_batches_aligned_witness :
  ∃ f idx, f ∈ ["a.h5"; "b.h5"]
           ∧ rows_of two_files ["x"; "y"] f idx [("x", [6; 5]); ("y", [16; 15])].
Proof.
  apply (reader_batches_aligned reversing reversing (@reversing_perm string)
           (@reversing_perm nat) two_files (FilesList 0) (capped true false)
           callers_list 3 [("x", [6; 5]); ("y", [16; 15])]).
  - exact callers_files_well_formed.
  - assert (Hrun : yields (reader reversing reversing two_files (FilesList 0)
                             (capped true false) callers_list 3).1.1
                   = [[("x", [6; 5]); ("y", [16; 15])]; [("x", [4]); ("y", [14])]]).
    { vm_compute. reflexivity. }
    rewrite Hrun. left.
Defined.

Lemma reader_batch_sizes_witness :
  1 ≤ batch_len [("x", [6; 5]); ("y", [16; 15])] ≤ 2.
Proof.
  apply (reader_batch_sizes reversing reversing (@reversing_perm nat) two_files
           (FilesList 0) (capped true false) callers_list 3
           [("x", [6; 5]); ("y", [16; 15])]).
  - reflexivity.
  - intros n [= <-]. lia.
  - assert (Hrun : yields (reader reversing reversing two_files (FilesList 0)
                             (capped true false) callers_list 3).1.1
                   = [[("x", [6; 5]); ("y", [16; 15])]; [("x", [4]); ("y", [14])]]).
    { vm_compute. reflexivity. }
    rewrite Hrun. left.
Defined.

Lemma read_returns_all_rows_witness :
  ∃ data,
    read reversing reversing two_files (FilesList 0) ["x"; "y"] None 2 true
      callers_list = Some (Ok data)
    ∧ (total two_files ["x"; "y"] ["a.h5"; "b.h5"] = 0 → data = [])
    ∧ (0 < total two_files ["x"; "y"] ["a.h5"; "b.h5"] →
       ∀ name, name ∈ ["x"; "y"] →
         ∃ v, dict_get data name = Some v
              ∧ v ≡ₚ whole two_files ["a.h5"; "b.h5"] name
              ∧ (true = false → v = whole two_files ["a.h5"; "b.h5"] name)).
Proof.
  apply (read_returns_all_rows reversing reversing (@reversing_perm string)
           (@reversing_perm nat) two_files (FilesList 0) ["x"; "y"] None 2 true
           callers_list).
  - by left.
  - reflexivity.
  - discriminate.
  - vm_compute. discriminate.
  - exact two_files_well_formed.
Defined.

(** The two reads of the two containers, shuffled by reversing and in
    order. *)
Example read_all_rows_runs :
  read reversing reversing two_files (FilesList 0) ["x"; "y"] None 2 true
    callers_list
  = Some (Ok [("x", [6; 5; 4; 3; 2; 1]); ("y", [16; 15; 14; 13; 12; 11])])
  ∧ read keeping keeping two_files (FilesList 0) ["x"; "y"] (Some 0) 4 false
      callers_list
    = Some (Ok [("x", [1; 2; 3; 4; 5; 6]); ("y", [11; 12; 13; 14; 15; 16])]).
Proof. vm_compute. split; reflexivity. Qed.

End ReaderRuns.
